(** * Benders decomposition for multi-item capacitated lot sizing

    A shallow embedding of [bendersDual.py]: the instance data and its
    derived quantities, the subproblem LP ([WorkerLPPrimal]), the
    reformulated MIP ([MIPReformulation]), the in-out cut loop
    ([newIOCycle]), the iterative driver ([bendersDual]) and the readers
    of the instance files.

    Conventions.
    - Python floats are read as exact rationals ([Q]); [==] is equality of
      rationals, [=] is syntactic equality of the value the code computes.
    - An [IndexError], a [ZeroDivisionError] or a CPLEX "name not found"
      error is [None] in the error monad [option].
    - CPLEX is an external collaborator: its [solve] is an arbitrary
      function from the problem object to a solution record.
    - Variable and constraint names, which the code builds as strings
      ("z.j.t.r", "capacity.t", ...), are values of the inductive types
      [VarName] and [ConstrName].
    - [print] and [input] calls, solver parameters and the files that the
      drivers write are not modelled.
    - [BendersLazyConsCallback.__call__] is not embedded: the statement
      that reads the incumbent y (line 144) has an unbalanced parenthesis
      and is not valid Python as it stands. *)

From Stdlib Require Import List ZArith QArith Qminmax Lia Lqa Bool Arith.
Import ListNotations.

Close Scope Q_scope.

(** ** Error monad *)

Definition bind {A B : Type} (m : option A) (f : A -> option B) : option B :=
  match m with
  | Some a => f a
  | None => None
  end.

Notation "x <- m ;; k" := (bind m (fun x => k))
  (at level 61, m at next level, right associativity).
Notation "' p <- m ;; k" := (bind m (fun p => k))
  (at level 61, p pattern, m at next level, right associativity).

(** [for i in l: s = body(i, s)], where the body may raise. *)
Fixpoint forM {S : Type} (l : list nat) (body : nat -> S -> option S) (s : S)
  : option S :=
  match l with
  | [] => Some s
  | i :: l' => s' <- body i s ;; forM l' body s'
  end.

(** [[f(i) for i in l]], where [f] may raise. *)
Fixpoint mapM {A : Type} (f : nat -> option A) (l : list nat) : option (list A) :=
  match l with
  | [] => Some []
  | i :: l' => x <- f i ;; xs <- mapM f l' ;; Some (x :: xs)
  end.

(** Python's [range(a, b)]. *)
Definition range (a b : nat) : list nat := seq a (b - a).

(** ** Lists and matrices *)

(** [l[i]] for an index that is known to be non-negative. *)
Definition get {A : Type} (l : list A) (i : nat) : option A := nth_error l i.

(** [l[i]] for an integer index: a negative index counts from the end. *)
Definition py_get {A : Type} (l : list A) (i : Z) : option A :=
  if (0 <=? i)%Z then nth_error l (Z.to_nat i)
  else if (- Z.of_nat (length l) <=? i)%Z
       then nth_error l (Z.to_nat (Z.of_nat (length l) + i))
       else None.

Definition get2 {A : Type} (M : list (list A)) (j t : nat) : option A :=
  row <- get M j ;; get row t.

(** Total accessors, used to write the formulas of the specification. *)
Definition at1 (l : list Q) (t : nat) : Q := nth t l 0%Q.
Definition at2 (M : list (list Q)) (j t : nat) : Q := nth t (nth j M []) 0%Q.

Definition shape {A : Type} (n p : nat) (M : list (list A)) : Prop :=
  length M = n /\ Forall (fun row => length row = p) M.

(** Python's [sum]: a left fold from 0. *)
Definition Qsum (l : list Q) : Q := fold_left Qplus l 0%Q.

(** [sum(f(i) for i in range(a, b))] as the specification writes it. *)
Definition Qsum_range (a b : nat) (f : nat -> Q) : Q := Qsum (map f (range a b)).

(** Float division: division by zero raises. *)
Definition qdiv (x y : Q) : option Q :=
  if Qeq_bool y 0 then None else Some (x / y)%Q.

(** [x > y] and [x < y] on floats. *)
Definition Qgtb (x y : Q) : bool := negb (Qle_bool x y).
Definition Qltb (x y : Q) : bool := negb (Qle_bool y x).

(** ** Module constants *)

(** [sys.float_info.max] and [sys.float_info.epsilon] of IEEE doubles. *)
Definition _INFTY : Q := inject_Z (2 ^ 1024 - 2 ^ 971).
Definition _EPSI : Q := 1 # (2 ^ 52).

(** ** Instance data *)

Record Instance : Type := mkInstance {
  nI : nat;
  nP : nat;
  d : list (list Q);
  c : list (list Q);
  f : list (list Q);
  h : list (list Q);
  a : list (list Q);
  m : list (list Q);
  cap : list Q;
  dcum : list (list Q);
  max_prod : list (list Q)
}.

(** The loop that accumulates the demand of item [j] from the last period
    backwards, [aux[progr] + d[j][t]] for [t = nP-2 .. 0], and reverses. *)
Definition cum_step (dj : list Q) (t : nat) (st : list Q * nat)
  : option (list Q * nat) :=
  let '(aux, progr) := st in
  x <- get aux progr ;;
  y <- get dj t ;;
  Some (aux ++ [(x + y)%Q], S progr).

Definition cum_demand_row (inp : Instance) (j : nat) : option (list Q) :=
  dj <- get (d inp) j ;;
  last <- py_get dj (Z.of_nat (nP inp) - 1) ;;
  '(aux, _) <- forM (rev (seq 0 (nP inp - 1))) (cum_step dj) ([last], 0%nat) ;;
  Some (rev aux).

Definition cum_demand (inp : Instance) : option (list (list Q)) :=
  mapM (cum_demand_row inp) (range 0 (nI inp)).

Definition max_prod_row (inp : Instance) (dc : list (list Q)) (j : nat)
  : option (list Q) :=
  aa <- mapM (fun t =>
          ct <- get (cap inp) t ;;
          mjt <- get2 (m inp) j t ;;
          ajt <- get2 (a inp) j t ;;
          qdiv (ct - mjt) ajt) (range 0 (nP inp)) ;;
  mapM (fun t =>
          x <- get aa t ;;
          y <- get2 dc j t ;;
          Some (Qmin x y)) (range 0 (nP inp)).

(** [Instance.__init__] after the file has been read into [raw]. The reader
    of small instances has already appended one row of cumulative demand per
    item to [dcum]; the reader of large instances leaves [dcum] empty. The
    constructor then appends its own rows and fills [max_prod]. *)
Definition Instance_init (largeInstances : bool) (raw : Instance)
  : option Instance :=
  read_dcum <- (if largeInstances then Some [] else cum_demand raw) ;;
  rows <- cum_demand raw ;;
  let dc := read_dcum ++ rows in
  mp <- mapM (max_prod_row raw dc) (range 0 (nI raw)) ;;
  Some (mkInstance (nI raw) (nP raw) (d raw) (c raw) (f raw) (h raw) (a raw)
          (m raw) (cap raw) dc mp).

(** The shapes that the two readers give to the data. *)
Record wf_instance (inp : Instance) : Prop := {
  wf_d : shape (nI inp) (nP inp) (d inp);
  wf_f : shape (nI inp) (nP inp) (f inp);
  wf_h : shape (nI inp) (nP inp) (h inp);
  wf_a : shape (nI inp) (nP inp) (a inp);
  wf_m : shape (nI inp) (nP inp) (m inp);
  wf_cap : length (cap inp) = nP inp
}.

(** ** The CPLEX problem object *)

(** "y.j.t", "z.j.t.r" and "zHat". *)
Inductive VarName : Type :=
| VY (j t : nat)
| VZ (j t r : nat)
| VZHat.

(** "capacity.t", "demand.j.r", "logic.j.t.r", "inout.n" and "cut.n". *)
Inductive ConstrName : Type :=
| Capacity (t : nat)
| Demand (j r : nat)
| Logic (j t r : nat)
| InOut (n : nat)
| Cut (n : nat).

Definition ConstrName_eq_dec (x y : ConstrName) : {x = y} + {x <> y}.
Proof. decide equality; apply Nat.eq_dec. Defined.

Inductive Sense : Type := sense_L | sense_E | sense_G.
Inductive VarType : Type := Continuous | Binary.
Inductive ProblemType : Type := LP | MILP.

(** [v_ub = None] is [cplex.infinity]; [v_type = None] is a variable added
    without a [types] argument. *)
Record Var : Type := mkVar {
  v_name : VarName;
  v_obj : Q;
  v_lb : Q;
  v_ub : option Q;
  v_type : option VarType
}.

Record SparsePair : Type := mkSparsePair {
  ind : list nat;
  val : list Q
}.

Record Constr : Type := mkConstr {
  c_name : option ConstrName;
  lin_expr : SparsePair;
  sense : Sense;
  rhs : Q
}.

Record Cplex : Type := mkCplex {
  variables : list Var;
  linear_constraints : list Constr;
  problem_type : ProblemType
}.

(** [cplex.Cplex()]. *)
Definition Cplex_new : Cplex := mkCplex [] [] LP.

Definition variables_get_num (cpx : Cplex) : nat := length (variables cpx).

(** [cpx.variables.add]: a [types] argument makes the problem a MILP. *)
Definition variables_add (cpx : Cplex) (v : Var) : Cplex :=
  mkCplex (variables cpx ++ [v]) (linear_constraints cpx)
    (match v_type v with Some _ => MILP | None => problem_type cpx end).

Definition linear_constraints_get_num (cpx : Cplex) : nat :=
  length (linear_constraints cpx).

Definition linear_constraints_add (cpx : Cplex) (k : Constr) : Cplex :=
  mkCplex (variables cpx) (linear_constraints cpx ++ [k]) (problem_type cpx).

Definition has_name (n : ConstrName) (k : Constr) : bool :=
  match c_name k with
  | Some n' => if ConstrName_eq_dec n n' then true else false
  | None => false
  end.

Definition with_rhs (v : Q) (k : Constr) : Constr :=
  mkConstr (c_name k) (lin_expr k) (sense k) v.

(** [cpx.linear_constraints.set_rhs(name, v)]: an unknown name raises. *)
Definition linear_constraints_set_rhs (cpx : Cplex) (n : ConstrName) (v : Q)
  : option Cplex :=
  if existsb (has_name n) (linear_constraints cpx)
  then Some (mkCplex (variables cpx)
               (map (fun k => if has_name n k then with_rhs v k else k)
                  (linear_constraints cpx))
               (problem_type cpx))
  else None.

(** [cpx.linear_constraints.get_rhs(name)]. *)
Definition linear_constraints_get_rhs (cpx : Cplex) (n : ConstrName) : option Q :=
  option_map rhs (find (has_name n) (linear_constraints cpx)).

(** [cpx.set_problem_type]: going to LP discards the variable types, going
    to MILP makes every untyped variable continuous. *)
Definition set_problem_type (cpx : Cplex) (ty : ProblemType) : Cplex :=
  mkCplex
    (map (fun v => mkVar (v_name v) (v_obj v) (v_lb v) (v_ub v)
                     (match ty with
                      | LP => None
                      | MILP => match v_type v with
                                | Some k => Some k
                                | None => Some Continuous
                                end
                      end))
       (variables cpx))
    (linear_constraints cpx) ty.

(** [cpx.variables.set_types(i, ty)]: an index out of range raises. *)
Fixpoint set_nth_type (vs : list Var) (i : nat) (ty : VarType) : option (list Var) :=
  match vs, i with
  | [], _ => None
  | v :: vs', O => Some (mkVar (v_name v) (v_obj v) (v_lb v) (v_ub v) (Some ty) :: vs')
  | v :: vs', S i' => vs'' <- set_nth_type vs' i' ty ;; Some (v :: vs'')
  end.

Definition variables_set_types (cpx : Cplex) (i : nat) (ty : VarType) : option Cplex :=
  vs <- set_nth_type (variables cpx) i ty ;;
  Some (mkCplex vs (linear_constraints cpx) (problem_type cpx)).

(** ** Solutions *)

Inductive Status : Type :=
| optimal
| infeasible
| other_status (code : nat).

(** What [cpx.solution] offers after [cpx.solve()]: the status, the
    objective value, the primal value of a column, the dual value of a named
    row, and the Farkas vector with one entry per row. *)
Record Solution : Type := mkSolution {
  get_status : Status;
  get_objective_value : Q;
  get_values : nat -> Q;
  get_dual_values : ConstrName -> Q;
  dual_farkas : list Q
}.

Definition Solver : Type := Cplex -> Solution.

(** ** Half-triangular indexing *)

(** [T[j][t][r-t]], with Python's reading of a negative [r-t]. *)
Definition tri_get {A : Type} (T : list (list (list A))) (j t r : nat) : option A :=
  Tj <- get T j ;;
  Tjt <- get Tj t ;;
  py_get Tjt (Z.of_nat r - Z.of_nat t).

(** ** WorkerLPPrimal *)

Record WorkerLPPrimal : Type := mkWorker {
  w_cpx : Cplex;
  w_z_ilo : list (list (list nat));
  lCapacity : list ConstrName;
  lDemand : list (list ConstrName);
  lLogic : list (list (list ConstrName));
  cutLhs : option SparsePair;
  cutRhs : option Q
}.

(** One production variable z.j.t.r with cost [(r-t)*h[j][t]], lower bound 0
    and no upper bound; its column number goes to the end of [z_ilo[j][t]]. *)
Definition add_z_var (inp : Instance) (j t r : nat) (st : Cplex * list nat)
  : option (Cplex * list nat) :=
  let '(cpx, zjt) := st in
  hjt <- get2 (h inp) j t ;;
  Some (variables_add cpx
          (mkVar (VZ j t r) (inject_Z (Z.of_nat r - Z.of_nat t) * hjt) 0 None None),
        zjt ++ [variables_get_num cpx]).

(** The source appends an empty list to [z_ilo[j]] and fills it in place;
    here the list is filled first and appended then, and likewise one level
    up. *)
Definition add_z_vars_t (inp : Instance) (j t : nat)
  (st : Cplex * list (list nat)) : option (Cplex * list (list nat)) :=
  let '(cpx, zj) := st in
  '(cpx', zjt) <- forM (range t (nP inp)) (add_z_var inp j t) (cpx, []) ;;
  Some (cpx', zj ++ [zjt]).

Definition add_z_vars_j (inp : Instance) (j : nat)
  (st : Cplex * list (list (list nat))) : option (Cplex * list (list (list nat))) :=
  let '(cpx, z_ilo) := st in
  '(cpx', zj) <- forM (range 0 (nP inp)) (add_z_vars_t inp j) (cpx, []) ;;
  Some (cpx', z_ilo ++ [zj]).

(** The loop "create variables z_jtr", shared by both formulations. *)
Definition add_z_vars (inp : Instance) (cpx : Cplex)
  : option (Cplex * list (list (list nat))) :=
  forM (range 0 (nI inp)) (add_z_vars_j inp) (cpx, []).

(** The rows "capacity.t", "demand.j.r" and "logic.j.t.r". *)
Definition worker_capacity_terms (inp : Instance) (z_ilo : list (list (list nat)))
  (t j : nat) (st : list nat * list Q) : option (list nat * list Q) :=
  let '(index, value) := st in
  zs <- mapM (fun r => tri_get z_ilo j t r) (range t (nP inp)) ;;
  ajt <- get2 (a inp) j t ;;
  Some (index ++ zs, value ++ repeat ajt (nP inp - t)).

Definition worker_add_capacity (inp : Instance) (z_ilo : list (list (list nat)))
  (t : nat) (cpx : Cplex) : option Cplex :=
  '(index, value) <- forM (range 0 (nI inp)) (worker_capacity_terms inp z_ilo t) ([], []) ;;
  Some (linear_constraints_add cpx
          (mkConstr (Some (Capacity t)) (mkSparsePair index value) sense_L 0)).

Definition worker_add_demand (inp : Instance) (z_ilo : list (list (list nat)))
  (j r : nat) (cpx : Cplex) : option Cplex :=
  index <- mapM (fun t => tri_get z_ilo j t r) (range 0 (r + 1)) ;;
  djr <- get2 (d inp) j r ;;
  Some (linear_constraints_add cpx
          (mkConstr (Some (Demand j r)) (mkSparsePair index (repeat 1%Q (r + 1)))
             sense_E djr)).

Definition worker_add_logic (inp : Instance) (z_ilo : list (list (list nat)))
  (j t r : nat) (cpx : Cplex) : option Cplex :=
  i <- tri_get z_ilo j t r ;;
  Some (linear_constraints_add cpx
          (mkConstr (Some (Logic j t r)) (mkSparsePair [i] [1%Q]) sense_L 0)).

(** [WorkerLPPrimal.__init__]. *)
Definition WorkerLPPrimal_init (inp : Instance) : option WorkerLPPrimal :=
  '(cpx, z_ilo) <- add_z_vars inp Cplex_new ;;
  cpx <- forM (range 0 (nP inp)) (worker_add_capacity inp z_ilo) cpx ;;
  cpx <- forM (range 0 (nI inp))
           (fun j => forM (range 0 (nP inp)) (worker_add_demand inp z_ilo j)) cpx ;;
  cpx <- forM (range 0 (nI inp))
           (fun j => forM (range 0 (nP inp))
              (fun t => forM (range t (nP inp)) (worker_add_logic inp z_ilo j t))) cpx ;;
  Some (mkWorker cpx z_ilo
          (map Capacity (range 0 (nP inp)))
          (map (fun j => map (Demand j) (range 0 (nP inp))) (range 0 (nI inp)))
          (map (fun j => map (fun t => map (Logic j t) (range t (nP inp)))
                           (range 0 (nP inp))) (range 0 (nI inp)))
          None None).

(** *** solveSubPrimal *)

(** "update rhs values : capacity constraints", one period. *)
Definition update_capacity_rhs (inp : Instance) (ySol : list (list Q)) (t : nat)
  (cpx : Cplex) : option Cplex :=
  terms <- mapM (fun j =>
             mjt <- get2 (m inp) j t ;;
             yjt <- get2 ySol j t ;;
             Some (mjt * yjt)%Q) (range 0 (nI inp)) ;;
  ct <- get (cap inp) t ;;
  linear_constraints_set_rhs cpx (Capacity t) (ct - Qsum terms)%Q.

(** "update rhs values : logic constraints", one row. *)
Definition update_logic_rhs (inp : Instance) (ySol : list (list Q)) (j t r : nat)
  (cpx : Cplex) : option Cplex :=
  djr <- get2 (d inp) j r ;;
  yjt <- get2 ySol j t ;;
  linear_constraints_set_rhs cpx (Logic j t r) (djr * yjt)%Q.

Definition update_rhs (inp : Instance) (ySol : list (list Q)) (cpx : Cplex)
  : option Cplex :=
  cpx <- forM (range 0 (nP inp)) (update_capacity_rhs inp ySol) cpx ;;
  forM (range 0 (nI inp))
    (fun j => forM (range 0 (nP inp))
       (fun t => forM (range t (nP inp)) (update_logic_rhs inp ySol j t))) cpx.

(** The three multiplier tables read off a Farkas vector: the first [nP]
    entries, then [nI] blocks of [nP] entries, then the half-triangular
    table filled entry by entry with the running counter [pp]. *)
Definition farkas_lambda (inp : Instance) (farkas : list Q) : option (list Q) :=
  mapM (fun t => get farkas t) (range 0 (nP inp)).

Definition farkas_omega (inp : Instance) (farkas : list Q) : option (list (list Q)) :=
  let progr := nP inp in
  mapM (fun j => mapM (fun k => get farkas k)
                   (range (progr + j * nP inp) (progr + (j + 1) * nP inp)))
    (range 0 (nI inp)).

Definition eps_r (fLogic : list Q) (r : nat) (st : list Q * nat)
  : option (list Q * nat) :=
  let '(aux, pp) := st in
  x <- get fLogic pp ;;
  Some (aux ++ [x], S pp).

Definition eps_t (inp : Instance) (fLogic : list Q) (t : nat)
  (st : list (list Q) * nat) : option (list (list Q) * nat) :=
  let '(aux2D, pp) := st in
  '(aux, pp') <- forM (range t (nP inp)) (eps_r fLogic) ([], pp) ;;
  Some (aux2D ++ [aux], pp').

Definition eps_j (inp : Instance) (fLogic : list Q) (j : nat)
  (st : list (list (list Q)) * nat) : option (list (list (list Q)) * nat) :=
  let '(epsilon_sol, pp) := st in
  '(aux2D, pp') <- forM (range 0 (nP inp)) (eps_t inp fLogic) ([], pp) ;;
  Some (epsilon_sol ++ [aux2D], pp').

Definition farkas_epsilon (inp : Instance) (farkas : list Q)
  : option (list (list (list Q))) :=
  let progr := (nP inp + nP inp * nI inp)%nat in
  let nr := (nI inp * (nP inp * (nP inp + 1)) / 2)%nat in
  fLogic <- mapM (fun i => get farkas i) (range progr (progr + nr)) ;;
  '(epsilon_sol, _) <- forM (range 0 (nI inp)) (eps_j inp fLogic) ([], 0%nat) ;;
  Some epsilon_sol.

(** The running state of the two cut loops: [cutVars], [cutVals], [cutRhs]. *)
Definition CutAcc : Type := (list nat * list Q * Q)%type.

(** [sum([epsilon_sol[j][t][r-t]*d[j][r] for r in range(t, nP)])]. *)
Definition eps_d_sum (inp : Instance) (epsilon_sol : list (list (list Q)))
  (j t : nat) : option Q :=
  terms <- mapM (fun r =>
             e <- tri_get epsilon_sol j t r ;;
             djr <- get2 (d inp) j r ;;
             Some (e * djr)%Q) (range t (nP inp)) ;;
  Some (Qsum terms).

(** Body of the feasibility cut loop. *)
Definition feas_cut_jt (inp : Instance) (lambda_sol : list Q)
  (omega_sol : list (list Q)) (epsilon_sol : list (list (list Q)))
  (y_ilo : list (list nat)) (j t : nat) (acc : CutAcc) : option CutAcc :=
  let '(cutVars, cutVals, cutRhs) := acc in
  mjt <- get2 (m inp) j t ;;
  lt <- get lambda_sol t ;;
  s <- eps_d_sum inp epsilon_sol j t ;;
  let coeff := (- mjt * lt + s)%Q in
  djt <- get2 (d inp) j t ;;
  ojt <- get2 omega_sol j t ;;
  let cutRhs := (cutRhs - djt * ojt)%Q in
  yjt <- get2 y_ilo j t ;;
  Some (cutVars ++ [yjt], cutVals ++ [coeff], cutRhs).

(** [sum([-epsilon_sol[j][t][r-t]*d[j][r] for r in range(t, nP)])]. *)
Definition neg_eps_d_sum (inp : Instance) (epsilon_sol : list (list (list Q)))
  (j t : nat) : option Q :=
  terms <- mapM (fun r =>
             e <- tri_get epsilon_sol j t r ;;
             djr <- get2 (d inp) j r ;;
             Some (- e * djr)%Q) (range t (nP inp)) ;;
  Some (Qsum terms).

(** Body of the optimality cut loop. *)
Definition opt_cut_jt (inp : Instance) (ySol : list (list Q)) (lambda_sol : list Q)
  (epsilon_sol : list (list (list Q))) (y_ilo : list (list nat)) (j t : nat)
  (acc : CutAcc) : option CutAcc :=
  let '(cutVars, cutVals, cutRhs) := acc in
  mjt <- get2 (m inp) j t ;;
  lt <- get lambda_sol t ;;
  s <- neg_eps_d_sum inp epsilon_sol j t ;;
  let coeff := (mjt * lt - s)%Q in
  yjt <- get2 y_ilo j t ;;
  ysjt <- get2 ySol j t ;;
  Some (cutVars ++ [yjt], cutVals ++ [coeff], (cutRhs + coeff * ysjt)%Q).

(** The branch taken when the LP is infeasible. *)
Definition feasibility_cut (inp : Instance) (farkas : list Q)
  (y_ilo : list (list nat)) : option CutAcc :=
  lambda_sol <- farkas_lambda inp farkas ;;
  omega_sol <- farkas_omega inp farkas ;;
  epsilon_sol <- farkas_epsilon inp farkas ;;
  '(cutVars, cutVals, cutRhs) <-
     forM (range 0 (nI inp))
       (fun j => forM (range 0 (nP inp))
          (feas_cut_jt inp lambda_sol omega_sol epsilon_sol y_ilo j))
       ([], [], 0%Q) ;;
  capl <- mapM (fun t =>
            ct <- get (cap inp) t ;;
            lt <- get lambda_sol t ;;
            Some (ct * lt)%Q) (range 0 (nP inp)) ;;
  Some (cutVars, cutVals, (cutRhs - Qsum capl)%Q).

(** The branch taken when the LP is optimal. *)
Definition optimality_cut (inp : Instance) (w : WorkerLPPrimal) (sol : Solution)
  (ySol : list (list Q)) (y_ilo : list (list nat)) (z_ilo_master : nat)
  : option CutAcc :=
  let zSub := get_objective_value sol in
  let lambda_sol := map (get_dual_values sol) (lCapacity w) in
  omega_sol <- mapM (fun j =>
                 names <- get (lDemand w) j ;;
                 Some (map (get_dual_values sol) names)) (range 0 (nI inp)) ;;
  epsilon_sol <- mapM (fun j =>
                   mapM (fun t =>
                     names <- get2 (lLogic w) j t ;;
                     Some (map (get_dual_values sol) names)) (range 0 (nP inp)))
                   (range 0 (nI inp)) ;;
  '(cutVars, cutVals, cutRhs) <-
     forM (range 0 (nI inp))
       (fun j => forM (range 0 (nP inp))
          (opt_cut_jt inp ySol lambda_sol epsilon_sol y_ilo j))
       ([], [], (- zSub)%Q) ;;
  Some (cutVars ++ [z_ilo_master], cutVals ++ [(- 1)%Q], cutRhs).

Section Solving.

Variable solve : Solver.

(** [WorkerLPPrimal.solveSubPrimal]: returns the worker with its updated LP
    and its new [cutLhs], [cutRhs], and the pair [(cutType, zSub)]. *)
Definition solveSubPrimal (w : WorkerLPPrimal) (inp : Instance)
  (ySol : list (list Q)) (zHat : Q) (y_ilo : list (list nat)) (z_ilo_master : nat)
  : option (WorkerLPPrimal * (nat * Q)) :=
  cpx <- update_rhs inp ySol (w_cpx w) ;;
  let sol := solve cpx in
  '(cutType, zSub, (cutVars, cutVals, cutRhs)) <-
     match get_status sol with
     | infeasible =>
         acc <- feasibility_cut inp (dual_farkas sol) y_ilo ;;
         Some (1%nat, (- 1)%Q, acc)
     | optimal =>
         acc <- optimality_cut inp w sol ySol y_ilo z_ilo_master ;;
         Some (2%nat, get_objective_value sol, acc)
     | other_status _ => Some (0%nat, (- 1)%Q, ([], [], 0%Q))
     end ;;
  Some (mkWorker cpx (w_z_ilo w) (lCapacity w) (lDemand w) (lLogic w)
          (Some (mkSparsePair cutVars cutVals)) (Some cutRhs),
        (cutType, zSub)).

End Solving.

(** ** MIPReformulation and the master problem *)

(** One setup variable y.j.t: binary, in [0,1], with cost [f[j][t]]. *)
Definition add_y_var (inp : Instance) (j t : nat) (st : Cplex * list nat)
  : option (Cplex * list nat) :=
  let '(cpx, yj) := st in
  fjt <- get2 (f inp) j t ;;
  Some (variables_add cpx (mkVar (VY j t) fjt 0 (Some 1%Q) (Some Binary)),
        yj ++ [variables_get_num cpx]).

Definition add_y_vars_j (inp : Instance) (j : nat)
  (st : Cplex * list (list nat)) : option (Cplex * list (list nat)) :=
  let '(cpx, y_ilo) := st in
  '(cpx', yj) <- forM (range 0 (nP inp)) (add_y_var inp j) (cpx, []) ;;
  Some (cpx', y_ilo ++ [yj]).

(** The loop "create variables y_jt", shared by [MIPReformulation] and
    [createMaster]. *)
Definition add_y_vars (inp : Instance) (cpx : Cplex)
  : option (Cplex * list (list nat)) :=
  forM (range 0 (nI inp)) (add_y_vars_j inp) (cpx, []).

Record MIPReformulation : Type := mkMIP {
  mip_cpx : Cplex;
  mip_y_ilo : list (list nat);
  mip_z_ilo : list (list (list nat))
}.

Definition mip_add_demand (inp : Instance) (z_ilo : list (list (list nat)))
  (j r : nat) (cpx : Cplex) : option Cplex :=
  index <- mapM (fun t => tri_get z_ilo j t r) (range 0 (r + 1)) ;;
  djr <- get2 (d inp) j r ;;
  Some (linear_constraints_add cpx
          (mkConstr None (mkSparsePair index (repeat 1%Q (r + 1))) sense_G djr)).

Definition mip_capacity_terms (inp : Instance) (y_ilo : list (list nat))
  (z_ilo : list (list (list nat))) (t j : nat) (st : list nat * list Q)
  : option (list nat * list Q) :=
  let '(index, value) := st in
  zs <- mapM (fun r => tri_get z_ilo j t r) (range t (nP inp)) ;;
  ajt <- get2 (a inp) j t ;;
  yjt <- get2 y_ilo j t ;;
  mjt <- get2 (m inp) j t ;;
  Some ((index ++ zs) ++ [yjt], (value ++ repeat ajt (nP inp - t)) ++ [mjt]).

Definition mip_add_capacity (inp : Instance) (y_ilo : list (list nat))
  (z_ilo : list (list (list nat))) (t : nat) (cpx : Cplex) : option Cplex :=
  '(index, value) <- forM (range 0 (nI inp)) (mip_capacity_terms inp y_ilo z_ilo t) ([], []) ;;
  ct <- get (cap inp) t ;;
  Some (linear_constraints_add cpx
          (mkConstr None (mkSparsePair index value) sense_L ct)).

Definition mip_add_logic (inp : Instance) (y_ilo : list (list nat))
  (z_ilo : list (list (list nat))) (j t r : nat) (cpx : Cplex) : option Cplex :=
  i <- tri_get z_ilo j t r ;;
  yjt <- get2 y_ilo j t ;;
  djr <- get2 (d inp) j r ;;
  Some (linear_constraints_add cpx
          (mkConstr None (mkSparsePair [i; yjt] [1%Q; (- djr)%Q]) sense_L 0)).

(** [MIPReformulation.__init__]: the columns and the rows that it creates.
    The calls that set the Benders strategy, write the annotation file and
    annotate the columns (lines 669-672 and 686) are not modelled: they
    create no column and no row. Where CPLEX refuses one of them the
    constructor raises before it has created anything, so [Some mip] is
    the problem of a constructor that returns. *)
Definition MIPReformulation_init (inp : Instance) : option MIPReformulation :=
  '(cpx, y_ilo) <- add_y_vars inp Cplex_new ;;
  '(cpx, z_ilo) <- add_z_vars inp cpx ;;
  cpx <- forM (range 0 (nI inp))
           (fun j => forM (range 0 (nP inp)) (mip_add_demand inp z_ilo j)) cpx ;;
  cpx <- forM (range 0 (nP inp)) (mip_add_capacity inp y_ilo z_ilo) cpx ;;
  cpx <- forM (range 0 (nI inp))
           (fun j => forM (range 0 (nP inp))
              (fun t => forM (range t (nP inp)) (mip_add_logic inp y_ilo z_ilo j t))) cpx ;;
  Some (mkMIP cpx y_ilo z_ilo).

(** [createMaster]: returns the problem with the two globals [y_ilo] and
    [z_ilo] (the column of zHat). *)
Definition createMaster (inp : Instance) (cpx : Cplex)
  : option (Cplex * list (list nat) * nat) :=
  '(cpx, y_ilo) <- add_y_vars inp cpx ;;
  let z_ilo := variables_get_num cpx in
  Some (variables_add cpx (mkVar VZHat 1 0 None (Some Continuous)), y_ilo, z_ilo).

(** ** newIOCycle *)

Definition _alpha : Q := 1 # 2.

(** The local variables of [newIOCycle], with the master, the worker and
    the global list [inout] that the loop mutates. *)
Record IOState : Type := mkIO {
  io_cpx : Cplex;
  io_worker : WorkerLPPrimal;
  io_lambda : Q;
  io_delta : Q;
  io_globalProgr : nat;
  io_yTilde : list (list Q);
  io_stopping : bool;
  io_noImprov : nat;
  io_bestLB : Q;
  io_nrIter : nat;
  io_inout : list ConstrName
}.

(** The [if zLP > bestLB: ... elif ... else ...] chain of the loop. *)
Definition io_update_bound (zLP : Q) (s : IOState) : IOState :=
  if Qgtb zLP (io_bestLB s) then
    mkIO (io_cpx s) (io_worker s) (io_lambda s) (io_delta s) (io_globalProgr s)
      (io_yTilde s) (io_stopping s) (io_noImprov s) zLP (io_nrIter s) (io_inout s)
  else if (io_noImprov s <=? 5)%nat then
    mkIO (io_cpx s) (io_worker s) (io_lambda s) (io_delta s) (io_globalProgr s)
      (io_yTilde s) (io_stopping s) (io_noImprov s + 1) (io_bestLB s) (io_nrIter s)
      (io_inout s)
  else if Qeq_bool (io_delta s) 0 then
    mkIO (io_cpx s) (io_worker s) (io_lambda s) (io_delta s) (io_globalProgr s)
      (io_yTilde s) true (io_noImprov s) (io_bestLB s) (io_nrIter s) (io_inout s)
  else if Qeq_bool (io_lambda s) 1 then
    mkIO (io_cpx s) (io_worker s) (io_lambda s) 0 (io_globalProgr s)
      (io_yTilde s) (io_stopping s) 0 (io_bestLB s) (io_nrIter s) (io_inout s)
  else
    mkIO (io_cpx s) (io_worker s) 1 (io_delta s) (io_globalProgr s)
      (io_yTilde s) (io_stopping s) 0 (io_bestLB s) (io_nrIter s) (io_inout s).

(** [[cpx.solution.get_values(y_ilo[j]) for j in range(nI)]]. *)
Definition get_values_rows (inp : Instance) (sol : Solution) (y_ilo : list (list nat))
  : option (list (list Q)) :=
  mapM (fun j => row <- get y_ilo j ;; Some (map (get_values sol) row))
    (range 0 (nI inp)).

(** [[[g(A[j][t], B[j][t]) for t in range(nP)] for j in range(nI)]]. *)
Definition zip_matrix (inp : Instance) (g : Q -> Q -> Q) (A B : list (list Q))
  : option (list (list Q)) :=
  mapM (fun j => mapM (fun t =>
                   x <- get2 A j t ;;
                   y <- get2 B j t ;;
                   Some (g x y)) (range 0 (nP inp))) (range 0 (nI inp)).

Section Drivers.

Variable solve : Solver.

(** One pass through the body of [while not stopping]. *)
Definition newIOCycle_body (inp : Instance) (y_ilo : list (list nat)) (z_ilo : nat)
  (s : IOState) : option IOState :=
  let sol := solve (io_cpx s) in
  let zLP := get_objective_value sol in
  let s1 := io_update_bound zLP
              (mkIO (io_cpx s) (io_worker s) (io_lambda s) (io_delta s)
                 (io_globalProgr s) (io_yTilde s) (io_stopping s) (io_noImprov s)
                 (io_bestLB s) (io_nrIter s + 1) (io_inout s)) in
  let zHat := get_values sol z_ilo in
  yStar <- get_values_rows inp sol y_ilo ;;
  yTilde <- zip_matrix inp (fun yt ys => _alpha * yt + (1 - _alpha) * ys)%Q
              (io_yTilde s1) yStar ;;
  yy <- zip_matrix inp
          (fun ys yt => Qmin 1 (io_lambda s1 * ys + (1 - io_lambda s1) * yt + io_delta s1))%Q
          yStar yTilde ;;
  '(w, (cutType, zSub)) <- solveSubPrimal solve (io_worker s1) inp yy zHat y_ilo z_ilo ;;
  if (0 <? cutType)%nat then
    lhs <- cutLhs w ;;
    r <- cutRhs w ;;
    let constrName := InOut (io_globalProgr s1) in
    Some (mkIO (linear_constraints_add (io_cpx s1)
                  (mkConstr (Some constrName) lhs sense_L r))
            w (io_lambda s1) (io_delta s1) (io_globalProgr s1 + 1) yTilde
            (io_stopping s1) (io_noImprov s1) (io_bestLB s1) (io_nrIter s1)
            (io_inout s1 ++ [constrName]))
  else
    Some (mkIO (io_cpx s1) w (io_lambda s1) (io_delta s1) (io_globalProgr s1) yTilde
            (io_stopping s1) (io_noImprov s1) (io_bestLB s1) (io_nrIter s1)
            (io_inout s1)).

(** [while not stopping: body], cut off after [fuel] passes. *)
Fixpoint newIOCycle_loop (fuel : nat) (inp : Instance) (y_ilo : list (list nat))
  (z_ilo : nat) (s : IOState) : option IOState :=
  if io_stopping s then Some s
  else match fuel with
       | O => None
       | S fuel' =>
           s' <- newIOCycle_body inp y_ilo z_ilo s ;;
           newIOCycle_loop fuel' inp y_ilo z_ilo s'
       end.

(** The state in which the loop of [newIOCycle] is entered. *)
Definition newIOCycle_start (cpx : Cplex) (worker : WorkerLPPrimal) (inp : Instance)
  (inout : list ConstrName) : IOState :=
  mkIO (set_problem_type cpx LP) worker (2 # 10) (2 # 100000) 0
    (repeat (repeat 1%Q (nP inp)) (nI inp)) false 0 0 0 inout.

Definition newIOCycle (fuel : nat) (cpx : Cplex) (worker : WorkerLPPrimal)
  (y_ilo : list (list nat)) (z_ilo : nat) (inp : Instance) (inout : list ConstrName)
  : option IOState :=
  newIOCycle_loop fuel inp y_ilo z_ilo (newIOCycle_start cpx worker inp inout).

(** ** bendersDual *)

(** [getSolution]. *)
Definition getSolution (inp : Instance) (sol : Solution) (y_ilo : list (list nat))
  (z_ilo : nat) : option (Q * Q * list (list Q)) :=
  let zHat := get_values sol z_ilo in
  let lb := get_objective_value sol in
  ySol <- mapM (fun j => mapM (fun t =>
                   i <- get2 y_ilo j t ;;
                   Some (get_values sol i)) (range 0 (nP inp))) (range 0 (nI inp)) ;;
  Some (lb, zHat, ySol).

Record BDState : Type := mkBD {
  bd_cpx : Cplex;
  bd_worker : WorkerLPPrimal;
  bd_stopping : bool;
  bd_nIters : nat;
  bd_nrCuts : nat;
  bd_ubBest : Q;
  bd_bestLB : Q
}.

(** The two nested loops that make every y.j.t binary. *)
Definition set_y_binary (inp : Instance) (y_ilo : list (list nat)) (cpx : Cplex)
  : option Cplex :=
  forM (range 0 (nI inp))
    (fun j => forM (range 0 (nP inp))
       (fun t cpx => i <- get2 y_ilo j t ;; variables_set_types cpx i Binary)) cpx.

(** [bendersDual] up to the line "Staring BENDERS Cycle": the master, the
    worker, the in-out loop, then the switch to a MILP with binary y. *)
Definition bendersDual_setup (fuel : nat) (inp : Instance)
  : option (BDState * list (list nat) * nat) :=
  '(cpx, y_ilo, z_ilo) <- createMaster inp Cplex_new ;;
  worker <- WorkerLPPrimal_init inp ;;
  io <- newIOCycle fuel cpx worker y_ilo z_ilo inp [] ;;
  let cpx := set_problem_type (io_cpx io) MILP in
  cpx <- set_y_binary inp y_ilo cpx ;;
  Some (mkBD cpx (io_worker io) false 0 0 _INFTY (- _INFTY)%Q, y_ilo, z_ilo).

(** The update of [ubBest] after the subproblem has been solved. *)
Definition bd_update_ub (cutType : nat) (bestLB zHat zSub ubBest : Q) : Q :=
  if (cutType =? 1)%nat then ubBest
  else if (cutType =? 2)%nat then
    let fixedCost := (bestLB - zHat)%Q in
    let ub := (fixedCost + zSub)%Q in
    if Qltb ub ubBest then ub else ubBest
  else ubBest.

(** One pass through the body of the Benders loop. *)
Definition bendersDual_body (inp : Instance) (y_ilo : list (list nat)) (z_ilo : nat)
  (s : BDState) : option BDState :=
  let nIters := (bd_nIters s + 1)%nat in
  let sol := solve (bd_cpx s) in
  '(bestLB, zHat, ySol) <- getSolution inp sol y_ilo z_ilo ;;
  '(w, (cutType, zSub)) <- solveSubPrimal solve (bd_worker s) inp ySol zHat y_ilo z_ilo ;;
  let cutName := Cut (bd_nrCuts s) in
  let ubBest := bd_update_ub cutType bestLB zHat zSub (bd_ubBest s) in
  let nrCuts := (bd_nrCuts s + 1)%nat in
  lhs <- cutLhs w ;;
  r <- cutRhs w ;;
  let cpx := linear_constraints_add (bd_cpx s) (mkConstr (Some cutName) lhs sense_L r) in
  let stopping := if Qltb (ubBest - bestLB) _EPSI then true else bd_stopping s in
  Some (mkBD cpx w stopping nIters nrCuts ubBest bestLB).

Fixpoint bendersDual_loop (fuel : nat) (inp : Instance) (y_ilo : list (list nat))
  (z_ilo : nat) (s : BDState) : option BDState :=
  if bd_stopping s then Some s
  else match fuel with
       | O => None
       | S fuel' =>
           s' <- bendersDual_body inp y_ilo z_ilo s ;;
           bendersDual_loop fuel' inp y_ilo z_ilo s'
       end.

Definition bendersDual (fuelIO fuel : nat) (inp : Instance) : option BDState :=
  '(s, y_ilo, z_ilo) <- bendersDual_setup fuelIO inp ;;
  bendersDual_loop fuel inp y_ilo z_ilo s.

End Drivers.

(** ** Formulas of the specification *)

(** The production cap of item [j] in period [t] as the constructor
    computes it. *)
Definition cap_bound (inp : Instance) (j t : nat) : Q :=
  ((at1 (cap inp) t - at2 (m inp) j t) / at2 (a inp) j t)%Q.


(** ** Sample instances *)

(** One item, two periods: demand 5 and 5, capacity 10 and 10, unit
    resource usage, no setup consumption, setup cost 10, holding cost 1. *)
Definition inst_two_periods : Instance :=
  mkInstance 1 2 [[5; 5]]%Q [[0; 0]]%Q [[10; 10]]%Q [[1; 1]]%Q [[1; 1]]%Q
    [[0; 0]]%Q [10; 10]%Q [] [].

(** One item, one period, with a setup that consumes more than the
    capacity of the period. *)
Definition inst_setup_exceeds_cap : Instance :=
  mkInstance 1 1 [[1]]%Q [[0]]%Q [[1]]%Q [[1]]%Q [[1]]%Q [[5]]%Q [1]%Q [] [].

(** ** Runs of the in-out loop *)

Section Runs.

Variable solve : Solver.

(** [io_run inp y_ilo z_ilo s s']: the loop of [newIOCycle], entered in
    state [s], has state [s'] at the top of some later pass. *)
Inductive io_run (inp : Instance) (y_ilo : list (list nat)) (z_ilo : nat)
  (s : IOState) : IOState -> Prop :=
| io_run_refl : io_run inp y_ilo z_ilo s s
| io_run_step (s1 s2 : IOState) :
    io_run inp y_ilo z_ilo s s1 ->
    io_stopping s1 = false ->
    newIOCycle_body solve inp y_ilo z_ilo s1 = Some s2 ->
    io_run inp y_ilo z_ilo s s2.

End Runs.

(** No column of the problem is binary, and the problem is an LP. *)
Definition relaxed (cpx : Cplex) : Prop :=
  problem_type cpx = LP /\ Forall (fun v => v_type v = None) (variables cpx).

(** Every y.j.t of the problem is binary, and the problem is a MILP. *)
Definition integer_mode (inp : Instance) (y_ilo : list (list nat)) (cpx : Cplex)
  : Prop :=
  problem_type cpx = MILP /\
  forall j t, j < nI inp -> t < nP inp ->
    exists i v, get2 y_ilo j t = Some i /\ get (variables cpx) i = Some v /\
                v_type v = Some Binary.

(** ** Sample solvers *)

(** A solver that reports every problem optimal with objective 0, all
    primal and dual values 0. *)
Definition solve_zero : Solver :=
  fun _ => mkSolution optimal 0 (fun _ => 0%Q) (fun _ => 0%Q) [].

(** A solver whose objective is the number of rows of the problem. *)
Definition solve_rows : Solver :=
  fun cpx => mkSolution optimal (inject_Z (Z.of_nat (linear_constraints_get_num cpx)))
               (fun _ => 0%Q) (fun _ => 0%Q) [].

(** The invariant of the in-out loop: the loop is flagged to stop only with
    [_delta] at 0, and [_delta] is 0 only with [_lambda] at 1. *)
Definition io_inv (s : IOState) : Prop :=
  (io_stopping s = true -> (io_delta s == 0)%Q) /\
  ((io_delta s == 0)%Q -> (io_lambda s == 1)%Q).

(** ** The triangular index invariant *)

(** A column is a production variable z.j.t.r of the instance, with
    [t <= r]. *)
Definition zvar_ok (inp : Instance) (v : Var) : Prop :=
  exists j t r, v_name v = VZ j t r /\ j < nI inp /\ t <= r < nP inp.

(** A column is a setup variable y.j.t of the instance. *)
Definition yvar_ok (inp : Instance) (v : Var) : Prop :=
  exists j t, v_name v = VY j t /\ j < nI inp /\ t < nP inp.

(** [z_ilo[j][t][r-t]] is, for every [t <= r], the column named z.j.t.r. *)
Definition z_ilo_ok (inp : Instance) (vars : list Var)
  (z_ilo : list (list (list nat))) : Prop :=
  forall j t r, j < nI inp -> t <= r < nP inp ->
    exists i v, tri_get z_ilo j t r = Some i /\ get vars i = Some v /\
                v_name v = VZ j t r.

(** [y_ilo[j][t]] is the column named y.j.t. *)
Definition y_ilo_ok (inp : Instance) (vars : list Var) (y_ilo : list (list nat))
  : Prop :=
  forall j t, j < nI inp -> t < nP inp ->
    exists i v, get2 y_ilo j t = Some i /\ get vars i = Some v /\
                v_name v = VY j t.

(** [cpx] is [cpx0] with more columns, all of them satisfying [P]. *)
Definition extends (P : Var -> Prop) (cpx0 cpx : Cplex) : Prop :=
  exists ext, variables cpx = variables cpx0 ++ ext /\
              linear_constraints cpx = linear_constraints cpx0 /\
              Forall P ext.

(** The name of column [i], and the names of the columns that a row
    mentions, in the order of its sparse pair. *)
Definition col_name (vars : list Var) (i : nat) : option VarName :=
  option_map v_name (get vars i).

Definition row_names (vars : list Var) (k : Constr) : list (option VarName) :=
  map (col_name vars) (ind (lin_expr k)).

(** z.j.t.r for [r = t .. nP-1], and for [t = 0 .. r]. *)
Definition z_names_from (inp : Instance) (j t : nat) : list (option VarName) :=
  map (fun r => Some (VZ j t r)) (range t (nP inp)).

Definition z_names_upto (j r : nat) : list (option VarName) :=
  map (fun t => Some (VZ j t r)) (range 0 (r + 1)).

(** The three kinds of rows of the subproblem: the capacity row of period
    [t] mentions z.j.t.r for every item and every [r >= t]; the demand row
    of [(j, r)] mentions z.j.t.r for every [t <= r]; the logic row of
    [(j, t, r)], [t <= r], mentions z.j.t.r. *)
Definition worker_row_ok (inp : Instance) (vars : list Var) (k : Constr) : Prop :=
  (exists t, t < nP inp /\
     row_names vars k = flat_map (fun j => z_names_from inp j t) (range 0 (nI inp)))
  \/ (exists j r, j < nI inp /\ r < nP inp /\ row_names vars k = z_names_upto j r)
  \/ (exists j t r, j < nI inp /\ t <= r < nP inp /\
        row_names vars k = [Some (VZ j t r)]).

(** The three kinds of rows of the reformulated MIP: as above, with y.j.t
    after the production variables of item [j] in a capacity row, and after
    z.j.t.r in a logic row. *)
Definition mip_row_ok (inp : Instance) (vars : list Var) (k : Constr) : Prop :=
  (exists t, t < nP inp /\
     row_names vars k
     = flat_map (fun j => z_names_from inp j t ++ [Some (VY j t)]) (range 0 (nI inp)))
  \/ (exists j r, j < nI inp /\ r < nP inp /\ row_names vars k = z_names_upto j r)
  \/ (exists j t r, j < nI inp /\ t <= r < nP inp /\
        row_names vars k = [Some (VZ j t r); Some (VY j t)]).

(** ** The rows of the subproblem *)

(** The names of the rows in the order in which [WorkerLPPrimal.__init__]
    adds them: the capacity rows that precede period [t], the demand rows
    that precede [(j, r)], the logic rows that precede [(j, t, r)]. *)
Definition cap_names (t : nat) : list ConstrName := map Capacity (range 0 t).

Definition dem_names (inp : Instance) (j r : nat) : list ConstrName :=
  flat_map (fun j0 => map (Demand j0) (range 0 (nP inp))) (range 0 j)
  ++ map (Demand j) (range 0 r).

Definition log_names (inp : Instance) (j t r : nat) : list ConstrName :=
  flat_map (fun j0 => flat_map (fun t0 => map (Logic j0 t0) (range t0 (nP inp)))
                        (range 0 (nP inp))) (range 0 j)
  ++ flat_map (fun t0 => map (Logic j t0) (range t0 (nP inp))) (range 0 t)
  ++ map (Logic j t) (range t r).

Definition worker_rows (inp : Instance) : list ConstrName :=
  cap_names (nP inp) ++ dem_names inp (nI inp) 0 ++ log_names inp (nI inp) 0 0.

(** A row named "demand.j.r" has right-hand side [d[j][r]]. *)
Definition demand_rhs_ok (inp : Instance) (k : Constr) : Prop :=
  match c_name k with
  | Some (Demand j r) => rhs k = at2 (d inp) j r
  | _ => True
  end.

(** What holds of the worker between two calls of [solveSubPrimal]. *)
Record worker_ok (inp : Instance) (w : WorkerLPPrimal) : Prop := {
  wk_rows : map c_name (linear_constraints (w_cpx w)) = map Some (worker_rows inp);
  wk_demand :
    forall j r, j < nI inp -> r < nP inp ->
      linear_constraints_get_rhs (w_cpx w) (Demand j r) = Some (at2 (d inp) j r);
  wk_lCapacity : lCapacity w = map Capacity (range 0 (nP inp));
  wk_lDemand :
    lDemand w = map (fun j => map (Demand j) (range 0 (nP inp))) (range 0 (nI inp));
  wk_lLogic :
    lLogic w = map (fun j => map (fun t => map (Logic j t) (range t (nP inp)))
                               (range 0 (nP inp))) (range 0 (nI inp))
}.

(** The invariant of the loops that add the rows of the subproblem. *)
Definition rows_inv (inp : Instance) (vars : list Var) (names : list ConstrName)
  (cpx : Cplex) : Prop :=
  variables cpx = vars /\
  map c_name (linear_constraints cpx) = map Some names /\
  Forall (demand_rhs_ok inp) (linear_constraints cpx) /\
  Forall (worker_row_ok inp vars) (linear_constraints cpx).

(** ** Re-parameterization of the subproblem *)

(** The right-hand side that [solveSubPrimal] gives to a capacity or logic
    row for the setup vector [ySol]. *)
Definition new_rhs (inp : Instance) (ySol : list (list Q)) (n : ConstrName) : Q :=
  match n with
  | Capacity t =>
      (at1 (cap inp) t
       - Qsum_range 0 (nI inp) (fun j => at2 (m inp) j t * at2 ySol j t))%Q
  | Logic j t r => (at2 (d inp) j r * at2 ySol j t)%Q
  | _ => 0%Q
  end.

(** The rows already re-parameterized when the capacity loop is about to
    treat period [t'], and when the logic loops are about to treat
    [(j', t', r')]. *)
Definition cap_updated (t' : nat) (n : ConstrName) : Prop :=
  match n with
  | Capacity t => t < t'
  | _ => False
  end.

Definition rhs_updated (inp : Instance) (j' t' r' : nat) (n : ConstrName) : Prop :=
  match n with
  | Capacity t => t < nP inp
  | Logic j t r =>
      t <= r < nP inp /\ (j < j' \/ (j = j' /\ (t < t' \/ (t = t' /\ r < r'))))
  | _ => False
  end.

(** Everything of a row but its right-hand side. *)
Definition row_frame (k : Constr) : option ConstrName * SparsePair * Sense :=
  (c_name k, lin_expr k, sense k).

(** [cpx] is [cpx0] with the rows in [D] re-parameterized and nothing else
    changed. *)
Definition upd_inv (inp : Instance) (ySol : list (list Q)) (cpx0 : Cplex)
  (D : ConstrName -> Prop) (cpx : Cplex) : Prop :=
  variables cpx = variables cpx0 /\
  problem_type cpx = problem_type cpx0 /\
  map row_frame (linear_constraints cpx) = map row_frame (linear_constraints cpx0) /\
  forall n,
    (D n -> linear_constraints_get_rhs cpx n = Some (new_rhs inp ySol n)) /\
    (~ D n -> linear_constraints_get_rhs cpx n = linear_constraints_get_rhs cpx0 n).

(** ** Cuts as the specification writes them *)

(** [y_ilo[j][t]] as a total function. *)
Definition at2n (M : list (list nat)) (j t : nat) : nat := nth t (nth j M []) 0.

(** [[g(j0, t0) for j0 in range(nI) for t0 in range(nP)]] cut off just
    before the pair [(j, t)]. *)
Definition pairs_before {A : Type} (inp : Instance) (g : nat -> nat -> A) (j t : nat)
  : list A :=
  flat_map (fun j0 => map (g j0) (range 0 (nP inp))) (range 0 j)
  ++ map (g j) (range 0 t).

Definition all_pairs {A : Type} (inp : Instance) (g : nat -> nat -> A) : list A :=
  pairs_before inp g (nI inp) 0.

(** The sum over all items and periods. *)
Definition Qsum_pairs (inp : Instance) (g : nat -> nat -> Q) : Q :=
  Qsum_range 0 (nI inp) (fun j => Qsum_range 0 (nP inp) (g j)).

(** Coefficient of y.j.t in the optimality cut:
    [m[j][t]*lambda[t] + sum over r >= t of epsilon[j][t][r]*d[j][r]], with
    [lambda[t]] the dual of "capacity.t" and [epsilon[j][t][r]] the dual of
    "logic.j.t.r". *)
Definition opt_coeff (inp : Instance) (sol : Solution) (j t : nat) : Q :=
  (at2 (m inp) j t * get_dual_values sol (Capacity t)
   + Qsum_range t (nP inp)
       (fun r => get_dual_values sol (Logic j t r) * at2 (d inp) j r))%Q.

(** The same coefficient in the form in which the code computes it. *)
Definition opt_coeff_code (inp : Instance) (sol : Solution) (j t : nat) : Q :=
  (at2 (m inp) j t * get_dual_values sol (Capacity t)
   - Qsum_range t (nP inp)
       (fun r => - get_dual_values sol (Logic j t r) * at2 (d inp) j r))%Q.

(** Right-hand side of the optimality cut:
    [-zSub + sum over j,t of coeff[j][t]*ySol[j][t]]. *)
Definition opt_rhs (inp : Instance) (sol : Solution) (ySol : list (list Q)) : Q :=
  (- get_objective_value sol
   + Qsum_pairs inp (fun j t => opt_coeff inp sol j t * at2 ySol j t))%Q.

(** Position of a name in a list of names. *)
Fixpoint index_of (n : ConstrName) (l : list ConstrName) : nat :=
  match l with
  | [] => 0
  | x :: l' => if ConstrName_eq_dec n x then 0 else S (index_of n l')
  end.

(** The entry of a Farkas vector that belongs to the row named [n] of the
    subproblem. *)
Definition farkas_at (inp : Instance) (farkas : list Q) (n : ConstrName) : Q :=
  at1 farkas (index_of n (worker_rows inp)).

(** Coefficient of y.j.t in the feasibility cut:
    [-m[j][t]*lambda[t] + sum over r >= t of epsilon[j][t][r]*d[j][r]], with
    [lambda[t]] the Farkas entry of "capacity.t" and [epsilon[j][t][r]] that
    of "logic.j.t.r". *)
Definition feas_coeff (inp : Instance) (farkas : list Q) (j t : nat) : Q :=
  (- at2 (m inp) j t * farkas_at inp farkas (Capacity t)
   + Qsum_range t (nP inp)
       (fun r => farkas_at inp farkas (Logic j t r) * at2 (d inp) j r))%Q.

(** Right-hand side of the feasibility cut:
    [- sum over j,t of d[j][t]*omega[j][t] - sum over t of cap[t]*lambda[t]],
    with [omega[j][t]] the Farkas entry of "demand.j.t". *)
Definition feas_rhs (inp : Instance) (farkas : list Q) : Q :=
  (- Qsum_pairs inp (fun j t => at2 (d inp) j t * farkas_at inp farkas (Demand j t))
   - Qsum_range 0 (nP inp)
       (fun t => at1 (cap inp) t * farkas_at inp farkas (Capacity t)))%Q.

(** The solver returns one Farkas entry per row whenever it reports a
    problem infeasible. *)
Definition farkas_per_row (solve : Solver) : Prop :=
  forall cpx, get_status (solve cpx) = infeasible ->
    length (dual_farkas (solve cpx)) = length (linear_constraints cpx).

(** A half-triangular table [T[j][t][r-t] = g j t r]. *)
Definition tri_table {A : Type} (inp : Instance) (g : nat -> nat -> nat -> A)
  : list (list (list A)) :=
  map (fun j => map (fun t => map (g j t) (range t (nP inp))) (range 0 (nP inp)))
    (range 0 (nI inp)).

Section Reach.

Variable solve : Solver.

(** The states of the worker of an instance: as constructed, or as left by
    a call of [solveSubPrimal] with a setup vector of the right shape. *)
Inductive worker_reach (inp : Instance) : WorkerLPPrimal -> Prop :=
| reach_init (w : WorkerLPPrimal) :
    WorkerLPPrimal_init inp = Some w -> worker_reach inp w
| reach_call (w w' : WorkerLPPrimal) (ySol : list (list Q)) (zHat : Q)
    (y_ilo : list (list nat)) (z_ilo_master : nat) (res : nat * Q) :
    worker_reach inp w ->
    shape (nI inp) (nP inp) ySol ->
    solveSubPrimal solve w inp ySol zHat y_ilo z_ilo_master = Some (w', res) ->
    worker_reach inp w'.

End Reach.

(** A solver that reports every problem infeasible, with a Farkas vector
    that holds the number of the row at each row. *)
Definition solve_infeasible : Solver :=
  fun cpx => mkSolution infeasible 0 (fun _ => 0%Q) (fun _ => 0%Q)
               (map (fun i => inject_Z (Z.of_nat i))
                  (range 0 (linear_constraints_get_num cpx))).

(** A solver that fails with status code 6 on every problem. *)
Definition solve_other : Solver :=
  fun _ => mkSolution (other_status 6) 0 (fun _ => 0%Q) (fun _ => 0%Q) [].

(** A solver that reports every problem optimal with objective 7, the dual
    of "capacity.t" equal to [-(t+1)] and the dual of "logic.j.t.r" equal to
    [-(r+1)]. *)
Definition solve_duals : Solver :=
  fun _ => mkSolution optimal 7 (fun _ => 0%Q)
             (fun n => match n with
                       | Capacity t => (- inject_Z (Z.of_nat (t + 1)))%Q
                       | Logic _ _ r => (- inject_Z (Z.of_nat (r + 1)))%Q
                       | _ => 0%Q
                       end) [].

(** The master columns of [inst_two_periods] and a setup vector. *)
Definition y_ilo_two_periods : list (list nat) := [[0; 1]].
Definition z_ilo_two_periods : nat := 2.
Definition ySol_half : list (list Q) := [[1 # 2; 1]]%Q.

(** The worker of [inst_two_periods] as constructed, and its LP after the
    re-parameterization for [ySol_half]. *)
Definition worker_two_periods : WorkerLPPrimal :=
  Eval vm_compute in
    match WorkerLPPrimal_init inst_two_periods with
    | Some w => w
    | None => mkWorker Cplex_new [] [] [] [] None None
    end.

Definition lp_half : Cplex :=
  Eval vm_compute in
    match update_rhs inst_two_periods ySol_half (w_cpx worker_two_periods) with
    | Some cpx => cpx
    | None => Cplex_new
    end.

(** The master of [inst_two_periods] as [createMaster] builds it, and the
    state in which the loop of [bendersDual] would be entered with it. *)
Definition master_two_periods : Cplex :=
  Eval vm_compute in
    match createMaster inst_two_periods Cplex_new with
    | Some (cpx, _, _) => cpx
    | None => Cplex_new
    end.

Definition bd_two_periods : BDState :=
  mkBD master_two_periods worker_two_periods false 0 0 _INFTY (- _INFTY)%Q.

(** The state in which the loop of [newIOCycle] is entered for
    [inst_two_periods]. *)
Definition io_two_periods : IOState :=
  newIOCycle_start master_two_periods worker_two_periods inst_two_periods [].

(** [n] passes of the loop of [newIOCycle], whatever the stop flag. *)
Fixpoint io_passes (solve : Solver) (n : nat) (inp : Instance)
  (y_ilo : list (list nat)) (z_ilo : nat) (s : IOState) : option IOState :=
  match n with
  | O => Some s
  | S n' =>
      s' <- newIOCycle_body solve inp y_ilo z_ilo s ;;
      io_passes solve n' inp y_ilo z_ilo s'
  end.

(** The state after one pass of the loop of [newIOCycle] for
    [inst_two_periods] with the solver [solve_rows]. *)
Definition io_two_periods_1 : IOState :=
  Eval vm_compute in
    match newIOCycle_body solve_rows inst_two_periods y_ilo_two_periods
            z_ilo_two_periods io_two_periods with
    | Some s => s
    | None => io_two_periods
    end.

(** The state in which [bendersDual] enters its loop for
    [inst_two_periods] with the solver [solve_zero]. *)
Definition bd_after_setup : BDState :=
  Eval vm_compute in
    match bendersDual_setup solve_zero 21 inst_two_periods with
    | Some (bd, _, _) => bd
    | None => bd_two_periods
    end.

(** The invariant of the loops that add the rows of the reformulated MIP. *)
Definition mip_inv (inp : Instance) (vars : list Var) (cpx : Cplex) : Prop :=
  variables cpx = vars /\ Forall (mip_row_ok inp vars) (linear_constraints cpx).

(** The reformulated MIP of [inst_two_periods]. *)
Definition mip_two_periods : MIPReformulation :=
  Eval vm_compute in
    match MIPReformulation_init inst_two_periods with
    | Some mip => mip
    | None => mkMIP Cplex_new [] []
    end.

(** ** More sample instances *)

(** One item and no period; one item, one period and no resource usage;
    no item at all. *)
Definition inst_no_period : Instance :=
  mkInstance 1 0 [[]] [[]] [[]] [[]] [[]] [[]] [] [] [].

Definition inst_zero_usage : Instance :=
  mkInstance 1 1 [[1]]%Q [[0]]%Q [[1]]%Q [[1]]%Q [[0]]%Q [[0]]%Q [1]%Q [] [].

(** ** The columns of the master *)

(** The column y.j.t: objective coefficient [f[j][t]], bounds 0 and 1,
    binary; and the column zHat: coefficient 1, lower bound 0, no upper
    bound, continuous. *)
Definition y_column (inp : Instance) (j t : nat) : Var :=
  mkVar (VY j t) (at2 (f inp) j t) 0 (Some 1%Q) (Some Binary).

Definition zHat_column : Var := mkVar VZHat 1 0 None (Some Continuous).

(** The table of the y columns when they are numbered from [base]. *)
Definition y_table (inp : Instance) (base : nat) : list (list nat) :=
  map (fun j => map (fun t => base + j * nP inp + t) (range 0 (nP inp)))
      (range 0 (nI inp)).

(** ** Counting the passes of the in-out loop *)

(** The number of passes without improvement of the bound that the loop of
    [newIOCycle] still makes from a state: 7 per stage, less the counter,
    the stages being [_lambda < 1], then [_lambda = 1] with [_delta > 0],
    then [_delta = 0]. *)
Definition io_budget (s : IOState) : nat :=
  if io_stopping s then 0
  else if Qeq_bool (io_delta s) 0 then 7 - io_noImprov s
  else if Qeq_bool (io_lambda s) 1 then 14 - io_noImprov s
  else 21 - io_noImprov s.

Section Counting.

Variable solve : Solver.

(** [io_count inp y_ilo z_ilo s n k s']: the loop started in [s] reaches [s']
    after [n] passes, [k] of which found an LP objective that did not exceed
    the best bound. *)
Inductive io_count (inp : Instance) (y_ilo : list (list nat)) (z_ilo : nat)
  (s : IOState) : nat -> nat -> IOState -> Prop :=
| io_count_refl : io_count inp y_ilo z_ilo s 0 0 s
| io_count_improve (n k : nat) (s1 s2 : IOState) :
    io_count inp y_ilo z_ilo s n k s1 ->
    io_stopping s1 = false ->
    newIOCycle_body solve inp y_ilo z_ilo s1 = Some s2 ->
    (io_bestLB s1 < get_objective_value (solve (io_cpx s1)))%Q ->
    io_count inp y_ilo z_ilo s (S n) k s2
| io_count_stall (n k : nat) (s1 s2 : IOState) :
    io_count inp y_ilo z_ilo s n k s1 ->
    io_stopping s1 = false ->
    newIOCycle_body solve inp y_ilo z_ilo s1 = Some s2 ->
    ~ (io_bestLB s1 < get_objective_value (solve (io_cpx s1)))%Q ->
    io_count inp y_ilo z_ilo s (S n) (S k) s2.

End Counting.

(** ** Runs of the Benders loop *)

Section BendersRuns.

Variable solve : Solver.

(** [bd_run inp y_ilo z_ilo s s']: the loop of [bendersDual] started in [s]
    reaches [s'] after some passes, none of which raised. *)
Inductive bd_run (inp : Instance) (y_ilo : list (list nat)) (z_ilo : nat)
  (s : BDState) : BDState -> Prop :=
| bd_run_refl : bd_run inp y_ilo z_ilo s s
| bd_run_step (s1 s2 : BDState) :
    bd_run inp y_ilo z_ilo s s1 ->
    bd_stopping s1 = false ->
    bendersDual_body solve inp y_ilo z_ilo s1 = Some s2 ->
    bd_run inp y_ilo z_ilo s s2.

End BendersRuns.

(** The state after one pass of the loop of [bendersDual] for
    [inst_two_periods] with the solver [solve_duals], and the state that
    [bendersDual] returns with the solver [solve_zero]. *)
Definition bd_two_periods_1 : BDState :=
  Eval vm_compute in
    match bendersDual_body solve_duals inst_two_periods y_ilo_two_periods
            z_ilo_two_periods bd_two_periods with
    | Some s => s
    | None => bd_two_periods
    end.

Definition bd_returned : BDState :=
  Eval vm_compute in
    match bendersDual solve_zero 21 1 inst_two_periods with
    | Some s => s
    | None => bd_two_periods
    end.

(** ** The value of a cut at a point *)

(** The value of the linear expression [SparsePair(ind, val)] at the point
    that gives column [i] the value [x i]. *)
Definition row_value (x : nat -> Q) (sp : SparsePair) : Q :=
  Qsum (map (fun p => snd p * x (fst p))%Q (combine (ind sp) (val sp))).

(** The right-hand side of the row named [n], 0 if there is none. *)
Definition rhs_of (cpx : Cplex) (n : ConstrName) : Q :=
  match linear_constraints_get_rhs cpx n with
  | Some v => v
  | None => 0%Q
  end.

(** A solver that reports the LP it is given optimal, with the right-hand
    side of "logic.0.0.0" as the objective. *)
Definition solve_logic_rhs : Solver :=
  fun cpx => mkSolution optimal (rhs_of cpx (Logic 0 0 0)) (fun _ => 0%Q)
               (fun _ => 0%Q) [].

(** A Farkas vector applied to the right-hand sides of the subproblem:
    the sum over its rows of the entry of the row times its right-hand
    side. *)
Definition farkas_value (inp : Instance) (farkas : list Q) (cpx : Cplex) : Q :=
  Qsum (map (fun n => farkas_at inp farkas n * rhs_of cpx n)%Q (worker_rows inp)).

(** A point that agrees with the setup vector [ySol_half] on the columns of
    y and gives zHat the value 3, and the worker of [inst_two_periods]
    after a call with [ySol_half] under three solvers. *)
Definition point_half (i : nat) : Q :=
  match i with
  | 0 => 1 # 2
  | 1 => 1
  | _ => 3
  end.

Definition worker_after_duals : WorkerLPPrimal :=
  Eval vm_compute in
    match solveSubPrimal solve_duals worker_two_periods inst_two_periods ySol_half 3
            y_ilo_two_periods z_ilo_two_periods with
    | Some (w, _) => w
    | None => worker_two_periods
    end.

Definition worker_after_infeasible : WorkerLPPrimal :=
  Eval vm_compute in
    match solveSubPrimal solve_infeasible worker_two_periods inst_two_periods
            ySol_half 3 y_ilo_two_periods z_ilo_two_periods with
    | Some (w, _) => w
    | None => worker_two_periods
    end.

(** The states after one pass of the two loops for [inst_two_periods] with
    the solver [solve_other], which fails on every problem. *)
Definition io_two_periods_other : IOState :=
  Eval vm_compute in
    match newIOCycle_body solve_other inst_two_periods y_ilo_two_periods
            z_ilo_two_periods io_two_periods with
    | Some s => s
    | None => io_two_periods
    end.

Definition bd_two_periods_other : BDState :=
  Eval vm_compute in
    match bendersDual_body solve_other inst_two_periods y_ilo_two_periods
            z_ilo_two_periods bd_two_periods with
    | Some s => s
    | None => bd_two_periods
    end.

(** ** getUB *)

(** [T[j][t][r]] for non-negative indices. *)
Definition get3 {A : Type} (T : list (list (list A))) (j t r : nat) : option A :=
  Tj <- get T j ;;
  Tjt <- get Tj t ;;
  get Tjt r.

(** The body of the first pair of loops: the setup cost of period [t] is
    added when [ySol[j][t] > 1.0 - _EPSI]. *)
Definition getUB_add (inp : Instance) (ySol : list (list Q)) (j t : nat) (z : Q)
  : option Q :=
  y <- get2 ySol j t ;;
  if Qgtb y (1 - _EPSI) then
    fjt <- get2 (f inp) j t ;;
    Some (z + fjt)%Q
  else Some z.

(** The body of the three loops under "is this feasible?": the [assert]
    raises when [zSol[j][t][r] > _EPSI] without [ySol[j][t] > 1.0 - _EPSI]. *)
Definition getUB_check (ySol : list (list Q)) (zSol : list (list (list Q)))
  (j t r : nat) (u : unit) : option unit :=
  v <- get3 zSol j t r ;;
  if Qgtb v _EPSI then
    y <- get2 ySol j t ;;
    if Qgtb y (1 - _EPSI) then Some u else None
  else Some u.

Definition getUB (inp : Instance) (zSub : Q) (ySol : list (list Q))
  (zSol : list (list (list Q))) : option Q :=
  z <- forM (range 0 (nI inp))
         (fun j => forM (range 0 (nP inp)) (getUB_add inp ySol j)) zSub ;;
  _ <- forM (range 0 (nI inp))
         (fun j => forM (range 0 (nP inp))
            (fun t => forM (range t (nP inp)) (getUB_check ySol zSol j t))) tt ;;
  Some z.

(** A full table [T[j][t][r] = g j t r] with [nP] entries in every row. *)
Definition cube_table {A : Type} (inp : Instance) (g : nat -> nat -> nat -> A)
  : list (list (list A)) :=
  map (fun j => map (fun t => map (g j t) (range 0 (nP inp))) (range 0 (nP inp)))
    (range 0 (nI inp)).

(** The setup cost of the periods that [getUB] takes as set up. *)
Definition setup_cost (inp : Instance) (ySol : list (list Q)) : Q :=
  Qsum_pairs inp (fun j t => if Qgtb (at2 ySol j t) (1 - _EPSI)
                             then at2 (f inp) j t else 0%Q).

(** A production plan for [inst_two_periods] that produces in period 0
    only, and the setup vector that goes with it. *)
Definition zSol_first_period (j t r : nat) : Q :=
  match t with
  | 0 => 5
  | _ => 0
  end.

Definition ySol_first_period : list (list Q) := [[1; 0]]%Q.

(** ** The worker between calls *)

(** What a worker keeps of the worker as constructed, whatever calls it
    has served. *)
Definition same_frame (inp : Instance) (w0 w : WorkerLPPrimal) : Prop :=
  w_z_ilo w = w_z_ilo w0 /\ lCapacity w = lCapacity w0 /\
  lDemand w = lDemand w0 /\ lLogic w = lLogic w0 /\
  variables (w_cpx w) = variables (w_cpx w0) /\
  problem_type (w_cpx w) = problem_type (w_cpx w0) /\
  map row_frame (linear_constraints (w_cpx w))
  = map row_frame (linear_constraints (w_cpx w0)) /\
  forall n, ~ rhs_updated inp (nI inp) 0 0 n ->
    linear_constraints_get_rhs (w_cpx w) n = linear_constraints_get_rhs (w_cpx w0) n.

(** ** The two formulations, row by row *)

(** [[g(j, t, r) for j in range(nI) for t in range(nP) for r in range(t, nP)]],
    whole and cut off just before the triple [(j, t, r)]. *)
Definition tri_list {A : Type} (inp : Instance) (g : nat -> nat -> nat -> A) : list A :=
  flat_map (fun j => flat_map (fun t => map (g j t) (range t (nP inp)))
                       (range 0 (nP inp))) (range 0 (nI inp)).

Definition tri_before {A : Type} (inp : Instance) (g : nat -> nat -> nat -> A)
  (j t r : nat) : list A :=
  flat_map (fun j0 => flat_map (fun t0 => map (g j0 t0) (range t0 (nP inp)))
                        (range 0 (nP inp))) (range 0 j)
  ++ flat_map (fun t0 => map (g j t0) (range t0 (nP inp))) (range 0 t)
  ++ map (g j t) (range t r).

(** The column z.j.t.r as both formulations create it: holding cost
    [(r-t)*h[j][t]], lower bound 0, no upper bound, no type. *)
Definition z_column (inp : Instance) (j t r : nat) : Var :=
  mkVar (VZ j t r) (inject_Z (Z.of_nat r - Z.of_nat t) * at2 (h inp) j t)%Q 0 None None.

(** A row as a formulation writes it: its name, its terms as pairs of the
    name of a column and a coefficient, its sense and its right-hand
    side. *)
Record LinRow : Type := mkRow {
  row_name : option ConstrName;
  row_terms : list (option VarName * Q);
  row_sense : Sense;
  row_rhs : Q
}.

(** A row of a problem read this way; a column number out of range has no
    name. *)
Definition abs_row (vars : list Var) (k : Constr) : LinRow :=
  mkRow (c_name k) (combine (row_names vars k) (val (lin_expr k))) (sense k) (rhs k).

Definition exact_rows (vars : list Var) (expected : list LinRow) (cpx : Cplex) : Prop :=
  variables cpx = vars /\ map (abs_row vars) (linear_constraints cpx) = expected.

(** The terms [a[j][t] * z.j.t.r] of the capacity row of period [t], and
    the terms [z.j.t.r] of the demand row of [(j, r)]. *)
Definition z_terms_item (inp : Instance) (t j : nat) : list (option VarName * Q) :=
  map (fun r => (Some (VZ j t r), at2 (a inp) j t)) (range t (nP inp)).

Definition z_terms_dem (j r : nat) : list (option VarName * Q) :=
  map (fun t => (Some (VZ j t r), 1%Q)) (range 0 (r + 1)).

(** The rows of the subproblem, with the right-hand sides [capR t] of the
    capacity rows and [logR j t r] of the logic rows left open. *)
Definition w_cap_row (inp : Instance) (capR : nat -> Q) (t : nat) : LinRow :=
  mkRow (Some (Capacity t)) (flat_map (z_terms_item inp t) (range 0 (nI inp)))
    sense_L (capR t).

Definition w_dem_row (inp : Instance) (j r : nat) : LinRow :=
  mkRow (Some (Demand j r)) (z_terms_dem j r) sense_E (at2 (d inp) j r).

Definition w_log_row (logR : nat -> nat -> nat -> Q) (j t r : nat) : LinRow :=
  mkRow (Some (Logic j t r)) [(Some (VZ j t r), 1%Q)] sense_L (logR j t r).

Definition worker_lp_rows (inp : Instance) (capR : nat -> Q)
  (logR : nat -> nat -> nat -> Q) : list LinRow :=
  map (w_cap_row inp capR) (range 0 (nP inp))
  ++ all_pairs inp (w_dem_row inp)
  ++ tri_list inp (w_log_row logR).

(** The rows of the reformulated MIP. *)
Definition m_dem_row (inp : Instance) (j r : nat) : LinRow :=
  mkRow None (z_terms_dem j r) sense_G (at2 (d inp) j r).

Definition m_cap_row (inp : Instance) (t : nat) : LinRow :=
  mkRow None
    (flat_map (fun j => z_terms_item inp t j ++ [(Some (VY j t), at2 (m inp) j t)])
       (range 0 (nI inp)))
    sense_L (at1 (cap inp) t).

Definition m_log_row (inp : Instance) (j t r : nat) : LinRow :=
  mkRow None [(Some (VZ j t r), 1%Q); (Some (VY j t), (- at2 (d inp) j r)%Q)]
    sense_L 0.

Definition mip_lp_rows (inp : Instance) : list LinRow :=
  all_pairs inp (m_dem_row inp)
  ++ map (m_cap_row inp) (range 0 (nP inp))
  ++ tri_list inp (m_log_row inp).

(** A row with its right-hand side replaced by the one that [R] gives to
    its name. *)
Definition with_row_rhs (R : ConstrName -> Q) (k : LinRow) : LinRow :=
  match row_name k with
  | Some n => mkRow (row_name k) (row_terms k) (row_sense k) (R n)
  | None => k
  end.

(** The right-hand sides of the subproblem after the re-parameterization
    for [ySol]. *)
Definition worker_rhs (inp : Instance) (ySol : list (list Q)) (n : ConstrName) : Q :=
  match n with
  | Demand j r => at2 (d inp) j r
  | _ => new_rhs inp ySol n
  end.

(** *** What the rows say *)

(** The value of a term, of the left-hand side of a row, and the row as a
    statement about a valuation of the column names. *)
Definition term_value (nu : VarName -> Q) (p : option VarName * Q) : Q :=
  match fst p with
  | Some n => (snd p * nu n)%Q
  | None => 0%Q
  end.

Definition lhs_value (nu : VarName -> Q) (k : LinRow) : Q :=
  Qsum (map (term_value nu) (row_terms k)).

Definition row_holds (nu : VarName -> Q) (k : LinRow) : Prop :=
  match row_sense k with
  | sense_L => (lhs_value nu k <= row_rhs k)%Q
  | sense_E => (lhs_value nu k == row_rhs k)%Q
  | sense_G => (row_rhs k <= lhs_value nu k)%Q
  end.

(** The same with an equality weakened to "at least". *)
Definition row_weak (nu : VarName -> Q) (k : LinRow) : Prop :=
  match row_sense k with
  | sense_E => (row_rhs k <= lhs_value nu k)%Q
  | _ => row_holds nu k
  end.

(** A valuation for [inst_two_periods]: every z is 5, y.0.0 is 1/2 and
    y.0.1 is 1, as in [ySol_half]. *)
Definition valuation_half (n : VarName) : Q :=
  match n with
  | VY _ 0 => 1 # 2
  | VY _ _ => 1
  | VZ _ _ _ => 5
  | VZHat => 0
  end.

(** ** Cuts against the solutions of the subproblem *)

(** The sum over all triples [(j, t, r)] with [j < n] and [t <= r < p]. *)
Definition Qsum_triples (n p : nat) (g : nat -> nat -> nat -> Q) : Q :=
  Qsum_range 0 n (fun j => Qsum_range 0 p (fun t => Qsum_range t p (g j t))).

(** The holding cost that the subproblem puts on z.j.t.r, and the cost of a
    valuation of its columns. *)
Definition z_cost (inp : Instance) (j t r : nat) : Q := v_obj (z_column inp j t r).

Definition holding_cost (inp : Instance) (nu : VarName -> Q) : Q :=
  Qsum_triples (nI inp) (nP inp) (fun j t r => z_cost inp j t r * nu (VZ j t r))%Q.

(** [nu] is a solution of the subproblem for the setup vector [ySol]: it
    respects the lower bounds of the columns and the rows with the
    right-hand sides that [solveSubPrimal] sets for [ySol]. *)
Definition sub_feasible (inp : Instance) (ySol : list (list Q)) (nu : VarName -> Q)
  : Prop :=
  (forall j t r, j < nI inp -> t <= r < nP inp ->
     (v_lb (z_column inp j t r) <= nu (VZ j t r))%Q) /\
  Forall (row_holds nu)
    (worker_lp_rows inp (fun t => new_rhs inp ySol (Capacity t))
       (fun j t r => new_rhs inp ySol (Logic j t r))).

(** Multipliers [G] of the rows of the subproblem, as a solver returns them
    for a minimization: not positive on the rows of sense L, and on every
    column z.j.t.r the combination of the rows stays below [cost j t r]
    (the column costs for dual values, zero for a Farkas vector). *)
Definition multipliers_ok (inp : Instance) (cost : nat -> nat -> nat -> Q)
  (G : ConstrName -> Q) : Prop :=
  (forall t, t < nP inp -> (G (Capacity t) <= 0)%Q) /\
  (forall j t r, j < nI inp -> t <= r < nP inp -> (G (Logic j t r) <= 0)%Q) /\
  (forall j t r, j < nI inp -> t <= r < nP inp ->
     (at2 (a inp) j t * G (Capacity t) + G (Demand j r) + G (Logic j t r)
      <= cost j t r)%Q).

(** The multipliers applied to the right-hand sides of the subproblem for
    [ySol]. *)
Definition multipliers_value (inp : Instance) (G : ConstrName -> Q)
  (ySol : list (list Q)) : Q :=
  Qsum (map (fun n => G n * worker_rhs inp ySol n)%Q (worker_rows inp)).

(** The setup times weighted by the capacity multipliers, at the
    difference of two setup vectors. *)
Definition setup_shift (inp : Instance) (G : ConstrName -> Q)
  (y ySol : list (list Q)) : Q :=
  Qsum_pairs inp
    (fun j t => at2 (m inp) j t * G (Capacity t) * (at2 y j t - at2 ySol j t))%Q.

(** For [inst_two_periods]: the setup vector with a setup in both periods;
    the plan that produces each demand in its period; a master point with
    these setups and zHat at 0; a solver that reports infeasibility with a
    Farkas vector that is 1 on the demand rows and -1 on the others; a
    solver that reports the optimum 0 with the dual 1 on "demand.j.1" and
    -1 on "logic.j.1.1". *)
Definition ySol_ones : list (list Q) := [[1; 1]]%Q.

Definition valuation_plan (n : VarName) : Q :=
  match n with
  | VY _ _ => 1
  | VZ _ 0 1 => 0
  | VZ _ _ _ => 5
  | VZHat => 0
  end.

Definition point_plan (i : nat) : Q :=
  match i with
  | 0 => 1
  | 1 => 1
  | _ => 0
  end.

Definition solve_farkas : Solver :=
  fun cpx => mkSolution infeasible 0 (fun _ => 0%Q) (fun _ => 0%Q)
               (map (fun k => match c_name k with
                              | Some (Demand _ _) => 1%Q
                              | _ => (- 1)%Q
                              end) (linear_constraints cpx)).

Definition solve_certified : Solver :=
  fun _ => mkSolution optimal 0 (fun _ => 0%Q)
             (fun n => match n with
                       | Demand _ 1 => 1%Q
                       | Logic _ 1 1 => (- 1)%Q
                       | _ => 0%Q
                       end) [].

Definition worker_after_farkas : WorkerLPPrimal :=
  Eval vm_compute in
    match solveSubPrimal solve_farkas worker_two_periods inst_two_periods ySol_half 3
            y_ilo_two_periods z_ilo_two_periods with
    | Some (w, _) => w
    | None => worker_two_periods
    end.

Definition worker_after_certified : WorkerLPPrimal :=
  Eval vm_compute in
    match solveSubPrimal solve_certified worker_two_periods inst_two_periods ySol_ones 3
            y_ilo_two_periods z_ilo_two_periods with
    | Some (w, _) => w
    | None => worker_two_periods
    end.

(** ** Reading an instance file *)

(** A field of a line after [split()]: text that [int] accepts, text that
    only [float] accepts (read as an exact rational), or anything else. *)
Inductive Token : Type :=
| tok_int (n : Z)
| tok_float (q : Q)
| tok_other.

Definition py_int (v : Token) : option Z :=
  match v with
  | tok_int n => Some n
  | _ => None
  end.

Definition py_float (v : Token) : option Q :=
  match v with
  | tok_int n => Some (inject_Z n)
  | tok_float q => Some q
  | tok_other => None
  end.

(** What is left of the open file: its lines, each split into fields. *)
Definition File : Type := list (list Token).

(** [ff.readline().split()]: at the end of the file [readline] returns the
    empty string, which has no field. *)
Definition readline (ff : File) : list Token * File :=
  match ff with
  | [] => ([], [])
  | line :: rest => (line, rest)
  end.

(** [[g(v) for v in l]], where [g] may raise. *)
Fixpoint mapT {A B : Type} (g : A -> option B) (l : list A) : option (list B) :=
  match l with
  | [] => Some []
  | v :: l' => x <- g v ;; xs <- mapT g l' ;; Some (x :: xs)
  end.

(** [self.nI, self.nP = [int(v) for v in ff.readline().split()]]. The
    counts are kept as naturals: a negative count behaves as 0 in every
    [range] and list repetition of the readers and of the constructor. *)
Definition read_header (ff : File) : option (nat * nat * File) :=
  let '(data, ff) := readline ff in
  hdr <- mapT py_int data ;;
  match hdr with
  | [x; y] => Some (Z.to_nat x, Z.to_nat y, ff)
  | _ => None
  end.

(** [temp = [float(v) for v in ff.readline().split()]]. *)
Definition read_floats (ff : File) : option (list Q * File) :=
  let '(data, ff) := readline ff in
  temp <- mapT py_float data ;;
  Some (temp, ff).

(** [M[i].append(x)]. *)
Definition append_at (M : list (list Q)) (i : nat) (x : Q) : option (list (list Q)) :=
  row <- get M i ;;
  Some (firstn i M ++ [row ++ [x]] ++ skipn (S i) M).

(** One line of [readSmallInstances] per item: the first number is read and
    dropped ([a] is 1.0 in every period), the next three are the holding
    cost, the setup time and the setup cost of the item. *)
Definition small_item (i : nat) (st : File * Instance) : option (File * Instance) :=
  let '(ff, self) := st in
  '(temp, ff) <- read_floats ff ;;
  t1 <- get temp 1 ;;
  t2 <- get temp 2 ;;
  t3 <- get temp 3 ;;
  Some (ff,
        mkInstance (nI self) (nP self) (d self)
          (c self ++ [repeat 0%Q (nP self)])
          (f self ++ [repeat t3 (nP self)])
          (h self ++ [repeat t1 (nP self)])
          (a self ++ [repeat 1%Q (nP self)])
          (m self ++ [repeat t2 (nP self)])
          (cap self) (dcum self) (max_prod self)).

(** One line per period: the demands of all items in this period. *)
Definition small_demand (t : nat) (st : File * Instance) : option (File * Instance) :=
  let '(ff, self) := st in
  '(temp, ff) <- read_floats ff ;;
  d' <- forM (range 0 (nI self))
          (fun i dd => x <- get temp i ;; append_at dd i x) (d self) ;;
  Some (ff,
        mkInstance (nI self) (nP self) d' (c self) (f self) (h self) (a self)
          (m self) (cap self) (dcum self) (max_prod self)).

(** [readSmallInstances] up to its last loop; that loop, the cumulative
    demand, is the first step of [Instance_init]. *)
Definition readSmallInstances (ff : File) : option Instance :=
  '(n, p, ff) <- read_header ff ;;
  '(capl, ff) <- read_floats ff ;;
  let self := mkInstance n p [] [] [] [] [] [] (concat (repeat capl p)) [] [] in
  '(ff, self) <- forM (range 0 n) small_item (ff, self) ;;
  let self := mkInstance n p (repeat [] n) (c self) (f self) (h self) (a self)
                (m self) (cap self) (dcum self) (max_prod self) in
  '(_, self) <- forM (range 0 p) small_demand (ff, self) ;;
  Some self.

(** The passes of [readLargeInstances]. *)
Definition large_setup (i : nat) (st : File * Instance) : option (File * Instance) :=
  let '(ff, self) := st in
  '(temp, ff) <- read_floats ff ;;
  t1 <- get temp 1 ;;
  Some (ff,
        mkInstance (nI self) (nP self) (d self) (c self)
          (f self ++ [repeat t1 (nP self)]) (h self) (a self) (m self)
          (cap self) (dcum self) (max_prod self)).

Definition large_holding (i : nat) (st : File * Instance) : option (File * Instance) :=
  let '(ff, self) := st in
  '(temp, ff) <- read_floats ff ;;
  t1 <- get temp 1 ;;
  Some (ff,
        mkInstance (nI self) (nP self) (d self) (c self) (f self)
          (h self ++ [repeat t1 (nP self)]) (a self) (m self)
          (cap self) (dcum self) (max_prod self)).

Definition large_demand (i t : nat) (st : File * Instance) : option (File * Instance) :=
  let '(ff, self) := st in
  '(temp, ff) <- read_floats ff ;;
  t2 <- get temp 2 ;;
  d' <- append_at (d self) i t2 ;;
  Some (ff,
        mkInstance (nI self) (nP self) d' (c self) (f self) (h self) (a self)
          (m self) (cap self) (dcum self) (max_prod self)).

(** A line that is read and not looked at. *)
Definition large_skip (i t tp : nat) (st : File * Instance) : option (File * Instance) :=
  let '(ff, self) := st in
  let '(_, ff) := readline ff in
  Some (ff, self).

Definition large_usage (i : nat) (st : File * Instance) : option (File * Instance) :=
  let '(ff, self) := st in
  '(temp, ff) <- read_floats ff ;;
  t1 <- get temp 1 ;;
  Some (ff,
        mkInstance (nI self) (nP self) (d self)
          (c self ++ [repeat 0%Q (nP self)]) (f self) (h self)
          (a self ++ [repeat t1 (nP self)])
          (m self ++ [repeat 0%Q (nP self)])
          (cap self) (dcum self) (max_prod self)).

Definition large_cap (t : nat) (st : File * Instance) : option (File * Instance) :=
  let '(ff, self) := st in
  '(temp, ff) <- read_floats ff ;;
  t1 <- get temp 1 ;;
  Some (ff,
        mkInstance (nI self) (nP self) (d self) (c self) (f self) (h self)
          (a self) (m self) (cap self ++ [t1]) (dcum self) (max_prod self)).

Definition skip_triples (n p : nat) (st : File * Instance) : option (File * Instance) :=
  forM (range 0 n)
    (fun i => forM (range 0 p) (fun t => forM (range t p) (large_skip i t))) st.

Definition readLargeInstances (ff : File) : option Instance :=
  '(n, p, ff) <- read_header ff ;;
  let self := mkInstance n p (repeat [] n) [] [] [] [] [] [] [] [] in
  st <- forM (range 0 n) large_setup (ff, self) ;;
  st <- forM (range 0 n) large_holding st ;;
  st <- forM (range 0 n) (fun i => forM (range 0 p) (large_demand i)) st ;;
  st <- skip_triples n p st ;;
  st <- skip_triples n p st ;;
  st <- forM (range 0 n) large_usage st ;;
  '(_, self) <- forM (range 0 p) large_cap st ;;
  Some self.

(** [Instance(inputfile)]: the reader chosen by [largeInstances], then the
    rest of the constructor. *)
Definition Instance_new (largeInstances : bool) (ff : File) : option Instance :=
  raw <- (if largeInstances then readLargeInstances ff else readSmallInstances ff) ;;
  Instance_init largeInstances raw.

(** The lines of a block of the file as numbers. *)
Definition parse_lines (ls : list (list Token)) : option (list (list Q)) :=
  mapT (mapT py_float) ls.
(* ================================================================= *)
(** * Properties *)

(** ** The error monad and the loops *)

Lemma bind_Some {A B : Type} (mx : option A) (k : A -> option B) (b : B) :
  bind mx k = Some b -> exists x, mx = Some x /\ k x = Some b.
Proof.
  destruct mx as [x|]; simpl; intros H; [exists x; auto | discriminate].
Qed.

Ltac inv_bind H :=
  let x := fresh "x" in
  let Hx := fresh "Hx" in
  apply bind_Some in H; destruct H as [x [Hx H]].

(** Shapes and well-formedness of a literal instance. *)
Ltac solve_shape := split; [reflexivity | repeat constructor].
Ltac solve_wf := constructor; simpl; solve [solve_shape | reflexivity].

(** A loop over [l] keeps an invariant that is indexed by the part of [l]
    already processed, and does not raise, if every pass does so. *)
Lemma forM_inv {St : Type} (I : list nat -> St -> Prop) (body : nat -> St -> option St) :
  forall (l done : list nat) (s : St),
    I done s ->
    (forall pre i s0, (exists post, done ++ l = pre ++ i :: post) ->
        length done <= length pre ->
        I pre s0 -> exists s1, body i s0 = Some s1 /\ I (pre ++ [i]) s1) ->
    exists s', forM l body s = Some s' /\ I (done ++ l) s'.
Proof.
  induction l as [|i l IH]; intros done s HI Hstep.
  - exists s. rewrite app_nil_r. auto.
  - destruct (Hstep done i s) as [s1 [Hb HI1]]; auto.
    { exists l. reflexivity. }
    simpl. rewrite Hb. simpl.
    destruct (IH (done ++ [i]) s1 HI1) as [s' [Hs' HI']].
    + intros pre k s0 [post Hpost] Hlen HIpre.
      apply Hstep; auto.
      * exists post. rewrite <- Hpost, <- app_assoc. reflexivity.
      * rewrite length_app in Hlen. simpl in Hlen. lia.
    + exists s'. split; auto. rewrite <- app_assoc in HI'. exact HI'.
Qed.

(** The same for [for i in range(a, b)], the invariant indexed by the next
    value of [i]. *)
Lemma forM_range_inv {St : Type} (I : nat -> St -> Prop) (body : nat -> St -> option St)
  (a b : nat) (s : St) :
  a <= b ->
  I a s ->
  (forall i s0, a <= i < b -> I i s0 -> exists s1, body i s0 = Some s1 /\ I (S i) s1) ->
  exists s', forM (range a b) body s = Some s' /\ I b s'.
Proof.
  intros Hab HI Hstep.
  destruct (@forM_inv St (fun done s0 => I (a + length done) s0) body
              (range a b) [] s) as [s' [Hs' HI']].
  - simpl. rewrite Nat.add_0_r. exact HI.
  - intros pre i s0 [post Hpost] _ HIpre. simpl in Hpost.
    assert (Hi : i = a + length pre /\ a + length pre < b).
    { unfold range in Hpost.
      assert (Hn : nth_error (seq a (b - a)) (length pre) = Some i).
      { rewrite Hpost, nth_error_app2, Nat.sub_diag by lia. reflexivity. }
      assert (Hlt : length pre < length (seq a (b - a))).
      { apply nth_error_Some. rewrite Hn. discriminate. }
      rewrite length_seq in Hlt.
      rewrite nth_error_nth' with (d := 0) in Hn by (rewrite length_seq; lia).
      rewrite seq_nth in Hn by lia. inversion Hn. lia. }
    destruct Hi as [-> Hlt].
    destruct (Hstep (a + length pre) s0) as [s1 [Hb H1]]; [lia | exact HIpre |].
    exists s1. split; auto. rewrite length_app. simpl.
    replace (a + (length pre + 1)) with (S (a + length pre)) by lia. exact H1.
  - exists s'. split; auto. simpl in HI'. unfold range in HI'.
    rewrite length_seq in HI'. replace (a + (b - a)) with b in HI' by lia. exact HI'.
Qed.

(** A comprehension whose element never raises is a [map]. *)
Lemma mapM_map {A : Type} (fm : nat -> option A) (g : nat -> A) (l : list nat) :
  (forall i, In i l -> fm i = Some (g i)) -> mapM fm l = Some (map g l).
Proof.
  induction l as [|i l IH]; intros H; simpl; auto.
  rewrite (H i) by (left; reflexivity). simpl.
  rewrite IH by (intros k Hk; apply H; right; exact Hk). reflexivity.
Qed.

Lemma in_range (a b i : nat) : In i (range a b) <-> a <= i < b.
Proof. unfold range. rewrite in_seq. lia. Qed.

Lemma length_range (a b : nat) : length (range a b) = b - a.
Proof. unfold range. apply length_seq. Qed.

Lemma nth_range (a b k : nat) : k < b - a -> nth k (range a b) 0 = a + k.
Proof. intros H. unfold range. apply seq_nth. exact H. Qed.

Lemma range_snoc (a b : nat) : a <= b -> range a (S b) = range a b ++ [b].
Proof.
  intros H. unfold range. replace (S b - a) with (S (b - a)) by lia.
  rewrite seq_S. replace (a + (b - a)) with b by lia. reflexivity.
Qed.

Lemma range_nil (a : nat) : range a a = [].
Proof. unfold range. rewrite Nat.sub_diag. reflexivity. Qed.

Lemma range_cons (a b : nat) : a < b -> range a b = a :: range (S a) b.
Proof.
  intros H. unfold range. replace (b - a) with (S (b - S a)) by lia. reflexivity.
Qed.

(** ** Lists and matrices *)

Lemma get_nth (l : list Q) (i : nat) : i < length l -> get l i = Some (at1 l i).
Proof. intros H. unfold get, at1. apply nth_error_nth'. exact H. Qed.

Lemma get_map_range {A : Type} (g : nat -> A) (a b i : nat) :
  i < b - a -> get (map g (range a b)) i = Some (g (a + i)).
Proof.
  intros H. unfold get. rewrite nth_error_map.
  rewrite nth_error_nth' with (d := 0) by (rewrite length_range; exact H).
  rewrite nth_range by exact H. reflexivity.
Qed.

Lemma shape_row {A : Type} (n p : nat) (M : list (list A)) (j : nat) :
  shape n p M -> j < n -> exists row, get M j = Some row /\ length row = p.
Proof.
  intros [Hn Hall] Hj. unfold get.
  destruct (nth_error M j) as [row|] eqn:E.
  - exists row. split; auto. rewrite Forall_forall in Hall. apply Hall.
    eapply nth_error_In. exact E.
  - apply nth_error_None in E. lia.
Qed.

Lemma get2_shape {A : Type} (n p : nat) (M : list (list A)) (j t : nat) :
  shape n p M -> j < n -> t < p -> exists x, get2 M j t = Some x.
Proof.
  intros HM Hj Ht. destruct (shape_row _ _ _ _ HM Hj) as [row [Hrow Hlen]].
  unfold get2. rewrite Hrow. simpl. unfold get.
  destruct (nth_error row t) as [x|] eqn:E; [exists x; reflexivity|].
  apply nth_error_None in E. lia.
Qed.

Lemma get2_at2 (n p : nat) (M : list (list Q)) (j t : nat) :
  shape n p M -> j < n -> t < p -> get2 M j t = Some (at2 M j t).
Proof.
  intros HM Hj Ht. destruct (shape_row _ _ _ _ HM Hj) as [row [Hrow Hlen]].
  unfold get2, at2. rewrite Hrow. simpl. unfold get in *.
  rewrite (nth_error_nth _ _ [] Hrow).
  apply nth_error_nth'. lia.
Qed.

Lemma py_get_nat {A : Type} (l : list A) (r t : nat) :
  t <= r -> py_get l (Z.of_nat r - Z.of_nat t) = get l (r - t).
Proof.
  intros H. unfold py_get, get.
  replace (Z.of_nat r - Z.of_nat t)%Z with (Z.of_nat (r - t)) by lia.
  destruct (0 <=? Z.of_nat (r - t))%Z eqn:E; [|apply Z.leb_gt in E; lia].
  rewrite Nat2Z.id. reflexivity.
Qed.

(** ** Sums *)

Lemma fold_Qplus_acc (l : list Q) (x : Q) :
  (fold_left Qplus l x == x + fold_left Qplus l 0)%Q.
Proof.
  revert x. induction l as [|y l IH]; intros x; simpl.
  - ring.
  - rewrite IH. rewrite (IH (0 + y)%Q). ring.
Qed.

Lemma Qsum_cons (x : Q) (l : list Q) : (Qsum (x :: l) == x + Qsum l)%Q.
Proof. unfold Qsum. simpl. rewrite fold_Qplus_acc. ring. Qed.

Lemma Qsum_snoc (l : list Q) (x : Q) : (Qsum (l ++ [x]) == Qsum l + x)%Q.
Proof. unfold Qsum. rewrite fold_left_app. simpl. reflexivity. Qed.

Lemma Qsum_nonneg (l : list Q) : Forall (fun x => 0 <= x)%Q l -> (0 <= Qsum l)%Q.
Proof.
  induction 1 as [|x l Hx Hl IH].
  - unfold Qsum. simpl. apply Qle_refl.
  - rewrite Qsum_cons. lra.
Qed.

Lemma Qsum_range_first (a b : nat) (g : nat -> Q) :
  a < b -> (Qsum_range a b g == g a + Qsum_range (S a) b g)%Q.
Proof.
  intros H. unfold Qsum_range. rewrite range_cons by exact H. simpl map.
  apply Qsum_cons.
Qed.

Lemma Qsum_range_last (a b : nat) (g : nat -> Q) :
  a <= b -> (Qsum_range a (S b) g == Qsum_range a b g + g b)%Q.
Proof.
  intros H. unfold Qsum_range. rewrite range_snoc by exact H.
  rewrite map_app. simpl. apply Qsum_snoc.
Qed.

Lemma Qsum_range_nonneg (a b : nat) (g : nat -> Q) :
  (forall i, a <= i < b -> (0 <= g i)%Q) -> (0 <= Qsum_range a b g)%Q.
Proof.
  intros H. apply Qsum_nonneg. apply Forall_forall. intros x Hx.
  apply in_map_iff in Hx. destruct Hx as [i [<- Hi]]. apply H.
  apply in_range. exact Hi.
Qed.

Lemma Qsum_range_ext (a b : nat) (g g' : nat -> Q) :
  (forall i, a <= i < b -> (g i == g' i)%Q) -> (Qsum_range a b g == Qsum_range a b g')%Q.
Proof.
  intros H. destruct (Nat.le_gt_cases b a) as [Hle|Hlt].
  - unfold Qsum_range, range. replace (b - a) with 0 by lia. reflexivity.
  - induction b as [|b IH]; [lia|].
    destruct (Nat.eq_dec a b) as [->|Hne].
    + unfold Qsum_range. rewrite !range_cons, range_nil by lia. simpl.
      rewrite !Qsum_cons. rewrite H by lia. reflexivity.
    + rewrite !Qsum_range_last by lia. rewrite IH, H by (try lia; intros; apply H; lia).
      reflexivity.
Qed.

Lemma mapM_pointwise {A : Type} (P : nat -> A -> Prop) (fm : nat -> option A)
  (l : list nat) :
  (forall i, In i l -> exists x, fm i = Some x /\ P i x) ->
  exists xs, mapM fm l = Some xs /\ length xs = length l /\
             forall k, k < length l ->
               exists x, nth_error xs k = Some x /\ P (nth k l 0) x.
Proof.
  induction l as [|i l IH]; intros H.
  - exists []. repeat split; auto. simpl. intros k Hk. lia.
  - destruct (H i) as [x [Hx HP]]; [left; reflexivity|].
    destruct IH as [xs [Hxs [Hlen Hall]]].
    { intros k Hk. apply H. right. exact Hk. }
    exists (x :: xs). simpl. rewrite Hx. simpl. rewrite Hxs. simpl.
    repeat split; auto.
    intros [|k] Hk; simpl.
    + exists x. auto.
    + apply Hall. lia.
Qed.

(** ** Instance: cumulative demand and production caps *)

Lemma nth_error_rev_seq (k p i : nat) :
  nth_error (rev (seq 0 k)) p = Some i -> i = k - 1 - p /\ p < k.
Proof.
  intros H.
  assert (Hp : p < k).
  { assert (Hlt : p < length (rev (seq 0 k))).
    { apply nth_error_Some. rewrite H. discriminate. }
    rewrite length_rev, length_seq in Hlt. exact Hlt. }
  split; auto.
  rewrite nth_error_nth' with (d := 0) in H by (rewrite length_rev, length_seq; exact Hp).
  rewrite rev_nth in H by (rewrite length_seq; exact Hp).
  rewrite length_seq, seq_nth in H by lia.
  inversion H. lia.
Qed.

Lemma cum_demand_row_spec (inp : Instance) (j : nat) :
  shape (nI inp) (nP inp) (d inp) -> 1 <= nP inp -> j < nI inp ->
  exists row, cum_demand_row inp j = Some row /\ length row = nP inp /\
    forall t, t < nP inp ->
      (at1 row t == Qsum_range t (nP inp) (at2 (d inp) j))%Q.
Proof.
  intros Hd Hn Hj. set (n := nP inp) in *.
  destruct (shape_row _ _ _ _ Hd Hj) as [dj [Hdj Hlen]].
  assert (Hat : forall t, at2 (d inp) j t = at1 dj t).
  { intros t. unfold at2, at1. unfold get in Hdj.
    rewrite (nth_error_nth _ _ [] Hdj). reflexivity. }
  unfold cum_demand_row. rewrite Hdj. simpl.
  replace (Z.of_nat (nP inp) - 1)%Z with (Z.of_nat (nP inp) - Z.of_nat 1)%Z by lia.
  rewrite py_get_nat by exact Hn. fold n.
  rewrite get_nth by lia. simpl.
  destruct (@forM_inv (list Q * nat)
              (fun done st =>
                 snd st = length done /\ length (fst st) = S (length done) /\
                 forall i, i <= length done ->
                   (at1 (fst st) i == Qsum_range (n - 1 - i) n (at1 dj))%Q)
              (cum_step dj) (rev (seq 0 (n - 1))) [] ([at1 dj (n - 1)], 0))
    as [[aux progr] [Hrun [Hprogr [Hauxlen Haux]]]].
  - simpl. repeat split; auto. intros i Hi. replace i with 0 by lia.
    rewrite Nat.sub_0_r. unfold at1 at 1. simpl.
    rewrite Qsum_range_first by lia.
    unfold Qsum_range. replace (S (n - 1)) with n by lia. rewrite range_nil.
    unfold Qsum. simpl. ring.
  - intros pre i [aux progr] [post Hpost] _ [Hprogr [Hauxlen Haux]].
    simpl in Hpost, Hprogr, Hauxlen, Haux.
    assert (Hi : nth_error (rev (seq 0 (n - 1))) (length pre) = Some i).
    { rewrite Hpost, nth_error_app2, Nat.sub_diag by lia. reflexivity. }
    apply nth_error_rev_seq in Hi. destruct Hi as [Hi Hpre].
    unfold cum_step. subst progr.
    rewrite get_nth by lia. simpl. rewrite get_nth by lia. simpl.
    eexists. split; [reflexivity|]. simpl.
    rewrite !length_app. simpl. repeat split; try lia.
    intros k Hk. unfold at1 at 1.
    destruct (Nat.eq_dec k (length pre + 1)) as [->|Hne].
    + rewrite app_nth2 by lia. replace (length pre + 1 - length aux) with 0 by lia.
      simpl. fold (at1 aux (length pre)). rewrite Haux by lia.
      rewrite (Qsum_range_first (n - 1 - (length pre + 1))) by lia.
      replace (S (n - 1 - (length pre + 1))) with (n - 1 - length pre) by lia.
      replace (n - 1 - (length pre + 1)) with i by lia. ring.
    + rewrite app_nth1 by lia. apply Haux. lia.
  - simpl in Hrun, Hprogr, Hauxlen, Haux. rewrite Hrun. simpl.
    rewrite length_rev, length_seq in Hauxlen, Haux.
    exists (rev aux). split; [reflexivity|]. rewrite length_rev.
    split; [fold n; lia|].
    intros t Ht. unfold at1 at 1. rewrite rev_nth by lia.
    fold (at1 aux (length aux - S t)). rewrite Haux by lia.
    replace (n - 1 - (length aux - S t)) with t by lia.
    apply Qsum_range_ext. intros i _. rewrite Hat. reflexivity.
Qed.

Lemma cum_demand_spec (inp : Instance) :
  shape (nI inp) (nP inp) (d inp) -> 1 <= nP inp ->
  exists rows, cum_demand inp = Some rows /\ shape (nI inp) (nP inp) rows /\
    forall j t, j < nI inp -> t < nP inp ->
      (at2 rows j t == Qsum_range t (nP inp) (at2 (d inp) j))%Q.
Proof.
  intros Hd Hn. unfold cum_demand.
  destruct (@mapM_pointwise (list Q)
              (fun j row => length row = nP inp /\
                 forall t, t < nP inp ->
                   (at1 row t == Qsum_range t (nP inp) (at2 (d inp) j))%Q)
              (cum_demand_row inp) (range 0 (nI inp)))
    as [rows [Hrows [Hlen Hall]]].
  - intros j Hj. apply in_range in Hj.
    destruct (cum_demand_row_spec inp j) as [row [H1 [H2 H3]]]; auto; try lia.
    exists row. auto.
  - rewrite length_range, Nat.sub_0_r in Hlen, Hall.
    exists rows. split; [exact Hrows|]. split.
    + split; [exact Hlen|]. apply Forall_forall. intros row Hin.
      apply In_nth_error in Hin. destruct Hin as [k Hk].
      assert (Hklt : k < nI inp).
      { rewrite <- Hlen. apply nth_error_Some. rewrite Hk. discriminate. }
      destruct (Hall k Hklt) as [x [Hx [Hx1 _]]]. congruence.
    + intros j t Hj Ht. destruct (Hall j Hj) as [row [Hrow [_ Hsum]]].
      rewrite nth_range in Hsum by lia. simpl in Hsum.
      unfold at2. rewrite (nth_error_nth _ _ [] Hrow). apply Hsum. exact Ht.
Qed.

Lemma at2_app_l (M N : list (list Q)) (j t : nat) :
  j < length M -> at2 (M ++ N) j t = at2 M j t.
Proof. intros H. unfold at2. rewrite app_nth1 by exact H. reflexivity. Qed.

Lemma get2_app_l (n p : nat) (M N : list (list Q)) (j t : nat) :
  shape n p M -> j < n -> t < p -> get2 (M ++ N) j t = Some (at2 M j t).
Proof.
  intros HM Hj Ht. rewrite <- (get2_at2 _ _ _ _ _ HM Hj Ht).
  unfold get2, get. rewrite nth_error_app1 by (destruct HM; lia). reflexivity.
Qed.

Lemma nth_map_range {A : Type} (g : nat -> A) (a b k : nat) (dflt : A) :
  k < b - a -> nth k (map g (range a b)) dflt = g (a + k).
Proof. intros H. apply nth_error_nth. apply get_map_range. exact H. Qed.

Lemma at2_map_range (g : nat -> nat -> Q) (n p j t : nat) :
  j < n -> t < p ->
  at2 (map (fun j => map (g j) (range 0 p)) (range 0 n)) j t = g j t.
Proof.
  intros Hj Ht. unfold at2.
  rewrite nth_map_range by lia. rewrite nth_map_range by lia. reflexivity.
Qed.

Lemma Instance_init_spec (large : bool) (raw : Instance) :
  wf_instance raw -> 1 <= nP raw ->
  (forall j t, j < nI raw -> t < nP raw -> ~ (at2 (a raw) j t == 0)%Q) ->
  exists inp rows,
    Instance_init large raw = Some inp /\
    nI inp = nI raw /\ nP inp = nP raw /\ d inp = d raw /\
    cum_demand raw = Some rows /\ shape (nI raw) (nP raw) rows /\
    (forall j t, j < nI raw -> t < nP raw ->
       at2 (dcum inp) j t = at2 rows j t /\
       at2 (max_prod inp) j t = Qmin (cap_bound raw j t) (at2 (dcum inp) j t)).
Proof.
  intros Hwf Hn Ha. destruct Hwf as [Hd _ _ Hsa Hsm Hcap].
  destruct (cum_demand_spec raw Hd Hn) as [rows [Hrows [Hshape _]]].
  set (rd := if large then [] else rows).
  assert (Hdc : forall j t, j < nI raw -> t < nP raw ->
            get2 (rd ++ rows) j t = Some (at2 rows j t) /\
            at2 (rd ++ rows) j t = at2 rows j t).
  { intros j t Hj Ht. unfold rd. destruct large; simpl.
    - split; [apply (get2_at2 _ _ _ _ _ Hshape); auto | reflexivity].
    - split; [apply (get2_app_l _ _ _ _ _ _ Hshape); auto|].
      apply at2_app_l. destruct Hshape. lia. }
  assert (Hrow : forall j, j < nI raw ->
            max_prod_row raw (rd ++ rows) j =
            Some (map (fun t => Qmin (cap_bound raw j t) (at2 rows j t))
                    (range 0 (nP raw)))).
  { intros j Hj. unfold max_prod_row.
    rewrite mapM_map with (g := cap_bound raw j).
    - simpl. apply mapM_map. intros t Ht. apply in_range in Ht.
      rewrite get_map_range by lia. simpl.
      destruct (Hdc j t) as [-> _]; auto; try lia.
    - intros t Ht. apply in_range in Ht.
      unfold get at 1. rewrite nth_error_nth' with (d := 0%Q) by lia. simpl.
      rewrite (get2_at2 _ _ _ _ _ Hsm) by lia. simpl.
      rewrite (get2_at2 _ _ _ _ _ Hsa) by lia. simpl.
      unfold qdiv. destruct (Qeq_bool (at2 (a raw) j t) 0) eqn:E.
      + apply Qeq_bool_iff in E. exfalso. apply (Ha j t); auto; lia.
      + reflexivity. }
  eexists. exists rows. unfold Instance_init.
  assert (Hrd : (if large then Some [] else cum_demand raw) = Some rd).
  { unfold rd. destruct large; auto. }
  rewrite Hrd, Hrows. simpl.
  rewrite mapM_map
    with (g := fun j => map (fun t => Qmin (cap_bound raw j t) (at2 rows j t))
                          (range 0 (nP raw)))
    by (intros j Hj; apply in_range in Hj; apply Hrow; lia).
  cbn [bind]. split; [reflexivity|]. cbn [nI nP d dcum max_prod].
  do 4 (split; [reflexivity|]). split; [exact Hshape|].
  intros j t Hj Ht. split.
  - apply Hdc; auto.
  - rewrite at2_map_range by auto. destruct (Hdc j t) as [_ ->]; auto.
Qed.

Lemma mapM_Some_inv {A : Type} (fm : nat -> option A) (l : list nat) (xs : list A) :
  mapM fm l = Some xs -> forall i, In i l -> exists x, fm i = Some x.
Proof.
  revert xs. induction l as [|k l IH]; intros xs H i Hi; [destruct Hi|].
  simpl in H. inv_bind H. inv_bind H. destruct Hi as [->|Hi].
  - exists x. exact Hx.
  - apply (IH x0 Hx0 i Hi).
Qed.

(** A construction that does not raise has divided by nonzero [a[j][t]]
    only. *)
Lemma Instance_init_divisors (large : bool) (raw inp : Instance) :
  wf_instance raw -> Instance_init large raw = Some inp ->
  forall j t, j < nI raw -> t < nP raw -> ~ (at2 (a raw) j t == 0)%Q.
Proof.
  intros Hwf H j t Hj Ht. destruct Hwf as [_ _ _ Hsa Hsm Hcap].
  unfold Instance_init in H. inv_bind H. inv_bind H. inv_bind H.
  destruct (mapM_Some_inv _ _ _ Hx1 j) as [row Hrow]; [apply in_range; lia|].
  unfold max_prod_row in Hrow. inv_bind Hrow.
  destruct (mapM_Some_inv _ _ _ Hx2 t) as [q Hq]; [apply in_range; lia|].
  unfold get at 1 in Hq. rewrite nth_error_nth' with (d := 0%Q) in Hq by lia.
  cbn [bind] in Hq. rewrite (get2_at2 _ _ _ _ _ Hsm) in Hq by lia. cbn [bind] in Hq.
  rewrite (get2_at2 _ _ _ _ _ Hsa) in Hq by lia. cbn [bind] in Hq.
  unfold qdiv in Hq. destruct (Qeq_bool (at2 (a raw) j t) 0) eqn:E; [discriminate|].
  intros Heq. apply Qeq_bool_iff in Heq. congruence.
Qed.

(** C8 (as amended). For every instance whose demands are nonnegative and
    whose capacity-derived bounds [(cap[t]-m[j][t])/a[j][t]] are
    nonnegative: after construction, [dcum[j][t]] is the sum of [d[j][r]]
    for [r] from [t] to the last period, [dcum[j][t] >= dcum[j][t+1] >= 0]
    before the last period, and [max_prod[j][t]] is the minimum of
    [(cap[t]-m[j][t])/a[j][t]] and [dcum[j][t]] and is nonnegative.
    Construction does not raise when there is at least one period and no
    [a[j][t]] is zero. *)
Theorem C8_dcum_max_prod_invariants (large : bool) (raw : Instance) :
  wf_instance raw ->
  (forall j t, j < nI raw -> t < nP raw -> (0 <= at2 (d raw) j t)%Q) ->
  (forall j t, j < nI raw -> t < nP raw -> (0 <= cap_bound raw j t)%Q) ->
  (1 <= nP raw ->
   (forall j t, j < nI raw -> t < nP raw -> ~ (at2 (a raw) j t == 0)%Q) ->
   exists inp, Instance_init large raw = Some inp) /\
  (forall inp, Instance_init large raw = Some inp ->
     forall j t, j < nI raw -> t < nP raw ->
       (at2 (dcum inp) j t == Qsum_range t (nP raw) (at2 (d raw) j))%Q /\
       (S t < nP raw ->
          (at2 (dcum inp) j (S t) <= at2 (dcum inp) j t)%Q /\
          (0 <= at2 (dcum inp) j (S t))%Q) /\
       at2 (max_prod inp) j t = Qmin (cap_bound raw j t) (at2 (dcum inp) j t) /\
       (0 <= at2 (max_prod inp) j t)%Q).
Proof.
  intros Hwf Hd Hcb. split.
  { intros Hn Ha.
    destruct (Instance_init_spec large raw Hwf Hn Ha) as [inp [_ [Hinit _]]].
    exists inp. exact Hinit. }
  intros inp0 Hinit0 j0 t0 Hj0 Ht0.
  assert (Hn : 1 <= nP raw) by lia.
  pose proof (Instance_init_divisors large raw inp0 Hwf Hinit0) as Ha.
  destruct (Instance_init_spec large raw Hwf Hn Ha)
    as [inp [rows [Hinit [_ [_ [_ [Hrows [Hshape Hall]]]]]]]].
  assert (inp0 = inp) by congruence. subst inp0.
  destruct (cum_demand_spec raw (wf_d raw Hwf) Hn) as [rows' [Hrows' [_ Hsum]]].
  assert (rows' = rows) by congruence. subst rows'.
  assert (Hdc : forall j t, j < nI raw -> t < nP raw ->
            (at2 (dcum inp) j t == Qsum_range t (nP raw) (at2 (d raw) j))%Q).
  { intros j t Hj Ht. destruct (Hall j t Hj Ht) as [-> _]. apply Hsum; auto. }
  assert (Hnonneg : forall j t, j < nI raw -> t < nP raw ->
            (0 <= at2 (dcum inp) j t)%Q).
  { intros j t Hj Ht. rewrite Hdc by auto. apply Qsum_range_nonneg.
    intros i Hi. apply Hd; auto. lia. }
  split; [apply Hdc; auto|]. split.
  - intros HSt. split; [|apply Hnonneg; auto].
    rewrite (Hdc j0 t0), (Hdc j0 (S t0)) by auto.
    rewrite (Qsum_range_first t0) by lia.
    pose proof (Hd j0 t0 Hj0 Ht0). lra.
  - destruct (Hall j0 t0 Hj0 Ht0) as [_ Hmp]. split; [exact Hmp|].
    rewrite Hmp. apply Q.min_glb; [apply Hcb; auto | apply Hnonneg; auto].
Qed.

Lemma C8_dcum_max_prod_invariants_witness :
  (1 <= nP inst_two_periods ->
   (forall j t, j < nI inst_two_periods -> t < nP inst_two_periods ->
      ~ (at2 (a inst_two_periods) j t == 0)%Q) ->
   exists inp, Instance_init false inst_two_periods = Some inp) /\
  (forall inp, Instance_init false inst_two_periods = Some inp ->
     forall j t, j < nI inst_two_periods -> t < nP inst_two_periods ->
       (at2 (dcum inp) j t
        == Qsum_range t (nP inst_two_periods) (at2 (d inst_two_periods) j))%Q /\
       (S t < nP inst_two_periods ->
          (at2 (dcum inp) j (S t) <= at2 (dcum inp) j t)%Q /\
          (0 <= at2 (dcum inp) j (S t))%Q) /\
       at2 (max_prod inp) j t
       = Qmin (cap_bound inst_two_periods j t) (at2 (dcum inp) j t) /\
       (0 <= at2 (max_prod inp) j t)%Q).
Proof.
  apply (C8_dcum_max_prod_invariants false inst_two_periods).
  - solve_wf.
  - intros j t Hj Ht. simpl in Hj, Ht.
    destruct j as [|j]; [|lia]. destruct t as [|[|t]]; [| |lia];
      vm_compute; discriminate.
  - intros j t Hj Ht. simpl in Hj, Ht.
    destruct j as [|j]; [|lia]. destruct t as [|[|t]]; [| |lia];
      vm_compute; discriminate.
Defined.

Example instance_two_periods :
  option_map (fun inp => (dcum inp, max_prod inp)) (Instance_init false inst_two_periods)
  = Some ([[5 + 5; 5]; [5 + 5; 5]]%Q, [[10; 5]]%Q).
Proof. vm_compute. reflexivity. Qed.

(** C8 as stated fails: with nonnegative demands only, a setup that
    consumes more than the capacity gives a negative [max_prod]. *)
Lemma C8_max_prod_negative_counterexample :
  wf_instance inst_setup_exceeds_cap /\
  (forall j t, j < nI inst_setup_exceeds_cap -> t < nP inst_setup_exceeds_cap ->
     (0 <= at2 (d inst_setup_exceeds_cap) j t)%Q) /\
  exists inp,
    Instance_init false inst_setup_exceeds_cap = Some inp /\
    (at2 (max_prod inp) 0 0 == - (4))%Q /\
    ~ (0 <= at2 (max_prod inp) 0 0)%Q.
Proof.
  split; [solve_wf|].
  split.
  - intros j t Hj Ht. simpl in Hj, Ht.
    destruct j as [|j]; [|lia]. destruct t as [|t]; [|lia].
    vm_compute. discriminate.
  - eexists. split; [vm_compute; reflexivity|]. split.
    + vm_compute. reflexivity.
    + vm_compute. intros H. apply H. reflexivity.
Qed.

(** ** The in-out loop *)

(** What a pass leaves of the bound bookkeeping is what the [if] chain
    computed at its start. *)
Lemma newIOCycle_body_bookkeeping (solve : Solver) (inp : Instance)
  (y_ilo : list (list nat)) (z_ilo : nat) (s s' : IOState) :
  newIOCycle_body solve inp y_ilo z_ilo s = Some s' ->
  let s1 := io_update_bound (get_objective_value (solve (io_cpx s)))
              (mkIO (io_cpx s) (io_worker s) (io_lambda s) (io_delta s)
                 (io_globalProgr s) (io_yTilde s) (io_stopping s) (io_noImprov s)
                 (io_bestLB s) (io_nrIter s + 1) (io_inout s)) in
  io_lambda s' = io_lambda s1 /\ io_delta s' = io_delta s1 /\
  io_stopping s' = io_stopping s1 /\ io_noImprov s' = io_noImprov s1 /\
  io_bestLB s' = io_bestLB s1 /\
  variables (io_cpx s') = variables (io_cpx s) /\
  problem_type (io_cpx s') = problem_type (io_cpx s).
Proof.
  intros H s1. unfold newIOCycle_body in H. fold s1 in H.
  assert (Hcpx : io_cpx s1 = io_cpx s).
  { unfold s1, io_update_bound.
    repeat match goal with |- context [if ?b then _ else _] => destruct b end;
      reflexivity. }
  inv_bind H. inv_bind H. inv_bind H. inv_bind H.
  destruct x2 as [w [cutType zSub]].
  destruct (0 <? cutType).
  - inv_bind H. inv_bind H. inversion H; subst; clear H. simpl.
    rewrite Hcpx. repeat split; reflexivity.
  - inversion H; subst; clear H. simpl. rewrite Hcpx. repeat split; reflexivity.
Qed.

Lemma Qgtb_true (x y : Q) : Qgtb x y = true <-> (y < x)%Q.
Proof.
  unfold Qgtb. rewrite negb_true_iff. split.
  - intros H. apply Qnot_le_lt. intros Hle. apply Qle_bool_iff in Hle. congruence.
  - intros H. destruct (Qle_bool x y) eqn:E; auto.
    apply Qle_bool_iff in E. exfalso. apply (Qlt_not_le _ _ H E).
Qed.

Lemma Qgtb_false (x y : Q) : Qgtb x y = false <-> ~ (y < x)%Q.
Proof.
  rewrite <- Qgtb_true. destruct (Qgtb x y); split; intros; congruence.
Qed.

Lemma io_update_bound_inv (zLP : Q) (s : IOState) :
  io_inv s -> io_inv (io_update_bound zLP s).
Proof.
  intros [H1 H2]. unfold io_update_bound.
  destruct (Qgtb zLP (io_bestLB s)); [split; simpl; auto|].
  destruct (io_noImprov s <=? 5); [split; simpl; auto|].
  destruct (Qeq_bool (io_delta s) 0) eqn:Ed.
  { apply Qeq_bool_iff in Ed. split; simpl; auto. }
  destruct (Qeq_bool (io_lambda s) 1) eqn:El.
  { apply Qeq_bool_iff in El. split; simpl; intros; [reflexivity | exact El]. }
  split; simpl; intros; [auto | reflexivity].
Qed.

Lemma newIOCycle_body_inv (solve : Solver) (inp : Instance)
  (y_ilo : list (list nat)) (z_ilo : nat) (s s' : IOState) :
  newIOCycle_body solve inp y_ilo z_ilo s = Some s' -> io_inv s -> io_inv s'.
Proof.
  intros H Hinv.
  destruct (newIOCycle_body_bookkeeping _ _ _ _ _ _ H)
    as [Hl [Hd [Hs _]]].
  set (s0 := mkIO (io_cpx s) (io_worker s) (io_lambda s) (io_delta s)
               (io_globalProgr s) (io_yTilde s) (io_stopping s) (io_noImprov s)
               (io_bestLB s) (io_nrIter s + 1) (io_inout s)) in *.
  assert (H0 : io_inv s0) by exact Hinv.
  apply (io_update_bound_inv (get_objective_value (solve (io_cpx s)))) in H0.
  destruct H0 as [A B]. unfold io_inv. rewrite Hl, Hd, Hs. auto.
Qed.

(** The pass that raises the stop flag saw no improvement of the bound,
    with the counter above 5 and [_delta] already 0. *)
Lemma newIOCycle_body_stops (solve : Solver) (inp : Instance)
  (y_ilo : list (list nat)) (z_ilo : nat) (s s' : IOState) :
  newIOCycle_body solve inp y_ilo z_ilo s = Some s' ->
  io_stopping s = false -> io_stopping s' = true ->
  ~ (io_bestLB s < get_objective_value (solve (io_cpx s)))%Q /\
  5 < io_noImprov s /\ (io_delta s == 0)%Q.
Proof.
  intros H Hs Hs'.
  destruct (newIOCycle_body_bookkeeping _ _ _ _ _ _ H) as [_ [_ [Hst _]]].
  rewrite Hs' in Hst. unfold io_update_bound in Hst. simpl in Hst.
  destruct (Qgtb _ (io_bestLB s)) eqn:Eg; [simpl in Hst; congruence|].
  destruct (io_noImprov s <=? 5) eqn:En; [simpl in Hst; congruence|].
  destruct (Qeq_bool (io_delta s) 0) eqn:Ed.
  - apply Qgtb_false in Eg. apply Nat.leb_gt in En. apply Qeq_bool_iff in Ed. auto.
  - destruct (Qeq_bool (io_lambda s) 1); simpl in Hst; congruence.
Qed.

Lemma io_run_trans (solve : Solver) (inp : Instance) (y_ilo : list (list nat))
  (z_ilo : nat) (s1 s2 s3 : IOState) :
  io_run solve inp y_ilo z_ilo s1 s2 -> io_run solve inp y_ilo z_ilo s2 s3 ->
  io_run solve inp y_ilo z_ilo s1 s3.
Proof.
  intros H12 H23. induction H23.
  - exact H12.
  - eapply io_run_step; eauto.
Qed.

Lemma io_run_inv (solve : Solver) (inp : Instance) (y_ilo : list (list nat))
  (z_ilo : nat) (s s' : IOState) :
  io_run solve inp y_ilo z_ilo s s' -> io_inv s -> io_inv s'.
Proof.
  intros H Hinv. induction H; auto.
  eapply newIOCycle_body_inv; eauto.
Qed.

Lemma io_run_relaxed (solve : Solver) (inp : Instance) (y_ilo : list (list nat))
  (z_ilo : nat) (s s' : IOState) :
  io_run solve inp y_ilo z_ilo s s' -> relaxed (io_cpx s) -> relaxed (io_cpx s').
Proof.
  intros H Hr. induction H; auto.
  destruct (newIOCycle_body_bookkeeping _ _ _ _ _ _ H1) as [_ [_ [_ [_ [_ [Hv Hp]]]]]].
  destruct IHio_run as [A B]. unfold relaxed. rewrite Hv, Hp. auto.
Qed.

(** A loop that returns has run through passes to a state with the stop
    flag raised; if it was entered with the flag down, the last of these
    passes raised it. *)
Lemma newIOCycle_loop_run (solve : Solver) (inp : Instance)
  (y_ilo : list (list nat)) (z_ilo : nat) (fuel : nat) :
  forall s s', newIOCycle_loop solve fuel inp y_ilo z_ilo s = Some s' ->
    io_stopping s' = true /\
    (io_stopping s = false ->
       exists prev, io_run solve inp y_ilo z_ilo s prev /\
                    io_stopping prev = false /\
                    newIOCycle_body solve inp y_ilo z_ilo prev = Some s').
Proof.
  induction fuel as [|fuel IH]; intros s s' H; simpl in H.
  - destruct (io_stopping s) eqn:E; [|discriminate].
    inversion H; subst. split; auto. congruence.
  - destruct (io_stopping s) eqn:E.
    + inversion H; subst. split; auto. congruence.
    + inv_bind H. destruct (IH _ _ H) as [Hstop Hprev]. split; auto.
      intros _. destruct (io_stopping x) eqn:Ex.
      * destruct fuel; simpl in H; rewrite Ex in H; inversion H; subst;
          (exists s; split; [apply io_run_refl | auto]).
      * destruct (Hprev eq_refl) as [prev [Hrun [Hps Hbody]]].
        exists prev. split; [|auto].
        eapply io_run_trans; [|exact Hrun].
        eapply io_run_step; [apply io_run_refl| exact E | exact Hx].
Qed.

Lemma newIOCycle_start_inv (cpx : Cplex) (worker : WorkerLPPrimal) (inp : Instance)
  (inout : list ConstrName) :
  io_inv (newIOCycle_start cpx worker inp inout) /\
  relaxed (io_cpx (newIOCycle_start cpx worker inp inout)) /\
  io_stopping (newIOCycle_start cpx worker inp inout) = false.
Proof.
  split; [|split].
  - split; simpl; intros H; discriminate.
  - split; simpl; auto. apply Forall_forall. intros v Hv.
    apply in_map_iff in Hv. destruct Hv as [v0 [<- _]]. reflexivity.
  - reflexivity.
Qed.

(** Partial correctness of a [range] loop: an invariant that every pass
    that does not raise preserves holds when the loop returns. *)
Lemma forM_range_post {St : Type} (I : nat -> St -> Prop) (body : nat -> St -> option St)
  (b : nat) :
  forall (n a : nat) (s s' : St),
    b - a = n -> a <= b ->
    forM (range a b) body s = Some s' ->
    I a s ->
    (forall i s0 s1, a <= i < b -> I i s0 -> body i s0 = Some s1 -> I (S i) s1) ->
    I b s'.
Proof.
  induction n as [|n IH]; intros a s s' Hn Hab Hrun HI Hstep.
  - assert (a = b) by lia. subst a. rewrite range_nil in Hrun. simpl in Hrun.
    inversion Hrun; subst. exact HI.
  - rewrite range_cons in Hrun by lia. simpl in Hrun. inv_bind Hrun.
    apply (IH (S a) x s'); try lia; auto.
    + apply (Hstep a s x); auto. lia.
    + intros i s0 s1 Hi. apply Hstep. lia.
Qed.

Lemma set_nth_type_spec (ty : VarType) :
  forall (vs vs' : list Var) (i : nat),
    set_nth_type vs i ty = Some vs' ->
    (exists v', nth_error vs' i = Some v' /\ v_type v' = Some ty) /\
    (forall k v, nth_error vs k = Some v -> v_type v = Some ty ->
       exists v', nth_error vs' k = Some v' /\ v_type v' = Some ty).
Proof.
  induction vs as [|v0 vs IH]; intros vs' i H; simpl in H; [discriminate|].
  destruct i as [|i].
  - inversion H; subst; clear H. split.
    + eexists. simpl. split; reflexivity.
    + intros [|k] v Hk Hty; simpl in *.
      * eexists. split; reflexivity.
      * exists v. auto.
  - inv_bind H. inversion H; subst; clear H.
    destruct (IH _ _ Hx) as [[v' [Hv' Hty']] Hmono]. split.
    + exists v'. simpl. auto.
    + intros [|k] v Hk Hty; simpl in *.
      * exists v. auto.
      * apply (Hmono k v); auto.
Qed.

Lemma set_y_binary_spec (inp : Instance) (y_ilo : list (list nat)) (cpx cpx' : Cplex) :
  set_y_binary inp y_ilo cpx = Some cpx' ->
  problem_type cpx' = problem_type cpx /\
  forall j t, j < nI inp -> t < nP inp ->
    exists i v, get2 y_ilo j t = Some i /\ get (variables cpx') i = Some v /\
                v_type v = Some Binary.
Proof.
  intros H. unfold set_y_binary in H.
  set (done := fun (j' t' : nat) (k : Cplex) =>
         problem_type k = problem_type cpx /\
         forall j t, (j < j' \/ (j = j' /\ t < t')) -> t < nP inp ->
           exists i v, get2 y_ilo j t = Some i /\ get (variables k) i = Some v /\
                       v_type v = Some Binary).
  assert (Hfin : done (nI inp) 0 cpx').
  { apply (forM_range_post (fun j k => done j 0 k) _ (nI inp) _ 0 cpx cpx'
             eq_refl (Nat.le_0_l _) H).
    - split; auto. intros j t Hjt. lia.
    - intros j k0 k2 Hj Hdone Hrow.
      assert (Hrowdone : done j (nP inp) k2).
      { apply (forM_range_post (fun t k => done j t k) _ (nP inp) _ 0 k0 k2
                 eq_refl (Nat.le_0_l _) Hrow); [exact Hdone|].
        intros t k k1 Ht [Hpt Hk] Hbody. inv_bind Hbody.
        unfold variables_set_types in Hbody. inv_bind Hbody.
        inversion Hbody; subst; clear Hbody. simpl.
        destruct (set_nth_type_spec _ _ _ _ Hx0) as [[v' [Hv' Hty']] Hmono].
        split; auto. intros j0 t0 Hlt Ht0.
        destruct (Nat.eq_dec j0 j) as [->|Hne];
          [destruct (Nat.eq_dec t0 t) as [->|Hnet]|].
        - exists x, v'. auto.
        - destruct (Hk j t0) as [i [v [Hi [Hv Hty]]]]; [lia | auto |].
          destruct (Hmono i v Hv Hty) as [v1 [Hv1 Hty1]]. exists i, v1. auto.
        - destruct (Hk j0 t0) as [i [v [Hi [Hv Hty]]]]; [lia | auto |].
          destruct (Hmono i v Hv Hty) as [v1 [Hv1 Hty1]]. exists i, v1. auto. }
      destruct Hrowdone as [Hpt Hk]. split; auto.
      intros j0 t0 Hlt Ht0. apply Hk; auto. lia. }
  destruct Hfin as [Hpt Hk]. split; [exact Hpt|].
  intros j t Hj Ht. apply Hk; auto.
Qed.

(** C5. The stabilized cut loop returns only with the stop flag raised,
    [_delta] equal to 0 and [_lambda] equal to 1; at no pass is the flag up
    with [_delta] nonzero or [_lambda] different from 1; the pass that
    raises the flag saw no improvement of the bound, with [_delta] already
    0 and [_lambda] already 1. The master is a continuous LP in every pass,
    and [bendersDual] makes the y variables binary on the problem that the
    loop has returned. *)
Theorem C5_loop_exit_and_integer_switch (solve : Solver) (fuel : nat)
  (inp : Instance) (bd : BDState) (y_ilo : list (list nat)) (z_ilo : nat) :
  bendersDual_setup solve fuel inp = Some (bd, y_ilo, z_ilo) ->
  exists cpx worker io,
    createMaster inp Cplex_new = Some (cpx, y_ilo, z_ilo) /\
    WorkerLPPrimal_init inp = Some worker /\
    newIOCycle solve fuel cpx worker y_ilo z_ilo inp [] = Some io /\
    io_stopping io = true /\ (io_delta io == 0)%Q /\ (io_lambda io == 1)%Q /\
    (forall s, io_run solve inp y_ilo z_ilo (newIOCycle_start cpx worker inp []) s ->
       (io_stopping s = true -> (io_delta s == 0)%Q /\ (io_lambda s == 1)%Q) /\
       relaxed (io_cpx s)) /\
    (exists prev,
       io_run solve inp y_ilo z_ilo (newIOCycle_start cpx worker inp []) prev /\
       io_stopping prev = false /\
       newIOCycle_body solve inp y_ilo z_ilo prev = Some io /\
       ~ (io_bestLB prev < get_objective_value (solve (io_cpx prev)))%Q /\
       (io_delta prev == 0)%Q /\ (io_lambda prev == 1)%Q) /\
    set_y_binary inp y_ilo (set_problem_type (io_cpx io) MILP) = Some (bd_cpx bd) /\
    integer_mode inp y_ilo (bd_cpx bd).
Proof.
  intros H. unfold bendersDual_setup in H.
  inv_bind H. destruct x as [[cpx y0] z0].
  inv_bind H. rename x into worker. inv_bind H. rename x into io.
  inv_bind H. inversion H; subst; clear H. simpl.
  exists cpx, worker, io.
  destruct (newIOCycle_start_inv cpx worker inp []) as [Hinv0 [Hrel0 Hstop0]].
  assert (Hreach : forall s,
            io_run solve inp y_ilo z_ilo (newIOCycle_start cpx worker inp []) s ->
            (io_stopping s = true -> (io_delta s == 0)%Q /\ (io_lambda s == 1)%Q) /\
            relaxed (io_cpx s)).
  { intros s Hrun. split.
    - destruct (io_run_inv _ _ _ _ _ _ Hrun Hinv0) as [A B]. auto.
    - apply (io_run_relaxed _ _ _ _ _ _ Hrun Hrel0). }
  destruct (newIOCycle_loop_run _ _ _ _ _ _ _ Hx1) as [Hstop Hprev].
  destruct (Hprev Hstop0) as [prev [Hrun [Hps Hbody]]].
  assert (Hio : io_run solve inp y_ilo z_ilo (newIOCycle_start cpx worker inp []) io).
  { eapply io_run_step; eauto. }
  destruct (Hreach io Hio) as [Hexit _]. destruct (Hexit Hstop) as [Hd Hl].
  destruct (newIOCycle_body_stops _ _ _ _ _ _ Hbody Hps Hstop) as [Hno [_ Hdp]].
  destruct (io_run_inv _ _ _ _ _ _ Hrun Hinv0) as [_ Hlp].
  destruct (set_y_binary_spec _ _ _ _ Hx2) as [Hpt Hbin].
  repeat (split; [solve [auto] |]).
  split.
  { exists prev. repeat (split; [solve [auto] |]). auto. }
  split; [exact Hx2|]. split; [rewrite Hpt; reflexivity | exact Hbin].
Qed.

(** ** Nested loops *)

(** Two nested [range] loops, the invariant indexed by the pair of
    counters; [I j p] at the end of a row gives [I (S j) 0]. *)
Lemma forM2_inv {St : Type} (I : nat -> nat -> St -> Prop)
  (body : nat -> nat -> St -> option St) (n p : nat) (s : St) :
  I 0 0 s ->
  (forall j t s0, j < n -> t < p -> I j t s0 ->
     exists s1, body j t s0 = Some s1 /\ I j (S t) s1) ->
  (forall j s0, j < n -> I j p s0 -> I (S j) 0 s0) ->
  exists s', forM (range 0 n) (fun j => forM (range 0 p) (body j)) s = Some s' /\
             I n 0 s'.
Proof.
  intros H0 Hstep Hrow.
  apply (forM_range_inv (fun j s0 => I j 0 s0)); [lia | exact H0 |].
  intros j s0 Hj Hj0.
  destruct (forM_range_inv (fun t s1 => I j t s1) (body j) 0 p s0)
    as [s1 [Hs1 HI1]]; [lia | exact Hj0 | |].
  - intros t s2 Ht HI2. apply Hstep; auto; lia.
  - exists s1. split; [exact Hs1|]. apply Hrow; auto. lia.
Qed.

(** Three nested loops over [j], [t] and [r >= t]. *)
Lemma forM_tri_inv {St : Type} (I : nat -> nat -> nat -> St -> Prop)
  (body : nat -> nat -> nat -> St -> option St) (n p : nat) (s : St) :
  I 0 0 0 s ->
  (forall j t r s0, j < n -> t <= r < p -> I j t r s0 ->
     exists s1, body j t r s0 = Some s1 /\ I j t (S r) s1) ->
  (forall j t s0, j < n -> t < p -> I j t p s0 -> I j (S t) (S t) s0) ->
  (forall j s0, j < n -> I j p p s0 -> I (S j) 0 0 s0) ->
  exists s', forM (range 0 n)
               (fun j => forM (range 0 p)
                  (fun t => forM (range t p) (body j t))) s = Some s' /\
             I n 0 0 s'.
Proof.
  intros H0 Hstep Hrow Hitem.
  apply (forM_range_inv (fun j s0 => I j 0 0 s0)); [lia | exact H0 |].
  intros j s0 Hj Hj0.
  destruct (forM_range_inv (fun t s1 => I j t t s1)
              (fun t => forM (range t p) (body j t)) 0 p s0)
    as [s1 [Hs1 HI1]]; [lia | exact Hj0 | |].
  - intros t s2 Ht HI2.
    destruct (forM_range_inv (fun r s3 => I j t r s3) (body j t) t p s2)
      as [s3 [Hs3 HI3]]; [lia | exact HI2 | |].
    + intros r s4 Hr HI4. apply Hstep; auto; lia.
    + exists s3. split; [exact Hs3|]. apply Hrow; auto; lia.
  - exists s1. split; [exact Hs1|]. apply Hitem; auto. lia.
Qed.

(** ** Creation of the columns *)

Lemma extends_refl (P : Var -> Prop) (cpx : Cplex) : extends P cpx cpx.
Proof. exists []. rewrite app_nil_r. auto. Qed.

Lemma extends_trans (P : Var -> Prop) (c1 c2 c3 : Cplex) :
  extends P c1 c2 -> extends P c2 c3 -> extends P c1 c3.
Proof.
  intros [e1 [Hv1 [Hc1 Hf1]]] [e2 [Hv2 [Hc2 Hf2]]].
  exists (e1 ++ e2). rewrite Hv2, Hv1, app_assoc. repeat split; try congruence.
  apply Forall_app. auto.
Qed.

Lemma extends_get (P : Var -> Prop) (c1 c2 : Cplex) (i : nat) (v : Var) :
  extends P c1 c2 -> get (variables c1) i = Some v -> get (variables c2) i = Some v.
Proof.
  intros [e [Hv _]] H. unfold get in *. rewrite Hv.
  rewrite nth_error_app1; [exact H|]. apply nth_error_Some. congruence.
Qed.

Lemma extends_add (P : Var -> Prop) (cpx : Cplex) (v : Var) :
  P v -> extends P cpx (variables_add cpx v).
Proof. intros H. exists [v]. simpl. auto. Qed.

Lemma add_z_var_loop (inp : Instance) (j t : nat) (cpxA : Cplex) :
  shape (nI inp) (nP inp) (h inp) -> j < nI inp -> t < nP inp ->
  exists cpx zjt,
    forM (range t (nP inp)) (add_z_var inp j t) (cpxA, []) = Some (cpx, zjt) /\
    extends (zvar_ok inp) cpxA cpx /\
    length zjt = nP inp - t /\
    forall k, k < nP inp - t ->
      exists i v, get zjt k = Some i /\ get (variables cpx) i = Some v /\
                  v_name v = VZ j t (t + k).
Proof.
  intros Hh Hj Ht.
  destruct (forM_range_inv
              (fun r (st : Cplex * list nat) =>
                 extends (zvar_ok inp) cpxA (fst st) /\
                 length (snd st) = r - t /\
                 forall k, k < r - t ->
                   exists i v, get (snd st) k = Some i /\
                               get (variables (fst st)) i = Some v /\
                               v_name v = VZ j t (t + k))
              (add_z_var inp j t) t (nP inp) (cpxA, []))
    as [[cpx zjt] [Hrun [Hext [Hlen Hall]]]].
  - lia.
  - simpl. split; [apply extends_refl|]. split; [lia|]. intros k Hk. lia.
  - intros r [cpx zjt] Hr [Hext [Hlen Hall]]. simpl in Hext, Hlen, Hall.
    unfold add_z_var. destruct (get2_shape _ _ _ j t Hh Hj Ht) as [hjt Hhjt].
    rewrite Hhjt. cbn [bind]. eexists. split; [reflexivity|]. cbn [fst snd].
    set (v := mkVar (VZ j t r) (inject_Z (Z.of_nat r - Z.of_nat t) * hjt) 0 None None).
    assert (Hv : zvar_ok inp v) by (exists j, t, r; simpl; repeat split; lia).
    split; [|split].
    + eapply extends_trans; [exact Hext|]. apply extends_add. exact Hv.
    + rewrite length_app. simpl length. lia.
    + intros k Hk. destruct (Nat.eq_dec k (r - t)) as [->|Hne].
      * exists (variables_get_num cpx), v. unfold get, variables_get_num.
        split; [|split].
        -- rewrite nth_error_app2 by lia. rewrite Hlen, Nat.sub_diag. reflexivity.
        -- cbn [variables_add variables].
           rewrite nth_error_app2 by lia. rewrite Nat.sub_diag. reflexivity.
        -- unfold v. cbn [v_name]. f_equal. lia.
      * destruct (Hall k) as [i [v0 [Hi [Hv0 Hn]]]]; [lia|].
        exists i, v0. unfold get in *. rewrite nth_error_app1 by lia.
        split; [exact Hi|]. split; [|exact Hn].
        cbn [variables_add variables].
        rewrite nth_error_app1; [exact Hv0|]. apply nth_error_Some. congruence.
  - simpl in Hrun, Hext, Hlen, Hall. exists cpx, zjt. auto.
Qed.

Lemma add_z_vars_t_loop (inp : Instance) (j : nat) (cpxB : Cplex) :
  shape (nI inp) (nP inp) (h inp) -> j < nI inp ->
  exists cpx zj,
    forM (range 0 (nP inp)) (add_z_vars_t inp j) (cpxB, []) = Some (cpx, zj) /\
    extends (zvar_ok inp) cpxB cpx /\
    length zj = nP inp /\
    forall t r, t <= r < nP inp ->
      exists zjt i v, get zj t = Some zjt /\
                      py_get zjt (Z.of_nat r - Z.of_nat t) = Some i /\
                      get (variables cpx) i = Some v /\ v_name v = VZ j t r.
Proof.
  intros Hh Hj.
  destruct (forM_range_inv
              (fun t' (st : Cplex * list (list nat)) =>
                 extends (zvar_ok inp) cpxB (fst st) /\
                 length (snd st) = t' /\
                 forall t r, t < t' -> t <= r < nP inp ->
                   exists zjt i v, get (snd st) t = Some zjt /\
                     py_get zjt (Z.of_nat r - Z.of_nat t) = Some i /\
                     get (variables (fst st)) i = Some v /\ v_name v = VZ j t r)
              (add_z_vars_t inp j) 0 (nP inp) (cpxB, []))
    as [[cpx zj] [Hrun [Hext [Hlen Hall]]]].
  - lia.
  - simpl. split; [apply extends_refl|]. split; [reflexivity|]. intros; lia.
  - intros t' [cpx zj] Ht' [Hext [Hlen Hall]]. simpl in Hext, Hlen, Hall.
    unfold add_z_vars_t.
    destruct (add_z_var_loop inp j t' cpx Hh Hj) as [cpx1 [zjt [Hrun [Hext1 [Hl1 Hk]]]]];
      [lia|].
    rewrite Hrun. cbn [bind]. eexists. split; [reflexivity|]. cbn [fst snd].
    split; [eapply extends_trans; eauto|]. split; [rewrite length_app; simpl length; lia|].
    intros t r Ht Hr. destruct (Nat.eq_dec t t') as [->|Hne].
    + destruct (Hk (r - t')) as [i [v [Hi [Hv Hn]]]]; [lia|].
      exists zjt, i, v. unfold get at 1. rewrite nth_error_app2 by lia.
      rewrite Hlen, Nat.sub_diag. simpl. split; [reflexivity|].
      rewrite py_get_nat by lia. split; [exact Hi|]. split; [exact Hv|].
      rewrite Hn. f_equal. lia.
    + destruct (Hall t r) as [zjt0 [i [v [Hz [Hi [Hv Hn]]]]]]; [lia | lia |].
      exists zjt0, i, v. unfold get at 1. rewrite nth_error_app1 by lia.
      split; [exact Hz|]. split; [exact Hi|]. split; [|exact Hn].
      eapply extends_get; eauto.
  - simpl in Hrun, Hext, Hlen, Hall. exists cpx, zj.
    split; [exact Hrun|]. split; [exact Hext|]. split; [exact Hlen|].
    intros t r Hr. apply Hall; lia.
Qed.

(** The loop that creates the production variables does not raise; it only
    appends columns z.j.t.r with [t <= r], and files the column of z.j.t.r
    at [z_ilo[j][t][r-t]]. *)
Lemma add_z_vars_spec (inp : Instance) (cpx0 : Cplex) :
  shape (nI inp) (nP inp) (h inp) ->
  exists cpx z_ilo,
    add_z_vars inp cpx0 = Some (cpx, z_ilo) /\
    extends (zvar_ok inp) cpx0 cpx /\
    z_ilo_ok inp (variables cpx) z_ilo.
Proof.
  intros Hh. unfold add_z_vars.
  destruct (forM_range_inv
              (fun j' (st : Cplex * list (list (list nat))) =>
                 extends (zvar_ok inp) cpx0 (fst st) /\
                 length (snd st) = j' /\
                 forall j t r, j < j' -> t <= r < nP inp ->
                   exists i v, tri_get (snd st) j t r = Some i /\
                     get (variables (fst st)) i = Some v /\ v_name v = VZ j t r)
              (add_z_vars_j inp) 0 (nI inp) (cpx0, []))
    as [[cpx z_ilo] [Hrun [Hext [Hlen Hall]]]].
  - lia.
  - simpl. split; [apply extends_refl|]. split; [reflexivity|]. intros; lia.
  - intros j' [cpx z_ilo] Hj' [Hext [Hlen Hall]]. simpl in Hext, Hlen, Hall.
    unfold add_z_vars_j.
    destruct (add_z_vars_t_loop inp j' cpx Hh) as [cpx1 [zj [Hrun [Hext1 [Hl1 Hk]]]]];
      [lia|].
    rewrite Hrun. cbn [bind]. eexists. split; [reflexivity|]. cbn [fst snd].
    split; [eapply extends_trans; eauto|]. split; [rewrite length_app; simpl length; lia|].
    intros j t r Hj Hr. destruct (Nat.eq_dec j j') as [->|Hne].
    + destruct (Hk t r Hr) as [zjt [i [v [Hz [Hi [Hv Hn]]]]]].
      exists i, v. unfold tri_get. unfold get at 1. rewrite nth_error_app2 by lia.
      rewrite Hlen, Nat.sub_diag. simpl. rewrite Hz. simpl. auto.
    + destruct (Hall j t r) as [i [v [Hi [Hv Hn]]]]; [lia | lia |].
      exists i, v. unfold tri_get in *. unfold get at 1.
      rewrite nth_error_app1 by lia. split; [exact Hi|]. split; [|exact Hn].
      eapply extends_get; eauto.
  - simpl in Hrun, Hext, Hlen, Hall. exists cpx, z_ilo.
    split; [exact Hrun|]. split; [exact Hext|].
    intros j t r Hj Hr. apply Hall; auto.
Qed.

(** ** Construction of the subproblem *)

Lemma has_name_true (n : ConstrName) (k : Constr) :
  has_name n k = true <-> c_name k = Some n.
Proof.
  unfold has_name. destruct (c_name k) as [n'|].
  - destruct (ConstrName_eq_dec n n'); split; intros H; try congruence.
  - split; intros H; discriminate.
Qed.

Lemma has_name_with_rhs (n : ConstrName) (v : Q) (k : Constr) :
  has_name n (with_rhs v k) = has_name n k.
Proof. reflexivity. Qed.

Lemma named_existsb (cs : list Constr) (n : ConstrName) :
  In (Some n) (map c_name cs) -> existsb (has_name n) cs = true.
Proof.
  intros H. apply in_map_iff in H. destruct H as [k [Hk Hin]].
  apply existsb_exists. exists k. split; [exact Hin|]. apply has_name_true. exact Hk.
Qed.

Lemma in_cap_names (t n : nat) : t < n -> In (Capacity t) (cap_names n).
Proof.
  intros H. unfold cap_names. apply in_map. apply in_range. lia.
Qed.

Lemma in_worker_rows_capacity (inp : Instance) (t : nat) :
  t < nP inp -> In (Capacity t) (worker_rows inp).
Proof.
  intros H. unfold worker_rows. apply in_or_app. left. apply in_cap_names. exact H.
Qed.

Lemma in_worker_rows_demand (inp : Instance) (j r : nat) :
  j < nI inp -> r < nP inp -> In (Demand j r) (worker_rows inp).
Proof.
  intros Hj Hr. unfold worker_rows, dem_names.
  apply in_or_app. right. apply in_or_app. left. apply in_or_app. left.
  apply in_flat_map. exists j. split; [apply in_range; lia|].
  apply in_map. apply in_range. lia.
Qed.

Lemma in_worker_rows_logic (inp : Instance) (j t r : nat) :
  j < nI inp -> t <= r < nP inp -> In (Logic j t r) (worker_rows inp).
Proof.
  intros Hj Hr. unfold worker_rows, log_names.
  apply in_or_app. right. apply in_or_app. right. apply in_or_app. left.
  apply in_flat_map. exists j. split; [apply in_range; lia|].
  apply in_flat_map. exists t. split; [apply in_range; lia|].
  apply in_map. apply in_range. lia.
Qed.

Lemma get_rhs_demand (inp : Instance) (cs : list Constr) (j r : nat) :
  Forall (demand_rhs_ok inp) cs ->
  In (Some (Demand j r)) (map c_name cs) ->
  option_map rhs (find (has_name (Demand j r)) cs) = Some (at2 (d inp) j r).
Proof.
  intros Hall Hin. apply named_existsb in Hin.
  destruct (find (has_name (Demand j r)) cs) as [k|] eqn:E.
  - apply find_some in E. destruct E as [Hk Hname].
    apply has_name_true in Hname. rewrite Forall_forall in Hall.
    specialize (Hall k Hk). unfold demand_rhs_ok in Hall. rewrite Hname in Hall.
    simpl. rewrite Hall. reflexivity.
  - apply existsb_exists in Hin. destruct Hin as [k [Hk Hname]].
    rewrite (find_none _ _ E k Hk) in Hname. discriminate.
Qed.


Lemma rows_inv_add (inp : Instance) (vars : list Var) (names : list ConstrName)
  (cpx : Cplex) (n : ConstrName) (k : Constr) :
  rows_inv inp vars names cpx ->
  c_name k = Some n -> demand_rhs_ok inp k -> worker_row_ok inp vars k ->
  rows_inv inp vars (names ++ [n]) (linear_constraints_add cpx k).
Proof.
  intros [Hv [Hn [Hd Hc]]] Hk Hdk Hck. unfold rows_inv. simpl.
  split; [exact Hv|]. split.
  - rewrite !map_app, Hn. simpl. rewrite Hk. reflexivity.
  - split; apply Forall_app; auto.
Qed.

Lemma tri_get_name (inp : Instance) (vars : list Var)
  (z_ilo : list (list (list nat))) (j t r : nat) :
  z_ilo_ok inp vars z_ilo -> j < nI inp -> t <= r < nP inp ->
  exists i, tri_get z_ilo j t r = Some i /\ col_name vars i = Some (VZ j t r).
Proof.
  intros Hz Hj Hr. destruct (Hz j t r Hj Hr) as [i [v [Hi [Hv Hn]]]].
  exists i. split; [exact Hi|]. unfold col_name. rewrite Hv. simpl. congruence.
Qed.

Lemma get2_name (inp : Instance) (vars : list Var) (y_ilo : list (list nat))
  (j t : nat) :
  y_ilo_ok inp vars y_ilo -> j < nI inp -> t < nP inp ->
  exists i, get2 y_ilo j t = Some i /\ col_name vars i = Some (VY j t).
Proof.
  intros Hy Hj Ht. destruct (Hy j t Hj Ht) as [i [v [Hi [Hv Hn]]]].
  exists i. split; [exact Hi|]. unfold col_name. rewrite Hv. simpl. congruence.
Qed.

(** A comprehension of column numbers, each with a known name. *)
Lemma mapM_names (vars : list Var) (fm : nat -> option nat) (nm : nat -> VarName)
  (l : list nat) :
  (forall i, In i l -> exists x, fm i = Some x /\ col_name vars x = Some (nm i)) ->
  exists xs, mapM fm l = Some xs /\
             map (col_name vars) xs = map (fun i => Some (nm i)) l.
Proof.
  induction l as [|i l IH]; intros H.
  - exists []. split; reflexivity.
  - destruct (H i) as [x [Hx Hn]]; [left; reflexivity|].
    destruct IH as [xs [Hxs Hns]]. { intros k Hk. apply H. right. exact Hk. }
    exists (x :: xs). simpl. rewrite Hx. simpl. rewrite Hxs. simpl.
    rewrite Hn, Hns. split; reflexivity.
Qed.

Lemma cap_names_snoc (t : nat) : cap_names (S t) = cap_names t ++ [Capacity t].
Proof. unfold cap_names. rewrite range_snoc by lia. rewrite map_app. reflexivity. Qed.

Lemma dem_names_snoc (inp : Instance) (j r : nat) :
  dem_names inp j (S r) = dem_names inp j r ++ [Demand j r].
Proof.
  unfold dem_names. rewrite range_snoc by lia. rewrite map_app, app_assoc. reflexivity.
Qed.

Lemma dem_names_row (inp : Instance) (j : nat) :
  dem_names inp (S j) 0 = dem_names inp j (nP inp).
Proof.
  unfold dem_names. rewrite range_snoc by lia. rewrite flat_map_app.
  cbn [flat_map map]. rewrite range_nil. cbn [map].
  rewrite ?app_nil_r, <- ?app_assoc. reflexivity.
Qed.

Lemma log_names_snoc (inp : Instance) (j t r : nat) :
  t <= r -> log_names inp j t (S r) = log_names inp j t r ++ [Logic j t r].
Proof.
  intros H. unfold log_names. rewrite range_snoc by lia.
  rewrite map_app, !app_assoc. reflexivity.
Qed.

Lemma log_names_row (inp : Instance) (j t : nat) :
  log_names inp j (S t) (S t) = log_names inp j t (nP inp).
Proof.
  unfold log_names. rewrite (range_snoc 0 t) by lia. rewrite flat_map_app.
  rewrite !range_nil. cbn [flat_map map].
  rewrite ?app_nil_r, <- ?app_assoc. reflexivity.
Qed.

Lemma log_names_item (inp : Instance) (j : nat) :
  log_names inp (S j) 0 0 = log_names inp j (nP inp) (nP inp).
Proof.
  unfold log_names. rewrite (range_snoc 0 j) by lia. rewrite flat_map_app.
  rewrite !range_nil. cbn [flat_map map].
  rewrite ?app_nil_r, <- ?app_assoc. reflexivity.
Qed.

Lemma worker_capacity_terms_loop (inp : Instance) (vars : list Var)
  (z_ilo : list (list (list nat))) (t : nat) :
  shape (nI inp) (nP inp) (a inp) -> z_ilo_ok inp vars z_ilo -> t < nP inp ->
  exists index value,
    forM (range 0 (nI inp)) (worker_capacity_terms inp z_ilo t) ([], [])
      = Some (index, value) /\
    map (col_name vars) index
    = flat_map (fun j => z_names_from inp j t) (range 0 (nI inp)).
Proof.
  intros Ha Hz Ht.
  destruct (forM_range_inv
              (fun j' (st : list nat * list Q) =>
                 map (col_name vars) (fst st)
                 = flat_map (fun j => z_names_from inp j t) (range 0 j'))
              (worker_capacity_terms inp z_ilo t) 0 (nI inp) ([], []))
    as [[index value] [Hrun Hall]].
  - lia.
  - reflexivity.
  - intros j [index value] Hj Hall. simpl in Hall. unfold worker_capacity_terms.
    destruct (mapM_names vars (fun r => tri_get z_ilo j t r) (VZ j t)
                (range t (nP inp)))
      as [zs [Hzs Hcols]].
    { intros r Hr. apply in_range in Hr. apply (tri_get_name inp); auto; lia. }
    rewrite Hzs. cbn [bind].
    destruct (get2_shape _ _ _ j t Ha) as [ajt Hajt]; [lia | exact Ht |].
    rewrite Hajt. cbn [bind]. eexists. split; [reflexivity|]. cbn [fst].
    rewrite map_app, Hall, Hcols, range_snoc by lia.
    rewrite flat_map_app. cbn [flat_map]. rewrite app_nil_r. reflexivity.
  - exists index, value. auto.
Qed.

(** [WorkerLPPrimal.__init__] does not raise. Its columns are production
    variables z.j.t.r with [t <= r] only, every row mentions such columns
    only, the rows are those of [worker_rows] in this order, and each
    demand row has right-hand side [d[j][r]]. *)
Lemma WorkerLPPrimal_init_spec (inp : Instance) :
  wf_instance inp ->
  exists w,
    WorkerLPPrimal_init inp = Some w /\
    worker_ok inp w /\
    Forall (zvar_ok inp) (variables (w_cpx w)) /\
    z_ilo_ok inp (variables (w_cpx w)) (w_z_ilo w) /\
    Forall (worker_row_ok inp (variables (w_cpx w)))
      (linear_constraints (w_cpx w)).
Proof.
  intros Hwf. destruct Hwf as [Hd _ Hh Ha _ _].
  unfold WorkerLPPrimal_init.
  destruct (add_z_vars_spec inp Cplex_new Hh) as [cpx0 [z_ilo [Hz [Hext Hzok]]]].
  rewrite Hz. cbn [bind]. destruct Hext as [ext [Hvars [Hcs Hext]]].
  simpl in Hvars, Hcs. set (vars := variables cpx0) in *.
  assert (H0 : rows_inv inp vars (cap_names 0) cpx0).
  { unfold rows_inv. rewrite Hcs. simpl. repeat split; auto. }
  destruct (forM_range_inv (fun t cpx => rows_inv inp vars (cap_names t) cpx)
              (worker_add_capacity inp z_ilo) 0 (nP inp) cpx0)
    as [cpx1 [Hrun1 H1]]; [lia | exact H0 | |].
  { intros t cpx Ht Hinv. unfold worker_add_capacity.
    destruct (worker_capacity_terms_loop inp vars z_ilo t Ha Hzok)
      as [index [value [Hrun Hcols]]]; [lia|].
    rewrite Hrun. cbn [bind]. eexists. split; [reflexivity|].
    rewrite cap_names_snoc.
    apply rows_inv_add; [exact Hinv | reflexivity | exact I |].
    left. exists t. split; [lia | exact Hcols]. }
  rewrite Hrun1. cbn [bind].
  destruct (forM2_inv
              (fun j r cpx => rows_inv inp vars (cap_names (nP inp) ++ dem_names inp j r) cpx)
              (worker_add_demand inp z_ilo) (nI inp) (nP inp) cpx1)
    as [cpx2 [Hrun2 H2]].
  { unfold dem_names. simpl. rewrite app_nil_r. exact H1. }
  { intros j r cpx Hj Hr Hinv. unfold worker_add_demand.
    destruct (mapM_names vars (fun t => tri_get z_ilo j t r) (fun t => VZ j t r)
                (range 0 (r + 1)))
      as [index [Hindex Hcols]].
    { intros t Ht. apply in_range in Ht. apply (tri_get_name inp); auto; lia. }
    rewrite Hindex. cbn [bind].
    rewrite (get2_at2 _ _ _ j r Hd Hj Hr). cbn [bind].
    eexists. split; [reflexivity|].
    rewrite dem_names_snoc, app_assoc.
    apply rows_inv_add; [exact Hinv | reflexivity | reflexivity |].
    right. left. exists j, r. split; [lia|]. split; [lia | exact Hcols]. }
  { intros j cpx Hj Hinv. rewrite dem_names_row. exact Hinv. }
  rewrite Hrun2. cbn [bind].
  destruct (forM_tri_inv
              (fun j t r cpx =>
                 rows_inv inp vars
                   (cap_names (nP inp) ++ dem_names inp (nI inp) 0 ++ log_names inp j t r)
                   cpx)
              (worker_add_logic inp z_ilo) (nI inp) (nP inp) cpx2)
    as [cpx3 [Hrun3 H3]].
  { unfold log_names. simpl. rewrite app_nil_r. exact H2. }
  { intros j t r cpx Hj Hr Hinv. unfold worker_add_logic.
    destruct (tri_get_name inp vars z_ilo j t r Hzok Hj Hr) as [i [Hi Hcol]].
    rewrite Hi. cbn [bind]. eexists. split; [reflexivity|].
    rewrite log_names_snoc by lia. rewrite !app_assoc.
    apply rows_inv_add; [| reflexivity | exact I |].
    - rewrite <- app_assoc. exact Hinv.
    - right. right. exists j, t, r. split; [lia|]. split; [lia|].
      unfold row_names. simpl. rewrite Hcol. reflexivity. }
  { intros j t cpx Hj Ht Hinv. rewrite log_names_row. exact Hinv. }
  { intros j cpx Hj Hinv. rewrite log_names_item. exact Hinv. }
  rewrite Hrun3. cbn [bind].
  destruct H3 as [Hv3 [Hn3 [Hd3 Hc3]]].
  eexists. split; [reflexivity|]. cbn [w_cpx w_z_ilo].
  split.
  { constructor; simpl; auto.
    intros j r Hj Hr. apply (get_rhs_demand inp (linear_constraints cpx3)); auto.
    rewrite Hn3. apply in_map. apply in_worker_rows_demand; auto. }
  rewrite Hv3. split; [|split; auto].
  fold vars in Hvars. rewrite Hvars. exact Hext.
Qed.

(** ** Right-hand sides *)

Lemma find_set_rhs_same (n : ConstrName) (v : Q) (cs : list Constr) :
  existsb (has_name n) cs = true ->
  option_map rhs
    (find (has_name n) (map (fun k => if has_name n k then with_rhs v k else k) cs))
  = Some v.
Proof.
  induction cs as [|k cs IH]; simpl; intros H; [discriminate|].
  destruct (has_name n k) eqn:E.
  - rewrite has_name_with_rhs, E. reflexivity.
  - rewrite E. apply IH. simpl in H. exact H.
Qed.

Lemma find_set_rhs_other (n n' : ConstrName) (v : Q) (cs : list Constr) :
  n' <> n ->
  option_map rhs
    (find (has_name n') (map (fun k => if has_name n k then with_rhs v k else k) cs))
  = option_map rhs (find (has_name n') cs).
Proof.
  intros Hne. induction cs as [|k cs IH]; simpl; [reflexivity|].
  destruct (has_name n k) eqn:E.
  - rewrite has_name_with_rhs. destruct (has_name n' k) eqn:E'.
    + apply has_name_true in E. apply has_name_true in E'. congruence.
    + exact IH.
  - destruct (has_name n' k); [reflexivity | exact IH].
Qed.

Lemma map_row_frame_set_rhs (n : ConstrName) (v : Q) (cs : list Constr) :
  map row_frame (map (fun k => if has_name n k then with_rhs v k else k) cs)
  = map row_frame cs.
Proof.
  rewrite map_map. apply map_ext. intros k. destruct (has_name n k); reflexivity.
Qed.

Lemma map_c_name_frame (cs cs' : list Constr) :
  map row_frame cs = map row_frame cs' -> map c_name cs = map c_name cs'.
Proof.
  intros H. apply (f_equal (map (fun x => fst (fst x)))) in H.
  rewrite !map_map in H. exact H.
Qed.

Lemma upd_inv_refl (inp : Instance) (ySol : list (list Q)) (cpx0 : Cplex) :
  upd_inv inp ySol cpx0 (fun _ => False) cpx0.
Proof. repeat split; auto. intros H. destruct H. Qed.

Lemma upd_inv_equiv (inp : Instance) (ySol : list (list Q)) (cpx0 cpx : Cplex)
  (D D' : ConstrName -> Prop) :
  (forall n, D n <-> D' n) ->
  upd_inv inp ySol cpx0 D cpx -> upd_inv inp ySol cpx0 D' cpx.
Proof.
  intros HD [Hv [Hp [Hf Hr]]]. repeat split; auto.
  - intros H. apply Hr. apply HD. exact H.
  - intros H. apply Hr. intros H'. apply H. apply HD. exact H'.
Qed.

(** One call of [set_rhs] with the value [new_rhs] extends the set of
    re-parameterized rows by the row named. *)
Lemma upd_inv_set_rhs (inp : Instance) (ySol : list (list Q)) (cpx0 cpx : Cplex)
  (D D' : ConstrName -> Prop) (n : ConstrName) :
  upd_inv inp ySol cpx0 D cpx ->
  In (Some n) (map c_name (linear_constraints cpx0)) ->
  (forall n', D' n' <-> D n' \/ n' = n) ->
  exists cpx',
    linear_constraints_set_rhs cpx n (new_rhs inp ySol n) = Some cpx' /\
    upd_inv inp ySol cpx0 D' cpx'.
Proof.
  intros [Hv [Hp [Hf Hr]]] Hin HD.
  assert (Hex : existsb (has_name n) (linear_constraints cpx) = true).
  { apply named_existsb. rewrite (map_c_name_frame _ _ Hf). exact Hin. }
  unfold linear_constraints_set_rhs. rewrite Hex.
  eexists. split; [reflexivity|].
  unfold upd_inv, linear_constraints_get_rhs. simpl.
  split; [exact Hv|]. split; [exact Hp|]. split.
  - rewrite map_row_frame_set_rhs. exact Hf.
  - intros n'. destruct (ConstrName_eq_dec n' n) as [->|Hne].
    + split; intros H.
      * apply find_set_rhs_same. exact Hex.
      * exfalso. apply H. apply HD. right. reflexivity.
    + rewrite find_set_rhs_other by exact Hne. split; intros H.
      * apply Hr. apply HD in H. destruct H; [assumption | contradiction].
      * apply Hr. intros H'. apply H. apply HD. left. exact H'.
Qed.

Lemma Qsum_map_range (a b : nat) (g : nat -> Q) :
  Qsum (map g (range a b)) = Qsum_range a b g.
Proof. reflexivity. Qed.

(** The two re-parameterization loops of [solveSubPrimal] do not raise, and
    leave the LP with every capacity and logic row at its new right-hand
    side and everything else as it was. *)
Lemma update_rhs_spec (inp : Instance) (ySol : list (list Q)) (cpx0 : Cplex) :
  wf_instance inp -> shape (nI inp) (nP inp) ySol ->
  map c_name (linear_constraints cpx0) = map Some (worker_rows inp) ->
  exists cpx,
    update_rhs inp ySol cpx0 = Some cpx /\
    upd_inv inp ySol cpx0 (rhs_updated inp (nI inp) 0 0) cpx.
Proof.
  intros Hwf Hy Hrows. destruct Hwf as [Hd _ _ _ Hm Hcap].
  assert (Hnamed : forall n, In n (worker_rows inp) ->
            In (Some n) (map c_name (linear_constraints cpx0))).
  { intros n Hn. rewrite Hrows. apply in_map. exact Hn. }
  unfold update_rhs.
  destruct (forM_range_inv (fun t cpx => upd_inv inp ySol cpx0 (cap_updated t) cpx)
              (update_capacity_rhs inp ySol) 0 (nP inp) cpx0)
    as [cpx1 [Hrun1 H1]].
  - lia.
  - eapply upd_inv_equiv; [|apply upd_inv_refl].
    intros [t| | | |]; simpl; split; intros H; try tauto; lia.
  - intros t cpx Ht Hinv. unfold update_capacity_rhs.
    rewrite mapM_map with (g := fun j => (at2 (m inp) j t * at2 ySol j t)%Q).
    + cbn [bind]. rewrite get_nth by lia. cbn [bind]. rewrite Qsum_map_range.
      apply (upd_inv_set_rhs inp ySol cpx0 cpx (cap_updated t) (cap_updated (S t))
               (Capacity t) Hinv).
      * apply Hnamed. apply in_worker_rows_capacity. lia.
      * intros [t'|j' r'|j' t' r'|n|n]; simpl;
          try (split; [tauto | intros [H|H]; [tauto | discriminate]]).
        split; intros H.
        -- destruct (Nat.eq_dec t' t); [right; congruence | left; lia].
        -- destruct H as [H|H]; [lia | inversion H; lia].
    + intros j Hj. apply in_range in Hj.
      rewrite (get2_at2 _ _ _ j t Hm) by lia. cbn [bind].
      rewrite (get2_at2 _ _ _ j t Hy) by lia. reflexivity.
  - rewrite Hrun1. cbn [bind].
    apply (forM_tri_inv
             (fun j t r cpx => upd_inv inp ySol cpx0 (rhs_updated inp j t r) cpx)).
    + eapply upd_inv_equiv; [|exact H1].
      intros [t|j r|j t r|n|n]; simpl; split; intros H; try tauto; try lia.
    + intros j t r cpx Hj Hr Hinv. unfold update_logic_rhs.
      rewrite (get2_at2 _ _ _ j r Hd) by lia. cbn [bind].
      rewrite (get2_at2 _ _ _ j t Hy) by lia. cbn [bind].
      apply (upd_inv_set_rhs inp ySol cpx0 cpx (rhs_updated inp j t r)
               (rhs_updated inp j t (S r)) (Logic j t r) Hinv).
      * apply Hnamed. apply in_worker_rows_logic; lia.
      * intros [t'|j' r'|j' t' r'|n|n]; simpl;
          try (split; [tauto | intros [H|H]; [tauto | discriminate]]).
        split; intros H.
        -- destruct (Nat.eq_dec j' j); [|left; lia].
           destruct (Nat.eq_dec t' t); [|left; lia].
           destruct (Nat.eq_dec r' r); [right; congruence | left; lia].
        -- destruct H as [H|H]; [lia | inversion H; subst; lia].
    + intros j t cpx Hj Ht Hinv. eapply upd_inv_equiv; [|exact Hinv].
      intros [t'|j' r'|j' t' r'|n|n]; simpl; split; intros H; try tauto; lia.
    + intros j cpx Hj Hinv. eapply upd_inv_equiv; [|exact Hinv].
      intros [t'|j' r'|j' t' r'|n|n]; simpl; split; intros H; try tauto; lia.
Qed.

(** ** Positions of the rows *)

Lemma index_of_app_l (n : ConstrName) (l1 l2 : list ConstrName) :
  In n l1 -> index_of n (l1 ++ l2) = index_of n l1.
Proof.
  induction l1 as [|x l1 IH]; simpl; intros H; [destruct H|].
  destruct (ConstrName_eq_dec n x); [reflexivity|].
  f_equal. apply IH. destruct H; [congruence | assumption].
Qed.

Lemma index_of_app_r (n : ConstrName) (l1 l2 : list ConstrName) :
  ~ In n l1 -> index_of n (l1 ++ l2) = length l1 + index_of n l2.
Proof.
  induction l1 as [|x l1 IH]; simpl; intros H; [reflexivity|].
  destruct (ConstrName_eq_dec n x) as [->|Hne]; [exfalso; apply H; left; reflexivity|].
  f_equal. apply IH. intros Hin. apply H. right. exact Hin.
Qed.

Lemma index_of_head (n : ConstrName) (l : list ConstrName) :
  index_of n (n :: l) = 0.
Proof. simpl. destruct (ConstrName_eq_dec n n); congruence. Qed.

Lemma range_split (a b k : nat) :
  a <= k < b -> range a b = range a k ++ k :: range (S k) b.
Proof.
  intros H. unfold range. replace (b - a) with ((k - a) + (b - k)) by lia.
  rewrite seq_app. f_equal. replace (a + (k - a)) with k by lia.
  replace (b - k) with (S (b - S k)) by lia. reflexivity.
Qed.

Lemma in_cap_names_inv (n : ConstrName) (t' : nat) :
  In n (cap_names t') -> exists t, n = Capacity t /\ t < t'.
Proof.
  unfold cap_names. intros H. apply in_map_iff in H. destruct H as [t [<- Ht]].
  apply in_range in Ht. exists t. split; [reflexivity | lia].
Qed.

Lemma in_dem_names_inv (inp : Instance) (n : ConstrName) (j' r' : nat) :
  In n (dem_names inp j' r') ->
  exists j r, n = Demand j r /\ (j < j' \/ (j = j' /\ r < r')).
Proof.
  unfold dem_names. intros H. apply in_app_or in H. destruct H as [H|H].
  - apply in_flat_map in H. destruct H as [j [Hj H]]. apply in_range in Hj.
    apply in_map_iff in H. destruct H as [r [<- Hr]].
    exists j, r. split; [reflexivity | lia].
  - apply in_map_iff in H. destruct H as [r [<- Hr]]. apply in_range in Hr.
    exists j', r. split; [reflexivity | lia].
Qed.

Lemma in_log_names_inv (inp : Instance) (n : ConstrName) (j' t' r' : nat) :
  In n (log_names inp j' t' r') ->
  exists j t r, n = Logic j t r /\
    (j < j' \/ (j = j' /\ (t < t' \/ (t = t' /\ r < r')))).
Proof.
  unfold log_names. intros H. apply in_app_or in H. destruct H as [H|H].
  - apply in_flat_map in H. destruct H as [j [Hj H]]. apply in_range in Hj.
    apply in_flat_map in H. destruct H as [t [Ht H]].
    apply in_map_iff in H. destruct H as [r [<- Hr]].
    exists j, t, r. split; [reflexivity | lia].
  - apply in_app_or in H. destruct H as [H|H].
    + apply in_flat_map in H. destruct H as [t [Ht H]]. apply in_range in Ht.
      apply in_map_iff in H. destruct H as [r [<- Hr]].
      exists j', t, r. split; [reflexivity | lia].
    + apply in_map_iff in H. destruct H as [r [<- Hr]]. apply in_range in Hr.
      exists j', t', r. split; [reflexivity | lia].
Qed.

(** The rows before "logic.j.t.r", then this row, then the rest. *)
Lemma log_names_split (inp : Instance) (j t r : nat) :
  j < nI inp -> t <= r < nP inp ->
  exists rest,
    log_names inp (nI inp) 0 0 = log_names inp j t r ++ Logic j t r :: rest.
Proof.
  intros Hj Hr. unfold log_names.
  rewrite (range_split 0 (nI inp) j) by lia. rewrite flat_map_app.
  cbn [flat_map]. rewrite (range_split 0 (nP inp) t) by lia.
  rewrite flat_map_app. cbn [flat_map].
  rewrite (range_split t (nP inp) r) by lia. rewrite map_app. cbn [map].
  rewrite range_nil. cbn [flat_map map]. rewrite !app_nil_r.
  eexists. rewrite <- !app_assoc. cbn [app]. reflexivity.
Qed.

Lemma dem_names_split (inp : Instance) (j r : nat) :
  j < nI inp -> r < nP inp ->
  exists rest,
    dem_names inp (nI inp) 0 = dem_names inp j r ++ Demand j r :: rest.
Proof.
  intros Hj Hr. unfold dem_names.
  rewrite (range_split 0 (nI inp) j) by lia. rewrite flat_map_app.
  cbn [flat_map]. rewrite (range_split 0 (nP inp) r) by lia. rewrite map_app.
  cbn [map]. rewrite range_nil. cbn [map]. rewrite !app_nil_r.
  eexists. rewrite <- !app_assoc. cbn [app]. reflexivity.
Qed.

Lemma length_cap_names (t : nat) : length (cap_names t) = t.
Proof. unfold cap_names. rewrite length_map, length_range. lia. Qed.

Lemma length_flat_map_const {A : Type} (g : nat -> list A) (k : nat) (l : list nat) :
  (forall i, In i l -> length (g i) = k) -> length (flat_map g l) = length l * k.
Proof.
  induction l as [|i l IH]; intros H; simpl; [reflexivity|].
  rewrite length_app, IH, H; auto.
  - left. reflexivity.
  - intros i' Hi'. apply H. right. exact Hi'.
Qed.

Lemma length_dem_names (inp : Instance) (j r : nat) :
  length (dem_names inp j r) = j * nP inp + r.
Proof.
  unfold dem_names. rewrite length_app, length_map, length_range.
  rewrite length_flat_map_const with (k := nP inp).
  - rewrite length_range. lia.
  - intros i _. rewrite length_map, length_range. lia.
Qed.

(** Twice the number of pairs [t <= r] between [a] and [b]. *)
Lemma length_triangle {A : Type} (g : nat -> nat -> A) (b : nat) :
  forall n a, b - a = n -> a <= b ->
    2 * length (flat_map (fun t => map (g t) (range t b)) (range a b))
    = (b - a) * (b - a + 1).
Proof.
  induction n as [|n IH]; intros a Hn Hab.
  - assert (a = b) by lia. subst. rewrite range_nil. simpl. lia.
  - rewrite (range_cons a b) by lia. cbn [flat_map].
    rewrite length_app, length_map, length_range.
    specialize (IH (S a)). rewrite Nat.mul_add_distr_l, IH by lia. nia.
Qed.

Lemma length_log_names_item (inp : Instance) (j : nat) :
  length (log_names inp j 0 0) = j * (nP inp * (nP inp + 1) / 2).
Proof.
  unfold log_names. rewrite range_nil. cbn [flat_map map]. rewrite !app_nil_r.
  rewrite length_flat_map_const with (k := nP inp * (nP inp + 1) / 2).
  - rewrite length_range. lia.
  - intros i _.
    pose proof (length_triangle (Logic i) (nP inp) (nP inp - 0) 0 eq_refl
                  (Nat.le_0_l _)) as H.
    rewrite Nat.sub_0_r in H. rewrite <- H.
    rewrite Nat.mul_comm, Nat.div_mul by lia. reflexivity.
Qed.

Lemma farkas_nr (inp : Instance) :
  nI inp * (nP inp * (nP inp + 1)) / 2 = length (log_names inp (nI inp) 0 0).
Proof.
  rewrite length_log_names_item.
  pose proof (length_triangle (Logic 0) (nP inp) (nP inp - 0) 0 eq_refl
                (Nat.le_0_l _)) as H.
  rewrite Nat.sub_0_r in H. rewrite <- H.
  rewrite (Nat.mul_comm 2), Nat.div_mul by lia.
  rewrite Nat.mul_assoc, Nat.div_mul by lia. reflexivity.
Qed.

Lemma length_worker_rows (inp : Instance) :
  length (worker_rows inp)
  = nP inp + nP inp * nI inp + nI inp * (nP inp * (nP inp + 1)) / 2.
Proof.
  unfold worker_rows. rewrite !length_app, length_cap_names, length_dem_names.
  rewrite farkas_nr. lia.
Qed.

Lemma index_of_capacity (inp : Instance) (t : nat) :
  t < nP inp -> index_of (Capacity t) (worker_rows inp) = t.
Proof.
  intros Ht. unfold worker_rows.
  rewrite index_of_app_l by (apply in_cap_names; exact Ht).
  unfold cap_names. rewrite (range_split 0 (nP inp) t) by lia.
  rewrite map_app. cbn [map]. rewrite index_of_app_r.
  - rewrite index_of_head, length_map, length_range. lia.
  - intros H. apply in_map_iff in H. destruct H as [t' [E Ht']].
    apply in_range in Ht'. inversion E. lia.
Qed.

Lemma index_of_demand (inp : Instance) (j r : nat) :
  j < nI inp -> r < nP inp ->
  index_of (Demand j r) (worker_rows inp) = nP inp + (j * nP inp + r).
Proof.
  intros Hj Hr. unfold worker_rows. rewrite index_of_app_r.
  - rewrite length_cap_names. f_equal.
    destruct (dem_names_split inp j r Hj Hr) as [rest Hsplit].
    rewrite Hsplit, <- app_assoc. rewrite index_of_app_r.
    + cbn [app]. rewrite index_of_head, length_dem_names. lia.
    + intros H. apply in_dem_names_inv in H.
      destruct H as [j0 [r0 [E Hlt]]]. inversion E. lia.
  - intros H. apply in_cap_names_inv in H. destruct H as [t [E _]]. discriminate.
Qed.

Lemma index_of_logic (inp : Instance) (j t r : nat) :
  j < nI inp -> t <= r < nP inp ->
  index_of (Logic j t r) (worker_rows inp)
  = nP inp + nP inp * nI inp + length (log_names inp j t r).
Proof.
  intros Hj Hr. unfold worker_rows. rewrite index_of_app_r.
  - rewrite length_cap_names. rewrite index_of_app_r.
    + rewrite length_dem_names.
      destruct (log_names_split inp j t r Hj Hr) as [rest Hsplit].
      rewrite Hsplit. rewrite index_of_app_r.
      * cbn [app]. rewrite index_of_head. lia.
      * intros H. apply in_log_names_inv in H.
        destruct H as [j0 [t0 [r0 [E Hlt]]]]. inversion E. lia.
    + intros H. apply in_dem_names_inv in H.
      destruct H as [j0 [r0 [E _]]]. discriminate.
  - intros H. apply in_cap_names_inv in H. destruct H as [t0 [E _]]. discriminate.
Qed.

(** ** Tables and sums over items and periods *)

Lemma get2_at2n (n p : nat) (M : list (list nat)) (j t : nat) :
  shape n p M -> j < n -> t < p -> get2 M j t = Some (at2n M j t).
Proof.
  intros HM Hj Ht. destruct (shape_row _ _ _ _ HM Hj) as [row [Hrow Hlen]].
  unfold get2, at2n. rewrite Hrow. simpl. unfold get in *.
  rewrite (nth_error_nth _ _ [] Hrow).
  apply nth_error_nth'. lia.
Qed.

Lemma tri_get_table {A : Type} (inp : Instance) (g : nat -> nat -> nat -> A)
  (j t r : nat) :
  j < nI inp -> t <= r < nP inp ->
  tri_get (tri_table inp g) j t r = Some (g j t r).
Proof.
  intros Hj Hr. unfold tri_get, tri_table.
  rewrite get_map_range by lia. cbn [bind].
  rewrite get_map_range by lia. cbn [bind].
  rewrite py_get_nat by lia. rewrite get_map_range by lia.
  simpl. do 2 f_equal. lia.
Qed.

Lemma pairs_before_snoc {A : Type} (inp : Instance) (g : nat -> nat -> A) (j t : nat) :
  pairs_before inp g j (S t) = pairs_before inp g j t ++ [g j t].
Proof.
  unfold pairs_before. rewrite range_snoc by lia. rewrite map_app, app_assoc.
  reflexivity.
Qed.

Lemma pairs_before_row {A : Type} (inp : Instance) (g : nat -> nat -> A) (j : nat) :
  pairs_before inp g (S j) 0 = pairs_before inp g j (nP inp).
Proof.
  unfold pairs_before. rewrite range_snoc by lia. rewrite flat_map_app.
  rewrite !range_nil. cbn [flat_map map]. rewrite ?app_nil_r. reflexivity.
Qed.

Lemma Qsum_app (l1 l2 : list Q) : (Qsum (l1 ++ l2) == Qsum l1 + Qsum l2)%Q.
Proof.
  unfold Qsum. rewrite fold_left_app. rewrite fold_Qplus_acc. reflexivity.
Qed.

Lemma Qsum_pairs_before (inp : Instance) (g : nat -> nat -> Q) (j t : nat) :
  (Qsum (pairs_before inp g j t)
   == Qsum_range 0 j (fun j0 => Qsum_range 0 (nP inp) (g j0)) + Qsum_range 0 t (g j))%Q.
Proof.
  unfold pairs_before. rewrite Qsum_app. apply Qplus_comp; [|reflexivity].
  induction j as [|j IH].
  - unfold Qsum_range. rewrite range_nil. reflexivity.
  - rewrite Qsum_range_last by lia. rewrite range_snoc by lia.
    rewrite flat_map_app, Qsum_app, IH. cbn [flat_map]. rewrite app_nil_r.
    reflexivity.
Qed.

Lemma Qsum_all_pairs (inp : Instance) (g : nat -> nat -> Q) :
  (Qsum (all_pairs inp g) == Qsum_pairs inp g)%Q.
Proof.
  unfold all_pairs, Qsum_pairs. rewrite Qsum_pairs_before.
  unfold Qsum_range at 3. rewrite range_nil. unfold Qsum. simpl. ring.
Qed.

Lemma Qsum_range_opp (a b : nat) (g : nat -> Q) :
  (Qsum_range a b (fun i => - g i) == - Qsum_range a b g)%Q.
Proof.
  destruct (Nat.le_gt_cases b a) as [Hle|Hlt].
  - unfold Qsum_range, range. replace (b - a) with 0 by lia. reflexivity.
  - induction b as [|b IH]; [lia|].
    destruct (Nat.eq_dec a b) as [->|Hne].
    + unfold Qsum_range. rewrite !range_cons, range_nil by lia. simpl.
      rewrite !Qsum_cons. unfold Qsum. simpl. ring.
    + rewrite !Qsum_range_last by lia. rewrite IH by lia. ring.
Qed.

Lemma opt_coeff_code_eq (inp : Instance) (sol : Solution) (j t : nat) :
  (opt_coeff_code inp sol j t == opt_coeff inp sol j t)%Q.
Proof.
  unfold opt_coeff_code, opt_coeff.
  rewrite (Qsum_range_ext t (nP inp)
             (fun r => - get_dual_values sol (Logic j t r) * at2 (d inp) j r)
             (fun r => - (get_dual_values sol (Logic j t r) * at2 (d inp) j r)))%Q
    by (intros; ring).
  rewrite Qsum_range_opp. ring.
Qed.

(** ** The Farkas tables *)

Lemma seq_as_map (a n : nat) : seq a n = map (fun i => a + i) (seq 0 n).
Proof.
  induction n as [|n IH]; [reflexivity|].
  rewrite !seq_S, map_app, IH. reflexivity.
Qed.

Lemma farkas_lambda_spec (inp : Instance) (farkas : list Q) :
  length farkas = length (worker_rows inp) ->
  farkas_lambda inp farkas
  = Some (map (fun t => farkas_at inp farkas (Capacity t)) (range 0 (nP inp))).
Proof.
  intros Hlen. unfold farkas_lambda. apply mapM_map. intros t Ht.
  apply in_range in Ht. rewrite length_worker_rows in Hlen.
  rewrite get_nth by lia. unfold farkas_at. rewrite index_of_capacity by lia.
  reflexivity.
Qed.

Lemma farkas_omega_spec (inp : Instance) (farkas : list Q) :
  length farkas = length (worker_rows inp) ->
  farkas_omega inp farkas
  = Some (map (fun j => map (fun r => farkas_at inp farkas (Demand j r))
                          (range 0 (nP inp))) (range 0 (nI inp))).
Proof.
  intros Hlen. unfold farkas_omega. apply mapM_map. intros j Hj.
  apply in_range in Hj. rewrite length_worker_rows in Hlen.
  rewrite mapM_map with (g := at1 farkas).
  - f_equal. unfold range.
    replace (nP inp + (j + 1) * nP inp - (nP inp + j * nP inp)) with (nP inp) by lia.
    rewrite Nat.sub_0_r.
    rewrite (seq_as_map (nP inp + j * nP inp)). rewrite map_map.
    apply map_ext_in. intros r Hr.
    apply in_seq in Hr. unfold farkas_at. rewrite index_of_demand by lia.
    f_equal. lia.
  - intros k Hk. apply in_range in Hk. apply get_nth.
    assert (j * nP inp + nP inp <= nI inp * nP inp) by nia. lia.
Qed.

Lemma length_log_names_snoc (inp : Instance) (j t r : nat) :
  t <= r -> length (log_names inp j t (S r)) = S (length (log_names inp j t r)).
Proof.
  intros H. rewrite log_names_snoc by exact H. rewrite length_app. simpl. lia.
Qed.

Lemma length_log_names_lt (inp : Instance) (j t r : nat) :
  j < nI inp -> t <= r < nP inp ->
  length (log_names inp j t r) < length (log_names inp (nI inp) 0 0).
Proof.
  intros Hj Hr. destruct (log_names_split inp j t r Hj Hr) as [rest ->].
  rewrite length_app. simpl. lia.
Qed.

(** The half-triangular table that the counter [pp] fills holds, at
    [j][t][r-t], the Farkas entry of the row "logic.j.t.r". *)
Lemma farkas_epsilon_spec (inp : Instance) (farkas : list Q) :
  length farkas = length (worker_rows inp) ->
  farkas_epsilon inp farkas
  = Some (tri_table inp (fun j t r => farkas_at inp farkas (Logic j t r))).
Proof.
  intros Hlen. unfold farkas_epsilon.
  set (progr := nP inp + nP inp * nI inp).
  set (nr := nI inp * (nP inp * (nP inp + 1)) / 2).
  assert (Hnr : nr = length (log_names inp (nI inp) 0 0)) by apply farkas_nr.
  rewrite length_worker_rows in Hlen. fold progr nr in Hlen.
  rewrite mapM_map with (g := at1 farkas)
    by (intros i Hi; apply in_range in Hi; apply get_nth; lia).
  cbn [bind]. set (fLogic := map (at1 farkas) (range progr (progr + nr))).
  assert (Hget : forall j t r, j < nI inp -> t <= r < nP inp ->
            get fLogic (length (log_names inp j t r))
            = Some (farkas_at inp farkas (Logic j t r))).
  { intros j t r Hj Hr. unfold fLogic.
    pose proof (length_log_names_lt inp j t r Hj Hr) as Hlt.
    rewrite get_map_range by lia. unfold farkas_at.
    rewrite index_of_logic by auto. reflexivity. }
  set (g := fun j t r => farkas_at inp farkas (Logic j t r)).
  destruct (forM_range_inv
              (fun j (st : list (list (list Q)) * nat) =>
                 snd st = length (log_names inp j 0 0) /\
                 fst st = map (fun j0 => map (fun t0 => map (g j0 t0) (range t0 (nP inp)))
                                           (range 0 (nP inp))) (range 0 j))
              (eps_j inp fLogic) 0 (nI inp) ([], 0))
    as [[eps pp] [Hrun [_ Heps]]].
  - lia.
  - split; reflexivity.
  - intros j [eps pp] Hj [Hpp Heps]. simpl in Hpp, Heps. unfold eps_j.
    destruct (forM_range_inv
                (fun t (st : list (list Q) * nat) =>
                   snd st = length (log_names inp j t t) /\
                   fst st = map (fun t0 => map (g j t0) (range t0 (nP inp))) (range 0 t))
                (eps_t inp fLogic) 0 (nP inp) ([], pp))
      as [[aux2D pp2] [Hrun2 [Hpp2 Haux2D]]].
    + lia.
    + split; [exact Hpp | reflexivity].
    + intros t [aux2D pp2] Ht [Hpp2 Haux2D]. simpl in Hpp2, Haux2D. unfold eps_t.
      destruct (forM_range_inv
                  (fun r (st : list Q * nat) =>
                     snd st = length (log_names inp j t r) /\
                     fst st = map (g j t) (range t r))
                  (eps_r fLogic) t (nP inp) ([], pp2))
        as [[aux pp3] [Hrun3 [Hpp3 Haux]]].
      * lia.
      * split; [exact Hpp2 | rewrite range_nil; reflexivity].
      * intros r [aux pp3] Hr [Hpp3 Haux]. simpl in Hpp3, Haux. unfold eps_r.
        rewrite Hpp3, Hget by (auto; lia). cbn [bind].
        eexists. split; [reflexivity|]. cbn [fst snd]. split.
        -- rewrite length_log_names_snoc by lia. reflexivity.
        -- rewrite range_snoc by lia. rewrite map_app, Haux. reflexivity.
      * rewrite Hrun3. cbn [bind]. eexists. split; [reflexivity|].
        simpl in Hpp3, Haux. cbn [fst snd]. split.
        -- rewrite log_names_row. exact Hpp3.
        -- rewrite range_snoc by lia. rewrite map_app, Haux2D, Haux. reflexivity.
    + rewrite Hrun2. cbn [bind]. eexists. split; [reflexivity|].
      simpl in Hpp2, Haux2D. cbn [fst snd]. split.
      * rewrite log_names_item. exact Hpp2.
      * rewrite range_snoc by lia. rewrite map_app, Heps, Haux2D. reflexivity.
  - rewrite Hrun. cbn [bind]. simpl in Heps. rewrite Heps. reflexivity.
Qed.

Lemma eps_d_sum_table (inp : Instance) (g : nat -> nat -> nat -> Q) (j t : nat) :
  shape (nI inp) (nP inp) (d inp) -> j < nI inp -> t < nP inp ->
  eps_d_sum inp (tri_table inp g) j t
  = Some (Qsum_range t (nP inp) (fun r => g j t r * at2 (d inp) j r)%Q).
Proof.
  intros Hd Hj Ht. unfold eps_d_sum.
  rewrite mapM_map with (g := fun r => (g j t r * at2 (d inp) j r)%Q);
    [reflexivity|].
  intros r Hr. apply in_range in Hr. rewrite tri_get_table by lia. cbn [bind].
  rewrite (get2_at2 _ _ _ j r Hd) by lia. reflexivity.
Qed.

Lemma neg_eps_d_sum_table (inp : Instance) (g : nat -> nat -> nat -> Q) (j t : nat) :
  shape (nI inp) (nP inp) (d inp) -> j < nI inp -> t < nP inp ->
  neg_eps_d_sum inp (tri_table inp g) j t
  = Some (Qsum_range t (nP inp) (fun r => - g j t r * at2 (d inp) j r)%Q).
Proof.
  intros Hd Hj Ht. unfold neg_eps_d_sum.
  rewrite mapM_map with (g := fun r => (- g j t r * at2 (d inp) j r)%Q);
    [reflexivity|].
  intros r Hr. apply in_range in Hr. rewrite tri_get_table by lia. cbn [bind].
  rewrite (get2_at2 _ _ _ j r Hd) by lia. reflexivity.
Qed.

(** The feasibility branch does not raise; it lists the columns y.j.t in
    the order of the two loops, each with its coefficient, and no other
    column. *)
Lemma feasibility_cut_spec (inp : Instance) (farkas : list Q) (y_ilo : list (list nat)) :
  wf_instance inp -> shape (nI inp) (nP inp) y_ilo ->
  length farkas = length (worker_rows inp) ->
  exists cutRhs,
    feasibility_cut inp farkas y_ilo
    = Some (all_pairs inp (at2n y_ilo), all_pairs inp (feas_coeff inp farkas), cutRhs) /\
    (cutRhs == feas_rhs inp farkas)%Q.
Proof.
  intros Hwf Hy Hlen. destruct Hwf as [Hd _ _ _ Hm Hcap].
  unfold feasibility_cut.
  rewrite farkas_lambda_spec, farkas_omega_spec, farkas_epsilon_spec by exact Hlen.
  cbn [bind].
  pose (lam := fun t => farkas_at inp farkas (Capacity t)).
  pose (om := fun j r => farkas_at inp farkas (Demand j r)).
  pose (ep := fun j t r => farkas_at inp farkas (Logic j t r)).
  destruct (forM2_inv
              (fun j t (acc : CutAcc) =>
                 fst (fst acc) = pairs_before inp (at2n y_ilo) j t /\
                 snd (fst acc) = pairs_before inp (feas_coeff inp farkas) j t /\
                 (snd acc ==
                  - Qsum (pairs_before inp (fun j0 t0 => at2 (d inp) j0 t0 * om j0 t0) j t))%Q)
              (feas_cut_jt inp (map lam (range 0 (nP inp)))
                 (map (fun j => map (om j) (range 0 (nP inp))) (range 0 (nI inp)))
                 (tri_table inp ep) y_ilo)
              (nI inp) (nP inp) ([], [], 0%Q))
    as [[[cutVars cutVals] cutRhs] [Hrun [Hvars [Hvals Hrhs]]]].
  - cbn [fst snd]. repeat split.
  - intros j t [[cutVars cutVals] cutRhs] Hj Ht [Hvars [Hvals Hrhs]].
    cbn [fst snd] in Hvars, Hvals, Hrhs. unfold feas_cut_jt.
    rewrite (get2_at2 _ _ _ j t Hm) by lia. cbn [bind].
    rewrite get_map_range by lia. cbn [bind].
    rewrite (eps_d_sum_table inp ep j t Hd) by lia. cbn [bind].
    rewrite (get2_at2 _ _ _ j t Hd) by lia. cbn [bind].
    unfold get2 at 1. rewrite get_map_range by lia. cbn [bind].
    rewrite get_map_range by lia. cbn [bind].
    rewrite (get2_at2n _ _ _ j t Hy) by lia. cbn [bind].
    eexists. split; [reflexivity|]. cbn [fst snd].
    rewrite !pairs_before_snoc, Hvars, Hvals. repeat split.
    rewrite Qsum_snoc, Hrhs. simpl. ring.
  - intros j acc Hj H. rewrite !pairs_before_row. exact H.
  - cbn [fst snd] in Hvars, Hvals, Hrhs.
    fold (all_pairs inp (fun j0 t0 => (at2 (d inp) j0 t0 * om j0 t0)%Q)) in Hrhs.
    rewrite Qsum_all_pairs in Hrhs.
    subst lam om ep. cbv beta in Hrun, Hrhs. rewrite Hrun. cbn [bind].
    rewrite mapM_map
      with (g := fun t => (at1 (cap inp) t * farkas_at inp farkas (Capacity t))%Q).
    + cbn [bind]. eexists. split; [unfold all_pairs; rewrite Hvars, Hvals; reflexivity|].
      rewrite Hrhs. unfold feas_rhs. rewrite Qsum_map_range. reflexivity.
    + intros t Ht. apply in_range in Ht. rewrite get_nth by lia. cbn [bind].
      rewrite get_map_range by lia. reflexivity.
Qed.

Lemma Forall2_map_pointwise {A B : Type} (R : B -> B -> Prop) (g g' : A -> B)
  (l : list A) :
  (forall x, R (g x) (g' x)) -> Forall2 R (map g l) (map g' l).
Proof. intros H. induction l; simpl; constructor; auto. Qed.

Lemma Forall2_pairs_before {A : Type} (R : A -> A -> Prop) (inp : Instance)
  (g g' : nat -> nat -> A) (j t : nat) :
  (forall j0 t0, R (g j0 t0) (g' j0 t0)) ->
  Forall2 R (pairs_before inp g j t) (pairs_before inp g' j t).
Proof.
  intros H. unfold pairs_before. apply Forall2_app.
  - induction (range 0 j) as [|j0 l IH]; simpl; [constructor|].
    apply Forall2_app; [|exact IH]. apply Forall2_map_pointwise. apply H.
  - apply Forall2_map_pointwise. apply H.
Qed.

Lemma Qsum_pairs_ext (inp : Instance) (g g' : nat -> nat -> Q) :
  (forall j t, (g j t == g' j t)%Q) -> (Qsum_pairs inp g == Qsum_pairs inp g')%Q.
Proof.
  intros H. unfold Qsum_pairs. apply Qsum_range_ext. intros j _.
  apply Qsum_range_ext. intros t _. apply H.
Qed.

(** The optimality branch does not raise; it lists the columns y.j.t in
    the order of the two loops, each with its coefficient, then the column
    of zHat with coefficient -1. *)
Lemma optimality_cut_spec (inp : Instance) (w : WorkerLPPrimal) (sol : Solution)
  (ySol : list (list Q)) (y_ilo : list (list nat)) (z_ilo_master : nat) :
  wf_instance inp -> worker_ok inp w ->
  shape (nI inp) (nP inp) ySol -> shape (nI inp) (nP inp) y_ilo ->
  exists cutRhs,
    optimality_cut inp w sol ySol y_ilo z_ilo_master
    = Some (all_pairs inp (at2n y_ilo) ++ [z_ilo_master],
            all_pairs inp (opt_coeff_code inp sol) ++ [(- 1)%Q], cutRhs) /\
    (cutRhs == opt_rhs inp sol ySol)%Q.
Proof.
  intros Hwf Hw Hys Hy. destruct Hwf as [Hd _ _ _ Hm _].
  destruct Hw as [_ _ HlC HlD HlL].
  unfold optimality_cut. rewrite HlC, HlD, HlL, map_map.
  rewrite mapM_map
    with (g := fun j => map (get_dual_values sol) (map (Demand j) (range 0 (nP inp))))
    by (intros j Hj; apply in_range in Hj; rewrite get_map_range by lia; reflexivity).
  cbn [bind].
  assert (Heps :
    mapM (fun j => mapM (fun t =>
            names <- get2
                       (map (fun j0 => map (fun t0 => map (Logic j0 t0) (range t0 (nP inp)))
                                         (range 0 (nP inp))) (range 0 (nI inp))) j t ;;
            Some (map (get_dual_values sol) names)) (range 0 (nP inp)))
      (range 0 (nI inp))
    = Some (tri_table inp (fun j t r => get_dual_values sol (Logic j t r)))).
  { unfold tri_table. apply mapM_map. intros j Hj. apply in_range in Hj.
    apply mapM_map. intros t Ht. apply in_range in Ht.
    unfold get2. rewrite get_map_range by lia. cbn [bind].
    rewrite get_map_range by lia. cbn [bind]. rewrite map_map. reflexivity. }
  rewrite Heps. cbn [bind].
  pose (ep := fun j t r => get_dual_values sol (Logic j t r)).
  destruct (forM2_inv
              (fun j t (acc : CutAcc) =>
                 fst (fst acc) = pairs_before inp (at2n y_ilo) j t /\
                 snd (fst acc) = pairs_before inp (opt_coeff_code inp sol) j t /\
                 (snd acc ==
                  - get_objective_value sol
                  + Qsum (pairs_before inp
                            (fun j0 t0 => opt_coeff_code inp sol j0 t0 * at2 ySol j0 t0) j t))%Q)
              (opt_cut_jt inp ySol
                 (map (fun t => get_dual_values sol (Capacity t)) (range 0 (nP inp)))
                 (tri_table inp ep) y_ilo)
              (nI inp) (nP inp) ([], [], (- get_objective_value sol)%Q))
    as [[[cutVars cutVals] cutRhs] [Hrun [Hvars [Hvals Hrhs]]]].
  - cbn [fst snd]. repeat split. unfold pairs_before. rewrite !range_nil.
    unfold Qsum. simpl. ring.
  - intros j t [[cutVars cutVals] cutRhs] Hj Ht [Hvars [Hvals Hrhs]].
    cbn [fst snd] in Hvars, Hvals, Hrhs. unfold opt_cut_jt.
    rewrite (get2_at2 _ _ _ j t Hm) by lia. cbn [bind].
    rewrite get_map_range by lia. cbn [bind].
    rewrite (neg_eps_d_sum_table inp ep j t Hd) by lia. cbn [bind].
    rewrite (get2_at2n _ _ _ j t Hy) by lia. cbn [bind].
    rewrite (get2_at2 _ _ _ j t Hys) by lia. cbn [bind].
    eexists. split; [reflexivity|]. cbn [fst snd].
    rewrite !pairs_before_snoc, Hvars, Hvals. repeat split.
    rewrite Qsum_snoc, Hrhs. unfold opt_coeff_code, ep. simpl. ring.
  - intros j acc Hj H. rewrite !pairs_before_row. exact H.
  - cbn [fst snd] in Hvars, Hvals, Hrhs.
    fold (all_pairs inp (fun j0 t0 => (opt_coeff_code inp sol j0 t0 * at2 ySol j0 t0)%Q))
      in Hrhs.
    rewrite Qsum_all_pairs in Hrhs.
    subst ep. cbv beta in Hrun. rewrite Hrun. cbn [bind].
    eexists. split; [unfold all_pairs; rewrite Hvars, Hvals; reflexivity|].
    rewrite Hrhs. unfold opt_rhs. apply Qplus_comp; [reflexivity|].
    apply Qsum_pairs_ext. intros j t. rewrite opt_coeff_code_eq. reflexivity.
Qed.

(** The re-parameterized LP keeps the worker in order. *)
Lemma worker_ok_upd (inp : Instance) (ySol : list (list Q)) (w : WorkerLPPrimal)
  (cpx : Cplex) (lhs : option SparsePair) (r : option Q) :
  worker_ok inp w ->
  upd_inv inp ySol (w_cpx w) (rhs_updated inp (nI inp) 0 0) cpx ->
  worker_ok inp (mkWorker cpx (w_z_ilo w) (lCapacity w) (lDemand w) (lLogic w) lhs r).
Proof.
  intros [Hrows Hdem HlC HlD HlL] [_ [_ [Hf Hr]]]. constructor; simpl; auto.
  - rewrite (map_c_name_frame _ _ Hf). exact Hrows.
  - intros j t Hj Ht. destruct (Hr (Demand j t)) as [_ Hsame].
    rewrite Hsame by (simpl; tauto). apply Hdem; auto.
Qed.

(** [solveSubPrimal] does not raise. It solves the re-parameterized LP and
    leaves a cut that depends on the status the solver reports. *)
Lemma solveSubPrimal_spec (solve : Solver) (w : WorkerLPPrimal) (inp : Instance)
  (ySol : list (list Q)) (zHat : Q) (y_ilo : list (list nat)) (z_ilo_master : nat) :
  wf_instance inp -> worker_ok inp w ->
  (forall cpx, update_rhs inp ySol (w_cpx w) = Some cpx ->
     get_status (solve cpx) = infeasible ->
     length (dual_farkas (solve cpx)) = length (linear_constraints cpx)) ->
  shape (nI inp) (nP inp) ySol -> shape (nI inp) (nP inp) y_ilo ->
  exists cpx cutType zSub lhs r,
    update_rhs inp ySol (w_cpx w) = Some cpx /\
    upd_inv inp ySol (w_cpx w) (rhs_updated inp (nI inp) 0 0) cpx /\
    solveSubPrimal solve w inp ySol zHat y_ilo z_ilo_master
    = Some (mkWorker cpx (w_z_ilo w) (lCapacity w) (lDemand w) (lLogic w)
              (Some lhs) (Some r), (cutType, zSub)) /\
    match get_status (solve cpx) with
    | optimal =>
        cutType = 2 /\ zSub = get_objective_value (solve cpx) /\
        ind lhs = all_pairs inp (at2n y_ilo) ++ [z_ilo_master] /\
        val lhs = all_pairs inp (opt_coeff_code inp (solve cpx)) ++ [(- 1)%Q] /\
        (r == opt_rhs inp (solve cpx) ySol)%Q
    | infeasible =>
        cutType = 1 /\ zSub = (- 1)%Q /\
        ind lhs = all_pairs inp (at2n y_ilo) /\
        val lhs = all_pairs inp (feas_coeff inp (dual_farkas (solve cpx))) /\
        (r == feas_rhs inp (dual_farkas (solve cpx)))%Q
    | other_status _ =>
        cutType = 0 /\ zSub = (- 1)%Q /\ lhs = mkSparsePair [] [] /\ r = 0%Q
    end.
Proof.
  intros Hwf Hw Hfk Hys Hy.
  destruct (update_rhs_spec inp ySol (w_cpx w) Hwf Hys (wk_rows inp w Hw))
    as [cpx [Hupd Hinv]].
  unfold solveSubPrimal. rewrite Hupd. cbn [bind].
  destruct (get_status (solve cpx)) eqn:Est.
  - destruct (optimality_cut_spec inp w (solve cpx) ySol y_ilo z_ilo_master Hwf Hw Hys Hy)
      as [r [Hcut Hr]].
    rewrite Hcut. cbn [bind].
    do 5 eexists. split; [reflexivity|]. split; [exact Hinv|].
    split; [reflexivity|]. rewrite Est. simpl. repeat split; auto.
  - assert (Hlen : length (dual_farkas (solve cpx)) = length (worker_rows inp)).
    { rewrite (Hfk cpx Hupd Est). destruct Hinv as [_ [_ [Hf _]]].
      rewrite <- (length_map c_name), (map_c_name_frame _ _ Hf).
      rewrite (wk_rows inp w Hw), length_map. reflexivity. }
    destruct (feasibility_cut_spec inp (dual_farkas (solve cpx)) y_ilo Hwf Hy Hlen)
      as [r [Hcut Hr]].
    rewrite Hcut. cbn [bind].
    do 5 eexists. split; [reflexivity|]. split; [exact Hinv|].
    split; [reflexivity|]. rewrite Est. simpl. repeat split; auto.
  - cbn [bind].
    do 5 eexists. split; [reflexivity|]. split; [exact Hinv|].
    split; [reflexivity|]. rewrite Est. simpl. repeat split; auto.
Qed.

Lemma worker_reach_ok (solve : Solver) (inp : Instance) (w : WorkerLPPrimal) :
  wf_instance inp -> worker_reach solve inp w -> worker_ok inp w.
Proof.
  intros Hwf H. induction H as [w Hinit | w w' ySol zHat y_ilo z res Hr IH Hys Hcall].
  - destruct (WorkerLPPrimal_init_spec inp Hwf) as [w0 [Hw0 [Hok _]]]. congruence.
  - destruct (update_rhs_spec inp ySol (w_cpx w) Hwf Hys (wk_rows inp w IH))
      as [cpx [Hupd Hinv]].
    unfold solveSubPrimal in Hcall. rewrite Hupd in Hcall. cbn [bind] in Hcall.
    inv_bind Hcall. destruct x as [[cutType zSub] [[cutVars cutVals] r]].
    inversion Hcall; subst. apply (worker_ok_upd inp ySol); assumption.
Qed.

(** ** The subproblem: claims *)


Example optimality_cut_two_periods :
  exists w' r,
    solveSubPrimal solve_duals worker_two_periods inst_two_periods ySol_half 0
      y_ilo_two_periods z_ilo_two_periods = Some (w', (2, 7%Q)) /\
    option_map ind (cutLhs w') = Some [0; 1; 2] /\
    option_map val (cutLhs w') = Some [(- 15 # 1)%Q; (- 10 # 1)%Q; (- 1)%Q] /\
    cutRhs w' = Some r /\ (r == - 49 # 2)%Q.
Proof.
  eexists. eexists. split; [vm_compute; reflexivity|].
  split; [reflexivity|]. split; [reflexivity|]. split; [reflexivity|].
  vm_compute. reflexivity.
Qed.

(** C1. When the LP that [solveSubPrimal] solves is optimal with objective
    [zSub], the cut left in the worker lists the columns y.j.t in the order
    of the loops, y.j.t with coefficient
    [m[j][t]*lambda[t] + sum over r >= t of epsilon[j][t][r]*d[j][r]]
    ([lambda], [epsilon] the duals of the capacity and logic rows), then the
    column of zHat with coefficient -1, and has right-hand side
    [-zSub + sum over j,t of coeff[j][t]*ySol[j][t]]. *)
Theorem C1_optimality_cut (solve : Solver) (inp : Instance) (w : WorkerLPPrimal)
  (ySol : list (list Q)) (zHat : Q) (y_ilo : list (list nat)) (z_ilo_master : nat)
  (cpx : Cplex) :
  wf_instance inp -> worker_reach solve inp w ->
  shape (nI inp) (nP inp) ySol -> shape (nI inp) (nP inp) y_ilo ->
  update_rhs inp ySol (w_cpx w) = Some cpx ->
  get_status (solve cpx) = optimal ->
  exists w' lhs r,
    solveSubPrimal solve w inp ySol zHat y_ilo z_ilo_master
    = Some (w', (2, get_objective_value (solve cpx))) /\
    cutLhs w' = Some lhs /\ cutRhs w' = Some r /\
    ind lhs = all_pairs inp (at2n y_ilo) ++ [z_ilo_master] /\
    Forall2 Qeq (val lhs) (all_pairs inp (opt_coeff inp (solve cpx)) ++ [(- 1)%Q]) /\
    (r == opt_rhs inp (solve cpx) ySol)%Q.
Proof.
  intros Hwf Hreach Hys Hy Hupd Hopt.
  pose proof (worker_reach_ok solve inp w Hwf Hreach) as Hok.
  destruct (solveSubPrimal_spec solve w inp ySol zHat y_ilo z_ilo_master Hwf Hok)
    as [cpx' [cutType [zSub [lhs [r [Hupd' [_ [Hcall Hres]]]]]]]]; auto.
  { intros c Hc Hinf. congruence. }
  assert (cpx' = cpx) by congruence. subst cpx'. rewrite Hopt in Hres.
  destruct Hres as [-> [-> [Hind [Hval Hr]]]].
  eexists. exists lhs, r. split; [exact Hcall|]. simpl.
  repeat (split; [solve [auto] |]). split; [|exact Hr].
  rewrite Hval. apply Forall2_app; [|constructor; [reflexivity | constructor]].
  apply Forall2_pairs_before. intros j t. apply opt_coeff_code_eq.
Qed.

Lemma C1_optimality_cut_witness :
  exists w' lhs r,
    solveSubPrimal solve_duals worker_two_periods inst_two_periods ySol_half 0
      y_ilo_two_periods z_ilo_two_periods
    = Some (w', (2, get_objective_value (solve_duals lp_half))) /\
    cutLhs w' = Some lhs /\ cutRhs w' = Some r /\
    ind lhs = all_pairs inst_two_periods (at2n y_ilo_two_periods) ++ [z_ilo_two_periods] /\
    Forall2 Qeq (val lhs)
      (all_pairs inst_two_periods (opt_coeff inst_two_periods (solve_duals lp_half))
       ++ [(- 1)%Q]) /\
    (r == opt_rhs inst_two_periods (solve_duals lp_half) ySol_half)%Q.
Proof.
  apply (C1_optimality_cut solve_duals inst_two_periods worker_two_periods ySol_half 0
           y_ilo_two_periods z_ilo_two_periods lp_half).
  - solve_wf.
  - apply reach_init. vm_compute. reflexivity.
  - solve_shape.
  - solve_shape.
  - vm_compute. reflexivity.
  - reflexivity.
Defined.

(** C2. [solveSubPrimal] takes the infeasible branch (cut type 1) if and
    only if the solver reports the LP infeasible. The cut it then leaves
    lists the columns y.j.t only, y.j.t with coefficient
    [-m[j][t]*lambda[t] + sum over r >= t of epsilon[j][t][r]*d[j][r]], and
    has right-hand side
    [- sum over j,t of d[j][t]*omega[j][t] - sum over t of cap[t]*lambda[t]],
    where [lambda], [omega] and [epsilon] are the entries of the Farkas
    vector at the capacity, demand and logic rows. *)
Theorem C2_feasibility_cut (solve : Solver) (inp : Instance) (w : WorkerLPPrimal)
  (ySol : list (list Q)) (zHat : Q) (y_ilo : list (list nat)) (z_ilo_master : nat)
  (cpx : Cplex) :
  wf_instance inp -> worker_reach solve inp w ->
  shape (nI inp) (nP inp) ySol -> shape (nI inp) (nP inp) y_ilo ->
  update_rhs inp ySol (w_cpx w) = Some cpx ->
  (get_status (solve cpx) = infeasible ->
     length (dual_farkas (solve cpx)) = length (linear_constraints cpx)) ->
  exists w' cutType zSub lhs r,
    solveSubPrimal solve w inp ySol zHat y_ilo z_ilo_master = Some (w', (cutType, zSub)) /\
    cutLhs w' = Some lhs /\ cutRhs w' = Some r /\
    (cutType = 1 <-> get_status (solve cpx) = infeasible) /\
    (get_status (solve cpx) = infeasible ->
       ind lhs = all_pairs inp (at2n y_ilo) /\
       val lhs = all_pairs inp (feas_coeff inp (dual_farkas (solve cpx))) /\
       (r == feas_rhs inp (dual_farkas (solve cpx)))%Q).
Proof.
  intros Hwf Hreach Hys Hy Hupd Hfk.
  pose proof (worker_reach_ok solve inp w Hwf Hreach) as Hok.
  destruct (solveSubPrimal_spec solve w inp ySol zHat y_ilo z_ilo_master Hwf Hok)
    as [cpx' [cutType [zSub [lhs [r [Hupd' [_ [Hcall Hres]]]]]]]]; auto.
  { intros c Hc Hinf. assert (c = cpx) by congruence. subst c. auto. }
  assert (cpx' = cpx) by congruence. subst cpx'.
  eexists. exists cutType, zSub, lhs, r. split; [exact Hcall|]. simpl.
  split; [reflexivity|]. split; [reflexivity|].
  destruct (get_status (solve cpx)) eqn:Est.
  - destruct Hres as [-> _]. split; [split; intros; discriminate | intros; discriminate].
  - destruct Hres as [-> [_ [Hind [Hval Hr]]]]. split; [tauto | auto].
  - destruct Hres as [-> _]. split; [split; intros; discriminate | intros; discriminate].
Qed.

Lemma C2_feasibility_cut_witness :
  exists w' cutType zSub lhs r,
    solveSubPrimal solve_infeasible worker_two_periods inst_two_periods ySol_half 0
      y_ilo_two_periods z_ilo_two_periods = Some (w', (cutType, zSub)) /\
    cutLhs w' = Some lhs /\ cutRhs w' = Some r /\
    (cutType = 1 <-> get_status (solve_infeasible lp_half) = infeasible) /\
    (get_status (solve_infeasible lp_half) = infeasible ->
       ind lhs = all_pairs inst_two_periods (at2n y_ilo_two_periods) /\
       val lhs = all_pairs inst_two_periods
                   (feas_coeff inst_two_periods (dual_farkas (solve_infeasible lp_half))) /\
       (r == feas_rhs inst_two_periods (dual_farkas (solve_infeasible lp_half)))%Q).
Proof.
  apply (C2_feasibility_cut solve_infeasible inst_two_periods worker_two_periods
           ySol_half 0 y_ilo_two_periods z_ilo_two_periods lp_half).
  - solve_wf.
  - apply reach_init. vm_compute. reflexivity.
  - solve_shape.
  - solve_shape.
  - vm_compute. reflexivity.
  - intros _. vm_compute. reflexivity.
Defined.

Example feasibility_cut_two_periods :
  exists w' r,
    solveSubPrimal solve_infeasible worker_two_periods inst_two_periods ySol_half 0
      y_ilo_two_periods z_ilo_two_periods = Some (w', (1, (- 1)%Q)) /\
    option_map ind (cutLhs w') = Some [0; 1] /\
    option_map val (cutLhs w') = Some [(45 # 1)%Q; (30 # 1)%Q] /\
    cutRhs w' = Some r /\ (r == - 35)%Q.
Proof.
  eexists. eexists. split; [vm_compute; reflexivity|].
  split; [reflexivity|]. split; [vm_compute; reflexivity|]. split; [reflexivity|].
  vm_compute. reflexivity.
Qed.

Lemma farkas_per_row_infeasible : farkas_per_row solve_infeasible.
Proof.
  intros cpx _. unfold solve_infeasible. simpl.
  rewrite length_map, length_range. unfold linear_constraints_get_num. lia.
Qed.

(** C3. Every call of [solveSubPrimal] re-parameterizes before it solves.
    The LP [cpx] that it hands to the solver has the row capacity.t with
    right-hand side [cap[t] - sum over j of m[j][t]*ySol[j][t]] and the row
    logic.j.t.r ([r >= t]) with right-hand side [d[j][r]*ySol[j][t]]; the
    row demand.j.r has the right-hand side [d[j][r]] before and after the
    call, and nothing but right-hand sides differs between the two LPs.
    The pair that the call returns is read off the solver's answer on
    [cpx], and [cpx] is the only LP the solver is asked about: with any
    other solver that gives the same answer on [cpx] the call leaves the
    same worker and returns the same pair. *)
Theorem C3_rhs_reparameterization (solve : Solver) (inp : Instance)
  (w : WorkerLPPrimal) (ySol : list (list Q)) (zHat : Q) (y_ilo : list (list nat))
  (z_ilo_master : nat) :
  wf_instance inp -> worker_reach solve inp w -> farkas_per_row solve ->
  shape (nI inp) (nP inp) ySol -> shape (nI inp) (nP inp) y_ilo ->
  exists cpx w' res,
    update_rhs inp ySol (w_cpx w) = Some cpx /\
    solveSubPrimal solve w inp ySol zHat y_ilo z_ilo_master = Some (w', res) /\
    w_cpx w' = cpx /\
    (forall t, t < nP inp ->
       linear_constraints_get_rhs cpx (Capacity t)
       = Some (at1 (cap inp) t
               - Qsum_range 0 (nI inp) (fun j => at2 (m inp) j t * at2 ySol j t))%Q) /\
    (forall j t r, j < nI inp -> t <= r < nP inp ->
       linear_constraints_get_rhs cpx (Logic j t r)
       = Some (at2 (d inp) j r * at2 ySol j t)%Q) /\
    (forall j r, j < nI inp -> r < nP inp ->
       linear_constraints_get_rhs (w_cpx w) (Demand j r) = Some (at2 (d inp) j r) /\
       linear_constraints_get_rhs cpx (Demand j r) = Some (at2 (d inp) j r)) /\
    map row_frame (linear_constraints cpx) = map row_frame (linear_constraints (w_cpx w)) /\
    variables cpx = variables (w_cpx w) /\
    res = match get_status (solve cpx) with
          | optimal => (2, get_objective_value (solve cpx))
          | infeasible => (1, (- 1)%Q)
          | other_status _ => (0, (- 1)%Q)
          end /\
    (forall solve' : Solver,
       solve' cpx = solve cpx ->
       solveSubPrimal solve' w inp ySol zHat y_ilo z_ilo_master = Some (w', res)).
Proof.
  intros Hwf Hreach Hfk Hys Hy.
  pose proof (worker_reach_ok solve inp w Hwf Hreach) as Hok.
  destruct (solveSubPrimal_spec solve w inp ySol zHat y_ilo z_ilo_master Hwf Hok)
    as [cpx [cutType [zSub [lhs [r [Hupd [Hinv [Hcall Hcut]]]]]]]]; auto.
  exists cpx. eexists. exists (cutType, zSub).
  split; [exact Hupd|]. split; [exact Hcall|]. split; [reflexivity|].
  destruct Hinv as [Hv [_ [Hf Hr]]].
  split; [|split; [|split; [|split; [exact Hf | split; [exact Hv | split]]]]].
  4: { destruct (get_status (solve cpx)).
       - destruct Hcut as [-> [-> _]]. reflexivity.
       - destruct Hcut as [-> [-> _]]. reflexivity.
       - destruct Hcut as [-> [-> _]]. reflexivity. }
  4: { intros solve' Hsame. unfold solveSubPrimal in Hcall |- *.
       rewrite Hupd in Hcall |- *. cbn [bind] in Hcall |- *.
       rewrite Hsame. exact Hcall. }
  - intros t Ht. destruct (Hr (Capacity t)) as [Hnew _]. apply Hnew. exact Ht.
  - intros j t r0 Hj Htr. destruct (Hr (Logic j t r0)) as [Hnew _]. apply Hnew.
    simpl. split; [exact Htr|]. left. exact Hj.
  - intros j r0 Hj Hrr. pose proof (wk_demand inp w Hok j r0 Hj Hrr) as Hd.
    split; [exact Hd|]. destruct (Hr (Demand j r0)) as [_ Hsame].
    rewrite Hsame by (simpl; tauto). exact Hd.
Qed.

Lemma C3_rhs_reparameterization_witness :
  exists cpx w' res,
    update_rhs inst_two_periods ySol_half (w_cpx worker_two_periods) = Some cpx /\
    solveSubPrimal solve_infeasible worker_two_periods inst_two_periods ySol_half 0
      y_ilo_two_periods z_ilo_two_periods = Some (w', res) /\
    w_cpx w' = cpx /\
    (forall t, t < nP inst_two_periods ->
       linear_constraints_get_rhs cpx (Capacity t)
       = Some (at1 (cap inst_two_periods) t
               - Qsum_range 0 (nI inst_two_periods)
                   (fun j => at2 (m inst_two_periods) j t * at2 ySol_half j t))%Q) /\
    (forall j t r, j < nI inst_two_periods -> t <= r < nP inst_two_periods ->
       linear_constraints_get_rhs cpx (Logic j t r)
       = Some (at2 (d inst_two_periods) j r * at2 ySol_half j t)%Q) /\
    (forall j r, j < nI inst_two_periods -> r < nP inst_two_periods ->
       linear_constraints_get_rhs (w_cpx worker_two_periods) (Demand j r)
       = Some (at2 (d inst_two_periods) j r) /\
       linear_constraints_get_rhs cpx (Demand j r)
       = Some (at2 (d inst_two_periods) j r)) /\
    map row_frame (linear_constraints cpx)
    = map row_frame (linear_constraints (w_cpx worker_two_periods)) /\
    variables cpx = variables (w_cpx worker_two_periods) /\
    res = match get_status (solve_infeasible cpx) with
          | optimal => (2, get_objective_value (solve_infeasible cpx))
          | infeasible => (1, (- 1)%Q)
          | other_status _ => (0, (- 1)%Q)
          end /\
    (forall solve' : Solver,
       solve' cpx = solve_infeasible cpx ->
       solveSubPrimal solve' worker_two_periods inst_two_periods ySol_half 0
         y_ilo_two_periods z_ilo_two_periods = Some (w', res)).
Proof.
  apply (C3_rhs_reparameterization solve_infeasible inst_two_periods
           worker_two_periods ySol_half 0 y_ilo_two_periods z_ilo_two_periods).
  - solve_wf.
  - apply reach_init. vm_compute. reflexivity.
  - intros cpx _. unfold solve_infeasible. simpl.
    rewrite length_map, length_range. unfold linear_constraints_get_num. lia.
  - solve_shape.
  - solve_shape.
Defined.

(** The solver sees the new right-hand sides: "logic.0.0.0" has 0 in the
    worker as constructed and [d[0][0]*ySol[0][0] = 5/2] in the LP that is
    solved. *)
Example solved_after_reparameterization :
  rhs_of (w_cpx worker_two_periods) (Logic 0 0 0) = 0%Q /\
  exists w',
    solveSubPrimal solve_logic_rhs worker_two_periods inst_two_periods ySol_half 0
      y_ilo_two_periods z_ilo_two_periods = Some (w', (2, (5 # 2)%Q)).
Proof. split; [reflexivity|]. eexists. vm_compute. reflexivity. Qed.

Example rhs_two_periods :
  map (fun k => (c_name k, rhs k)) (linear_constraints lp_half)
  = [(Some (Capacity 0), (20 # 2)%Q); (Some (Capacity 1), 10%Q);
     (Some (Demand 0 0), 5%Q); (Some (Demand 0 1), 5%Q);
     (Some (Logic 0 0 0), (5 # 2)%Q); (Some (Logic 0 0 1), (5 # 2)%Q);
     (Some (Logic 0 1 1), 5%Q)].
Proof. vm_compute. reflexivity. Qed.

(** C10. Every call of [solveSubPrimal] returns a pair [(cutType, zSub)]
    with [cutType] 0, 1 or 2: 2 with [zSub] the objective of the LP when
    the solver reports it optimal, 1 with [zSub = -1] when it reports it
    infeasible, 0 with [zSub = -1] and a cut without columns and with
    right-hand side 0 for any other status; so [zSub = -1] whenever the
    cut is not an optimality cut. *)
Theorem C10_return_values (solve : Solver) (inp : Instance) (w : WorkerLPPrimal)
  (ySol : list (list Q)) (zHat : Q) (y_ilo : list (list nat)) (z_ilo_master : nat) :
  wf_instance inp -> worker_reach solve inp w -> farkas_per_row solve ->
  shape (nI inp) (nP inp) ySol -> shape (nI inp) (nP inp) y_ilo ->
  exists cpx w' cutType zSub lhs r,
    update_rhs inp ySol (w_cpx w) = Some cpx /\
    solveSubPrimal solve w inp ySol zHat y_ilo z_ilo_master = Some (w', (cutType, zSub)) /\
    cutLhs w' = Some lhs /\ cutRhs w' = Some r /\
    (cutType = 0 \/ cutType = 1 \/ cutType = 2) /\
    (get_status (solve cpx) = optimal ->
       cutType = 2 /\ zSub = get_objective_value (solve cpx)) /\
    (get_status (solve cpx) = infeasible -> cutType = 1 /\ zSub = (- 1)%Q) /\
    (forall code, get_status (solve cpx) = other_status code ->
       cutType = 0 /\ zSub = (- 1)%Q /\ ind lhs = [] /\ val lhs = [] /\ r = 0%Q) /\
    (cutType <> 2 -> zSub = (- 1)%Q).
Proof.
  intros Hwf Hreach Hfk Hys Hy.
  pose proof (worker_reach_ok solve inp w Hwf Hreach) as Hok.
  destruct (solveSubPrimal_spec solve w inp ySol zHat y_ilo z_ilo_master Hwf Hok)
    as [cpx [cutType [zSub [lhs [r [Hupd [_ [Hcall Hres]]]]]]]]; auto.
  exists cpx. eexists. exists cutType, zSub, lhs, r.
  split; [exact Hupd|]. split; [exact Hcall|]. simpl.
  split; [reflexivity|]. split; [reflexivity|].
  destruct (get_status (solve cpx)) eqn:Est.
  - destruct Hres as [-> [-> _]].
    repeat split; auto; try discriminate; try (intros; discriminate).
    intros H. exfalso. apply H. reflexivity.
  - destruct Hres as [-> [-> _]].
    repeat split; auto; try discriminate; intros; discriminate.
  - destruct Hres as [-> [-> [-> ->]]].
    repeat split; auto; try discriminate; intros; discriminate.
Qed.

Lemma C10_return_values_witness :
  exists cpx w' cutType zSub lhs r,
    update_rhs inst_two_periods ySol_half (w_cpx worker_two_periods) = Some cpx /\
    solveSubPrimal solve_other worker_two_periods inst_two_periods ySol_half 0
      y_ilo_two_periods z_ilo_two_periods = Some (w', (cutType, zSub)) /\
    cutLhs w' = Some lhs /\ cutRhs w' = Some r /\
    (cutType = 0 \/ cutType = 1 \/ cutType = 2) /\
    (get_status (solve_other cpx) = optimal ->
       cutType = 2 /\ zSub = get_objective_value (solve_other cpx)) /\
    (get_status (solve_other cpx) = infeasible -> cutType = 1 /\ zSub = (- 1)%Q) /\
    (forall code, get_status (solve_other cpx) = other_status code ->
       cutType = 0 /\ zSub = (- 1)%Q /\ ind lhs = [] /\ val lhs = [] /\ r = 0%Q) /\
    (cutType <> 2 -> zSub = (- 1)%Q).
Proof.
  apply (C10_return_values solve_other inst_two_periods worker_two_periods ySol_half 0
           y_ilo_two_periods z_ilo_two_periods).
  - solve_wf.
  - apply reach_init. vm_compute. reflexivity.
  - intros cpx H. simpl in H. discriminate.
  - solve_shape.
  - solve_shape.
Defined.

Example return_values_two_periods :
  option_map snd (solveSubPrimal solve_other worker_two_periods inst_two_periods
                    ySol_half 0 y_ilo_two_periods z_ilo_two_periods)
  = Some (0, (- 1)%Q) /\
  option_map snd (solveSubPrimal solve_infeasible worker_two_periods inst_two_periods
                    ySol_half 0 y_ilo_two_periods z_ilo_two_periods)
  = Some (1, (- 1)%Q) /\
  option_map snd (solveSubPrimal solve_duals worker_two_periods inst_two_periods
                    ySol_half 0 y_ilo_two_periods z_ilo_two_periods)
  = Some (2, 7%Q).
Proof. repeat split; vm_compute; reflexivity. Qed.

(** ** Reading a solution *)

Lemma shape_map_range {A : Type} (g : nat -> nat -> A) (n p : nat) :
  shape n p (map (fun j => map (g j) (range 0 p)) (range 0 n)).
Proof.
  split.
  - rewrite length_map, length_range. lia.
  - apply Forall_forall. intros row H. apply in_map_iff in H.
    destruct H as [j [<- _]]. rewrite length_map, length_range. lia.
Qed.

Lemma getSolution_spec (inp : Instance) (sol : Solution) (y_ilo : list (list nat))
  (z_ilo : nat) :
  shape (nI inp) (nP inp) y_ilo ->
  exists ySol,
    getSolution inp sol y_ilo z_ilo
    = Some (get_objective_value sol, get_values sol z_ilo, ySol) /\
    shape (nI inp) (nP inp) ySol /\
    forall j t, j < nI inp -> t < nP inp ->
      at2 ySol j t = get_values sol (at2n y_ilo j t).
Proof.
  intros Hy. unfold getSolution.
  rewrite mapM_map
    with (g := fun j => map (fun t => get_values sol (at2n y_ilo j t)) (range 0 (nP inp))).
  - cbn [bind]. eexists. split; [reflexivity|]. split; [apply shape_map_range|].
    intros j t Hj Ht.
    apply (at2_map_range (fun j t => get_values sol (at2n y_ilo j t))); auto.
  - intros j Hj. apply in_range in Hj. apply mapM_map. intros t Ht.
    apply in_range in Ht. rewrite (get2_at2n _ _ _ j t Hy) by lia. reflexivity.
Qed.

Lemma rows_values_spec (vals : nat -> Q) (y_ilo : list (list nat)) (n p : nat) :
  shape n p y_ilo ->
  exists ySol,
    mapM (fun j => row <- get y_ilo j ;; Some (map vals row)) (range 0 n) = Some ySol /\
    shape n p ySol /\
    forall j t, j < n -> t < p -> at2 ySol j t = vals (at2n y_ilo j t).
Proof.
  intros Hy.
  rewrite mapM_map with (g := fun j => map vals (nth j y_ilo [])).
  - eexists. split; [reflexivity|]. split.
    + split; [rewrite length_map, length_range; lia|].
      apply Forall_forall. intros row H. apply in_map_iff in H.
      destruct H as [j [<- Hj]]. apply in_range in Hj. rewrite length_map.
      destruct (shape_row _ _ _ j Hy) as [row [Hrow Hlen]]; [lia|].
      unfold get in Hrow. rewrite (nth_error_nth _ _ [] Hrow). exact Hlen.
    + intros j t Hj Ht. unfold at2, at2n. rewrite nth_map_range by lia. simpl.
      destruct (shape_row _ _ _ j Hy Hj) as [row [Hrow Hlen]].
      unfold get in Hrow. rewrite (nth_error_nth _ _ [] Hrow).
      apply nth_error_nth. rewrite nth_error_map.
      rewrite (nth_error_nth' row 0) by lia. reflexivity.
  - intros j Hj. apply in_range in Hj.
    destruct (shape_row _ _ _ j Hy) as [row [Hrow Hlen]]; [lia|].
    rewrite Hrow. cbn [bind]. unfold get in Hrow.
    rewrite (nth_error_nth _ _ [] Hrow). reflexivity.
Qed.

Lemma Qltb_true (x y : Q) : Qltb x y = true <-> (x < y)%Q.
Proof. unfold Qltb. apply (Qgtb_true y x). Qed.

(** ** The iterative driver *)

(** C6. One pass of the loop of [bendersDual] solves the master, reads its
    objective, zHat and y, calls the subproblem at this y and appends the
    cut it leaves to the master as row "cut.n". It lowers the best upper
    bound to [fixedCost + zSub], [fixedCost] being the master objective
    minus zHat, exactly when the cut is an optimality cut and this value is
    smaller. It raises the stop flag exactly when
    [ubBest - bestLB < _EPSI], [_EPSI] being [2^-52]; the loop returns
    after a pass that raised the flag and makes another pass otherwise. *)
Theorem C6_benders_iteration (solve : Solver) (inp : Instance)
  (y_ilo : list (list nat)) (z_ilo : nat) (s : BDState) :
  wf_instance inp -> worker_reach solve inp (bd_worker s) -> farkas_per_row solve ->
  shape (nI inp) (nP inp) y_ilo -> bd_stopping s = false ->
  let sol := solve (bd_cpx s) in
  let objMaster := get_objective_value sol in
  let zHat := get_values sol z_ilo in
  exists s' ySol w' cutType zSub lhs r,
    bendersDual_body solve inp y_ilo z_ilo s = Some s' /\
    (forall j t, j < nI inp -> t < nP inp ->
       at2 ySol j t = get_values sol (at2n y_ilo j t)) /\
    solveSubPrimal solve (bd_worker s) inp ySol zHat y_ilo z_ilo
    = Some (w', (cutType, zSub)) /\
    cutLhs w' = Some lhs /\ cutRhs w' = Some r /\
    bd_worker s' = w' /\
    bd_cpx s' = linear_constraints_add (bd_cpx s)
                  (mkConstr (Some (Cut (bd_nrCuts s))) lhs sense_L r) /\
    bd_nrCuts s' = bd_nrCuts s + 1 /\ bd_nIters s' = bd_nIters s + 1 /\
    bd_bestLB s' = objMaster /\
    (cutType = 2 /\ (objMaster - zHat + zSub < bd_ubBest s)%Q ->
       bd_ubBest s' = (objMaster - zHat + zSub)%Q) /\
    (~ (cutType = 2 /\ (objMaster - zHat + zSub < bd_ubBest s)%Q) ->
       bd_ubBest s' = bd_ubBest s) /\
    (bd_stopping s' = true <-> (bd_ubBest s' - bd_bestLB s' < _EPSI)%Q) /\
    (_EPSI == 2 ^ (- 52))%Q /\
    (forall fuel,
       bendersDual_loop solve (S fuel) inp y_ilo z_ilo s
       = if bd_stopping s' then Some s'
         else bendersDual_loop solve fuel inp y_ilo z_ilo s').
Proof.
  intros Hwf Hreach Hfk Hy Hstop sol objMaster zHat.
  pose proof (worker_reach_ok solve inp (bd_worker s) Hwf Hreach) as Hok.
  destruct (getSolution_spec inp sol y_ilo z_ilo Hy) as [ySol [Hget [Hys Hval]]].
  destruct (solveSubPrimal_spec solve (bd_worker s) inp ySol zHat y_ilo z_ilo Hwf Hok)
    as [cpx [cutType [zSub [lhs [r [Hupd [_ [Hcall _]]]]]]]]; auto.
  assert (Hbody : bendersDual_body solve inp y_ilo z_ilo s
            = Some (mkBD (linear_constraints_add (bd_cpx s)
                            (mkConstr (Some (Cut (bd_nrCuts s))) lhs sense_L r))
                      (mkWorker cpx (w_z_ilo (bd_worker s)) (lCapacity (bd_worker s))
                         (lDemand (bd_worker s)) (lLogic (bd_worker s))
                         (Some lhs) (Some r))
                      (if Qltb (bd_update_ub cutType objMaster zHat zSub (bd_ubBest s)
                                - objMaster) _EPSI
                       then true else bd_stopping s)
                      (bd_nIters s + 1) (bd_nrCuts s + 1)
                      (bd_update_ub cutType objMaster zHat zSub (bd_ubBest s))
                      objMaster)).
  { unfold bendersDual_body. fold sol. rewrite Hget. cbn [bind].
    fold zHat. rewrite Hcall. cbn [bind cutLhs cutRhs]. reflexivity. }
  eexists. exists ySol. eexists. exists cutType, zSub, lhs, r.
  split; [exact Hbody|]. split; [exact Hval|]. split; [exact Hcall|].
  cbn [cutLhs cutRhs bd_worker bd_cpx bd_nrCuts bd_nIters bd_bestLB bd_ubBest bd_stopping].
  do 7 (split; [reflexivity|]).
  split; [|split; [|split; [|split]]].
  - intros [-> Hlt]. unfold bd_update_ub. simpl.
    apply Qltb_true in Hlt. rewrite Hlt. reflexivity.
  - intros Hn. unfold bd_update_ub.
    destruct (cutType =? 1) eqn:E1; [reflexivity|].
    destruct (cutType =? 2) eqn:E2; [|reflexivity].
    apply Nat.eqb_eq in E2. cbv zeta.
    destruct (Qltb (objMaster - zHat + zSub) (bd_ubBest s)) eqn:El; [|reflexivity].
    apply Qltb_true in El. exfalso. apply Hn. auto.
  - rewrite Hstop.
    destruct (Qltb (bd_update_ub cutType objMaster zHat zSub (bd_ubBest s) - objMaster)
                _EPSI) eqn:E.
    + apply Qltb_true in E. tauto.
    + split; [discriminate|]. intros H. apply Qltb_true in H. congruence.
  - vm_compute. reflexivity.
  - intros fuel. cbn [bendersDual_loop]. rewrite Hstop, Hbody. cbn [bind].
    destruct fuel; cbn [bendersDual_loop bd_stopping]; rewrite ?Hstop;
      destruct (Qltb _ _); reflexivity.
Qed.

Lemma C6_benders_iteration_witness :
  let sol := solve_duals (bd_cpx bd_two_periods) in
  let objMaster := get_objective_value sol in
  let zHat := get_values sol z_ilo_two_periods in
  exists s' ySol w' cutType zSub lhs r,
    bendersDual_body solve_duals inst_two_periods y_ilo_two_periods
      z_ilo_two_periods bd_two_periods = Some s' /\
    (forall j t, j < nI inst_two_periods -> t < nP inst_two_periods ->
       at2 ySol j t = get_values sol (at2n y_ilo_two_periods j t)) /\
    solveSubPrimal solve_duals (bd_worker bd_two_periods) inst_two_periods ySol zHat
      y_ilo_two_periods z_ilo_two_periods = Some (w', (cutType, zSub)) /\
    cutLhs w' = Some lhs /\ cutRhs w' = Some r /\
    bd_worker s' = w' /\
    bd_cpx s' = linear_constraints_add (bd_cpx bd_two_periods)
                  (mkConstr (Some (Cut (bd_nrCuts bd_two_periods))) lhs sense_L r) /\
    bd_nrCuts s' = bd_nrCuts bd_two_periods + 1 /\
    bd_nIters s' = bd_nIters bd_two_periods + 1 /\
    bd_bestLB s' = objMaster /\
    (cutType = 2 /\ (objMaster - zHat + zSub < bd_ubBest bd_two_periods)%Q ->
       bd_ubBest s' = (objMaster - zHat + zSub)%Q) /\
    (~ (cutType = 2 /\ (objMaster - zHat + zSub < bd_ubBest bd_two_periods)%Q) ->
       bd_ubBest s' = bd_ubBest bd_two_periods) /\
    (bd_stopping s' = true <-> (bd_ubBest s' - bd_bestLB s' < _EPSI)%Q) /\
    (_EPSI == 2 ^ (- 52))%Q /\
    (forall fuel,
       bendersDual_loop solve_duals (S fuel) inst_two_periods y_ilo_two_periods
         z_ilo_two_periods bd_two_periods
       = if bd_stopping s' then Some s'
         else bendersDual_loop solve_duals fuel inst_two_periods y_ilo_two_periods
                z_ilo_two_periods s').
Proof.
  apply (C6_benders_iteration solve_duals inst_two_periods y_ilo_two_periods
           z_ilo_two_periods bd_two_periods).
  - solve_wf.
  - apply reach_init. vm_compute. reflexivity.
  - intros cpx H. simpl in H. discriminate.
  - solve_shape.
  - reflexivity.
Defined.

Example benders_pass_two_periods :
  option_map (fun s => (bd_stopping s, bd_nrCuts s, bd_ubBest s, bd_bestLB s))
    (bendersDual_body solve_duals inst_two_periods y_ilo_two_periods
       z_ilo_two_periods bd_two_periods)
  = Some (false, 1, 14%Q, 7%Q).
Proof. vm_compute. reflexivity. Qed.

(** ** The in-out loop on a sample instance *)

Example two_periods_construction :
  createMaster inst_two_periods Cplex_new
  = Some (master_two_periods, y_ilo_two_periods, z_ilo_two_periods) /\
  WorkerLPPrimal_init inst_two_periods = Some worker_two_periods.
Proof. split; vm_compute; reflexivity. Qed.

(** C4 as stated fails: in the second pass below the master objective, 1,
    strictly exceeds the best bound, 0, and the bound is updated, but the
    non-improvement counter keeps the value 1 instead of being reset. *)
Lemma C4_counter_not_reset_counterexample :
  exists s2,
    newIOCycle_body solve_rows inst_two_periods y_ilo_two_periods z_ilo_two_periods
      io_two_periods = Some io_two_periods_1 /\
    newIOCycle_body solve_rows inst_two_periods y_ilo_two_periods z_ilo_two_periods
      io_two_periods_1 = Some s2 /\
    io_stopping io_two_periods_1 = false /\
    (io_bestLB io_two_periods_1
     < get_objective_value (solve_rows (io_cpx io_two_periods_1)))%Q /\
    io_bestLB s2 = get_objective_value (solve_rows (io_cpx io_two_periods_1)) /\
    io_noImprov io_two_periods_1 = 1 /\
    io_noImprov s2 = 1 /\
    io_noImprov s2 <> 0.
Proof.
  eexists. split; [vm_compute; reflexivity|]. split; [vm_compute; reflexivity|].
  split; [reflexivity|]. split; [vm_compute; reflexivity|].
  split; [vm_compute; reflexivity|]. split; [reflexivity|].
  split; [reflexivity|]. discriminate.
Qed.

(** The counter is not always incremented either when the bound does not
    improve: with a constant master objective the seventh pass finds the
    counter at 6 and resets it. *)
Example counter_reset_after_six :
  option_map (fun s => (io_noImprov s, io_lambda s, io_delta s))
    (io_passes solve_zero 6 inst_two_periods y_ilo_two_periods z_ilo_two_periods
       io_two_periods)
  = Some (6, (2 # 10)%Q, (2 # 100000)%Q) /\
  option_map (fun s => (io_noImprov s, io_lambda s, io_delta s))
    (io_passes solve_zero 7 inst_two_periods y_ilo_two_periods z_ilo_two_periods
       io_two_periods)
  = Some (0, 1%Q, (2 # 100000)%Q).
Proof. split; vm_compute; reflexivity. Qed.

Example loop_needs_21_passes :
  newIOCycle solve_zero 20 master_two_periods worker_two_periods y_ilo_two_periods
    z_ilo_two_periods inst_two_periods [] = None /\
  option_map (fun s => (io_nrIter s, io_lambda s, io_delta s, io_globalProgr s))
    (newIOCycle solve_zero 21 master_two_periods worker_two_periods y_ilo_two_periods
       z_ilo_two_periods inst_two_periods [])
  = Some (21, 1%Q, 0%Q, 21).
Proof. split; vm_compute; reflexivity. Qed.

Lemma C5_loop_exit_and_integer_switch_witness :
  exists cpx worker io,
    createMaster inst_two_periods Cplex_new
    = Some (cpx, y_ilo_two_periods, z_ilo_two_periods) /\
    WorkerLPPrimal_init inst_two_periods = Some worker /\
    newIOCycle solve_zero 21 cpx worker y_ilo_two_periods z_ilo_two_periods
      inst_two_periods [] = Some io /\
    io_stopping io = true /\ (io_delta io == 0)%Q /\ (io_lambda io == 1)%Q /\
    (forall s,
       io_run solve_zero inst_two_periods y_ilo_two_periods z_ilo_two_periods
         (newIOCycle_start cpx worker inst_two_periods []) s ->
       (io_stopping s = true -> (io_delta s == 0)%Q /\ (io_lambda s == 1)%Q) /\
       relaxed (io_cpx s)) /\
    (exists prev,
       io_run solve_zero inst_two_periods y_ilo_two_periods z_ilo_two_periods
         (newIOCycle_start cpx worker inst_two_periods []) prev /\
       io_stopping prev = false /\
       newIOCycle_body solve_zero inst_two_periods y_ilo_two_periods
         z_ilo_two_periods prev = Some io /\
       ~ (io_bestLB prev < get_objective_value (solve_zero (io_cpx prev)))%Q /\
       (io_delta prev == 0)%Q /\ (io_lambda prev == 1)%Q) /\
    set_y_binary inst_two_periods y_ilo_two_periods
      (set_problem_type (io_cpx io) MILP) = Some (bd_cpx bd_after_setup) /\
    integer_mode inst_two_periods y_ilo_two_periods (bd_cpx bd_after_setup).
Proof.
  apply (C5_loop_exit_and_integer_switch solve_zero 21 inst_two_periods
           bd_after_setup y_ilo_two_periods z_ilo_two_periods).
  vm_compute. reflexivity.
Defined.

(** ** Construction of the master and of the reformulated MIP *)

Lemma add_y_var_loop (inp : Instance) (j : nat) (cpxA : Cplex) :
  shape (nI inp) (nP inp) (f inp) -> j < nI inp ->
  exists cpx yj,
    forM (range 0 (nP inp)) (add_y_var inp j) (cpxA, []) = Some (cpx, yj) /\
    extends (yvar_ok inp) cpxA cpx /\
    length yj = nP inp /\
    forall t, t < nP inp ->
      exists i v, get yj t = Some i /\ get (variables cpx) i = Some v /\
                  v_name v = VY j t.
Proof.
  intros Hf Hj.
  destruct (forM_range_inv
              (fun t' (st : Cplex * list nat) =>
                 extends (yvar_ok inp) cpxA (fst st) /\
                 length (snd st) = t' /\
                 forall t, t < t' ->
                   exists i v, get (snd st) t = Some i /\
                               get (variables (fst st)) i = Some v /\
                               v_name v = VY j t)
              (add_y_var inp j) 0 (nP inp) (cpxA, []))
    as [[cpx yj] [Hrun [Hext [Hlen Hall]]]].
  - lia.
  - simpl. split; [apply extends_refl|]. split; [reflexivity|]. intros; lia.
  - intros t' [cpx yj] Ht' [Hext [Hlen Hall]]. simpl in Hext, Hlen, Hall.
    unfold add_y_var. destruct (get2_shape _ _ _ j t' Hf Hj) as [fjt Hfjt]; [lia|].
    rewrite Hfjt. cbn [bind]. eexists. split; [reflexivity|]. cbn [fst snd].
    set (v := mkVar (VY j t') fjt 0 (Some 1%Q) (Some Binary)).
    assert (Hv : yvar_ok inp v) by (exists j, t'; simpl; repeat split; lia).
    split; [|split].
    + eapply extends_trans; [exact Hext|]. apply extends_add. exact Hv.
    + rewrite length_app. simpl length. lia.
    + intros t Ht. destruct (Nat.eq_dec t t') as [->|Hne].
      * exists (variables_get_num cpx), v. unfold get, variables_get_num.
        split; [|split].
        -- rewrite nth_error_app2 by lia. rewrite Hlen, Nat.sub_diag. reflexivity.
        -- cbn [variables_add variables].
           rewrite nth_error_app2 by lia. rewrite Nat.sub_diag. reflexivity.
        -- reflexivity.
      * destruct (Hall t) as [i [v0 [Hi [Hv0 Hn]]]]; [lia|].
        exists i, v0. unfold get in *. rewrite nth_error_app1 by lia.
        split; [exact Hi|]. split; [|exact Hn].
        cbn [variables_add variables].
        rewrite nth_error_app1; [exact Hv0|]. apply nth_error_Some. congruence.
  - simpl in Hrun, Hext, Hlen, Hall. exists cpx, yj. auto.
Qed.

(** The loop that creates the setup variables does not raise; it only
    appends columns y.j.t, and files the column of y.j.t at [y_ilo[j][t]]. *)
Lemma add_y_vars_spec (inp : Instance) (cpx0 : Cplex) :
  shape (nI inp) (nP inp) (f inp) ->
  exists cpx y_ilo,
    add_y_vars inp cpx0 = Some (cpx, y_ilo) /\
    extends (yvar_ok inp) cpx0 cpx /\
    y_ilo_ok inp (variables cpx) y_ilo /\
    shape (nI inp) (nP inp) y_ilo.
Proof.
  intros Hf. unfold add_y_vars.
  destruct (forM_range_inv
              (fun j' (st : Cplex * list (list nat)) =>
                 extends (yvar_ok inp) cpx0 (fst st) /\
                 shape j' (nP inp) (snd st) /\
                 forall j t, j < j' -> t < nP inp ->
                   exists i v, get2 (snd st) j t = Some i /\
                     get (variables (fst st)) i = Some v /\ v_name v = VY j t)
              (add_y_vars_j inp) 0 (nI inp) (cpx0, []))
    as [[cpx y_ilo] [Hrun [Hext [Hsh Hall]]]].
  - lia.
  - simpl. split; [apply extends_refl|]. split; [split; [reflexivity | constructor]|].
    intros; lia.
  - intros j' [cpx y_ilo] Hj' [Hext [[Hlen Hrows] Hall]]. simpl in Hext, Hlen, Hrows, Hall.
    unfold add_y_vars_j.
    destruct (add_y_var_loop inp j' cpx Hf) as [cpx1 [yj [Hrun [Hext1 [Hl1 Hk]]]]];
      [lia|].
    rewrite Hrun. cbn [bind]. eexists. split; [reflexivity|]. cbn [fst snd].
    split; [eapply extends_trans; eauto|]. split.
    + split; [rewrite length_app; simpl length; lia|].
      apply Forall_app. split; [exact Hrows | constructor; [exact Hl1 | constructor]].
    + intros j t Hj Ht. destruct (Nat.eq_dec j j') as [->|Hne].
      * destruct (Hk t Ht) as [i [v [Hi [Hv Hn]]]].
        exists i, v. unfold get2. unfold get at 1. rewrite nth_error_app2 by lia.
        rewrite Hlen, Nat.sub_diag. simpl. auto.
      * destruct (Hall j t) as [i [v [Hi [Hv Hn]]]]; [lia | lia |].
        exists i, v. unfold get2 in *. unfold get at 1.
        rewrite nth_error_app1 by lia. split; [exact Hi|]. split; [|exact Hn].
        eapply extends_get; eauto.
  - simpl in Hrun, Hext, Hsh, Hall. exists cpx, y_ilo. auto.
Qed.

(** [createMaster] does not raise on a fresh problem; its table [y_ilo]
    has one row per item and one entry per period. *)
Lemma createMaster_spec (inp : Instance) :
  wf_instance inp ->
  exists cpx y_ilo z_ilo,
    createMaster inp Cplex_new = Some (cpx, y_ilo, z_ilo) /\
    shape (nI inp) (nP inp) y_ilo /\
    y_ilo_ok inp (variables cpx) y_ilo /\
    col_name (variables cpx) z_ilo = Some VZHat.
Proof.
  intros Hwf. destruct (add_y_vars_spec inp Cplex_new (wf_f inp Hwf))
    as [cpx [y_ilo [Hrun [Hext [Hok Hsh]]]]].
  unfold createMaster. rewrite Hrun. cbn [bind].
  do 3 eexists. split; [reflexivity|]. split; [exact Hsh|]. split.
  - intros j t Hj Ht. destruct (Hok j t Hj Ht) as [i [v [Hi [Hv Hn]]]].
    exists i, v. split; [exact Hi|]. split; [|exact Hn].
    unfold get in *. cbn [variables_add variables].
    rewrite nth_error_app1; [exact Hv|]. apply nth_error_Some. congruence.
  - unfold col_name, get, variables_get_num. cbn [variables_add variables].
    rewrite nth_error_app2 by lia. rewrite Nat.sub_diag. reflexivity.
Qed.

Lemma mip_inv_add (inp : Instance) (vars : list Var) (cpx : Cplex) (k : Constr) :
  mip_inv inp vars cpx -> mip_row_ok inp vars k ->
  mip_inv inp vars (linear_constraints_add cpx k).
Proof.
  intros [Hv Hall] Hk. split; [exact Hv|]. simpl. apply Forall_app. auto.
Qed.

Lemma mip_capacity_terms_loop (inp : Instance) (vars : list Var)
  (y_ilo : list (list nat)) (z_ilo : list (list (list nat))) (t : nat) :
  wf_instance inp -> y_ilo_ok inp vars y_ilo -> z_ilo_ok inp vars z_ilo ->
  t < nP inp ->
  exists index value,
    forM (range 0 (nI inp)) (mip_capacity_terms inp y_ilo z_ilo t) ([], [])
      = Some (index, value) /\
    map (col_name vars) index
    = flat_map (fun j => z_names_from inp j t ++ [Some (VY j t)]) (range 0 (nI inp)).
Proof.
  intros Hwf Hy Hz Ht. destruct Hwf as [_ _ _ Ha Hm _].
  destruct (forM_range_inv
              (fun j' (st : list nat * list Q) =>
                 map (col_name vars) (fst st)
                 = flat_map (fun j => z_names_from inp j t ++ [Some (VY j t)])
                     (range 0 j'))
              (mip_capacity_terms inp y_ilo z_ilo t) 0 (nI inp) ([], []))
    as [[index value] [Hrun Hall]].
  - lia.
  - reflexivity.
  - intros j [index value] Hj Hall. simpl in Hall. unfold mip_capacity_terms.
    destruct (mapM_names vars (fun r => tri_get z_ilo j t r) (VZ j t)
                (range t (nP inp)))
      as [zs [Hzs Hcols]].
    { intros r Hr. apply in_range in Hr. apply (tri_get_name inp); auto; lia. }
    rewrite Hzs. cbn [bind].
    destruct (get2_shape _ _ _ j t Ha) as [ajt Hajt]; [lia | exact Ht |].
    rewrite Hajt. cbn [bind].
    destruct (get2_name inp vars y_ilo j t Hy) as [yjt [Hyjt Hyn]]; [lia | exact Ht |].
    rewrite Hyjt. cbn [bind].
    destruct (get2_shape _ _ _ j t Hm) as [mjt Hmjt]; [lia | exact Ht |].
    rewrite Hmjt. cbn [bind]. eexists. split; [reflexivity|]. cbn [fst].
    rewrite !map_app, Hall, Hcols, range_snoc by lia.
    rewrite flat_map_app. cbn [flat_map map]. rewrite Hyn, app_nil_r, app_assoc.
    reflexivity.
  - exists index, value. auto.
Qed.

(** [MIPReformulation.__init__] does not raise. Its columns are setup
    variables y.j.t and production variables z.j.t.r with [t <= r] only,
    and each row mentions the columns z.j.t.r, [t <= r], and y.j.t that
    its kind requires. *)
Lemma MIPReformulation_init_spec (inp : Instance) :
  wf_instance inp ->
  exists mip,
    MIPReformulation_init inp = Some mip /\
    Forall (fun v => yvar_ok inp v \/ zvar_ok inp v) (variables (mip_cpx mip)) /\
    y_ilo_ok inp (variables (mip_cpx mip)) (mip_y_ilo mip) /\
    z_ilo_ok inp (variables (mip_cpx mip)) (mip_z_ilo mip) /\
    Forall (mip_row_ok inp (variables (mip_cpx mip)))
      (linear_constraints (mip_cpx mip)).
Proof.
  intros Hwf. pose proof Hwf as [Hd Hf Hh Ha Hm Hcap].
  unfold MIPReformulation_init.
  destruct (add_y_vars_spec inp Cplex_new Hf) as [cpx1 [y_ilo [Hy [Hexty [Hyok _]]]]].
  rewrite Hy. cbn [bind].
  destruct (add_z_vars_spec inp cpx1 Hh) as [cpx2 [z_ilo [Hz [Hextz Hzok]]]].
  rewrite Hz. cbn [bind].
  set (vars := variables cpx2).
  assert (Hyok2 : y_ilo_ok inp vars y_ilo).
  { intros j t Hj Ht. destruct (Hyok j t Hj Ht) as [i [v [Hi [Hv Hn]]]].
    exists i, v. split; [exact Hi|]. split; [|exact Hn].
    eapply extends_get; eauto. }
  assert (Hvars : Forall (fun v => yvar_ok inp v \/ zvar_ok inp v) vars).
  { destruct Hexty as [ey [Hvy [_ Hfy]]]. destruct Hextz as [ez [Hvz [_ Hfz]]].
    unfold vars. rewrite Hvz, Hvy. simpl. apply Forall_app. split.
    - eapply Forall_impl; [|exact Hfy]. intros v Hv. left. exact Hv.
    - eapply Forall_impl; [|exact Hfz]. intros v Hv. right. exact Hv. }
  assert (H0 : mip_inv inp vars cpx2).
  { split; [reflexivity|]. destruct Hexty as [_ [_ [Hc1 _]]].
    destruct Hextz as [_ [_ [Hc2 _]]]. rewrite Hc2, Hc1. constructor. }
  destruct (forM2_inv (fun _ _ cpx => mip_inv inp vars cpx)
              (mip_add_demand inp z_ilo) (nI inp) (nP inp) cpx2)
    as [cpx3 [Hrun3 H3]]; [exact H0 | | auto |].
  { intros j r cpx Hj Hr Hinv. unfold mip_add_demand.
    destruct (mapM_names vars (fun t => tri_get z_ilo j t r) (fun t => VZ j t r)
                (range 0 (r + 1)))
      as [index [Hindex Hcols]].
    { intros t Ht. apply in_range in Ht. apply (tri_get_name inp); auto; lia. }
    rewrite Hindex. cbn [bind].
    rewrite (get2_at2 _ _ _ j r Hd Hj Hr). cbn [bind].
    eexists. split; [reflexivity|]. apply mip_inv_add; [exact Hinv|].
    right. left. exists j, r. split; [lia|]. split; [lia | exact Hcols]. }
  rewrite Hrun3. cbn [bind].
  destruct (forM_range_inv (fun _ cpx => mip_inv inp vars cpx)
              (mip_add_capacity inp y_ilo z_ilo) 0 (nP inp) cpx3)
    as [cpx4 [Hrun4 H4]]; [lia | exact H3 | |].
  { intros t cpx Ht Hinv. unfold mip_add_capacity.
    destruct (mip_capacity_terms_loop inp vars y_ilo z_ilo t Hwf Hyok2 Hzok)
      as [index [value [Hrun Hcols]]]; [lia|].
    rewrite Hrun. cbn [bind]. rewrite get_nth by lia. cbn [bind].
    eexists. split; [reflexivity|]. apply mip_inv_add; [exact Hinv|].
    left. exists t. split; [lia | exact Hcols]. }
  rewrite Hrun4. cbn [bind].
  destruct (forM_tri_inv (fun _ _ _ cpx => mip_inv inp vars cpx)
              (mip_add_logic inp y_ilo z_ilo) (nI inp) (nP inp) cpx4)
    as [cpx5 [Hrun5 H5]]; [exact H4 | | auto | auto |].
  { intros j t r cpx Hj Hr Hinv. unfold mip_add_logic.
    destruct (tri_get_name inp vars z_ilo j t r Hzok Hj Hr) as [i [Hi Hcol]].
    rewrite Hi. cbn [bind].
    destruct (get2_name inp vars y_ilo j t Hyok2) as [yjt [Hyjt Hyn]]; [lia | lia |].
    rewrite Hyjt. cbn [bind].
    rewrite (get2_at2 _ _ _ j r Hd) by lia. cbn [bind].
    eexists. split; [reflexivity|]. apply mip_inv_add; [exact Hinv|].
    right. right. exists j, t, r. split; [lia|]. split; [lia|].
    unfold row_names. simpl. rewrite Hcol, Hyn. reflexivity. }
  rewrite Hrun5. cbn [bind]. destruct H5 as [Hv5 Hall5].
  eexists. split; [reflexivity|]. cbn [mip_cpx mip_y_ilo mip_z_ilo].
  rewrite Hv5. auto.
Qed.

Lemma in_z_names_from (inp : Instance) (j0 t0 j t r : nat) :
  In (Some (VZ j t r)) (z_names_from inp j0 t0) -> t <= r < nP inp.
Proof.
  unfold z_names_from. intros H. apply in_map_iff in H.
  destruct H as [r0 [E Hr0]]. apply in_range in Hr0. inversion E; subst. lia.
Qed.

Lemma in_z_names_upto (j0 r0 j t r : nat) :
  In (Some (VZ j t r)) (z_names_upto j0 r0) -> t <= r /\ r = r0.
Proof.
  unfold z_names_upto. intros H. apply in_map_iff in H.
  destruct H as [t0 [E Ht0]]. apply in_range in Ht0. inversion E; subst. lia.
Qed.

Lemma worker_row_triangular (inp : Instance) (vars : list Var) (k : Constr)
  (j t r : nat) :
  worker_row_ok inp vars k -> In (Some (VZ j t r)) (row_names vars k) ->
  t <= r < nP inp.
Proof.
  intros [[t0 [Ht0 E]] | [[j0 [r0 [Hj0 [Hr0 E]]]] | [j0 [t0 [r0 [Hj0 [Hr0 E]]]]]]] H;
    rewrite E in H.
  - apply in_flat_map in H. destruct H as [j0 [_ H]].
    apply in_z_names_from in H. exact H.
  - apply in_z_names_upto in H. lia.
  - destruct H as [H|[]]. inversion H; subst. exact Hr0.
Qed.

Lemma mip_row_triangular (inp : Instance) (vars : list Var) (k : Constr)
  (j t r : nat) :
  mip_row_ok inp vars k -> In (Some (VZ j t r)) (row_names vars k) ->
  t <= r < nP inp.
Proof.
  intros [[t0 [Ht0 E]] | [[j0 [r0 [Hj0 [Hr0 E]]]] | [j0 [t0 [r0 [Hj0 [Hr0 E]]]]]]] H;
    rewrite E in H.
  - apply in_flat_map in H. destruct H as [j0 [_ H]].
    apply in_app_or in H. destruct H as [H|[H|[]]]; [|discriminate].
    apply in_z_names_from in H. exact H.
  - apply in_z_names_upto in H. lia.
  - destruct H as [H|[H|[]]]; [|discriminate]. inversion H; subst. exact Hr0.
Qed.

(** ** The triangular index invariant *)

Example columns_two_periods :
  map v_name (variables (w_cpx worker_two_periods)) = [VZ 0 0 0; VZ 0 0 1; VZ 0 1 1] /\
  w_z_ilo worker_two_periods = [[[0; 1]; [2]]] /\
  map v_name (variables (mip_cpx mip_two_periods))
  = [VY 0 0; VY 0 1; VZ 0 0 0; VZ 0 0 1; VZ 0 1 1] /\
  mip_z_ilo mip_two_periods = [[[2; 3]; [4]]] /\
  map (row_names (variables (mip_cpx mip_two_periods)))
    (linear_constraints (mip_cpx mip_two_periods))
  = [[Some (VZ 0 0 0)];
     [Some (VZ 0 0 1); Some (VZ 0 1 1)];
     [Some (VZ 0 0 0); Some (VZ 0 0 1); Some (VY 0 0)];
     [Some (VZ 0 1 1); Some (VY 0 1)];
     [Some (VZ 0 0 0); Some (VY 0 0)];
     [Some (VZ 0 0 1); Some (VY 0 0)];
     [Some (VZ 0 1 1); Some (VY 0 1)]].
Proof. repeat split; vm_compute; reflexivity. Qed.

(** Python reads a negative index from the end of the list, so an access
    [z_ilo[j][t][r-t]] with [r < t] would not raise: it would yield the
    column of another variable. *)
Example negative_index_wraps :
  tri_get (w_z_ilo worker_two_periods) 0 1 0 = Some 2 /\
  col_name (variables (w_cpx worker_two_periods)) 2 = Some (VZ 0 1 1).
Proof. split; reflexivity. Qed.

(** C9. Both [WorkerLPPrimal.__init__] and [MIPReformulation.__init__]
    create a production variable z.j.t.r only for [t <= r], file its column
    at [z_ilo[j][t][r-t]], and build every row from the columns that
    [z_ilo[j][t][r-t]] yields for [t <= r]: no row mentions a production
    variable with [r < t]. *)
Theorem C9_triangular_index_invariant (inp : Instance) :
  wf_instance inp ->
  (exists w,
     WorkerLPPrimal_init inp = Some w /\
     (forall v j t r, In v (variables (w_cpx w)) -> v_name v = VZ j t r ->
        t <= r < nP inp) /\
     z_ilo_ok inp (variables (w_cpx w)) (w_z_ilo w) /\
     Forall (worker_row_ok inp (variables (w_cpx w))) (linear_constraints (w_cpx w)) /\
     (forall k j t r, In k (linear_constraints (w_cpx w)) ->
        In (Some (VZ j t r)) (row_names (variables (w_cpx w)) k) -> t <= r < nP inp)) /\
  (exists mip,
     MIPReformulation_init inp = Some mip /\
     (forall v j t r, In v (variables (mip_cpx mip)) -> v_name v = VZ j t r ->
        t <= r < nP inp) /\
     z_ilo_ok inp (variables (mip_cpx mip)) (mip_z_ilo mip) /\
     Forall (mip_row_ok inp (variables (mip_cpx mip))) (linear_constraints (mip_cpx mip)) /\
     (forall k j t r, In k (linear_constraints (mip_cpx mip)) ->
        In (Some (VZ j t r)) (row_names (variables (mip_cpx mip)) k) ->
        t <= r < nP inp)).
Proof.
  intros Hwf. split.
  - destruct (WorkerLPPrimal_init_spec inp Hwf) as [w [Hinit [_ [Hvars [Hz Hrows]]]]].
    exists w. split; [exact Hinit|]. split; [|split; [exact Hz | split; [exact Hrows|]]].
    + intros v j t r Hin Hn. rewrite Forall_forall in Hvars.
      destruct (Hvars v Hin) as [j0 [t0 [r0 [E [_ Hle]]]]].
      rewrite Hn in E. inversion E; subst. exact Hle.
    + intros k j t r Hin Href. rewrite Forall_forall in Hrows.
      apply (worker_row_triangular inp _ k j t r (Hrows k Hin) Href).
  - destruct (MIPReformulation_init_spec inp Hwf) as [mip [Hinit [Hvars [_ [Hz Hrows]]]]].
    exists mip. split; [exact Hinit|]. split; [|split; [exact Hz | split; [exact Hrows|]]].
    + intros v j t r Hin Hn. rewrite Forall_forall in Hvars.
      destruct (Hvars v Hin) as [[j0 [t0 [E _]]] | [j0 [t0 [r0 [E [_ Hle]]]]]];
        rewrite Hn in E; inversion E; subst. exact Hle.
    + intros k j t r Hin Href. rewrite Forall_forall in Hrows.
      apply (mip_row_triangular inp _ k j t r (Hrows k Hin) Href).
Qed.

Lemma C9_triangular_index_invariant_witness :
  (exists w,
     WorkerLPPrimal_init inst_two_periods = Some w /\
     (forall v j t r, In v (variables (w_cpx w)) -> v_name v = VZ j t r ->
        t <= r < nP inst_two_periods) /\
     z_ilo_ok inst_two_periods (variables (w_cpx w)) (w_z_ilo w) /\
     Forall (worker_row_ok inst_two_periods (variables (w_cpx w)))
       (linear_constraints (w_cpx w)) /\
     (forall k j t r, In k (linear_constraints (w_cpx w)) ->
        In (Some (VZ j t r)) (row_names (variables (w_cpx w)) k) ->
        t <= r < nP inst_two_periods)) /\
  (exists mip,
     MIPReformulation_init inst_two_periods = Some mip /\
     (forall v j t r, In v (variables (mip_cpx mip)) -> v_name v = VZ j t r ->
        t <= r < nP inst_two_periods) /\
     z_ilo_ok inst_two_periods (variables (mip_cpx mip)) (mip_z_ilo mip) /\
     Forall (mip_row_ok inst_two_periods (variables (mip_cpx mip)))
       (linear_constraints (mip_cpx mip)) /\
     (forall k j t r, In k (linear_constraints (mip_cpx mip)) ->
        In (Some (VZ j t r)) (row_names (variables (mip_cpx mip)) k) ->
        t <= r < nP inst_two_periods)).
Proof.
  apply (C9_triangular_index_invariant inst_two_periods). solve_wf.
Defined.

(** ** Passes of the in-out loop do not raise *)

Lemma zip_matrix_spec (inp : Instance) (g : Q -> Q -> Q) (A B : list (list Q)) :
  shape (nI inp) (nP inp) A -> shape (nI inp) (nP inp) B ->
  zip_matrix inp g A B
  = Some (map (fun j => map (fun t => g (at2 A j t) (at2 B j t)) (range 0 (nP inp)))
            (range 0 (nI inp))).
Proof.
  intros HA HB. unfold zip_matrix. apply mapM_map. intros j Hj. apply in_range in Hj.
  apply mapM_map. intros t Ht. apply in_range in Ht.
  rewrite (get2_at2 _ _ _ j t HA) by lia. cbn [bind].
  rewrite (get2_at2 _ _ _ j t HB) by lia. reflexivity.
Qed.

Lemma shape_repeat (n p : nat) (x : Q) : shape n p (repeat (repeat x p) n).
Proof.
  split; [apply repeat_length|]. apply Forall_forall. intros row H.
  apply repeat_spec in H. subst. apply repeat_length.
Qed.

Lemma io_update_bound_frame (zLP : Q) (s : IOState) :
  io_worker (io_update_bound zLP s) = io_worker s /\
  io_yTilde (io_update_bound zLP s) = io_yTilde s /\
  io_cpx (io_update_bound zLP s) = io_cpx s.
Proof.
  unfold io_update_bound.
  repeat match goal with |- context [if ?b then _ else _] => destruct b end;
    repeat split.
Qed.

(** A pass of the loop of [newIOCycle] does not raise, and leaves a worker
    and a stability centre on which the next pass does not raise either. *)
Lemma newIOCycle_body_total (solve : Solver) (inp : Instance)
  (y_ilo : list (list nat)) (z_ilo : nat) (s : IOState) :
  wf_instance inp -> farkas_per_row solve -> shape (nI inp) (nP inp) y_ilo ->
  worker_reach solve inp (io_worker s) -> shape (nI inp) (nP inp) (io_yTilde s) ->
  exists s',
    newIOCycle_body solve inp y_ilo z_ilo s = Some s' /\
    worker_reach solve inp (io_worker s') /\
    shape (nI inp) (nP inp) (io_yTilde s').
Proof.
  intros Hwf Hfk Hy Hreach Hyt. unfold newIOCycle_body.
  set (s1 := io_update_bound _ _).
  destruct (io_update_bound_frame (get_objective_value (solve (io_cpx s)))
              (mkIO (io_cpx s) (io_worker s) (io_lambda s) (io_delta s)
                 (io_globalProgr s) (io_yTilde s) (io_stopping s) (io_noImprov s)
                 (io_bestLB s) (io_nrIter s + 1) (io_inout s)))
    as [Hw1 [Hyt1 _]].
  fold s1 in Hw1, Hyt1. simpl in Hw1, Hyt1.
  destruct (rows_values_spec (get_values (solve (io_cpx s))) y_ilo (nI inp) (nP inp) Hy)
    as [yStar [HyStar [HyStarSh _]]].
  unfold get_values_rows. rewrite HyStar. cbn [bind].
  rewrite Hyt1. rewrite (zip_matrix_spec inp _ (io_yTilde s) yStar Hyt HyStarSh).
  cbn [bind].
  match goal with
  | |- context [zip_matrix inp ?g yStar ?M] =>
      rewrite (zip_matrix_spec inp g yStar M HyStarSh (shape_map_range _ _ _))
  end.
  cbn [bind]. rewrite Hw1.
  match goal with
  | |- context [solveSubPrimal solve (io_worker s) inp ?yy ?zHat y_ilo z_ilo] =>
      pose proof (worker_reach_ok solve inp (io_worker s) Hwf Hreach) as Hok;
      destruct (solveSubPrimal_spec solve (io_worker s) inp yy zHat y_ilo z_ilo Hwf Hok)
        as [cpx [cutType [zSub [lhs [r [_ [_ [Hcall _]]]]]]]];
      [ intros c _ Hinf; apply Hfk; exact Hinf | apply shape_map_range | exact Hy | ];
      assert (Hreach' : worker_reach solve inp
                (mkWorker cpx (w_z_ilo (io_worker s)) (lCapacity (io_worker s))
                   (lDemand (io_worker s)) (lLogic (io_worker s)) (Some lhs) (Some r)))
        by (eapply reach_call; [exact Hreach | apply shape_map_range | exact Hcall]);
      rewrite Hcall
  end.
  cbn [bind cutLhs cutRhs].
  destruct (0 <? cutType); cbn [bind]; eexists; (split; [reflexivity|]);
    cbn [io_worker io_yTilde]; (split; [exact Hreach' | apply shape_map_range]).
Qed.

(** C4 (as amended). Every pass of the stabilized cut loop completes, and:
    if the master objective [zLP] strictly exceeds the best bound, the
    bound becomes [zLP] and the non-improvement counter keeps its value;
    otherwise the bound keeps its value and the counter is incremented as
    long as it is at most 5. *)
Theorem C4_bound_and_counter_update (solve : Solver) (inp : Instance)
  (y_ilo : list (list nat)) (z_ilo : nat) (s : IOState) :
  wf_instance inp -> farkas_per_row solve -> shape (nI inp) (nP inp) y_ilo ->
  worker_reach solve inp (io_worker s) -> shape (nI inp) (nP inp) (io_yTilde s) ->
  let zLP := get_objective_value (solve (io_cpx s)) in
  exists s',
    newIOCycle_body solve inp y_ilo z_ilo s = Some s' /\
    ((io_bestLB s < zLP)%Q ->
       io_bestLB s' = zLP /\ io_noImprov s' = io_noImprov s) /\
    (~ (io_bestLB s < zLP)%Q ->
       io_bestLB s' = io_bestLB s /\
       (io_noImprov s <= 5 -> io_noImprov s' = io_noImprov s + 1)).
Proof.
  intros Hwf Hfk Hy Hreach Hyt zLP.
  destruct (newIOCycle_body_total solve inp y_ilo z_ilo s Hwf Hfk Hy Hreach Hyt)
    as [s' [H _]].
  exists s'. split; [exact H|].
  destruct (newIOCycle_body_bookkeeping _ _ _ _ _ _ H)
    as [_ [_ [_ [Hno [Hlb _]]]]].
  fold zLP in Hno, Hlb. rewrite Hno, Hlb. unfold io_update_bound. simpl.
  split; intros Hcmp.
  - apply Qgtb_true in Hcmp. rewrite Hcmp. simpl. auto.
  - apply Qgtb_false in Hcmp. rewrite Hcmp.
    split.
    + repeat match goal with |- context [if ?b then _ else _] => destruct b end;
        reflexivity.
    + intros Hle. apply Nat.leb_le in Hle. rewrite Hle. reflexivity.
Qed.

Lemma C4_bound_and_counter_update_witness :
  let zLP := get_objective_value (solve_rows (io_cpx io_two_periods)) in
  exists s',
    newIOCycle_body solve_rows inst_two_periods y_ilo_two_periods z_ilo_two_periods
      io_two_periods = Some s' /\
    ((io_bestLB io_two_periods < zLP)%Q ->
       io_bestLB s' = zLP /\ io_noImprov s' = io_noImprov io_two_periods) /\
    (~ (io_bestLB io_two_periods < zLP)%Q ->
       io_bestLB s' = io_bestLB io_two_periods /\
       (io_noImprov io_two_periods <= 5 ->
        io_noImprov s' = io_noImprov io_two_periods + 1)).
Proof.
  apply (C4_bound_and_counter_update solve_rows inst_two_periods y_ilo_two_periods
           z_ilo_two_periods io_two_periods).
  - solve_wf.
  - intros cpx H. simpl in H. discriminate.
  - solve_shape.
  - apply reach_init. vm_compute. reflexivity.
  - solve_shape.
Defined.

(** The state in which [bendersDual] enters its loop meets what a pass of
    that loop needs: a worker in order, a table [y_ilo] of the right shape
    and the stop flag down. *)
Lemma bendersDual_setup_ready (solve : Solver) (fuel : nat) (inp : Instance)
  (bd : BDState) (y_ilo : list (list nat)) (z_ilo : nat) :
  wf_instance inp -> farkas_per_row solve ->
  bendersDual_setup solve fuel inp = Some (bd, y_ilo, z_ilo) ->
  worker_reach solve inp (bd_worker bd) /\ shape (nI inp) (nP inp) y_ilo /\
  bd_stopping bd = false.
Proof.
  intros Hwf Hfk H. unfold bendersDual_setup in H.
  inv_bind H. destruct x as [[cpx y0] z0].
  inv_bind H. rename x into worker. inv_bind H. rename x into io.
  inv_bind H. inversion H; subst; clear H. simpl.
  destruct (createMaster_spec inp Hwf) as [cpx' [y' [z' [Hcm [Hsh _]]]]].
  assert (y' = y_ilo) by congruence. subst y'.
  split; [|split; [exact Hsh | reflexivity]].
  destruct (newIOCycle_loop_run _ _ _ _ _ _ _ Hx1) as [_ Hprev].
  destruct (Hprev eq_refl) as [prev [Hrun [_ Hbody]]].
  assert (Hready : forall s,
            io_run solve inp y_ilo z_ilo (newIOCycle_start cpx worker inp []) s ->
            worker_reach solve inp (io_worker s) /\
            shape (nI inp) (nP inp) (io_yTilde s)).
  { intros s Hs. induction Hs as [|s1 s2 Hs IH Hstop Hb].
    - split; [apply reach_init; exact Hx0 | apply shape_repeat].
    - destruct IH as [Hr Hy].
      destruct (newIOCycle_body_total solve inp y_ilo z_ilo s1 Hwf Hfk Hsh Hr Hy)
        as [s2' [Hb' [Hr' Hy']]].
      assert (s2' = s2) by congruence. subst. auto. }
  destruct (Hready prev Hrun) as [Hr Hy].
  destruct (newIOCycle_body_total solve inp y_ilo z_ilo prev Hwf Hfk Hsh Hr Hy)
    as [io' [Hb' [Hr' _]]].
  assert (io' = io) by congruence. subst. exact Hr'.
Qed.

(* ================================================================= *)
(** * Further properties of the code *)

(** ** Instance: when construction raises *)

Lemma mapM_None {A : Type} (fm : nat -> option A) (l : list nat) (i : nat) :
  In i l -> fm i = None -> mapM fm l = None.
Proof.
  induction l as [|k l IH]; intros Hin Hi; [destruct Hin|].
  simpl. destruct Hin as [->|Hin].
  - rewrite Hi. reflexivity.
  - destruct (fm k); [|reflexivity]. simpl. rewrite (IH Hin Hi). reflexivity.
Qed.

(** A search over the pairs [(j, t)] of an instance. *)
Lemma search_pairs (P : nat -> nat -> Prop) (n p : nat) :
  (forall j t, {P j t} + {~ P j t}) ->
  (exists j t, j < n /\ t < p /\ P j t) \/
  (forall j t, j < n -> t < p -> ~ P j t).
Proof.
  intros dec.
  assert (Hrow : forall j k, (exists t, t < k /\ P j t) \/ (forall t, t < k -> ~ P j t)).
  { intros j. induction k as [|k [IH|IH]].
    - right. intros t Ht. lia.
    - left. destruct IH as [t [Ht HP]]. exists t. split; [lia | exact HP].
    - destruct (dec j k) as [HP|HnP].
      + left. exists k. split; [lia | exact HP].
      + right. intros t Ht. destruct (Nat.eq_dec t k) as [->|Hne]; [exact HnP|].
        apply IH. lia. }
  induction n as [|n [IH|IH]].
  - right. intros j t Hj. lia.
  - left. destruct IH as [j [t [Hj H]]]. exists j, t. split; [lia | exact H].
  - destruct (Hrow n p) as [[t [Ht HP]]|Hnone].
    + left. exists n, t. auto.
    + right. intros j t Hj Ht. destruct (Nat.eq_dec j n) as [->|Hne].
      * apply Hnone. exact Ht.
      * apply IH; [lia | exact Ht].
Qed.

Lemma cum_demand_no_period (raw : Instance) :
  shape (nI raw) (nP raw) (d raw) -> 1 <= nI raw -> nP raw = 0 ->
  cum_demand raw = None.
Proof.
  intros Hd HnI HnP. unfold cum_demand.
  apply (mapM_None _ _ 0); [apply in_range; lia|].
  unfold cum_demand_row.
  destruct (shape_row _ _ _ 0 Hd) as [dj [Hdj Hlen]]; [lia|].
  rewrite Hdj. cbn [bind]. rewrite HnP in *.
  destruct dj; [reflexivity | discriminate].
Qed.

(** X1. [Instance.__init__] raises exactly on an instance with an item but no
    period (the last demand of an empty row is read) and on an instance
    with some resource usage [a[j][t]] equal to zero (division by zero). *)
Theorem Instance_init_raises_iff (large : bool) (raw : Instance) :
  wf_instance raw ->
  (Instance_init large raw = None <->
   (1 <= nI raw /\ nP raw = 0) \/
   (exists j t, j < nI raw /\ t < nP raw /\ (at2 (a raw) j t == 0)%Q)).
Proof.
  intros Hwf. split.
  - intros Hnone.
    destruct (search_pairs (fun j t => (at2 (a raw) j t == 0)%Q) (nI raw) (nP raw))
      as [Hex|Hall].
    { intros j t. apply Qeq_dec. }
    { right. exact Hex. }
    destruct (Nat.eq_dec (nI raw) 0) as [HnI|HnI].
    { exfalso. unfold Instance_init, cum_demand in Hnone. rewrite HnI in Hnone.
      destruct large; simpl in Hnone; discriminate. }
    destruct (Nat.eq_dec (nP raw) 0) as [HnP|HnP]; [left; lia|].
    exfalso.
    destruct (Instance_init_spec large raw Hwf) as [inp [_ [Hinit _]]];
      [lia | exact Hall | congruence].
  - intros [[HnI HnP] | [j [t [Hj [Ht Ha]]]]].
    + assert (Hcd : cum_demand raw = None)
        by (apply cum_demand_no_period; [exact (wf_d raw Hwf) | lia | exact HnP]).
      unfold Instance_init. rewrite Hcd. destruct large; reflexivity.
    + assert (Hn : 1 <= nP raw) by lia.
      destruct (cum_demand_spec raw (wf_d raw Hwf) Hn) as [rows [Hrows _]].
      unfold Instance_init. rewrite Hrows.
      assert (Hrd : exists rd, (if large then Some [] else Some rows) = Some rd)
        by (destruct large; eexists; reflexivity).
      destruct Hrd as [rd ->]. cbn [bind].
      rewrite (mapM_None _ _ j); [reflexivity | apply in_range; lia |].
      unfold max_prod_row. rewrite (mapM_None _ _ t); [reflexivity | apply in_range; lia |].
      destruct Hwf as [_ _ _ Hsa Hsm Hcap].
      rewrite get_nth by lia. cbn [bind].
      rewrite (get2_at2 _ _ _ j t Hsm) by lia. cbn [bind].
      rewrite (get2_at2 _ _ _ j t Hsa) by lia. cbn [bind].
      unfold qdiv. apply Qeq_bool_iff in Ha. rewrite Ha. reflexivity.
Qed.

Lemma Instance_init_raises_iff_witness :
  Instance_init false inst_zero_usage = None <->
  (1 <= nI inst_zero_usage /\ nP inst_zero_usage = 0) \/
  (exists j t, j < nI inst_zero_usage /\ t < nP inst_zero_usage /\
     (at2 (a inst_zero_usage) j t == 0)%Q).
Proof.
  apply (Instance_init_raises_iff false inst_zero_usage). solve_wf.
Defined.

Example construction_raises :
  Instance_init false inst_no_period = None /\
  Instance_init true inst_no_period = None /\
  Instance_init false inst_zero_usage = None /\
  Instance_init false (mkInstance 0 0 [] [] [] [] [] [] [] [] [])
  = Some (mkInstance 0 0 [] [] [] [] [] [] [] [] []).
Proof. repeat split. Qed.

(** X2. The reader of small instances has put one row per item into [dcum]
    before the constructor appends its own: [dcum] then has two rows per
    item, row [nI + j] a copy of row [j]. The reader of large instances
    leaves it to the constructor, and [dcum] has one row per item. *)
Theorem dcum_rows (large : bool) (raw inp : Instance) :
  wf_instance raw -> Instance_init large raw = Some inp ->
  length (dcum inp) = (if large then nI raw else 2 * nI raw) /\
  Forall (fun row => length row = nP raw) (dcum inp) /\
  (large = false ->
   forall j, j < nI raw -> get (dcum inp) (nI raw + j) = get (dcum inp) j).
Proof.
  intros Hwf H. unfold Instance_init in H.
  inv_bind H. inv_bind H. inv_bind H. inversion H; subst; clear H. simpl.
  assert (Hrows : length x0 = nI raw /\ forall row, In row x0 -> length row = nP raw).
  { destruct (Nat.eq_dec (nP raw) 0) as [HnP|HnP].
    - destruct (Nat.eq_dec (nI raw) 0) as [HnI|HnI].
      + unfold cum_demand in Hx0. rewrite HnI in Hx0. simpl in Hx0.
        inversion Hx0; subst. split; [simpl; lia | intros row []].
      + exfalso.
        rewrite (cum_demand_no_period raw (wf_d raw Hwf)) in Hx0 by lia.
        discriminate Hx0.
    - destruct (cum_demand_spec raw (wf_d raw Hwf)) as [rows [Hr [[Hl Hf] _]]]; [lia|].
      assert (rows = x0) by congruence. subst rows.
      split; [exact Hl|]. apply Forall_forall. exact Hf. }
  destruct Hrows as [Hlen Hall].
  destruct large.
  - inversion Hx; subst. simpl. split; [exact Hlen|].
    split; [apply Forall_forall; exact Hall | discriminate].
  - assert (x = x0) by congruence. subst x. rewrite length_app.
    split; [lia|]. split.
    + apply Forall_app. split; apply Forall_forall; exact Hall.
    + intros _ j Hj. unfold get.
      rewrite nth_error_app2 by lia. rewrite nth_error_app1 by lia.
      f_equal. lia.
Qed.

Lemma dcum_rows_witness :
  exists inp,
    Instance_init false inst_two_periods = Some inp /\
    length (dcum inp) = 2 * nI inst_two_periods /\
    Forall (fun row => length row = nP inst_two_periods) (dcum inp) /\
    (false = false ->
     forall j, j < nI inst_two_periods ->
       get (dcum inp) (nI inst_two_periods + j) = get (dcum inp) j).
Proof.
  eexists. split; [vm_compute; reflexivity|].
  eapply (dcum_rows false inst_two_periods).
  - solve_wf.
  - vm_compute. reflexivity.
Defined.

(** ** createMaster: the columns it creates *)

Lemma length_pairs_before {A : Type} (inp : Instance) (g : nat -> nat -> A) (j t : nat) :
  length (pairs_before inp g j t) = j * nP inp + t.
Proof.
  unfold pairs_before. rewrite length_app, length_map, length_range.
  replace (t - 0) with t by lia. f_equal.
  induction j as [|j IH]; [rewrite range_nil; reflexivity|].
  rewrite range_snoc by lia. rewrite flat_map_app, length_app, IH.
  cbn [flat_map]. rewrite app_nil_r, length_map, length_range. lia.
Qed.

Lemma add_y_vars_columns (inp : Instance) (cpx0 : Cplex) :
  shape (nI inp) (nP inp) (f inp) ->
  exists cpx,
    add_y_vars inp cpx0 = Some (cpx, y_table inp (length (variables cpx0))) /\
    variables cpx = variables cpx0 ++ all_pairs inp (y_column inp) /\
    linear_constraints cpx = linear_constraints cpx0.
Proof.
  intros Hf. unfold add_y_vars.
  destruct (forM_range_inv
              (fun j' (st : Cplex * list (list nat)) =>
                 variables (fst st)
                 = variables cpx0 ++ pairs_before inp (y_column inp) j' 0 /\
                 linear_constraints (fst st) = linear_constraints cpx0 /\
                 snd st = map (fun j => map (fun t => length (variables cpx0)
                                                      + j * nP inp + t)
                                            (range 0 (nP inp)))
                              (range 0 j'))
              (add_y_vars_j inp) 0 (nI inp) (cpx0, []))
    as [[cpx y_ilo] [Hrun [Hv [Hc Hy]]]].
  - lia.
  - simpl. unfold pairs_before. rewrite !range_nil. simpl.
    rewrite app_nil_r. auto.
  - intros j [cpxA y_iloA] Hj [Hv [Hc Hy]]. simpl in Hv, Hc, Hy.
    unfold add_y_vars_j.
    destruct (forM_range_inv
                (fun t' (st : Cplex * list nat) =>
                   variables (fst st)
                   = variables cpx0 ++ pairs_before inp (y_column inp) j t' /\
                   linear_constraints (fst st) = linear_constraints cpx0 /\
                   snd st = map (fun t => length (variables cpx0) + j * nP inp + t)
                                (range 0 t'))
                (add_y_var inp j) 0 (nP inp) (cpxA, []))
      as [[cpxB yj] [Hrun [HvB [HcB HyB]]]].
    + lia.
    + cbn [fst snd]. rewrite range_nil. auto.
    + intros t [cpxC yjC] Ht [HvC [HcC HyC]]. simpl in HvC, HcC, HyC.
      unfold add_y_var. rewrite (get2_at2 _ _ _ j t Hf) by lia. cbn [bind].
      eexists. split; [reflexivity|]. cbn [fst snd].
      split; [|split; [exact HcC|]].
      * cbn [variables_add variables]. rewrite HvC, pairs_before_snoc, <- app_assoc.
        reflexivity.
      * rewrite range_snoc by lia. rewrite map_app. cbn [map]. rewrite HyC.
        do 2 f_equal. unfold variables_get_num. rewrite HvC, length_app.
        rewrite length_pairs_before. lia.
    + rewrite Hrun. cbn [bind]. eexists. split; [reflexivity|].
      cbn [fst snd] in *.
      split; [|split; [exact HcB|]].
      * rewrite pairs_before_row. exact HvB.
      * rewrite range_snoc by lia. rewrite map_app. cbn [map]. rewrite Hy, HyB.
        reflexivity.
  - simpl in Hv, Hc, Hy. exists cpx. rewrite Hrun. subst y_ilo.
    split; [reflexivity|]. split; [exact Hv | exact Hc].
Qed.

(** X3. createMaster appends to the problem it is given one binary column
    y.j.t per item and period, in row-major order, with objective
    coefficient [f[j][t]] and bounds 0 and 1, and after them the continuous
    column zHat with coefficient 1, lower bound 0 and no upper bound. It
    adds no row, the problem becomes a MILP, [y_ilo[j][t]] is the column
    number [base + j*nP + t] and [z_ilo] is [base + nI*nP], where [base] is
    the number of columns before the call. *)
Theorem createMaster_columns (inp : Instance) (cpx0 : Cplex) :
  shape (nI inp) (nP inp) (f inp) ->
  exists cpx,
    createMaster inp cpx0
    = Some (cpx, y_table inp (length (variables cpx0)),
            length (variables cpx0) + nI inp * nP inp) /\
    variables cpx
    = variables cpx0 ++ all_pairs inp (y_column inp) ++ [zHat_column] /\
    linear_constraints cpx = linear_constraints cpx0 /\
    problem_type cpx = MILP.
Proof.
  intros Hf. destruct (add_y_vars_columns inp cpx0 Hf) as [cpx [Hrun [Hv Hc]]].
  unfold createMaster. rewrite Hrun. cbn [bind].
  eexists. split.
  - do 2 f_equal. unfold variables_get_num. rewrite Hv, length_app.
    unfold all_pairs. rewrite length_pairs_before. lia.
  - simpl. rewrite Hv, <- app_assoc. auto.
Qed.

Lemma createMaster_columns_witness :
  exists cpx,
    createMaster inst_two_periods Cplex_new
    = Some (cpx, y_table inst_two_periods 0, 0 + 1 * 2) /\
    variables cpx
    = [] ++ all_pairs inst_two_periods (y_column inst_two_periods) ++ [zHat_column] /\
    linear_constraints cpx = [] /\
    problem_type cpx = MILP.
Proof.
  apply (createMaster_columns inst_two_periods Cplex_new). solve_shape.
Defined.

(** ** newIOCycle: how many passes without improvement *)

Lemma io_update_bound_budget (zLP : Q) (s : IOState) :
  io_stopping s = false -> io_noImprov s <= 6 ->
  io_noImprov (io_update_bound zLP s) <= 6 /\
  ((io_bestLB s < zLP)%Q ->
     io_budget (io_update_bound zLP s) = io_budget s) /\
  (~ (io_bestLB s < zLP)%Q ->
     io_budget (io_update_bound zLP s) + 1 = io_budget s) /\
  (io_stopping (io_update_bound zLP s) = true <->
   io_budget (io_update_bound zLP s) = 0).
Proof.
  intros Hs Hc. unfold io_update_bound.
  destruct (Qgtb zLP (io_bestLB s)) eqn:Eg.
  { apply Qgtb_true in Eg. unfold io_budget.
    cbn [io_stopping io_delta io_lambda io_noImprov]. rewrite Hs.
    split; [exact Hc|]. split; [auto|]. split; [tauto|].
    destruct (Qeq_bool (io_delta s) 0); [|destruct (Qeq_bool (io_lambda s) 1)];
      split; intros; try discriminate; lia. }
  apply Qgtb_false in Eg.
  destruct (io_noImprov s <=? 5) eqn:En.
  { apply Nat.leb_le in En. unfold io_budget.
    cbn [io_stopping io_delta io_lambda io_noImprov]. rewrite Hs.
    split; [lia|]. split; [tauto|].
    destruct (Qeq_bool (io_delta s) 0); [|destruct (Qeq_bool (io_lambda s) 1)];
      (split; [intros _; lia | split; intros; try discriminate; lia]). }
  apply Nat.leb_gt in En. assert (Hc6 : io_noImprov s = 6) by lia.
  destruct (Qeq_bool (io_delta s) 0) eqn:Ed.
  { unfold io_budget. cbn [io_stopping io_delta io_lambda io_noImprov].
    rewrite Hs, Ed, Hc6.
    split; [lia|]. split; [tauto|]. split; [reflexivity | tauto]. }
  destruct (Qeq_bool (io_lambda s) 1) eqn:El.
  { unfold io_budget. cbn [io_stopping io_delta io_lambda io_noImprov].
    rewrite Hs, Ed, El, Hc6. change (Qeq_bool 0 0) with true. cbv iota.
    split; [lia|]. split; [tauto|]. split; [reflexivity|].
    split; intros; discriminate. }
  unfold io_budget. cbn [io_stopping io_delta io_lambda io_noImprov].
  rewrite Hs, Ed, El, Hc6. change (Qeq_bool 1 1) with true. cbv iota.
  split; [lia|]. split; [tauto|]. split; [reflexivity|].
  split; intros; discriminate.
Qed.

Lemma newIOCycle_body_nrIter (solve : Solver) (inp : Instance)
  (y_ilo : list (list nat)) (z_ilo : nat) (s s' : IOState) :
  newIOCycle_body solve inp y_ilo z_ilo s = Some s' ->
  io_nrIter s' = io_nrIter s + 1.
Proof.
  intros H. unfold newIOCycle_body in H.
  match type of H with
  | context [io_update_bound ?z ?s0] =>
      assert (Hi : io_nrIter (io_update_bound z s0) = io_nrIter s + 1)
  end.
  { unfold io_update_bound.
    repeat match goal with |- context [if ?b then _ else _] => destruct b end;
      reflexivity. }
  inv_bind H. inv_bind H. inv_bind H. inv_bind H.
  destruct x2 as [w [cutType zSub]].
  destruct (0 <? cutType).
  - inv_bind H. inv_bind H. inversion H; subst; clear H. exact Hi.
  - inversion H; subst; clear H. exact Hi.
Qed.

Lemma newIOCycle_body_budget (solve : Solver) (inp : Instance)
  (y_ilo : list (list nat)) (z_ilo : nat) (s1 s2 : IOState) :
  io_stopping s1 = false -> io_noImprov s1 <= 6 ->
  newIOCycle_body solve inp y_ilo z_ilo s1 = Some s2 ->
  io_noImprov s2 <= 6 /\
  ((io_bestLB s1 < get_objective_value (solve (io_cpx s1)))%Q ->
     io_budget s2 = io_budget s1) /\
  (~ (io_bestLB s1 < get_objective_value (solve (io_cpx s1)))%Q ->
     io_budget s2 + 1 = io_budget s1) /\
  (io_stopping s2 = true <-> io_budget s2 = 0).
Proof.
  intros Hs1 Hc1 Hbody.
  destruct (newIOCycle_body_bookkeeping _ _ _ _ _ _ Hbody)
    as [Hl [Hd [Hst [Hn _]]]].
  set (s1' := mkIO (io_cpx s1) (io_worker s1) (io_lambda s1) (io_delta s1)
                (io_globalProgr s1) (io_yTilde s1) (io_stopping s1) (io_noImprov s1)
                (io_bestLB s1) (io_nrIter s1 + 1) (io_inout s1)) in *.
  destruct (io_update_bound_budget (get_objective_value (solve (io_cpx s1))) s1')
    as [A [B [C D]]]; [exact Hs1 | exact Hc1 |].
  assert (Hb : io_budget s2
               = io_budget (io_update_bound
                              (get_objective_value (solve (io_cpx s1))) s1')).
  { unfold io_budget. rewrite Hl, Hd, Hst, Hn. reflexivity. }
  assert (Hb1 : io_budget s1' = io_budget s1) by reflexivity.
  rewrite Hn, Hb, Hst. split; [exact A|].
  split; [intros H; rewrite <- Hb1; apply B; exact H|].
  split; [intros H; rewrite <- Hb1; apply C; exact H | exact D].
Qed.

Lemma io_count_budget (solve : Solver) (inp : Instance) (y_ilo : list (list nat))
  (z_ilo : nat) (s0 s : IOState) (n k : nat) :
  io_count solve inp y_ilo z_ilo s0 n k s ->
  io_stopping s0 = false -> io_noImprov s0 <= 6 ->
  io_noImprov s <= 6 /\ io_budget s + k = io_budget s0 /\
  io_nrIter s = io_nrIter s0 + n /\
  (io_stopping s = true <-> io_budget s = 0).
Proof.
  intros Hrun Hs0 Hc0.
  induction Hrun as [| n k s1 s2 Hrun IH Hs1 Hbody Himp
                     | n k s1 s2 Hrun IH Hs1 Hbody Hno].
  - split; [exact Hc0|]. split; [lia|]. split; [lia|].
    unfold io_budget. rewrite Hs0. split; [discriminate|].
    destruct (Qeq_bool (io_delta s0) 0); [|destruct (Qeq_bool (io_lambda s0) 1)]; lia.
  - destruct IH as [Hc1 [Hb1 [Hn1 _]]].
    destruct (newIOCycle_body_budget _ _ _ _ _ _ Hs1 Hc1 Hbody) as [A [B [_ E]]].
    pose proof (newIOCycle_body_nrIter _ _ _ _ _ _ Hbody) as D.
    split; [exact A|]. split; [rewrite (B Himp); exact Hb1|].
    split; [lia | exact E].
  - destruct IH as [Hc1 [Hb1 [Hn1 _]]].
    destruct (newIOCycle_body_budget _ _ _ _ _ _ Hs1 Hc1 Hbody) as [A [_ [C E]]].
    pose proof (newIOCycle_body_nrIter _ _ _ _ _ _ Hbody) as D.
    split; [exact A|]. split; [specialize (C Hno); lia|].
    split; [lia | exact E].
Qed.

(** X4. The loop of [newIOCycle] stops exactly when the 21st pass without
    improvement of the bound ends, however many improving passes lie in
    between: 7 such passes with [_lambda = 0.2], 7 with [_lambda = 1] and
    [_delta > 0], 7 with [_delta = 0]. [nrIter] counts all passes. *)
Theorem newIOCycle_stops_at_21 (solve : Solver) (cpx : Cplex) (worker : WorkerLPPrimal)
  (inp : Instance) (inout : list ConstrName) (y_ilo : list (list nat)) (z_ilo : nat)
  (s : IOState) (n k : nat) :
  io_count solve inp y_ilo z_ilo (newIOCycle_start cpx worker inp inout) n k s ->
  k <= 21 /\ k <= n /\ io_nrIter s = n /\ io_budget s = 21 - k /\
  (io_stopping s = true <-> k = 21).
Proof.
  intros Hrun.
  assert (Hkn : k <= n).
  { clear -Hrun. induction Hrun; lia. }
  destruct (io_count_budget _ _ _ _ _ _ _ _ Hrun) as [_ [Hb [Hn Hst]]];
    [reflexivity | simpl; lia |].
  assert (H21 : io_budget (newIOCycle_start cpx worker inp inout) = 21) by reflexivity.
  rewrite H21 in Hb. simpl in Hn.
  split; [lia|]. split; [exact Hkn|]. split; [exact Hn|]. split; [lia|].
  rewrite Hst. lia.
Qed.

Lemma newIOCycle_stops_at_21_witness :
  1 <= 21 /\ 1 <= 1 /\ io_nrIter io_two_periods_1 = 1 /\
  io_budget io_two_periods_1 = 21 - 1 /\
  (io_stopping io_two_periods_1 = true <-> 1 = 21).
Proof.
  apply (newIOCycle_stops_at_21 solve_rows master_two_periods worker_two_periods
           inst_two_periods [] y_ilo_two_periods z_ilo_two_periods
           io_two_periods_1 1 1).
  apply (io_count_stall solve_rows inst_two_periods y_ilo_two_periods
           z_ilo_two_periods _ 0 0 io_two_periods).
  - apply io_count_refl.
  - reflexivity.
  - vm_compute. reflexivity.
  - vm_compute. discriminate.
Defined.

(** ** newIOCycle: the rows it adds to the master *)

Lemma io_update_bound_frame2 (zLP : Q) (s : IOState) :
  io_globalProgr (io_update_bound zLP s) = io_globalProgr s /\
  io_inout (io_update_bound zLP s) = io_inout s /\
  io_nrIter (io_update_bound zLP s) = io_nrIter s /\
  (io_bestLB s <= io_bestLB (io_update_bound zLP s))%Q /\
  (zLP <= io_bestLB (io_update_bound zLP s))%Q.
Proof.
  unfold io_update_bound.
  destruct (Qgtb zLP (io_bestLB s)) eqn:Eg.
  { apply Qgtb_true in Eg. cbn. repeat split; try reflexivity.
    - apply Qlt_le_weak. exact Eg.
    - apply Qle_refl. }
  apply Qgtb_false in Eg. apply Qnot_lt_le in Eg.
  repeat match goal with |- context [if ?b then _ else _] => destruct b end;
    cbn; repeat split; try reflexivity; try apply Qle_refl; exact Eg.
Qed.

(** A pass leaves the rows of the master alone, or appends one row
    "inout.g" of sense L, [g] being the counter [globalProgr], which it
    then advances; the list [inout] receives the same name. *)
Lemma newIOCycle_body_rows (solve : Solver) (inp : Instance)
  (y_ilo : list (list nat)) (z_ilo : nat) (s s' : IOState) :
  newIOCycle_body solve inp y_ilo z_ilo s = Some s' ->
  (io_bestLB s <= io_bestLB s')%Q /\
  (get_objective_value (solve (io_cpx s)) <= io_bestLB s')%Q /\
  ((linear_constraints (io_cpx s') = linear_constraints (io_cpx s) /\
    io_globalProgr s' = io_globalProgr s /\ io_inout s' = io_inout s) \/
   (exists lhs r,
      linear_constraints (io_cpx s')
      = linear_constraints (io_cpx s)
        ++ [mkConstr (Some (InOut (io_globalProgr s))) lhs sense_L r] /\
      io_globalProgr s' = io_globalProgr s + 1 /\
      io_inout s' = io_inout s ++ [InOut (io_globalProgr s)])).
Proof.
  intros H. unfold newIOCycle_body in H.
  match type of H with
  | context [io_update_bound ?z ?s0] =>
      destruct (io_update_bound_frame z s0) as [_ [_ Hc]];
      destruct (io_update_bound_frame2 z s0) as [Hg [Hi [_ [Hb Hz]]]];
      set (s1 := io_update_bound z s0) in *
  end.
  cbn [io_cpx io_globalProgr io_inout io_bestLB] in Hc, Hg, Hi, Hb.
  inv_bind H. inv_bind H. inv_bind H. inv_bind H.
  destruct x2 as [w [cutType zSub]].
  destruct (0 <? cutType).
  - inv_bind H. inv_bind H. inversion H; subst; clear H.
    cbn [io_cpx io_globalProgr io_inout io_bestLB].
    split; [exact Hb|]. split; [exact Hz|].
    right. exists x2, x3. rewrite Hc, Hg, Hi. cbn. auto.
  - inversion H; subst; clear H.
    cbn [io_cpx io_globalProgr io_inout io_bestLB].
    split; [exact Hb|]. split; [exact Hz|].
    left. rewrite Hc, Hg, Hi. auto.
Qed.

(** X5. Whatever the loop of [newIOCycle] has done so far, the master holds
    the rows it held on entry followed by [globalProgr] rows of sense L
    named "inout.0", "inout.1", ... in this order, the global list [inout]
    has received the same names, at most one row has been added per pass,
    and the best bound is not below 0 nor below its earlier values. *)
Theorem newIOCycle_cut_rows (solve : Solver) (cpx : Cplex) (worker : WorkerLPPrimal)
  (inp : Instance) (inout : list ConstrName) (y_ilo : list (list nat)) (z_ilo : nat)
  (s : IOState) :
  io_run solve inp y_ilo z_ilo (newIOCycle_start cpx worker inp inout) s ->
  exists cuts,
    linear_constraints (io_cpx s) = linear_constraints cpx ++ cuts /\
    map c_name cuts = map (fun n => Some (InOut n)) (range 0 (io_globalProgr s)) /\
    Forall (fun k => sense k = sense_L) cuts /\
    io_inout s = inout ++ map InOut (range 0 (io_globalProgr s)) /\
    io_globalProgr s <= io_nrIter s /\
    (0 <= io_bestLB s)%Q.
Proof.
  intros Hrun. induction Hrun as [| s1 s2 Hrun IH Hs1 Hbody].
  - exists []. cbn. rewrite !app_nil_r. repeat split; auto. apply Qle_refl.
  - destruct IH as [cuts [Hrows [Hnames [Hsense [Hio [Hle Hlb]]]]]].
    pose proof (newIOCycle_body_nrIter _ _ _ _ _ _ Hbody) as Hn.
    destruct (newIOCycle_body_rows _ _ _ _ _ _ Hbody)
      as [Hb [_ [[Hr [Hg Hi]] | [lhs [r [Hr [Hg Hi]]]]]]].
    + exists cuts. rewrite Hr, Hg, Hi.
      repeat (split; [assumption|]). split; [lia|].
      eapply Qle_trans; eassumption.
    + exists (cuts ++ [mkConstr (Some (InOut (io_globalProgr s1))) lhs sense_L r]).
      rewrite Hr, Hg, Hi, Hrows, Hio.
      replace (io_globalProgr s1 + 1) with (S (io_globalProgr s1)) by lia.
      rewrite range_snoc by lia. rewrite !map_app, <- !app_assoc, Hnames.
      split; [reflexivity|]. split; [reflexivity|].
      split; [apply Forall_app; split; [exact Hsense | repeat constructor]|].
      split; [reflexivity|]. split; [lia|].
      eapply Qle_trans; eassumption.
Qed.

Lemma newIOCycle_cut_rows_witness :
  exists cuts,
    linear_constraints (io_cpx io_two_periods_1)
    = linear_constraints master_two_periods ++ cuts /\
    map c_name cuts
    = map (fun n => Some (InOut n)) (range 0 (io_globalProgr io_two_periods_1)) /\
    Forall (fun k => sense k = sense_L) cuts /\
    io_inout io_two_periods_1
    = [] ++ map InOut (range 0 (io_globalProgr io_two_periods_1)) /\
    io_globalProgr io_two_periods_1 <= io_nrIter io_two_periods_1 /\
    (0 <= io_bestLB io_two_periods_1)%Q.
Proof.
  apply (newIOCycle_cut_rows solve_rows master_two_periods worker_two_periods
           inst_two_periods [] y_ilo_two_periods z_ilo_two_periods io_two_periods_1).
  apply (io_run_step solve_rows inst_two_periods y_ilo_two_periods
           z_ilo_two_periods _ io_two_periods).
  - apply io_run_refl.
  - reflexivity.
  - vm_compute. reflexivity.
Defined.

(** ** bendersDual: runs of the loop *)

(** What a pass of the loop of [bendersDual] does, in one equation. *)
Lemma bendersDual_body_spec (solve : Solver) (inp : Instance)
  (y_ilo : list (list nat)) (z_ilo : nat) (s : BDState) :
  wf_instance inp -> worker_reach solve inp (bd_worker s) -> farkas_per_row solve ->
  shape (nI inp) (nP inp) y_ilo ->
  let sol := solve (bd_cpx s) in
  let objMaster := get_objective_value sol in
  let zHat := get_values sol z_ilo in
  exists ySol cpx cutType zSub lhs r,
    getSolution inp sol y_ilo z_ilo = Some (objMaster, zHat, ySol) /\
    shape (nI inp) (nP inp) ySol /\
    (forall j t, j < nI inp -> t < nP inp ->
       at2 ySol j t = get_values sol (at2n y_ilo j t)) /\
    update_rhs inp ySol (w_cpx (bd_worker s)) = Some cpx /\
    solveSubPrimal solve (bd_worker s) inp ySol zHat y_ilo z_ilo
    = Some (mkWorker cpx (w_z_ilo (bd_worker s)) (lCapacity (bd_worker s))
              (lDemand (bd_worker s)) (lLogic (bd_worker s)) (Some lhs) (Some r),
            (cutType, zSub)) /\
    match get_status (solve cpx) with
    | optimal =>
        cutType = 2 /\ zSub = get_objective_value (solve cpx) /\
        ind lhs = all_pairs inp (at2n y_ilo) ++ [z_ilo] /\
        val lhs = all_pairs inp (opt_coeff_code inp (solve cpx)) ++ [(- 1)%Q] /\
        (r == opt_rhs inp (solve cpx) ySol)%Q
    | infeasible =>
        cutType = 1 /\ zSub = (- 1)%Q /\
        ind lhs = all_pairs inp (at2n y_ilo) /\
        val lhs = all_pairs inp (feas_coeff inp (dual_farkas (solve cpx))) /\
        (r == feas_rhs inp (dual_farkas (solve cpx)))%Q
    | other_status _ =>
        cutType = 0 /\ zSub = (- 1)%Q /\ lhs = mkSparsePair [] [] /\ r = 0%Q
    end /\
    bendersDual_body solve inp y_ilo z_ilo s
    = Some (mkBD (linear_constraints_add (bd_cpx s)
                    (mkConstr (Some (Cut (bd_nrCuts s))) lhs sense_L r))
              (mkWorker cpx (w_z_ilo (bd_worker s)) (lCapacity (bd_worker s))
                 (lDemand (bd_worker s)) (lLogic (bd_worker s)) (Some lhs) (Some r))
              (if Qltb (bd_update_ub cutType objMaster zHat zSub (bd_ubBest s)
                        - objMaster) _EPSI
               then true else bd_stopping s)
              (bd_nIters s + 1) (bd_nrCuts s + 1)
              (bd_update_ub cutType objMaster zHat zSub (bd_ubBest s))
              objMaster).
Proof.
  intros Hwf Hreach Hfk Hy sol objMaster zHat.
  pose proof (worker_reach_ok solve inp (bd_worker s) Hwf Hreach) as Hok.
  destruct (getSolution_spec inp sol y_ilo z_ilo Hy) as [ySol [Hget [Hys Hval]]].
  destruct (solveSubPrimal_spec solve (bd_worker s) inp ySol zHat y_ilo z_ilo Hwf Hok)
    as [cpx [cutType [zSub [lhs [r [Hupd [_ [Hcall Hcut]]]]]]]]; auto.
  exists ySol, cpx, cutType, zSub, lhs, r.
  split; [exact Hget|]. split; [exact Hys|]. split; [exact Hval|].
  split; [exact Hupd|]. split; [exact Hcall|]. split; [exact Hcut|].
  unfold bendersDual_body. fold sol. rewrite Hget. cbn [bind].
  fold zHat. rewrite Hcall. cbn [bind cutLhs cutRhs]. reflexivity.
Qed.

Lemma bd_update_ub_le (cutType : nat) (bestLB zHat zSub ubBest : Q) :
  (bd_update_ub cutType bestLB zHat zSub ubBest <= ubBest)%Q.
Proof.
  unfold bd_update_ub.
  destruct (cutType =? 1); [apply Qle_refl|].
  destruct (cutType =? 2); [|apply Qle_refl]. cbv zeta.
  destruct (Qltb (bestLB - zHat + zSub) ubBest) eqn:E; [|apply Qle_refl].
  apply Qltb_true in E. apply Qlt_le_weak. exact E.
Qed.

(** The bookkeeping of a pass that did not raise, read off the body. *)
Lemma bendersDual_body_frame (solve : Solver) (inp : Instance)
  (y_ilo : list (list nat)) (z_ilo : nat) (s s' : BDState) :
  bendersDual_body solve inp y_ilo z_ilo s = Some s' ->
  (exists lhs r,
     linear_constraints (bd_cpx s')
     = linear_constraints (bd_cpx s)
       ++ [mkConstr (Some (Cut (bd_nrCuts s))) lhs sense_L r]) /\
  variables (bd_cpx s') = variables (bd_cpx s) /\
  problem_type (bd_cpx s') = problem_type (bd_cpx s) /\
  bd_nrCuts s' = bd_nrCuts s + 1 /\ bd_nIters s' = bd_nIters s + 1 /\
  (bd_ubBest s' <= bd_ubBest s)%Q /\
  bd_bestLB s' = get_objective_value (solve (bd_cpx s)) /\
  (bd_stopping s = false ->
   (bd_stopping s' = true <-> (bd_ubBest s' - bd_bestLB s' < _EPSI)%Q)).
Proof.
  intros H. unfold bendersDual_body in H.
  inv_bind H. destruct x as [[bestLB zHat] ySol].
  assert (HLB : bestLB = get_objective_value (solve (bd_cpx s))).
  { unfold getSolution in Hx. inv_bind Hx. inversion Hx; subst. reflexivity. }
  inv_bind H. destruct x as [w [cutType zSub]].
  inv_bind H. inv_bind H. inversion H; subst; clear H.
  cbn [bd_cpx bd_nrCuts bd_nIters bd_ubBest bd_bestLB bd_stopping].
  split; [eexists; eexists; reflexivity|].
  do 4 (split; [reflexivity|]).
  split; [apply bd_update_ub_le|]. split; [reflexivity|].
  intros Hs. rewrite Hs.
  match goal with |- context [Qltb ?a ?b] => destruct (Qltb a b) eqn:E end.
  - apply Qltb_true in E. tauto.
  - split; [discriminate|]. intros Hlt. apply Qltb_true in Hlt. congruence.
Qed.

Lemma bd_run_frame (solve : Solver) (inp : Instance)
  (y_ilo : list (list nat)) (z_ilo : nat) (s0 s : BDState) :
  bd_run solve inp y_ilo z_ilo s0 s ->
  exists cuts,
    linear_constraints (bd_cpx s) = linear_constraints (bd_cpx s0) ++ cuts /\
    map c_name cuts
    = map (fun n => Some (Cut n)) (range (bd_nrCuts s0) (bd_nrCuts s)) /\
    Forall (fun k => sense k = sense_L) cuts /\
    bd_nrCuts s0 <= bd_nrCuts s /\
    bd_nrCuts s - bd_nrCuts s0 = bd_nIters s - bd_nIters s0 /\
    bd_nIters s0 <= bd_nIters s /\
    variables (bd_cpx s) = variables (bd_cpx s0) /\
    problem_type (bd_cpx s) = problem_type (bd_cpx s0) /\
    (bd_ubBest s <= bd_ubBest s0)%Q.
Proof.
  intros Hrun. induction Hrun as [| s1 s2 Hrun IH Hs1 Hbody].
  - exists []. rewrite app_nil_r, range_nil.
    do 3 (split; [auto|]). do 3 (split; [lia|]).
    split; [reflexivity|]. split; [reflexivity | apply Qle_refl].
  - destruct IH as [cuts [Hrows [Hnames [Hsense [Hle [Heq [Hle' [Hv [Hp Hub]]]]]]]]].
    destruct (bendersDual_body_frame _ _ _ _ _ _ Hbody)
      as [[lhs [r Hr]] [Hv' [Hp' [Hc [Hn [Hub' _]]]]]].
    exists (cuts ++ [mkConstr (Some (Cut (bd_nrCuts s1))) lhs sense_L r]).
    rewrite Hr, Hrows, Hc, Hn, Hv', Hp'.
    replace (bd_nrCuts s1 + 1) with (S (bd_nrCuts s1)) by lia.
    rewrite range_snoc by lia. rewrite !map_app, <- !app_assoc, Hnames.
    split; [reflexivity|]. split; [reflexivity|].
    split; [apply Forall_app; split; [exact Hsense | repeat constructor]|].
    split; [lia|]. split; [lia|]. split; [lia|].
    split; [exact Hv|]. split; [exact Hp|].
    eapply Qle_trans; eassumption.
Qed.

(** X6. Whatever the loop of [bendersDual] has done so far, it has added one
    row of sense L per pass, named "cut.n" with [n] counting up from
    [nrCuts], so that [nrCuts] and [nIters] have advanced together; it has
    added no column and has left the type of the problem and hence the
    binary y alone; and the best upper bound has not increased. *)
Theorem bendersDual_cut_rows (solve : Solver) (inp : Instance)
  (y_ilo : list (list nat)) (z_ilo : nat) (s0 s : BDState) :
  bd_run solve inp y_ilo z_ilo s0 s ->
  exists cuts,
    linear_constraints (bd_cpx s) = linear_constraints (bd_cpx s0) ++ cuts /\
    map c_name cuts
    = map (fun n => Some (Cut n)) (range (bd_nrCuts s0) (bd_nrCuts s)) /\
    Forall (fun k => sense k = sense_L) cuts /\
    bd_nrCuts s0 <= bd_nrCuts s /\
    bd_nrCuts s - bd_nrCuts s0 = bd_nIters s - bd_nIters s0 /\
    bd_nIters s0 <= bd_nIters s /\
    variables (bd_cpx s) = variables (bd_cpx s0) /\
    problem_type (bd_cpx s) = problem_type (bd_cpx s0) /\
    (bd_ubBest s <= bd_ubBest s0)%Q.
Proof. apply bd_run_frame. Qed.

Lemma bendersDual_cut_rows_witness :
  exists cuts,
    linear_constraints (bd_cpx bd_two_periods_1)
    = linear_constraints (bd_cpx bd_two_periods) ++ cuts /\
    map c_name cuts
    = map (fun n => Some (Cut n))
        (range (bd_nrCuts bd_two_periods) (bd_nrCuts bd_two_periods_1)) /\
    Forall (fun k => sense k = sense_L) cuts /\
    bd_nrCuts bd_two_periods <= bd_nrCuts bd_two_periods_1 /\
    bd_nrCuts bd_two_periods_1 - bd_nrCuts bd_two_periods
    = bd_nIters bd_two_periods_1 - bd_nIters bd_two_periods /\
    bd_nIters bd_two_periods <= bd_nIters bd_two_periods_1 /\
    variables (bd_cpx bd_two_periods_1) = variables (bd_cpx bd_two_periods) /\
    problem_type (bd_cpx bd_two_periods_1) = problem_type (bd_cpx bd_two_periods) /\
    (bd_ubBest bd_two_periods_1 <= bd_ubBest bd_two_periods)%Q.
Proof.
  apply (bendersDual_cut_rows solve_duals inst_two_periods y_ilo_two_periods
           z_ilo_two_periods bd_two_periods bd_two_periods_1).
  apply (bd_run_step solve_duals inst_two_periods y_ilo_two_periods
           z_ilo_two_periods _ bd_two_periods).
  - apply bd_run_refl.
  - reflexivity.
  - vm_compute. reflexivity.
Defined.

(** A dictionary of the runs of the loop: what the loop function returns
    has been reached by passes, the last of which raised the stop flag. *)
Lemma bendersDual_loop_run (solve : Solver) (inp : Instance)
  (y_ilo : list (list nat)) (z_ilo : nat) (fuel : nat) :
  forall s s', bendersDual_loop solve fuel inp y_ilo z_ilo s = Some s' ->
    bd_stopping s' = true /\
    (bd_stopping s = false ->
       exists prev, bd_run solve inp y_ilo z_ilo s prev /\
                    bd_stopping prev = false /\
                    bendersDual_body solve inp y_ilo z_ilo prev = Some s').
Proof.
  induction fuel as [|fuel IH]; intros s s' H; simpl in H.
  - destruct (bd_stopping s) eqn:E; [|discriminate].
    inversion H; subst. split; auto. congruence.
  - destruct (bd_stopping s) eqn:E.
    + inversion H; subst. split; auto. congruence.
    + inv_bind H. destruct (IH _ _ H) as [Hstop Hprev]. split; auto.
      intros _. destruct (bd_stopping x) eqn:Ex.
      * destruct fuel; simpl in H; rewrite Ex in H; inversion H; subst;
          (exists s; split; [apply bd_run_refl | auto]).
      * destruct (Hprev eq_refl) as [prev [Hrun [Hps Hbody]]].
        exists prev. split; [|auto].
        clear -Hrun E Hx. induction Hrun.
        -- eapply bd_run_step; [apply bd_run_refl | exact E | exact Hx].
        -- eapply bd_run_step; eauto.
Qed.

(** X7. [bendersDual] returns only with the gap closed: the best upper bound
    exceeds the objective of the last master that was solved by less than
    [_EPSI]. It has then made at least one pass, has added exactly one cut
    per pass, and the last pass is the only one that found the gap
    closed. *)
Theorem bendersDual_returns_gap_closed (solve : Solver) (fuelIO fuel : nat)
  (inp : Instance) (s : BDState) :
  bendersDual solve fuelIO fuel inp = Some s ->
  bd_stopping s = true /\
  (bd_ubBest s - bd_bestLB s < _EPSI)%Q /\
  1 <= bd_nIters s /\ bd_nrCuts s = bd_nIters s /\
  exists bd y_ilo z_ilo prev,
    bendersDual_setup solve fuelIO inp = Some (bd, y_ilo, z_ilo) /\
    bd_run solve inp y_ilo z_ilo bd prev /\
    bendersDual_body solve inp y_ilo z_ilo prev = Some s /\
    bd_bestLB s = get_objective_value (solve (bd_cpx prev)) /\
    length (linear_constraints (bd_cpx s))
    = length (linear_constraints (bd_cpx bd)) + bd_nIters s.
Proof.
  intros H. unfold bendersDual in H. inv_bind H. destruct x as [[bd y_ilo] z_ilo].
  assert (Hbd : bd_stopping bd = false /\ bd_nIters bd = 0 /\ bd_nrCuts bd = 0).
  { unfold bendersDual_setup in Hx.
    inv_bind Hx. destruct x as [[cpx y0] z0].
    inv_bind Hx. inv_bind Hx. inv_bind Hx. inversion Hx; subst. auto. }
  destruct Hbd as [Hs0 [Hn0 Hc0]].
  destruct (bendersDual_loop_run _ _ _ _ _ _ _ H) as [Hstop Hprev].
  destruct (Hprev Hs0) as [prev [Hrun [Hps Hbody]]].
  destruct (bendersDual_body_frame _ _ _ _ _ _ Hbody)
    as [[lhs [r Hr]] [_ [_ [Hc [Hn [_ [Hlb Hgap]]]]]]].
  destruct (bd_run_frame _ _ _ _ _ _ Hrun)
    as [cuts [Hrows [Hnames [_ [Hle [Heq [Hle' _]]]]]]].
  assert (Hlen : length cuts = bd_nIters prev).
  { rewrite <- (length_map c_name), Hnames, length_map, length_range. lia. }
  split; [exact Hstop|]. split; [apply Hgap; assumption|].
  split; [lia|]. split; [lia|].
  exists bd, y_ilo, z_ilo, prev.
  split; [exact Hx|]. split; [exact Hrun|]. split; [exact Hbody|].
  split; [exact Hlb|].
  rewrite Hr, Hrows, !length_app, Hlen, Hn. simpl. lia.
Qed.

Lemma bendersDual_returns_gap_closed_witness :
  bd_stopping bd_returned = true /\
  (bd_ubBest bd_returned - bd_bestLB bd_returned < _EPSI)%Q /\
  1 <= bd_nIters bd_returned /\ bd_nrCuts bd_returned = bd_nIters bd_returned /\
  exists bd y_ilo z_ilo prev,
    bendersDual_setup solve_zero 21 inst_two_periods = Some (bd, y_ilo, z_ilo) /\
    bd_run solve_zero inst_two_periods y_ilo z_ilo bd prev /\
    bendersDual_body solve_zero inst_two_periods y_ilo z_ilo prev = Some bd_returned /\
    bd_bestLB bd_returned = get_objective_value (solve_zero (bd_cpx prev)) /\
    length (linear_constraints (bd_cpx bd_returned))
    = length (linear_constraints (bd_cpx bd)) + bd_nIters bd_returned.
Proof.
  apply (bendersDual_returns_gap_closed solve_zero 21 1 inst_two_periods bd_returned).
  vm_compute. reflexivity.
Defined.

(** ** The cuts at the point that was separated *)

Lemma Qsum_map_ext {A : Type} (f g : A -> Q) (l : list A) :
  (forall i, In i l -> (f i == g i)%Q) -> (Qsum (map f l) == Qsum (map g l))%Q.
Proof.
  induction l as [|i l IH]; intros H; [reflexivity|].
  cbn [map]. rewrite !Qsum_cons. rewrite (H i) by (left; reflexivity).
  rewrite IH by (intros k Hk; apply H; right; exact Hk). reflexivity.
Qed.

Lemma Qsum_map_add {A : Type} (f g : A -> Q) (l : list A) :
  (Qsum (map (fun i => f i + g i) l) == Qsum (map f l) + Qsum (map g l))%Q.
Proof.
  induction l as [|i l IH]; [reflexivity|].
  cbn [map]. rewrite !Qsum_cons, IH. ring.
Qed.

Lemma Qsum_map_scal {A : Type} (c : Q) (f : A -> Q) (l : list A) :
  (Qsum (map (fun i => c * f i) l) == c * Qsum (map f l))%Q.
Proof.
  induction l as [|i l IH]; [unfold Qsum; simpl; ring|].
  cbn [map]. rewrite !Qsum_cons, IH. ring.
Qed.

Lemma Qsum_map_zero {A : Type} (l : list A) :
  (Qsum (map (fun _ => 0) l) == 0)%Q.
Proof.
  induction l as [|i l IH]; [reflexivity|].
  cbn [map]. rewrite Qsum_cons, IH. ring.
Qed.

Lemma Qsum_map_swap {A B : Type} (g : A -> B -> Q) (l1 : list A) (l2 : list B) :
  (Qsum (map (fun j => Qsum (map (g j) l2)) l1)
   == Qsum (map (fun t => Qsum (map (fun j => g j t) l1)) l2))%Q.
Proof.
  induction l1 as [|j l1 IH].
  - cbn [map]. rewrite Qsum_map_zero. reflexivity.
  - cbn [map]. rewrite Qsum_cons, IH.
    rewrite (Qsum_map_ext (fun t => Qsum (g j t :: map (fun j0 => g j0 t) l1))
               (fun t => g j t + Qsum (map (fun j0 => g j0 t) l1))%Q)
      by (intros t _; apply Qsum_cons).
    rewrite Qsum_map_add. reflexivity.
Qed.

Lemma Qsum_flat_map {A B : Type} (G : B -> Q) (F : A -> list B) (l : list A) :
  (Qsum (map G (flat_map F l)) == Qsum (map (fun i => Qsum (map G (F i))) l))%Q.
Proof.
  induction l as [|i l IH]; [reflexivity|].
  cbn [flat_map map]. rewrite map_app, Qsum_app, Qsum_cons, IH. reflexivity.
Qed.

Lemma combine_app_eq {A B : Type} (l1 l2 : list A) (k1 k2 : list B) :
  length l1 = length k1 ->
  combine (l1 ++ l2) (k1 ++ k2) = combine l1 k1 ++ combine l2 k2.
Proof.
  revert k1. induction l1 as [|a l1 IH]; intros [|b k1] H; try discriminate.
  - reflexivity.
  - cbn. f_equal. apply IH. simpl in H. lia.
Qed.

Lemma combine_map_same {A B C : Type} (f : A -> B) (g : A -> C) (l : list A) :
  combine (map f l) (map g l) = map (fun i => (f i, g i)) l.
Proof. induction l as [|i l IH]; [reflexivity|]. cbn. f_equal. exact IH. Qed.

Lemma combine_pairs_before {A B : Type} (inp : Instance) (g1 : nat -> nat -> A)
  (g2 : nat -> nat -> B) (j t : nat) :
  combine (pairs_before inp g1 j t) (pairs_before inp g2 j t)
  = pairs_before inp (fun j0 t0 => (g1 j0 t0, g2 j0 t0)) j t.
Proof.
  unfold pairs_before. rewrite combine_app_eq.
  - rewrite combine_map_same. f_equal.
    induction (range 0 j) as [|j0 l IH]; [reflexivity|].
    cbn [flat_map]. rewrite combine_app_eq by (rewrite !length_map; reflexivity).
    rewrite combine_map_same, IH. reflexivity.
  - induction (range 0 j) as [|j0 l IH]; [reflexivity|].
    cbn [flat_map]. rewrite !length_app, !length_map, IH. reflexivity.
Qed.

Lemma map_pairs_before {A B : Type} (inp : Instance) (h : A -> B)
  (g : nat -> nat -> A) (j t : nat) :
  map h (pairs_before inp g j t) = pairs_before inp (fun j0 t0 => h (g j0 t0)) j t.
Proof.
  unfold pairs_before. rewrite map_app, map_map. f_equal.
  induction (range 0 j) as [|j0 l IH]; [reflexivity|].
  cbn [flat_map]. rewrite map_app, map_map, IH. reflexivity.
Qed.

Lemma Qsum_pairs_ext_in (inp : Instance) (g g' : nat -> nat -> Q) :
  (forall j t, j < nI inp -> t < nP inp -> (g j t == g' j t)%Q) ->
  (Qsum_pairs inp g == Qsum_pairs inp g')%Q.
Proof.
  intros H. unfold Qsum_pairs. apply Qsum_range_ext. intros j Hj.
  apply Qsum_range_ext. intros t Ht. apply H; lia.
Qed.

(** The value of a row over the columns y.j.t at a point that agrees with
    [ySol] on these columns. *)
Lemma row_value_pairs (inp : Instance) (x : nat -> Q) (y_ilo : list (list nat))
  (ySol : list (list Q)) (c : nat -> nat -> Q) :
  (forall j t, j < nI inp -> t < nP inp -> (x (at2n y_ilo j t) == at2 ySol j t)%Q) ->
  (Qsum (map (fun p => snd p * x (fst p))%Q
           (combine (all_pairs inp (at2n y_ilo)) (all_pairs inp c)))
   == Qsum_pairs inp (fun j t => c j t * at2 ySol j t))%Q.
Proof.
  intros Hx. unfold all_pairs. rewrite combine_pairs_before, map_pairs_before.
  cbn [fst snd]. fold (all_pairs inp (fun j0 t0 => c j0 t0 * x (at2n y_ilo j0 t0))%Q).
  rewrite Qsum_all_pairs. apply Qsum_pairs_ext_in. intros j t Hj Ht.
  rewrite (Hx j t Hj Ht). reflexivity.
Qed.

Lemma length_all_pairs {A : Type} (inp : Instance) (g : nat -> nat -> A) :
  length (all_pairs inp g) = nI inp * nP inp.
Proof. unfold all_pairs. rewrite length_pairs_before. lia. Qed.

(** X9. An optimality cut left by [solveSubPrimal] is violated at a point
    that agrees with [ySol] on the columns of y by exactly [zSub] minus the
    value that the point gives to zHat: the cut says [zHat >= zSub] at this
    setup vector. *)
Theorem optimality_cut_violation (solve : Solver) (w w' : WorkerLPPrimal)
  (inp : Instance) (ySol : list (list Q)) (zHat zSub : Q) (y_ilo : list (list nat))
  (z_ilo : nat) (x : nat -> Q) :
  wf_instance inp -> worker_reach solve inp w -> farkas_per_row solve ->
  shape (nI inp) (nP inp) ySol -> shape (nI inp) (nP inp) y_ilo ->
  (forall j t, j < nI inp -> t < nP inp -> (x (at2n y_ilo j t) == at2 ySol j t)%Q) ->
  solveSubPrimal solve w inp ySol zHat y_ilo z_ilo = Some (w', (2, zSub)) ->
  exists lhs r,
    cutLhs w' = Some lhs /\ cutRhs w' = Some r /\
    (row_value x lhs - r == zSub - x z_ilo)%Q.
Proof.
  intros Hwf Hreach Hfk Hys Hy Hx Hcall.
  pose proof (worker_reach_ok solve inp w Hwf Hreach) as Hok.
  destruct (solveSubPrimal_spec solve w inp ySol zHat y_ilo z_ilo Hwf Hok)
    as [cpx [cutType [zSub' [lhs [r [_ [_ [Hcall' Hcut]]]]]]]]; auto.
  rewrite Hcall' in Hcall. inversion Hcall; subst; clear Hcall.
  exists lhs, r. split; [reflexivity|]. split; [reflexivity|].
  destruct (get_status (solve cpx)).
  - destruct Hcut as [_ [-> [Hind [Hval Hr]]]].
    unfold row_value. rewrite Hind, Hval.
    rewrite combine_app_eq by (rewrite !length_all_pairs; reflexivity).
    rewrite map_app, Qsum_app. rewrite (row_value_pairs inp x y_ilo ySol _ Hx).
    cbn [combine map fst snd]. rewrite Qsum_cons. rewrite Hr. unfold opt_rhs.
    rewrite (Qsum_pairs_ext_in inp
               (fun j t => opt_coeff_code inp (solve cpx) j t * at2 ySol j t)%Q
               (fun j t => opt_coeff inp (solve cpx) j t * at2 ySol j t)%Q)
      by (intros j t _ _; rewrite opt_coeff_code_eq; reflexivity).
    unfold Qsum. simpl. ring.
  - destruct Hcut as [Hc _]. discriminate.
  - destruct Hcut as [Hc _]. discriminate.
Qed.

Lemma optimality_cut_violation_witness :
  exists lhs r,
    cutLhs worker_after_duals = Some lhs /\ cutRhs worker_after_duals = Some r /\
    (row_value point_half lhs - r == 7 - point_half z_ilo_two_periods)%Q.
Proof.
  apply (optimality_cut_violation solve_duals worker_two_periods worker_after_duals
           inst_two_periods ySol_half 3 7 y_ilo_two_periods z_ilo_two_periods
           point_half).
  - solve_wf.
  - apply reach_init. vm_compute. reflexivity.
  - intros cpx H. simpl in H. discriminate.
  - solve_shape.
  - solve_shape.
  - intros j t Hj Ht. simpl in Hj, Ht.
    destruct j as [|j]; [|lia]. destruct t as [|[|t]]; [reflexivity | reflexivity | lia].
  - vm_compute. reflexivity.
Defined.

(** The sum over the rows of the subproblem, row by row. *)
Lemma Qsum_worker_rows (inp : Instance) (G : ConstrName -> Q) :
  (Qsum (map G (worker_rows inp))
   == Qsum_range 0 (nP inp) (fun t => G (Capacity t))
      + Qsum_pairs inp (fun j r => G (Demand j r))
      + Qsum_range 0 (nI inp) (fun j =>
          Qsum_range 0 (nP inp) (fun t =>
            Qsum_range t (nP inp) (fun r => G (Logic j t r)))))%Q.
Proof.
  unfold worker_rows. rewrite !map_app, !Qsum_app.
  assert (H1 : (Qsum (map G (cap_names (nP inp)))
                == Qsum_range 0 (nP inp) (fun t => G (Capacity t)))%Q).
  { unfold cap_names, Qsum_range. rewrite map_map. reflexivity. }
  assert (H2 : (Qsum (map G (dem_names inp (nI inp) 0))
                == Qsum_pairs inp (fun j r => G (Demand j r)))%Q).
  { change (dem_names inp (nI inp) 0) with (all_pairs inp Demand).
    unfold all_pairs. rewrite map_pairs_before.
    apply (Qsum_all_pairs inp (fun j r => G (Demand j r))). }
  assert (H3 : (Qsum (map G (log_names inp (nI inp) 0 0))
                == Qsum_range 0 (nI inp) (fun j =>
                     Qsum_range 0 (nP inp) (fun t =>
                       Qsum_range t (nP inp) (fun r => G (Logic j t r)))))%Q).
  { unfold log_names. rewrite !range_nil. cbn [flat_map map]. rewrite !app_nil_r.
    rewrite Qsum_flat_map. unfold Qsum_range. apply Qsum_map_ext. intros j _.
    rewrite Qsum_flat_map. apply Qsum_map_ext. intros t _.
    rewrite map_map. reflexivity. }
  rewrite H1, H2, H3. ring.
Qed.

(** The identity behind the feasibility cut, for arbitrary data. *)
Lemma farkas_algebra (n p : nat) (m d y om : nat -> nat -> Q) (cap lam : nat -> Q)
  (ep : nat -> nat -> nat -> Q) :
  (Qsum_range 0 n (fun j => Qsum_range 0 p (fun t =>
     (- m j t * lam t + Qsum_range t p (fun r => ep j t r * d j r)) * y j t))
   - (- Qsum_range 0 n (fun j => Qsum_range 0 p (fun t => d j t * om j t))
      - Qsum_range 0 p (fun t => cap t * lam t))
   == Qsum_range 0 p (fun t =>
        lam t * (cap t - Qsum_range 0 n (fun j => m j t * y j t)))
      + Qsum_range 0 n (fun j => Qsum_range 0 p (fun t => om j t * d j t))
      + Qsum_range 0 n (fun j => Qsum_range 0 p (fun t =>
          Qsum_range t p (fun r => ep j t r * (d j r * y j t)))))%Q.
Proof.
  unfold Qsum_range.
  set (J := range 0 n). set (T := range 0 p).
  assert (E1 : (Qsum (map (fun j => Qsum (map (fun t =>
                  (- m j t * lam t
                   + Qsum (map (fun r => ep j t r * d j r) (range t p))) * y j t) T)) J)
                == Qsum (map (fun j => Qsum (map (fun t => - (lam t * (m j t * y j t))) T)) J)
                   + Qsum (map (fun j => Qsum (map (fun t =>
                       Qsum (map (fun r => ep j t r * (d j r * y j t)) (range t p))) T)) J))%Q).
  { rewrite <- Qsum_map_add. apply Qsum_map_ext. intros j _.
    rewrite <- Qsum_map_add. apply Qsum_map_ext. intros t _.
    rewrite (Qsum_map_ext (fun r => ep j t r * (d j r * y j t))%Q
               (fun r => y j t * (ep j t r * d j r))%Q)
      by (intros r _; ring).
    rewrite Qsum_map_scal. ring. }
  assert (E2 : (Qsum (map (fun t =>
                  lam t * (cap t - Qsum (map (fun j => m j t * y j t) J))) T)
                == Qsum (map (fun t => cap t * lam t) T)
                   + Qsum (map (fun t => Qsum (map (fun j =>
                       - (lam t * (m j t * y j t))) J)) T))%Q).
  { rewrite <- Qsum_map_add. apply Qsum_map_ext. intros t _.
    rewrite (Qsum_map_ext (fun j => - (lam t * (m j t * y j t)))%Q
               (fun j => (- lam t) * (m j t * y j t))%Q)
      by (intros j _; ring).
    rewrite Qsum_map_scal. ring. }
  assert (E3 : (Qsum (map (fun j => Qsum (map (fun t => d j t * om j t) T)) J)
                == Qsum (map (fun j => Qsum (map (fun t => om j t * d j t) T)) J))%Q).
  { apply Qsum_map_ext. intros j _. apply Qsum_map_ext. intros t _. ring. }
  rewrite E1, E2, E3.
  rewrite (Qsum_map_swap (fun j t => - (lam t * (m j t * y j t)))%Q J T).
  ring.
Qed.

(** X10. A feasibility cut left by [solveSubPrimal] is violated at a point
    that agrees with [ySol] on the columns of y by exactly the value of the
    Farkas vector on the right-hand sides of the LP that was found
    infeasible: the sum over the rows of the entry of the row times the
    right-hand side that the re-parameterization for [ySol] gave it. *)
Theorem feasibility_cut_violation (solve : Solver) (w w' : WorkerLPPrimal)
  (inp : Instance) (ySol : list (list Q)) (zHat zSub : Q) (y_ilo : list (list nat))
  (z_ilo : nat) (x : nat -> Q) :
  wf_instance inp -> worker_reach solve inp w -> farkas_per_row solve ->
  shape (nI inp) (nP inp) ySol -> shape (nI inp) (nP inp) y_ilo ->
  (forall j t, j < nI inp -> t < nP inp -> (x (at2n y_ilo j t) == at2 ySol j t)%Q) ->
  solveSubPrimal solve w inp ySol zHat y_ilo z_ilo = Some (w', (1, zSub)) ->
  exists lhs r,
    cutLhs w' = Some lhs /\ cutRhs w' = Some r /\
    get_status (solve (w_cpx w')) = infeasible /\
    (row_value x lhs - r
     == farkas_value inp (dual_farkas (solve (w_cpx w'))) (w_cpx w'))%Q.
Proof.
  intros Hwf Hreach Hfk Hys Hy Hx Hcall.
  pose proof (worker_reach_ok solve inp w Hwf Hreach) as Hok.
  destruct (solveSubPrimal_spec solve w inp ySol zHat y_ilo z_ilo Hwf Hok)
    as [cpx [cutType [zSub' [lhs [r [_ [Hupd [Hcall' Hcut]]]]]]]]; auto.
  rewrite Hcall' in Hcall. inversion Hcall; subst; clear Hcall.
  exists lhs, r. split; [reflexivity|]. split; [reflexivity|]. cbn [w_cpx].
  destruct (get_status (solve cpx)).
  - destruct Hcut as [Hc _]. discriminate.
  - split; [reflexivity|].
    destruct Hcut as [_ [_ [Hind [Hval Hr]]]].
    unfold row_value. rewrite Hind, Hval.
    rewrite (row_value_pairs inp x y_ilo ySol _ Hx). rewrite Hr.
    set (farkas := dual_farkas (solve cpx)).
    unfold farkas_value. rewrite Qsum_worker_rows.
    destruct Hupd as [_ [_ [_ Hrhs]]].
    assert (Hcap : forall t, 0 <= t < nP inp ->
              (farkas_at inp farkas (Capacity t) * rhs_of cpx (Capacity t)
               == farkas_at inp farkas (Capacity t)
                  * (at1 (cap inp) t
                     - Qsum_range 0 (nI inp)
                         (fun j => at2 (m inp) j t * at2 ySol j t)))%Q).
    { intros t Ht. unfold rhs_of.
      destruct (Hrhs (Capacity t)) as [Hin _]. rewrite Hin by (simpl; lia).
      reflexivity. }
    assert (Hdem : forall j r0, j < nI inp -> r0 < nP inp ->
              (farkas_at inp farkas (Demand j r0) * rhs_of cpx (Demand j r0)
               == farkas_at inp farkas (Demand j r0) * at2 (d inp) j r0)%Q).
    { intros j r0 Hj Hr0. unfold rhs_of.
      destruct (Hrhs (Demand j r0)) as [_ Hout].
      rewrite Hout by (simpl; tauto).
      rewrite (wk_demand inp w Hok j r0 Hj Hr0). reflexivity. }
    assert (Hlog : forall j t r0, 0 <= j < nI inp -> 0 <= t < nP inp ->
              t <= r0 < nP inp ->
              (farkas_at inp farkas (Logic j t r0) * rhs_of cpx (Logic j t r0)
               == farkas_at inp farkas (Logic j t r0)
                  * (at2 (d inp) j r0 * at2 ySol j t))%Q).
    { intros j t r0 Hj Ht Hr0. unfold rhs_of.
      destruct (Hrhs (Logic j t r0)) as [Hin _].
      rewrite Hin by (simpl; lia). reflexivity. }
    rewrite (Qsum_range_ext 0 (nP inp) _ _ Hcap).
    rewrite (Qsum_pairs_ext_in inp _ _ Hdem).
    rewrite (Qsum_range_ext 0 (nI inp)
               (fun j => Qsum_range 0 (nP inp) (fun t =>
                  Qsum_range t (nP inp) (fun r0 =>
                    farkas_at inp farkas (Logic j t r0) * rhs_of cpx (Logic j t r0))))%Q
               (fun j => Qsum_range 0 (nP inp) (fun t =>
                  Qsum_range t (nP inp) (fun r0 =>
                    farkas_at inp farkas (Logic j t r0)
                    * (at2 (d inp) j r0 * at2 ySol j t))))%Q)
      by (intros j Hj; apply Qsum_range_ext; intros t Ht;
          apply Qsum_range_ext; intros r0 Hr0; apply Hlog; lia).
    unfold feas_rhs, Qsum_pairs, feas_coeff.
    apply (farkas_algebra (nI inp) (nP inp) (at2 (m inp)) (at2 (d inp)) (at2 ySol)
             (fun j t => farkas_at inp farkas (Demand j t)) (at1 (cap inp))
             (fun t => farkas_at inp farkas (Capacity t))
             (fun j t r0 => farkas_at inp farkas (Logic j t r0))).
  - destruct Hcut as [Hc _]. discriminate.
Qed.

Lemma feasibility_cut_violation_witness :
  exists lhs r,
    cutLhs worker_after_infeasible = Some lhs /\
    cutRhs worker_after_infeasible = Some r /\
    get_status (solve_infeasible (w_cpx worker_after_infeasible)) = infeasible /\
    (row_value point_half lhs - r
     == farkas_value inst_two_periods
          (dual_farkas (solve_infeasible (w_cpx worker_after_infeasible)))
          (w_cpx worker_after_infeasible))%Q.
Proof.
  apply (feasibility_cut_violation solve_infeasible worker_two_periods
           worker_after_infeasible inst_two_periods ySol_half 3 (- 1)
           y_ilo_two_periods z_ilo_two_periods point_half).
  - solve_wf.
  - apply reach_init. vm_compute. reflexivity.
  - intros cpx _. unfold solve_infeasible. cbn [dual_farkas].
    rewrite length_map, length_range. unfold linear_constraints_get_num. lia.
  - solve_shape.
  - solve_shape.
  - intros j t Hj Ht. simpl in Hj, Ht.
    destruct j as [|j]; [|lia]. destruct t as [|[|t]]; [reflexivity | reflexivity | lia].
  - vm_compute. reflexivity.
Defined.

(** ** newIOCycle: the point that a pass separates *)


(** A pass of the loop of [newIOCycle], step by step: the values [yStar]
    of the y columns, the new stability centre, the point [yy] that is
    separated, the call of the subproblem and the row that is added. *)
Lemma newIOCycle_body_spec (solve : Solver) (inp : Instance)
  (y_ilo : list (list nat)) (z_ilo : nat) (s : IOState) :
  wf_instance inp -> farkas_per_row solve -> shape (nI inp) (nP inp) y_ilo ->
  worker_reach solve inp (io_worker s) -> shape (nI inp) (nP inp) (io_yTilde s) ->
  let sol := solve (io_cpx s) in
  exists s' yy cpx cutType zSub lhs r,
    newIOCycle_body solve inp y_ilo z_ilo s = Some s' /\
    shape (nI inp) (nP inp) (io_yTilde s') /\
    (forall j t, j < nI inp -> t < nP inp ->
       at2 (io_yTilde s') j t
       = (_alpha * at2 (io_yTilde s) j t
          + (1 - _alpha) * get_values sol (at2n y_ilo j t))%Q) /\
    shape (nI inp) (nP inp) yy /\
    (forall j t, j < nI inp -> t < nP inp ->
       at2 yy j t
       = Qmin 1 (io_lambda s' * get_values sol (at2n y_ilo j t)
                 + (1 - io_lambda s') * at2 (io_yTilde s') j t + io_delta s')%Q) /\
    solveSubPrimal solve (io_worker s) inp yy (get_values sol z_ilo) y_ilo z_ilo
    = Some (io_worker s', (cutType, zSub)) /\
    w_cpx (io_worker s') = cpx /\
    cutLhs (io_worker s') = Some lhs /\ cutRhs (io_worker s') = Some r /\
    match get_status (solve cpx) with
    | optimal => cutType = 2
    | infeasible => cutType = 1
    | other_status _ => cutType = 0
    end /\
    (cutType = 0 ->
       linear_constraints (io_cpx s') = linear_constraints (io_cpx s) /\
       io_globalProgr s' = io_globalProgr s /\ io_inout s' = io_inout s) /\
    (0 < cutType ->
       linear_constraints (io_cpx s')
       = linear_constraints (io_cpx s)
         ++ [mkConstr (Some (InOut (io_globalProgr s))) lhs sense_L r] /\
       io_globalProgr s' = io_globalProgr s + 1 /\
       io_inout s' = io_inout s ++ [InOut (io_globalProgr s)]).
Proof.
  intros Hwf Hfk Hy Hreach Hyt sol. unfold newIOCycle_body. fold sol.
  set (s0 := mkIO (io_cpx s) (io_worker s) (io_lambda s) (io_delta s)
               (io_globalProgr s) (io_yTilde s) (io_stopping s) (io_noImprov s)
               (io_bestLB s) (io_nrIter s + 1) (io_inout s)).
  set (s1 := io_update_bound (get_objective_value sol) s0).
  destruct (io_update_bound_frame (get_objective_value sol) s0) as [Hw1 [Hyt1 Hc1]].
  destruct (io_update_bound_frame2 (get_objective_value sol) s0) as [Hg1 [Hi1 _]].
  fold s1 in Hw1, Hyt1, Hc1, Hg1, Hi1.
  cbn [s0 io_worker io_yTilde io_cpx io_globalProgr io_inout] in Hw1, Hyt1, Hc1, Hg1, Hi1.
  destruct (rows_values_spec (get_values sol) y_ilo (nI inp) (nP inp) Hy)
    as [yStar [HyStar [HyStarSh HyStarV]]].
  unfold get_values_rows. rewrite HyStar. cbn [bind].
  rewrite Hyt1. rewrite (zip_matrix_spec inp _ (io_yTilde s) yStar Hyt HyStarSh).
  cbn [bind].
  set (yTilde' := map (fun j => map (fun t =>
                    (_alpha * at2 (io_yTilde s) j t + (1 - _alpha) * at2 yStar j t)%Q)
                    (range 0 (nP inp))) (range 0 (nI inp))).
  assert (HytSh : shape (nI inp) (nP inp) yTilde') by apply shape_map_range.
  rewrite (zip_matrix_spec inp _ yStar yTilde' HyStarSh HytSh).
  cbn [bind]. rewrite Hw1.
  set (yy := map (fun j => map (fun t =>
               Qmin 1 (io_lambda s1 * at2 yStar j t
                       + (1 - io_lambda s1) * at2 yTilde' j t + io_delta s1)%Q)
               (range 0 (nP inp))) (range 0 (nI inp))).
  assert (HyySh : shape (nI inp) (nP inp) yy) by apply shape_map_range.
  pose proof (worker_reach_ok solve inp (io_worker s) Hwf Hreach) as Hok.
  destruct (solveSubPrimal_spec solve (io_worker s) inp yy (get_values sol z_ilo)
              y_ilo z_ilo Hwf Hok)
    as [cpx [cutType [zSub [lhs [r [_ [_ [Hcall Hcut]]]]]]]];
    [intros c _ Hinf; apply Hfk; exact Hinf | exact HyySh | exact Hy |].
  rewrite Hcall. cbn [bind cutLhs cutRhs].
  assert (HyT : forall j t, j < nI inp -> t < nP inp ->
            at2 yTilde' j t
            = (_alpha * at2 (io_yTilde s) j t
               + (1 - _alpha) * get_values sol (at2n y_ilo j t))%Q).
  { intros j t Hj Ht. unfold yTilde'.
    rewrite (at2_map_range (fun j t => (_alpha * at2 (io_yTilde s) j t
                                        + (1 - _alpha) * at2 yStar j t)%Q)) by lia.
    rewrite HyStarV by lia. reflexivity. }
  assert (Hyy : forall j t, j < nI inp -> t < nP inp ->
            at2 yy j t
            = Qmin 1 (io_lambda s1 * get_values sol (at2n y_ilo j t)
                      + (1 - io_lambda s1) * at2 yTilde' j t + io_delta s1)%Q).
  { intros j t Hj Ht. unfold yy.
    rewrite (at2_map_range (fun j t =>
               Qmin 1 (io_lambda s1 * at2 yStar j t
                       + (1 - io_lambda s1) * at2 yTilde' j t + io_delta s1)%Q)) by lia.
    rewrite HyStarV by lia. reflexivity. }
  assert (Hst : match get_status (solve cpx) with
                | optimal => cutType = 2
                | infeasible => cutType = 1
                | other_status _ => cutType = 0
                end).
  { destruct (get_status (solve cpx)); destruct Hcut as [Hc _]; exact Hc. }
  destruct (0 <? cutType) eqn:Ect; cbn [bind].
  - apply Nat.ltb_lt in Ect.
    eexists. exists yy, cpx, cutType, zSub, lhs, r.
    split; [reflexivity|].
    cbn [io_yTilde io_lambda io_delta io_worker io_cpx io_globalProgr io_inout
         w_cpx cutLhs cutRhs].
    split; [exact HytSh|]. split; [exact HyT|]. split; [exact HyySh|].
    split; [exact Hyy|]. split; [exact Hcall|].
    do 3 (split; [reflexivity|]). split; [exact Hst|].
    split; [intros H0; lia|]. intros _.
    rewrite Hc1, Hg1, Hi1. cbn. auto.
  - apply Nat.ltb_ge in Ect.
    eexists. exists yy, cpx, cutType, zSub, lhs, r.
    split; [reflexivity|].
    cbn [io_yTilde io_lambda io_delta io_worker io_cpx io_globalProgr io_inout
         w_cpx cutLhs cutRhs].
    split; [exact HytSh|]. split; [exact HyT|]. split; [exact HyySh|].
    split; [exact Hyy|]. split; [exact Hcall|].
    do 3 (split; [reflexivity|]). split; [exact Hst|].
    split; [|intros H0; lia]. intros _.
    rewrite Hc1, Hg1, Hi1. auto.
Qed.

(** X11. A pass of the loop of [newIOCycle] appends a row to the master
    exactly when the subproblem LP was reported optimal or infeasible, and
    the row is then the cut that the worker holds, named after the counter
    [globalProgr]. On any other status the pass adds nothing and leaves the
    counter and the list [inout] alone; it does not raise. *)
Theorem newIOCycle_cut_iff_status (solve : Solver) (inp : Instance)
  (y_ilo : list (list nat)) (z_ilo : nat) (s s' : IOState) :
  wf_instance inp -> farkas_per_row solve -> shape (nI inp) (nP inp) y_ilo ->
  worker_reach solve inp (io_worker s) -> shape (nI inp) (nP inp) (io_yTilde s) ->
  newIOCycle_body solve inp y_ilo z_ilo s = Some s' ->
  match get_status (solve (w_cpx (io_worker s'))) with
  | other_status _ =>
      linear_constraints (io_cpx s') = linear_constraints (io_cpx s) /\
      io_globalProgr s' = io_globalProgr s /\ io_inout s' = io_inout s
  | _ =>
      exists lhs r,
        cutLhs (io_worker s') = Some lhs /\ cutRhs (io_worker s') = Some r /\
        linear_constraints (io_cpx s')
        = linear_constraints (io_cpx s)
          ++ [mkConstr (Some (InOut (io_globalProgr s))) lhs sense_L r] /\
        io_globalProgr s' = io_globalProgr s + 1 /\
        io_inout s' = io_inout s ++ [InOut (io_globalProgr s)]
  end.
Proof.
  intros Hwf Hfk Hy Hreach Hyt Hbody.
  destruct (newIOCycle_body_spec solve inp y_ilo z_ilo s Hwf Hfk Hy Hreach Hyt)
    as [s2 [yy [cpx [cutType [zSub [lhs [r [Hb [_ [_ [_ [_ [_ [Hcpx [Hl [Hr
       [Hst [H0 H1]]]]]]]]]]]]]]]]]].
  rewrite Hb in Hbody. inversion Hbody; subst s2; clear Hbody.
  rewrite Hcpx. destruct (get_status (solve cpx)).
  - exists lhs, r. split; [exact Hl|]. split; [exact Hr|]. apply H1. lia.
  - exists lhs, r. split; [exact Hl|]. split; [exact Hr|]. apply H1. lia.
  - apply H0. exact Hst.
Qed.

Lemma newIOCycle_cut_iff_status_witness :
  match get_status (solve_other (w_cpx (io_worker io_two_periods_other))) with
  | other_status _ =>
      linear_constraints (io_cpx io_two_periods_other)
      = linear_constraints (io_cpx io_two_periods) /\
      io_globalProgr io_two_periods_other = io_globalProgr io_two_periods /\
      io_inout io_two_periods_other = io_inout io_two_periods
  | _ =>
      exists lhs r,
        cutLhs (io_worker io_two_periods_other) = Some lhs /\
        cutRhs (io_worker io_two_periods_other) = Some r /\
        linear_constraints (io_cpx io_two_periods_other)
        = linear_constraints (io_cpx io_two_periods)
          ++ [mkConstr (Some (InOut (io_globalProgr io_two_periods))) lhs sense_L r] /\
        io_globalProgr io_two_periods_other = io_globalProgr io_two_periods + 1 /\
        io_inout io_two_periods_other
        = io_inout io_two_periods ++ [InOut (io_globalProgr io_two_periods)]
  end.
Proof.
  apply (newIOCycle_cut_iff_status solve_other inst_two_periods y_ilo_two_periods
           z_ilo_two_periods io_two_periods io_two_periods_other).
  - solve_wf.
  - intros cpx H. simpl in H. discriminate.
  - solve_shape.
  - apply reach_init. vm_compute. reflexivity.
  - solve_shape.
  - vm_compute. reflexivity.
Defined.




(** ** bendersDual: a pass on which the solver fails *)

(** X13. When the solver reports the subproblem LP neither optimal nor
    infeasible, the pass of the loop of [bendersDual] does not stop: it
    appends to the master the row "cut.n" with no column and right-hand
    side 0, counts it as a cut, leaves the best upper bound as it was and
    goes on to the gap test. *)
Theorem bendersDual_pass_on_solver_failure (solve : Solver) (inp : Instance)
  (y_ilo : list (list nat)) (z_ilo : nat) (s s' : BDState) (code : nat) :
  wf_instance inp -> worker_reach solve inp (bd_worker s) -> farkas_per_row solve ->
  shape (nI inp) (nP inp) y_ilo ->
  bendersDual_body solve inp y_ilo z_ilo s = Some s' ->
  get_status (solve (w_cpx (bd_worker s'))) = other_status code ->
  linear_constraints (bd_cpx s')
  = linear_constraints (bd_cpx s)
    ++ [mkConstr (Some (Cut (bd_nrCuts s))) (mkSparsePair [] []) sense_L 0] /\
  bd_nrCuts s' = bd_nrCuts s + 1 /\
  bd_ubBest s' = bd_ubBest s /\
  bd_bestLB s' = get_objective_value (solve (bd_cpx s)) /\
  (bd_stopping s = false ->
   (bd_stopping s' = true <->
    (bd_ubBest s - get_objective_value (solve (bd_cpx s)) < _EPSI)%Q)).
Proof.
  intros Hwf Hreach Hfk Hy Hbody Hst.
  destruct (bendersDual_body_spec solve inp y_ilo z_ilo s Hwf Hreach Hfk Hy)
    as [ySol [cpx [cutType [zSub [lhs [r [_ [_ [_ [_ [_ [Hcut Hb]]]]]]]]]]]].
  rewrite Hb in Hbody. inversion Hbody; subst s'; clear Hbody.
  cbn [bd_worker w_cpx] in Hst. rewrite Hst in Hcut.
  destruct Hcut as [-> [_ [-> ->]]].
  cbn [bd_cpx bd_nrCuts bd_ubBest bd_bestLB bd_stopping linear_constraints_add
       linear_constraints bd_update_ub Nat.eqb].
  do 4 (split; [reflexivity|]).
  intros Hs. rewrite Hs.
  match goal with |- context [Qltb ?a ?b] => destruct (Qltb a b) eqn:E end.
  - apply Qltb_true in E. tauto.
  - split; [discriminate|]. intros Hlt. apply Qltb_true in Hlt. congruence.
Qed.

Lemma bendersDual_pass_on_solver_failure_witness :
  linear_constraints (bd_cpx bd_two_periods_other)
  = linear_constraints (bd_cpx bd_two_periods)
    ++ [mkConstr (Some (Cut (bd_nrCuts bd_two_periods))) (mkSparsePair [] [])
          sense_L 0] /\
  bd_nrCuts bd_two_periods_other = bd_nrCuts bd_two_periods + 1 /\
  bd_ubBest bd_two_periods_other = bd_ubBest bd_two_periods /\
  bd_bestLB bd_two_periods_other
  = get_objective_value (solve_other (bd_cpx bd_two_periods)) /\
  (bd_stopping bd_two_periods = false ->
   (bd_stopping bd_two_periods_other = true <->
    (bd_ubBest bd_two_periods
     - get_objective_value (solve_other (bd_cpx bd_two_periods)) < _EPSI)%Q)).
Proof.
  apply (bendersDual_pass_on_solver_failure solve_other inst_two_periods
           y_ilo_two_periods z_ilo_two_periods bd_two_periods
           bd_two_periods_other 6).
  - solve_wf.
  - apply reach_init. vm_compute. reflexivity.
  - intros cpx H. simpl in H. discriminate.
  - solve_shape.
  - vm_compute. reflexivity.
  - reflexivity.
Defined.

(** ** getUB *)

(** A loop raises if one of its passes raises in whatever state it is
    entered. *)
Lemma forM_None {St : Type} (body : nat -> St -> option St) (l : list nat) (i : nat) :
  In i l -> (forall s, body i s = None) -> forall s, forM l body s = None.
Proof.
  induction l as [|k l IH]; intros Hin Hi s; [destruct Hin|].
  cbn [forM]. destruct Hin as [->|Hin].
  - rewrite Hi. reflexivity.
  - destruct (body k s) as [s1|]; [|reflexivity]. cbn [bind]. apply IH; assumption.
Qed.

Lemma search_range (P : nat -> Prop) (a b : nat) :
  (forall i, {P i} + {~ P i}) ->
  {exists i, a <= i < b /\ P i} + {forall i, a <= i < b -> ~ P i}.
Proof.
  intros dec. induction b as [|b [IH|IH]].
  - right. intros i Hi. lia.
  - left. destruct IH as [i [Hi HP]]. exists i. split; [lia | exact HP].
  - destruct (le_lt_dec a b) as [Hab|Hab].
    + destruct (dec b) as [HP|HnP].
      * left. exists b. split; [lia | exact HP].
      * right. intros i Hi. destruct (Nat.eq_dec i b) as [->|Hne]; [exact HnP|].
        apply IH. lia.
    + right. intros i Hi. lia.
Qed.

Lemma get3_cube {A : Type} (inp : Instance) (g : nat -> nat -> nat -> A) (j t r : nat) :
  j < nI inp -> t < nP inp -> r < nP inp ->
  get3 (cube_table inp g) j t r = Some (g j t r).
Proof.
  intros Hj Ht Hr. unfold get3, cube_table.
  rewrite get_map_range by lia. cbn [bind].
  rewrite get_map_range by lia. cbn [bind].
  rewrite get_map_range by lia. reflexivity.
Qed.

(** The first pair of loops of [getUB]. *)
Lemma getUB_add_loop (inp : Instance) (zSub : Q) (ySol : list (list Q)) :
  shape (nI inp) (nP inp) (f inp) -> shape (nI inp) (nP inp) ySol ->
  exists z,
    forM (range 0 (nI inp))
      (fun j => forM (range 0 (nP inp)) (getUB_add inp ySol j)) zSub = Some z /\
    (z == zSub + setup_cost inp ySol)%Q.
Proof.
  intros Hf Hys.
  pose (h := fun j t => if Qgtb (at2 ySol j t) (1 - _EPSI)
                        then at2 (f inp) j t else 0%Q).
  destruct (forM2_inv (fun j t z => (z == zSub + Qsum (pairs_before inp h j t))%Q)
              (getUB_add inp ySol) (nI inp) (nP inp) zSub)
    as [z [Hrun Hz]].
  - unfold pairs_before. rewrite !range_nil. unfold Qsum. simpl. ring.
  - intros j t z0 Hj Ht Hz0. unfold getUB_add.
    rewrite (get2_at2 _ _ _ j t Hys) by lia. cbn [bind].
    destruct (Qgtb (at2 ySol j t) (1 - _EPSI)) eqn:E.
    + rewrite (get2_at2 _ _ _ j t Hf) by lia. cbn [bind].
      eexists. split; [reflexivity|].
      rewrite pairs_before_snoc, Qsum_snoc, Hz0.
      replace (h j t) with (at2 (f inp) j t) by (unfold h; rewrite E; reflexivity).
      ring.
    + eexists. split; [reflexivity|].
      rewrite pairs_before_snoc, Qsum_snoc, Hz0.
      replace (h j t) with 0%Q by (unfold h; rewrite E; reflexivity).
      ring.
  - intros j z0 Hj Hz0. rewrite pairs_before_row. exact Hz0.
  - exists z. split; [exact Hrun|]. rewrite Hz.
    fold (all_pairs inp h). rewrite Qsum_all_pairs. reflexivity.
Qed.

(** X14. For a production table with one entry per triple of item and two
    periods, [getUB] returns the subproblem value plus the setup cost of
    every period whose y exceeds [1 - _EPSI], and it raises exactly when
    some [zSol[j][t][r]] with [t <= r] exceeds [_EPSI] while [ySol[j][t]]
    does not exceed [1 - _EPSI]: production without setup. *)
Theorem getUB_spec (inp : Instance) (zSub : Q) (ySol : list (list Q))
  (g : nat -> nat -> nat -> Q) :
  shape (nI inp) (nP inp) (f inp) -> shape (nI inp) (nP inp) ySol ->
  (getUB inp zSub ySol (cube_table inp g) = None <->
   exists j t r, j < nI inp /\ t <= r < nP inp /\
     (_EPSI < g j t r)%Q /\ ~ (1 - _EPSI < at2 ySol j t)%Q) /\
  (forall z, getUB inp zSub ySol (cube_table inp g) = Some z ->
     (z == zSub + setup_cost inp ySol)%Q).
Proof.
  intros Hf Hys.
  destruct (getUB_add_loop inp zSub ySol Hf Hys) as [z1 [Hrun1 Hz1]].
  unfold getUB. rewrite Hrun1. cbn [bind].
  set (viol := fun j t r => (_EPSI < g j t r)%Q /\ ~ (1 - _EPSI < at2 ySol j t)%Q).
  assert (Hdec : forall j t r, {viol j t r} + {~ viol j t r}).
  { intros j t r. unfold viol.
    destruct (Qlt_le_dec _EPSI (g j t r)) as [H1|H1];
      [|right; intros [H _]; apply (Qlt_not_le _ _ H); exact H1].
    destruct (Qlt_le_dec (1 - _EPSI) (at2 ySol j t)) as [H2|H2];
      [right; intros [_ H]; apply H; exact H2|].
    left. split; [exact H1|]. intros H. apply (Qlt_not_le _ _ H). exact H2. }
  assert (Hbody : forall j t r u, j < nI inp -> t <= r < nP inp ->
            getUB_check ySol (cube_table inp g) j t r u
            = if Qgtb (g j t r) _EPSI
              then if Qgtb (at2 ySol j t) (1 - _EPSI) then Some u else None
              else Some u).
  { intros j t r u Hj Hr. unfold getUB_check.
    rewrite get3_cube by lia. cbn [bind].
    destruct (Qgtb (g j t r) _EPSI); [|reflexivity].
    rewrite (get2_at2 _ _ _ j t Hys) by lia. reflexivity. }
  assert (Hbad : (exists j t r, j < nI inp /\ t <= r < nP inp /\ viol j t r) ->
            forM (range 0 (nI inp))
              (fun j => forM (range 0 (nP inp))
                 (fun t => forM (range t (nP inp))
                    (getUB_check ySol (cube_table inp g) j t))) tt = None).
  { intros [j [t [r [Hj [Hr [Hv1 Hv2]]]]]].
    apply (forM_None _ _ j); [apply in_range; lia|]. intros u1.
    apply (forM_None _ _ t); [apply in_range; lia|]. intros u2.
    apply (forM_None _ _ r); [apply in_range; lia|]. intros u3.
    rewrite Hbody by lia.
    apply Qgtb_true in Hv1. rewrite Hv1.
    destruct (Qgtb (at2 ySol j t) (1 - _EPSI)) eqn:E; [|reflexivity].
    apply Qgtb_true in E. contradiction. }
  assert (Hgood : (forall j t r, j < nI inp -> t <= r < nP inp -> ~ viol j t r) ->
            forM (range 0 (nI inp))
              (fun j => forM (range 0 (nP inp))
                 (fun t => forM (range t (nP inp))
                    (getUB_check ySol (cube_table inp g) j t))) tt = Some tt).
  { intros Hall.
    destruct (forM_tri_inv (fun _ _ _ (_ : unit) => True)
                (getUB_check ySol (cube_table inp g)) (nI inp) (nP inp) tt)
      as [[] [Hrun _]]; auto.
    intros j t r u Hj Hr _. rewrite Hbody by lia.
    destruct (Qgtb (g j t r) _EPSI) eqn:E1; [|eauto].
    destruct (Qgtb (at2 ySol j t) (1 - _EPSI)) eqn:E2; [eauto|].
    exfalso. apply (Hall j t r Hj Hr). split.
    - apply Qgtb_true. exact E1.
    - intros H. apply Qgtb_true in H. congruence. }
  assert (Hsearch : (exists j t r, j < nI inp /\ t <= r < nP inp /\ viol j t r) \/
                    (forall j t r, j < nI inp -> t <= r < nP inp -> ~ viol j t r)).
  { destruct (search_pairs
                (fun j t => exists r, t <= r < nP inp /\ viol j t r)
                (nI inp) (nP inp)) as [[j [t [Hj [Ht [r [Hr Hv]]]]]] | Hnone].
    - intros j t.
      destruct (search_range (viol j t) t (nP inp) (Hdec j t)) as [H|H].
      + left. exact H.
      + right. intros [r [Hr Hv]]. apply (H r Hr Hv).
    - left. exists j, t, r. auto.
    - right. intros j t r Hj Hr Hv. apply (Hnone j t); [exact Hj | lia |].
      exists r. auto. }
  split.
  - split.
    + intros Hnone. destruct Hsearch as [Hex|Hall]; [exact Hex|].
      rewrite (Hgood Hall) in Hnone. discriminate.
    + intros Hex. rewrite (Hbad Hex). reflexivity.
  - intros z Hz. destruct Hsearch as [Hex|Hall].
    + rewrite (Hbad Hex) in Hz. discriminate.
    + rewrite (Hgood Hall) in Hz. cbn [bind] in Hz. inversion Hz; subst.
      exact Hz1.
Qed.

Lemma getUB_spec_witness :
  (getUB inst_two_periods 7 ySol_first_period
     (cube_table inst_two_periods zSol_first_period) = None <->
   exists j t r, j < nI inst_two_periods /\ t <= r < nP inst_two_periods /\
     (_EPSI < zSol_first_period j t r)%Q /\
     ~ (1 - _EPSI < at2 ySol_first_period j t)%Q) /\
  (forall z, getUB inst_two_periods 7 ySol_first_period
               (cube_table inst_two_periods zSol_first_period) = Some z ->
     (z == 7 + setup_cost inst_two_periods ySol_first_period)%Q).
Proof.
  apply (getUB_spec inst_two_periods 7 ySol_first_period zSol_first_period);
    solve_shape.
Defined.

Example getUB_two_periods :
  getUB inst_two_periods 7 ySol_first_period
    (cube_table inst_two_periods zSol_first_period) = Some 17%Q /\
  getUB inst_two_periods 7 [[0; 1]]%Q
    (cube_table inst_two_periods zSol_first_period) = None.
Proof. split; vm_compute; reflexivity. Qed.

(** X15. [getUB] reads [zSol[j][t][r]], not [zSol[j][t][r-t]]: given a
    production table in the half-triangular layout of the rest of the file,
    where row [(j, t)] has the [nP - t] entries of the periods [r >= t], it
    raises for every instance with an item and at least two periods,
    whatever the values. *)
Theorem getUB_raises_on_triangular_table (inp : Instance) (zSub : Q)
  (ySol : list (list Q)) (g : nat -> nat -> nat -> Q) :
  1 <= nI inp -> 2 <= nP inp ->
  getUB inp zSub ySol (tri_table inp g) = None.
Proof.
  intros HnI HnP. unfold getUB.
  destruct (forM (range 0 (nI inp))
              (fun j => forM (range 0 (nP inp)) (getUB_add inp ySol j)) zSub)
    as [z|]; [|reflexivity].
  cbn [bind].
  rewrite (forM_None _ _ 0); [reflexivity | apply in_range; lia |]. intros u1.
  apply (forM_None _ _ 1); [apply in_range; lia|]. intros u2.
  apply (forM_None _ _ (nP inp - 1)); [apply in_range; lia|]. intros u3.
  unfold getUB_check, get3, tri_table.
  rewrite get_map_range by lia. cbn [bind].
  rewrite get_map_range by lia. cbn [bind].
  replace (get (map (g (0 + 0) (0 + 1)) (range (0 + 1) (nP inp))) (nP inp - 1))
    with (@None Q); [reflexivity|].
  symmetry. unfold get. apply nth_error_None.
  rewrite length_map, length_range. lia.
Qed.

Lemma getUB_raises_on_triangular_table_witness :
  getUB inst_two_periods 7 ySol_first_period
    (tri_table inst_two_periods zSol_first_period) = None.
Proof.
  apply (getUB_raises_on_triangular_table inst_two_periods 7 ySol_first_period
           zSol_first_period); simpl; lia.
Defined.

(** ** solveSubPrimal: no right-hand side of an earlier call survives *)

Lemma NoDup_app_disjoint {A : Type} (l1 l2 : list A) :
  NoDup l1 -> NoDup l2 -> (forall x, In x l1 -> ~ In x l2) -> NoDup (l1 ++ l2).
Proof.
  intros H1 H2 Hd. induction H1 as [|x l1 Hx H1 IH]; [exact H2|].
  cbn [app]. constructor.
  - intros Hin. apply in_app_or in Hin. destruct Hin as [Hin|Hin].
    + exact (Hx Hin).
    + apply (Hd x); [left; reflexivity | exact Hin].
  - apply IH. intros y Hy. apply Hd. right. exact Hy.
Qed.

Lemma NoDup_map_range {A : Type} (g : nat -> A) (a b : nat) :
  (forall i i', g i = g i' -> i = i') -> NoDup (map g (range a b)).
Proof.
  intros Hinj. unfold range. generalize (b - a) as n. intros n. revert a.
  induction n as [|n IH]; intros a; [constructor|].
  cbn [seq map]. constructor; [|apply IH].
  intros Hin. apply in_map_iff in Hin. destruct Hin as [i [Hi Hin]].
  apply Hinj in Hi. apply in_seq in Hin. lia.
Qed.

Lemma NoDup_flat_map_range {A : Type} (F : nat -> list A) (a b : nat) :
  (forall i, NoDup (F i)) ->
  (forall i i' x, In x (F i) -> In x (F i') -> i = i') ->
  NoDup (flat_map F (range a b)).
Proof.
  intros Hrow Hdis. unfold range. generalize (b - a) as n. intros n. revert a.
  induction n as [|n IH]; intros a; [constructor|].
  cbn [seq flat_map]. apply NoDup_app_disjoint; [apply Hrow | apply IH |].
  intros x Hx Hin. apply in_flat_map in Hin. destruct Hin as [i [Hi Hxi]].
  apply in_seq in Hi. pose proof (Hdis a i x Hx Hxi). lia.
Qed.

Lemma NoDup_worker_rows (inp : Instance) : NoDup (worker_rows inp).
Proof.
  unfold worker_rows.
  assert (Hcap : NoDup (cap_names (nP inp))).
  { apply NoDup_map_range. intros i i' H. inversion H. reflexivity. }
  assert (Hdem : NoDup (dem_names inp (nI inp) 0)).
  { unfold dem_names. rewrite range_nil. cbn [map]. rewrite app_nil_r.
    apply NoDup_flat_map_range.
    - intros j. apply NoDup_map_range. intros i i' H. inversion H. reflexivity.
    - intros j j' x Hx Hx'. apply in_map_iff in Hx. apply in_map_iff in Hx'.
      destruct Hx as [r [<- _]]. destruct Hx' as [r' [H _]]. inversion H.
      reflexivity. }
  assert (Hlog : NoDup (log_names inp (nI inp) 0 0)).
  { unfold log_names. rewrite !range_nil. cbn [flat_map map]. rewrite !app_nil_r.
    apply NoDup_flat_map_range.
    - intros j. apply NoDup_flat_map_range.
      + intros t. apply NoDup_map_range. intros i i' H. inversion H. reflexivity.
      + intros t t' x Hx Hx'. apply in_map_iff in Hx. apply in_map_iff in Hx'.
        destruct Hx as [r [<- _]]. destruct Hx' as [r' [H _]]. inversion H.
        reflexivity.
    - intros j j' x Hx Hx'. apply in_flat_map in Hx. apply in_flat_map in Hx'.
      destruct Hx as [t [_ Hx]]. destruct Hx' as [t' [_ Hx']].
      apply in_map_iff in Hx. apply in_map_iff in Hx'.
      destruct Hx as [r [<- _]]. destruct Hx' as [r' [H _]]. inversion H.
      reflexivity. }
  apply NoDup_app_disjoint; [exact Hcap | |].
  - apply NoDup_app_disjoint; [exact Hdem | exact Hlog |].
    intros x Hx Hx'. apply in_dem_names_inv in Hx. apply in_log_names_inv in Hx'.
    destruct Hx as [j [r [-> _]]]. destruct Hx' as [j' [t' [r' [H _]]]].
    discriminate.
  - intros x Hx Hx'. apply in_cap_names_inv in Hx. destruct Hx as [t [-> _]].
    apply in_app_or in Hx'. destruct Hx' as [Hx'|Hx'].
    + apply in_dem_names_inv in Hx'. destruct Hx' as [j [r [H _]]]. discriminate.
    + apply in_log_names_inv in Hx'. destruct Hx' as [j [t' [r [H _]]]].
      discriminate.
Qed.

(** Two lists of rows with the same distinct names, the same left-hand
    sides and senses, and the same right-hand side under every name, are
    the same list. *)
Lemma rows_eq_by_name (names : list ConstrName) :
  forall cs1 cs2 : list Constr,
    NoDup names ->
    map c_name cs1 = map Some names ->
    map row_frame cs1 = map row_frame cs2 ->
    (forall n, In n names ->
       option_map rhs (find (has_name n) cs1) = option_map rhs (find (has_name n) cs2)) ->
    cs1 = cs2.
Proof.
  induction names as [|n names IH]; intros cs1 cs2 Hnd Hn Hf Hr.
  - destruct cs1; [|discriminate]. destruct cs2; [reflexivity | discriminate].
  - destruct cs1 as [|k1 cs1]; [discriminate|].
    destruct cs2 as [|k2 cs2]; [discriminate|].
    cbn [map] in Hn, Hf. inversion Hn as [[Hk1 Hn']]. inversion Hf as [[Hk Hf']].
    inversion Hnd as [|? ? Hnotin Hnd']; subst.
    assert (Hk2 : c_name k2 = Some n).
    { unfold row_frame in Hk. inversion Hk. congruence. }
    assert (Hh1 : has_name n k1 = true).
    { unfold has_name. rewrite Hk1. destruct (ConstrName_eq_dec n n); congruence. }
    assert (Hh2 : has_name n k2 = true).
    { unfold has_name. rewrite Hk2. destruct (ConstrName_eq_dec n n); congruence. }
    assert (Hrhs : rhs k1 = rhs k2).
    { specialize (Hr n (or_introl eq_refl)). cbn [find] in Hr.
      rewrite Hh1, Hh2 in Hr. cbn in Hr. congruence. }
    assert (Heq : k1 = k2).
    { destruct k1, k2. unfold row_frame in Hk. cbn in *. inversion Hk. subst.
      reflexivity. }
    subst k2. f_equal. apply IH; auto.
    intros n' Hn'in. specialize (Hr n' (or_intror Hn'in)). cbn [find] in Hr.
    assert (Hne : has_name n' k1 = false).
    { unfold has_name. rewrite Hk1.
      destruct (ConstrName_eq_dec n' n) as [->|]; [contradiction | reflexivity]. }
    rewrite Hne in Hr. exact Hr.
Qed.

Lemma worker_reach_same_frame (solve : Solver) (inp : Instance)
  (w0 w : WorkerLPPrimal) :
  wf_instance inp -> WorkerLPPrimal_init inp = Some w0 ->
  worker_reach solve inp w -> same_frame inp w0 w.
Proof.
  intros Hwf H0 Hreach.
  induction Hreach as [w Hinit | w w' ySol zHat y_ilo z res Hr IH Hys Hcall].
  - assert (w = w0) by congruence. subst. repeat split; reflexivity.
  - pose proof (worker_reach_ok solve inp w Hwf Hr) as Hok.
    destruct (update_rhs_spec inp ySol (w_cpx w) Hwf Hys (wk_rows inp w Hok))
      as [cpx [Hupd [Hv [Hp [Hf Hrhs]]]]].
    unfold solveSubPrimal in Hcall. rewrite Hupd in Hcall. cbn [bind] in Hcall.
    inv_bind Hcall. destruct x as [[cutType zSub] [[cutVars cutVals] r]].
    inversion Hcall; subst; clear Hcall.
    destruct IH as [A [B [C [D [E [F [G H]]]]]]].
    unfold same_frame. cbn [w_z_ilo lCapacity lDemand lLogic w_cpx].
    do 4 (split; [assumption|]).
    split; [congruence|]. split; [congruence|]. split; [congruence|].
    intros n Hn. destruct (Hrhs n) as [_ Hout]. rewrite (Hout Hn). apply H. exact Hn.
Qed.

(** X16. No right-hand side of an earlier call survives in the LP of a
    later one: on a worker that has served any number of calls, the LP
    that [solveSubPrimal] hands to the solver for [ySol] is, row by row and
    column by column, the LP that it hands over on the worker as
    constructed. (What the solver answers is not part of the statement.) *)
Theorem solveSubPrimal_lp_history_independent (solve : Solver) (inp : Instance)
  (w0 w : WorkerLPPrimal) (ySol : list (list Q)) :
  wf_instance inp -> WorkerLPPrimal_init inp = Some w0 ->
  worker_reach solve inp w -> shape (nI inp) (nP inp) ySol ->
  exists cpx,
    update_rhs inp ySol (w_cpx w) = Some cpx /\
    update_rhs inp ySol (w_cpx w0) = Some cpx.
Proof.
  intros Hwf H0 Hreach Hys.
  destruct (worker_reach_same_frame solve inp w0 w Hwf H0 Hreach)
    as [A [B [C [D [E [F [G H]]]]]]].
  pose proof (worker_reach_ok solve inp w Hwf Hreach) as Hok.
  pose proof (worker_reach_ok solve inp w0 Hwf (reach_init solve inp w0 H0)) as Hok0.
  destruct (update_rhs_spec inp ySol (w_cpx w) Hwf Hys (wk_rows inp w Hok))
    as [c1 [Hupd1 [Hv1 [Hp1 [Hf1 Hr1]]]]].
  destruct (update_rhs_spec inp ySol (w_cpx w0) Hwf Hys (wk_rows inp w0 Hok0))
    as [c0 [Hupd0 [Hv0 [Hp0 [Hf0 Hr0]]]]].
  assert (Hc : c1 = c0).
  { assert (Hrows : linear_constraints c1 = linear_constraints c0).
    { apply (rows_eq_by_name (worker_rows inp)).
      - apply NoDup_worker_rows.
      - rewrite <- (wk_rows inp w Hok). apply map_c_name_frame. exact Hf1.
      - congruence.
      - intros n _.
        change (linear_constraints_get_rhs c1 n = linear_constraints_get_rhs c0 n).
        destruct (Hr1 n) as [Hin1 Hout1]. destruct (Hr0 n) as [Hin0 Hout0].
        assert (Hdec : rhs_updated inp (nI inp) 0 0 n \/ ~ rhs_updated inp (nI inp) 0 0 n).
        { destruct n; cbn [rhs_updated]; try (right; tauto); lia. }
        destruct Hdec as [Hd|Hd].
        + rewrite (Hin1 Hd), (Hin0 Hd). reflexivity.
        + rewrite (Hout1 Hd), (Hout0 Hd). apply H. exact Hd. }
    destruct c1, c0. cbn in *. congruence. }
  exists c0. split; [rewrite Hupd1, Hc; reflexivity | exact Hupd0].
Qed.

Lemma solveSubPrimal_lp_history_independent_witness :
  exists cpx,
    update_rhs inst_two_periods ySol_first_period (w_cpx worker_after_duals)
    = Some cpx /\
    update_rhs inst_two_periods ySol_first_period (w_cpx worker_two_periods)
    = Some cpx.
Proof.
  apply (solveSubPrimal_lp_history_independent solve_duals inst_two_periods
           worker_two_periods worker_after_duals ySol_first_period).
  - solve_wf.
  - vm_compute. reflexivity.
  - apply (reach_call solve_duals inst_two_periods worker_two_periods
             worker_after_duals ySol_half 3 y_ilo_two_periods
             z_ilo_two_periods (2, 7%Q)).
    + apply reach_init. vm_compute. reflexivity.
    + solve_shape.
    + vm_compute. reflexivity.
  - solve_shape.
Defined.

(** ** The two formulations, row by row *)

Lemma tri_before_snoc {A : Type} (inp : Instance) (g : nat -> nat -> nat -> A)
  (j t r : nat) :
  t <= r -> tri_before inp g j t (S r) = tri_before inp g j t r ++ [g j t r].
Proof.
  intros H. unfold tri_before. rewrite range_snoc by lia.
  rewrite map_app, !app_assoc. reflexivity.
Qed.

Lemma tri_before_row {A : Type} (inp : Instance) (g : nat -> nat -> nat -> A)
  (j t : nat) :
  tri_before inp g j (S t) (S t) = tri_before inp g j t (nP inp).
Proof.
  unfold tri_before. rewrite (range_snoc 0 t) by lia. rewrite flat_map_app.
  rewrite !range_nil. cbn [flat_map map].
  rewrite ?app_nil_r, <- ?app_assoc. reflexivity.
Qed.

Lemma tri_before_item {A : Type} (inp : Instance) (g : nat -> nat -> nat -> A)
  (j : nat) :
  tri_before inp g (S j) 0 0 = tri_before inp g j (nP inp) (nP inp).
Proof.
  unfold tri_before. rewrite (range_snoc 0 j) by lia. rewrite flat_map_app.
  rewrite !range_nil. cbn [flat_map map].
  rewrite ?app_nil_r, <- ?app_assoc. reflexivity.
Qed.

Lemma tri_before_all {A : Type} (inp : Instance) (g : nat -> nat -> nat -> A) :
  tri_before inp g (nI inp) 0 0 = tri_list inp g.
Proof.
  unfold tri_before, tri_list. rewrite !range_nil. cbn [flat_map map].
  rewrite !app_nil_r. reflexivity.
Qed.

Lemma tri_before_start {A : Type} (inp : Instance) (g : nat -> nat -> nat -> A) :
  tri_before inp g 0 0 0 = [].
Proof. unfold tri_before. rewrite !range_nil. reflexivity. Qed.

Lemma map_flat_map_list {A B C : Type} (hh : B -> C) (F : A -> list B) (l : list A) :
  map hh (flat_map F l) = flat_map (fun i => map hh (F i)) l.
Proof.
  induction l as [|i l IH]; [reflexivity|].
  cbn [flat_map]. rewrite map_app, IH. reflexivity.
Qed.

Lemma map_tri_list {A B : Type} (inp : Instance) (hh : A -> B)
  (g : nat -> nat -> nat -> A) :
  map hh (tri_list inp g) = tri_list inp (fun j t r => hh (g j t r)).
Proof.
  unfold tri_list. rewrite map_flat_map_list. apply flat_map_ext. intros j.
  rewrite map_flat_map_list. apply flat_map_ext. intros t. apply map_map.
Qed.

Lemma in_all_pairs {A : Type} (inp : Instance) (g : nat -> nat -> A) (x : A) :
  In x (all_pairs inp g) <-> exists j t, j < nI inp /\ t < nP inp /\ x = g j t.
Proof.
  unfold all_pairs, pairs_before. rewrite range_nil. cbn [map]. rewrite app_nil_r.
  rewrite in_flat_map. split.
  - intros [j [Hj H]]. apply in_range in Hj. apply in_map_iff in H.
    destruct H as [t [<- Ht]]. apply in_range in Ht. exists j, t.
    split; [lia|]. split; [lia | reflexivity].
  - intros [j [t [Hj [Ht ->]]]]. exists j. split; [apply in_range; lia|].
    apply in_map. apply in_range. lia.
Qed.

Lemma in_tri_list {A : Type} (inp : Instance) (g : nat -> nat -> nat -> A) (x : A) :
  In x (tri_list inp g) <->
  exists j t r, j < nI inp /\ t <= r < nP inp /\ x = g j t r.
Proof.
  unfold tri_list. rewrite in_flat_map. split.
  - intros [j [Hj H]]. apply in_range in Hj. apply in_flat_map in H.
    destruct H as [t [Ht H]]. apply in_range in Ht. apply in_map_iff in H.
    destruct H as [r [<- Hr]]. apply in_range in Hr. exists j, t, r.
    split; [lia|]. split; [lia | reflexivity].
  - intros [j [t [r [Hj [Hr ->]]]]]. exists j. split; [apply in_range; lia|].
    apply in_flat_map. exists t. split; [apply in_range; lia|].
    apply in_map. apply in_range. lia.
Qed.

(** The columns that the loop "create variables z_jtr" appends. *)
Lemma add_z_vars_columns (inp : Instance) (cpx0 cpx : Cplex)
  (z_ilo : list (list (list nat))) :
  shape (nI inp) (nP inp) (h inp) ->
  add_z_vars inp cpx0 = Some (cpx, z_ilo) ->
  variables cpx = variables cpx0 ++ tri_list inp (z_column inp) /\
  linear_constraints cpx = linear_constraints cpx0 /\
  problem_type cpx = problem_type cpx0.
Proof.
  intros Hh Hrun. unfold add_z_vars in Hrun.
  pose (I := fun (j t r : nat) (c : Cplex) =>
               variables c = variables cpx0 ++ tri_before inp (z_column inp) j t r /\
               linear_constraints c = linear_constraints cpx0 /\
               problem_type c = problem_type cpx0).
  assert (Hfinal : I (nI inp) 0 0 cpx).
  { apply (forM_range_post (fun j (st : Cplex * list (list (list nat))) => I j 0 0 (fst st))
             (add_z_vars_j inp) (nI inp) (nI inp - 0) 0 (cpx0, []) (cpx, z_ilo));
      [reflexivity | lia | exact Hrun | |].
    - unfold I. cbn [fst]. rewrite tri_before_start, app_nil_r. auto.
    - intros j [cA zA] [cB zB] Hj HA Hstep. cbn [fst] in *.
      unfold add_z_vars_j in Hstep. inv_bind Hstep. destruct x as [cC zj].
      inversion Hstep; subst; clear Hstep.
      assert (HC : I j (nP inp) (nP inp) cB).
      { apply (forM_range_post (fun t (st : Cplex * list (list nat)) => I j t t (fst st))
                 (add_z_vars_t inp j) (nP inp) (nP inp - 0) 0 (cA, []) (cB, zj));
          [reflexivity | lia | exact Hx | exact HA |].
        intros t [cD zD] [cE zE] Ht HD Hstep. cbn [fst] in *.
        unfold add_z_vars_t in Hstep. inv_bind Hstep. destruct x as [cF zjt].
        inversion Hstep; subst; clear Hstep.
        assert (HF : I j t (nP inp) cE).
        { apply (forM_range_post (fun r (st : Cplex * list nat) => I j t r (fst st))
                   (add_z_var inp j t) (nP inp) (nP inp - t) t (cD, []) (cE, zjt));
            [reflexivity | lia | exact Hx0 | exact HD |].
          intros r [cG zG] [cH zH] Hr [HGv [HGc HGp]] Hstep. cbn [fst] in *.
          unfold add_z_var in Hstep.
          rewrite (get2_at2 _ _ _ j t Hh) in Hstep by lia. cbn [bind] in Hstep.
          inversion Hstep; subst; clear Hstep.
          unfold I. cbn [variables_add variables linear_constraints problem_type v_type].
          rewrite tri_before_snoc by lia. rewrite HGv, <- app_assoc.
          split; [reflexivity|]. split; assumption. }
        unfold I. rewrite tri_before_row. exact HF. }
      unfold I. rewrite tri_before_item. exact HC. }
  unfold I in Hfinal. rewrite tri_before_all in Hfinal. exact Hfinal.
Qed.

Lemma exact_rows_add (vars : list Var) (expected : list LinRow) (cpx : Cplex)
  (k : Constr) (r : LinRow) :
  exact_rows vars expected cpx -> abs_row vars k = r ->
  exact_rows vars (expected ++ [r]) (linear_constraints_add cpx k).
Proof.
  intros [Hv He] Hk. split; [exact Hv|].
  cbn [linear_constraints_add linear_constraints]. rewrite map_app, He. cbn [map].
  rewrite Hk. reflexivity.
Qed.

Lemma combine_map_repeat {A B C : Type} (g : A -> B) (c : C) (l : list A) :
  combine (map g l) (repeat c (length l)) = map (fun i => (g i, c)) l.
Proof. induction l as [|i l IH]; [reflexivity|]. cbn. f_equal. exact IH. Qed.

(** The comprehension of the columns z.j.t.r for [r >= t], with the
    coefficient [a[j][t]] of each. *)
Lemma z_item_terms (inp : Instance) (vars : list Var) (z_ilo : list (list (list nat)))
  (t j : nat) :
  z_ilo_ok inp vars z_ilo -> j < nI inp -> t < nP inp ->
  exists zs,
    mapM (fun r => tri_get z_ilo j t r) (range t (nP inp)) = Some zs /\
    length zs = nP inp - t /\
    combine (map (col_name vars) zs) (repeat (at2 (a inp) j t) (nP inp - t))
    = z_terms_item inp t j.
Proof.
  intros Hz Hj Ht.
  destruct (mapM_names vars (fun r => tri_get z_ilo j t r) (VZ j t) (range t (nP inp)))
    as [zs [Hzs Hcols]].
  { intros r Hr. apply in_range in Hr. apply (tri_get_name inp); auto; lia. }
  exists zs. split; [exact Hzs|].
  assert (Hlen : length zs = nP inp - t).
  { rewrite <- (length_map (col_name vars)), Hcols, length_map, length_range.
    reflexivity. }
  split; [exact Hlen|]. rewrite Hcols. unfold z_terms_item.
  rewrite <- (length_range t (nP inp)). apply combine_map_repeat.
Qed.

Lemma worker_capacity_terms_exact (inp : Instance) (vars : list Var)
  (z_ilo : list (list (list nat))) (t : nat) :
  shape (nI inp) (nP inp) (a inp) -> z_ilo_ok inp vars z_ilo -> t < nP inp ->
  exists index value,
    forM (range 0 (nI inp)) (worker_capacity_terms inp z_ilo t) ([], [])
      = Some (index, value) /\
    combine (map (col_name vars) index) value
    = flat_map (z_terms_item inp t) (range 0 (nI inp)).
Proof.
  intros Ha Hz Ht.
  destruct (forM_range_inv
              (fun j' (st : list nat * list Q) =>
                 length (fst st) = length (snd st) /\
                 combine (map (col_name vars) (fst st)) (snd st)
                 = flat_map (z_terms_item inp t) (range 0 j'))
              (worker_capacity_terms inp z_ilo t) 0 (nI inp) ([], []))
    as [[index value] [Hrun [_ Hall]]].
  - lia.
  - rewrite range_nil. split; reflexivity.
  - intros j [index value] Hj [Hlen Hall]. cbn [fst snd] in Hlen, Hall.
    unfold worker_capacity_terms.
    destruct (z_item_terms inp vars z_ilo t j Hz) as [zs [Hzs [Hl Hc]]]; [lia | exact Ht |].
    rewrite Hzs. cbn [bind]. rewrite (get2_at2 _ _ _ j t Ha) by lia. cbn [bind].
    eexists. split; [reflexivity|]. cbn [fst snd].
    split; [rewrite !length_app, repeat_length; lia|].
    rewrite map_app, combine_app_eq by (rewrite length_map; exact Hlen).
    rewrite Hall, Hc, range_snoc by lia.
    rewrite flat_map_app. cbn [flat_map]. rewrite app_nil_r. reflexivity.
  - exists index, value. auto.
Qed.

Lemma mip_capacity_terms_exact (inp : Instance) (vars : list Var)
  (y_ilo : list (list nat)) (z_ilo : list (list (list nat))) (t : nat) :
  wf_instance inp -> y_ilo_ok inp vars y_ilo -> z_ilo_ok inp vars z_ilo ->
  t < nP inp ->
  exists index value,
    forM (range 0 (nI inp)) (mip_capacity_terms inp y_ilo z_ilo t) ([], [])
      = Some (index, value) /\
    combine (map (col_name vars) index) value
    = flat_map (fun j => z_terms_item inp t j ++ [(Some (VY j t), at2 (m inp) j t)])
        (range 0 (nI inp)).
Proof.
  intros Hwf Hy Hz Ht. destruct Hwf as [_ _ _ Ha Hm _].
  destruct (forM_range_inv
              (fun j' (st : list nat * list Q) =>
                 length (fst st) = length (snd st) /\
                 combine (map (col_name vars) (fst st)) (snd st)
                 = flat_map (fun j => z_terms_item inp t j
                                      ++ [(Some (VY j t), at2 (m inp) j t)])
                     (range 0 j'))
              (mip_capacity_terms inp y_ilo z_ilo t) 0 (nI inp) ([], []))
    as [[index value] [Hrun [_ Hall]]].
  - lia.
  - rewrite range_nil. split; reflexivity.
  - intros j [index value] Hj [Hlen Hall]. cbn [fst snd] in Hlen, Hall.
    unfold mip_capacity_terms.
    destruct (z_item_terms inp vars z_ilo t j Hz) as [zs [Hzs [Hl Hc]]]; [lia | exact Ht |].
    rewrite Hzs. cbn [bind]. rewrite (get2_at2 _ _ _ j t Ha) by lia. cbn [bind].
    destruct (get2_name inp vars y_ilo j t Hy) as [i [Hi Hcol]]; [lia | exact Ht |].
    rewrite Hi. cbn [bind]. rewrite (get2_at2 _ _ _ j t Hm) by lia. cbn [bind].
    eexists. split; [reflexivity|]. cbn [fst snd].
    split; [rewrite !length_app, repeat_length; cbn [length]; lia|].
    rewrite !map_app.
    rewrite combine_app_eq
      by (rewrite length_app, !length_map, length_app, repeat_length; lia).
    rewrite combine_app_eq by (rewrite length_map; exact Hlen).
    rewrite Hall, Hc. cbn [map combine]. rewrite Hcol.
    rewrite range_snoc by lia. rewrite flat_map_app. cbn [flat_map].
    rewrite app_nil_r, <- app_assoc. reflexivity.
  - exists index, value. auto.
Qed.

Lemma demand_terms_exact (inp : Instance) (vars : list Var)
  (z_ilo : list (list (list nat))) (j r : nat) :
  z_ilo_ok inp vars z_ilo -> j < nI inp -> r < nP inp ->
  exists index,
    mapM (fun t => tri_get z_ilo j t r) (range 0 (r + 1)) = Some index /\
    combine (map (col_name vars) index) (repeat 1%Q (r + 1)) = z_terms_dem j r.
Proof.
  intros Hz Hj Hr.
  destruct (mapM_names vars (fun t => tri_get z_ilo j t r) (fun t => VZ j t r)
              (range 0 (r + 1)))
    as [index [Hindex Hcols]].
  { intros t Ht. apply in_range in Ht. apply (tri_get_name inp); auto; lia. }
  exists index. split; [exact Hindex|]. rewrite Hcols. unfold z_terms_dem.
  replace (r + 1) with (length (range 0 (r + 1))) at 2 by (rewrite length_range; lia).
  apply combine_map_repeat.
Qed.

(** The LP that [WorkerLPPrimal.__init__] builds. *)
Lemma WorkerLPPrimal_init_rows (inp : Instance) :
  wf_instance inp ->
  exists w,
    WorkerLPPrimal_init inp = Some w /\
    variables (w_cpx w) = tri_list inp (z_column inp) /\
    map (abs_row (variables (w_cpx w))) (linear_constraints (w_cpx w))
    = worker_lp_rows inp (fun _ => 0%Q) (fun _ _ _ => 0%Q) /\
    problem_type (w_cpx w) = LP.
Proof.
  intros Hwf. pose proof Hwf as [Hd _ Hh Ha _ _].
  unfold WorkerLPPrimal_init.
  destruct (add_z_vars_spec inp Cplex_new Hh) as [cpx0 [z_ilo [Hz [_ Hzok]]]].
  destruct (add_z_vars_columns inp Cplex_new cpx0 z_ilo Hh Hz) as [Hv0 [Hc0 Hp0]].
  rewrite Hz. cbn [bind]. cbn in Hv0, Hc0, Hp0.
  set (vars := variables cpx0) in *.
  set (capR := fun _ : nat => 0%Q). set (logR := fun _ _ _ : nat => 0%Q).
  assert (H0 : exact_rows vars (map (w_cap_row inp capR) (range 0 0)) cpx0 /\
               problem_type cpx0 = LP).
  { split; [|exact Hp0]. split; [reflexivity|]. rewrite Hc0, range_nil. reflexivity. }
  destruct (forM_range_inv
              (fun t cpx => exact_rows vars (map (w_cap_row inp capR) (range 0 t)) cpx /\
                            problem_type cpx = LP)
              (worker_add_capacity inp z_ilo) 0 (nP inp) cpx0)
    as [cpx1 [Hrun1 H1]]; [lia | exact H0 | |].
  { intros t cpx Ht [Hinv Hp]. unfold worker_add_capacity.
    destruct (worker_capacity_terms_exact inp vars z_ilo t Ha Hzok)
      as [index [value [Hrun Hterms]]]; [lia|].
    rewrite Hrun. cbn [bind]. eexists. split; [reflexivity|].
    split; [|exact Hp].
    rewrite range_snoc by lia. rewrite map_app. cbn [map].
    apply exact_rows_add; [exact Hinv|].
    unfold abs_row, row_names, w_cap_row. cbn. rewrite Hterms. reflexivity. }
  rewrite Hrun1. cbn [bind].
  destruct (forM2_inv
              (fun j r cpx =>
                 exact_rows vars (map (w_cap_row inp capR) (range 0 (nP inp))
                                  ++ pairs_before inp (w_dem_row inp) j r) cpx /\
                 problem_type cpx = LP)
              (worker_add_demand inp z_ilo) (nI inp) (nP inp) cpx1)
    as [cpx2 [Hrun2 H2]].
  { unfold pairs_before. rewrite !range_nil. cbn [flat_map map].
    rewrite !app_nil_r. exact H1. }
  { intros j r cpx Hj Hr [Hinv Hp]. unfold worker_add_demand.
    destruct (demand_terms_exact inp vars z_ilo j r Hzok Hj Hr) as [index [Hindex Hterms]].
    rewrite Hindex. cbn [bind]. rewrite (get2_at2 _ _ _ j r Hd Hj Hr). cbn [bind].
    eexists. split; [reflexivity|]. split; [|exact Hp].
    rewrite pairs_before_snoc, app_assoc.
    apply exact_rows_add; [exact Hinv|].
    unfold abs_row, row_names, w_dem_row. cbn. rewrite Hterms. reflexivity. }
  { intros j cpx Hj Hinv. rewrite pairs_before_row. exact Hinv. }
  rewrite Hrun2. cbn [bind].
  destruct (forM_tri_inv
              (fun j t r cpx =>
                 exact_rows vars (map (w_cap_row inp capR) (range 0 (nP inp))
                                  ++ all_pairs inp (w_dem_row inp)
                                  ++ tri_before inp (w_log_row logR) j t r) cpx /\
                 problem_type cpx = LP)
              (worker_add_logic inp z_ilo) (nI inp) (nP inp) cpx2)
    as [cpx3 [Hrun3 H3]].
  { rewrite tri_before_start, app_nil_r. exact H2. }
  { intros j t r cpx Hj Hr [Hinv Hp]. unfold worker_add_logic.
    destruct (tri_get_name inp vars z_ilo j t r Hzok Hj Hr) as [i [Hi Hcol]].
    rewrite Hi. cbn [bind]. eexists. split; [reflexivity|]. split; [|exact Hp].
    rewrite tri_before_snoc by lia. rewrite !app_assoc.
    apply exact_rows_add; [rewrite <- app_assoc; exact Hinv|].
    unfold abs_row, row_names, w_log_row. cbn. rewrite Hcol. reflexivity. }
  { intros j t cpx Hj Ht Hinv. rewrite tri_before_row. exact Hinv. }
  { intros j cpx Hj Hinv. rewrite tri_before_item. exact Hinv. }
  rewrite Hrun3. cbn [bind]. rewrite tri_before_all in H3.
  destruct H3 as [[Hv3 He3] Hp3].
  eexists. split; [reflexivity|]. cbn [w_cpx].
  rewrite Hv3. split; [exact Hv0|]. split; [exact He3 | exact Hp3].
Qed.

(** The problem that [MIPReformulation.__init__] builds. *)
Lemma MIPReformulation_init_rows (inp : Instance) :
  wf_instance inp ->
  exists mip,
    MIPReformulation_init inp = Some mip /\
    variables (mip_cpx mip)
    = all_pairs inp (y_column inp) ++ tri_list inp (z_column inp) /\
    map (abs_row (variables (mip_cpx mip))) (linear_constraints (mip_cpx mip))
    = mip_lp_rows inp /\
    mip_y_ilo mip = y_table inp 0.
Proof.
  intros Hwf. pose proof Hwf as [Hd Hf Hh Ha Hm Hcap].
  unfold MIPReformulation_init.
  destruct (add_y_vars_spec inp Cplex_new Hf) as [cpx1 [y_ilo [Hy [Hexty [Hyok _]]]]].
  destruct (add_y_vars_columns inp Cplex_new Hf) as [cpx1' [Hy' [Hv1 Hc1]]].
  change (length (variables Cplex_new)) with 0 in Hy'.
  assert (H : cpx1' = cpx1 /\ y_ilo = y_table inp 0) by (split; congruence).
  destruct H as [-> ->]. cbn in Hv1, Hc1.
  rewrite Hy. cbn [bind].
  destruct (add_z_vars_spec inp cpx1 Hh) as [cpx2 [z_ilo [Hz [Hextz Hzok]]]].
  destruct (add_z_vars_columns inp cpx1 cpx2 z_ilo Hh Hz) as [Hv2 [Hc2 _]].
  rewrite Hz. cbn [bind].
  set (vars := variables cpx2) in *.
  assert (Hyok2 : y_ilo_ok inp vars (y_table inp 0)).
  { intros j t Hj Ht. destruct (Hyok j t Hj Ht) as [i [v [Hi [Hv Hn]]]].
    exists i, v. split; [exact Hi|]. split; [|exact Hn].
    eapply extends_get; eauto. }
  assert (H0 : exact_rows vars (pairs_before inp (m_dem_row inp) 0 0) cpx2).
  { split; [reflexivity|]. rewrite Hc2, Hc1. unfold pairs_before.
    rewrite !range_nil. reflexivity. }
  destruct (forM2_inv
              (fun j r cpx => exact_rows vars (pairs_before inp (m_dem_row inp) j r) cpx)
              (mip_add_demand inp z_ilo) (nI inp) (nP inp) cpx2)
    as [cpx3 [Hrun3 H3]].
  { exact H0. }
  { intros j r cpx Hj Hr Hinv. unfold mip_add_demand.
    destruct (demand_terms_exact inp vars z_ilo j r Hzok Hj Hr) as [index [Hindex Hterms]].
    rewrite Hindex. cbn [bind]. rewrite (get2_at2 _ _ _ j r Hd Hj Hr). cbn [bind].
    eexists. split; [reflexivity|].
    rewrite pairs_before_snoc.
    apply exact_rows_add; [exact Hinv|].
    unfold abs_row, row_names, m_dem_row. cbn. rewrite Hterms. reflexivity. }
  { intros j cpx Hj Hinv. rewrite pairs_before_row. exact Hinv. }
  rewrite Hrun3. cbn [bind].
  destruct (forM_range_inv
              (fun t cpx => exact_rows vars (all_pairs inp (m_dem_row inp)
                                             ++ map (m_cap_row inp) (range 0 t)) cpx)
              (mip_add_capacity inp (y_table inp 0) z_ilo) 0 (nP inp) cpx3)
    as [cpx4 [Hrun4 H4]]; [lia | | |].
  { rewrite range_nil. cbn [map]. rewrite app_nil_r. exact H3. }
  { intros t cpx Ht Hinv. unfold mip_add_capacity.
    destruct (mip_capacity_terms_exact inp vars (y_table inp 0) z_ilo t Hwf Hyok2 Hzok)
      as [index [value [Hrun Hterms]]]; [lia|].
    rewrite Hrun. cbn [bind]. rewrite get_nth by lia. cbn [bind].
    eexists. split; [reflexivity|].
    rewrite range_snoc by lia. rewrite map_app, app_assoc. cbn [map].
    apply exact_rows_add; [exact Hinv|].
    unfold abs_row, row_names, m_cap_row. cbn. rewrite Hterms. reflexivity. }
  rewrite Hrun4. cbn [bind].
  destruct (forM_tri_inv
              (fun j t r cpx =>
                 exact_rows vars (all_pairs inp (m_dem_row inp)
                                  ++ map (m_cap_row inp) (range 0 (nP inp))
                                  ++ tri_before inp (m_log_row inp) j t r) cpx)
              (mip_add_logic inp (y_table inp 0) z_ilo) (nI inp) (nP inp) cpx4)
    as [cpx5 [Hrun5 H5]].
  { rewrite tri_before_start, app_nil_r. exact H4. }
  { intros j t r cpx Hj Hr Hinv. unfold mip_add_logic.
    destruct (tri_get_name inp vars z_ilo j t r Hzok Hj Hr) as [i [Hi Hcol]].
    rewrite Hi. cbn [bind].
    destruct (get2_name inp vars (y_table inp 0) j t Hyok2) as [iy [Hiy Hcoly]];
      [lia | lia |].
    rewrite Hiy. cbn [bind]. rewrite (get2_at2 _ _ _ j r Hd) by lia. cbn [bind].
    eexists. split; [reflexivity|].
    rewrite tri_before_snoc by lia. rewrite !app_assoc.
    apply exact_rows_add; [rewrite <- app_assoc; exact Hinv|].
    unfold abs_row, row_names, m_log_row. cbn. rewrite Hcol, Hcoly. reflexivity. }
  { intros j t cpx Hj Ht Hinv. rewrite tri_before_row. exact Hinv. }
  { intros j cpx Hj Hinv. rewrite tri_before_item. exact Hinv. }
  rewrite Hrun5. cbn [bind]. rewrite tri_before_all in H5.
  destruct H5 as [Hv5 He5].
  eexists. split; [reflexivity|]. cbn [mip_cpx mip_y_ilo].
  rewrite Hv5. split; [|split; [exact He5 | reflexivity]].
  rewrite Hv2, Hv1. reflexivity.
Qed.

Lemma in_worker_rows_inv (inp : Instance) (n : ConstrName) :
  In n (worker_rows inp) ->
  (exists t, n = Capacity t /\ t < nP inp) \/
  (exists j r, n = Demand j r /\ j < nI inp /\ r < nP inp) \/
  (exists j t r, n = Logic j t r /\ j < nI inp /\ t <= r < nP inp).
Proof.
  unfold worker_rows. intros H. apply in_app_or in H. destruct H as [H|H].
  - left. unfold cap_names in H. apply in_map_iff in H. destruct H as [t [<- Ht]].
    apply in_range in Ht. exists t. split; [reflexivity | lia].
  - apply in_app_or in H. destruct H as [H|H].
    + right. left. change (dem_names inp (nI inp) 0) with (all_pairs inp Demand) in H.
      apply in_all_pairs in H. destruct H as [j [r [Hj [Hr ->]]]].
      exists j, r. auto.
    + right. right.
      change (log_names inp (nI inp) 0 0) with (tri_before inp Logic (nI inp) 0 0) in H.
      rewrite tri_before_all in H. apply in_tri_list in H.
      destruct H as [j [t [r [Hj [Hr ->]]]]]. exists j, t, r. auto.
Qed.

(** Rows that differ from named rows in their right-hand sides only, read
    as rows of the formulation. *)
Lemma abs_rows_with_rhs (vars : list Var) (R : ConstrName -> Q)
  (names : list ConstrName) :
  forall cs cs0 : list Constr,
    NoDup names ->
    map c_name cs0 = map Some names ->
    map row_frame cs = map row_frame cs0 ->
    (forall n, In n names -> option_map rhs (find (has_name n) cs) = Some (R n)) ->
    map (abs_row vars) cs = map (with_row_rhs R) (map (abs_row vars) cs0).
Proof.
  induction names as [|n names IH]; intros cs cs0 Hnd Hn Hf Hr.
  - destruct cs0; [|discriminate]. destruct cs; [reflexivity | discriminate].
  - destruct cs0 as [|k0 cs0]; [discriminate|].
    destruct cs as [|k cs]; [discriminate|].
    cbn [map] in Hn, Hf. inversion Hn as [[Hk0 Hn']].
    assert (Hfr : row_frame k = row_frame k0 /\ map row_frame cs = map row_frame cs0)
      by (split; congruence).
    destruct Hfr as [Hk Hf'].
    inversion Hnd as [|? ? Hnotin Hnd']; subst.
    assert (Hparts : c_name k = Some n /\ lin_expr k = lin_expr k0 /\ sense k = sense k0).
    { unfold row_frame in Hk. inversion Hk. repeat split; congruence. }
    destruct Hparts as [Hkn [Hkl Hks]].
    assert (Hh : has_name n k = true).
    { unfold has_name. rewrite Hkn. destruct (ConstrName_eq_dec n n); congruence. }
    assert (Hrhs : rhs k = R n).
    { specialize (Hr n (or_introl eq_refl)). cbn [find] in Hr. rewrite Hh in Hr.
      cbn in Hr. congruence. }
    cbn [map]. f_equal.
    + unfold with_row_rhs, abs_row, row_names. cbn [row_name row_terms row_sense].
      rewrite Hk0, Hkn, Hkl, Hks, Hrhs. reflexivity.
    + apply IH; auto.
      intros n' Hn'in. specialize (Hr n' (or_intror Hn'in)). cbn [find] in Hr.
      assert (Hne : has_name n' k = false).
      { unfold has_name. rewrite Hkn.
        destruct (ConstrName_eq_dec n' n) as [->|]; [contradiction | reflexivity]. }
      rewrite Hne in Hr. exact Hr.
Qed.

(** The LP that a call of [solveSubPrimal] leaves in the worker. *)
Lemma solveSubPrimal_rows (solve : Solver) (inp : Instance) (w w' : WorkerLPPrimal)
  (ySol : list (list Q)) (zHat : Q) (y_ilo : list (list nat)) (z_ilo : nat)
  (res : nat * Q) :
  wf_instance inp -> worker_reach solve inp w -> shape (nI inp) (nP inp) ySol ->
  solveSubPrimal solve w inp ySol zHat y_ilo z_ilo = Some (w', res) ->
  variables (w_cpx w') = tri_list inp (z_column inp) /\
  map (abs_row (variables (w_cpx w'))) (linear_constraints (w_cpx w'))
  = worker_lp_rows inp (fun t => new_rhs inp ySol (Capacity t))
      (fun j t r => new_rhs inp ySol (Logic j t r)) /\
  problem_type (w_cpx w') = LP.
Proof.
  intros Hwf Hreach Hys Hcall.
  destruct (WorkerLPPrimal_init_rows inp Hwf) as [w0 [H0 [Hv0 [He0 Hp0]]]].
  destruct (worker_reach_same_frame solve inp w0 w Hwf H0 Hreach)
    as [_ [_ [_ [_ [E [F [G _]]]]]]].
  pose proof (worker_reach_ok solve inp w Hwf Hreach) as Hok.
  pose proof (worker_reach_ok solve inp w0 Hwf (reach_init solve inp w0 H0)) as Hok0.
  destruct (update_rhs_spec inp ySol (w_cpx w) Hwf Hys (wk_rows inp w Hok))
    as [cpx [Hupd [Hv [Hp [Hf Hrhs]]]]].
  unfold solveSubPrimal in Hcall. rewrite Hupd in Hcall. cbn [bind] in Hcall.
  inv_bind Hcall. destruct x as [[cutType zSub] [[cutVars cutVals] r]].
  inversion Hcall; subst; clear Hcall. cbn [w_cpx].
  assert (Hvars : variables cpx = variables (w_cpx w0)) by congruence.
  rewrite Hvars. split; [exact Hv0|]. split; [|congruence].
  rewrite (abs_rows_with_rhs (variables (w_cpx w0)) (worker_rhs inp ySol)
             (worker_rows inp) (linear_constraints cpx)
             (linear_constraints (w_cpx w0))).
  - rewrite He0. unfold worker_lp_rows. rewrite !map_app, map_map.
    unfold all_pairs. rewrite map_pairs_before, map_tri_list. reflexivity.
  - apply NoDup_worker_rows.
  - exact (wk_rows inp w0 Hok0).
  - congruence.
  - intros n Hn.
    change (linear_constraints_get_rhs cpx n = Some (worker_rhs inp ySol n)).
    destruct (Hrhs n) as [Hin Hout].
    destruct (in_worker_rows_inv inp n Hn)
      as [[t [-> Ht]] | [[j [r0 [-> [Hj Hr0]]]] | [j [t [r0 [-> [Hj Hr0]]]]]]].
    + apply Hin. exact Ht.
    + rewrite Hout by (cbn; tauto). apply (wk_demand inp w Hok); assumption.
    + apply Hin. cbn. lia.
Qed.

Lemma Forall_map_range {A : Type} (P : A -> Prop) (g : nat -> A) (a b : nat) :
  Forall P (map g (range a b)) <-> forall i, a <= i < b -> P (g i).
Proof.
  rewrite Forall_forall. split.
  - intros H i Hi. apply H. apply in_map. apply in_range. exact Hi.
  - intros H x Hx. apply in_map_iff in Hx. destruct Hx as [i [<- Hi]].
    apply H. apply in_range. exact Hi.
Qed.

Lemma Forall_all_pairs {A : Type} (P : A -> Prop) (inp : Instance)
  (g : nat -> nat -> A) :
  Forall P (all_pairs inp g) <->
  forall j t, j < nI inp -> t < nP inp -> P (g j t).
Proof.
  rewrite Forall_forall. split.
  - intros H j t Hj Ht. apply H. apply in_all_pairs. exists j, t. auto.
  - intros H x Hx. apply in_all_pairs in Hx. destruct Hx as [j [t [Hj [Ht ->]]]].
    apply H; assumption.
Qed.

Lemma Forall_tri_list {A : Type} (P : A -> Prop) (inp : Instance)
  (g : nat -> nat -> nat -> A) :
  Forall P (tri_list inp g) <->
  forall j t r, j < nI inp -> t <= r < nP inp -> P (g j t r).
Proof.
  rewrite Forall_forall. split.
  - intros H j t r Hj Hr. apply H. apply in_tri_list. exists j, t, r. auto.
  - intros H x Hx. apply in_tri_list in Hx.
    destruct Hx as [j [t [r [Hj [Hr ->]]]]]. apply H; assumption.
Qed.

(** The capacity row of the MIP against that of the subproblem. *)
Lemma capacity_rows_agree (inp : Instance) (ySol : list (list Q))
  (nu : VarName -> Q) (t : nat) :
  (forall j, j < nI inp -> (nu (VY j t) == at2 ySol j t)%Q) ->
  (lhs_value nu (m_cap_row inp t)
   == lhs_value nu (w_cap_row inp (fun t0 => new_rhs inp ySol (Capacity t0)) t)
      + Qsum_range 0 (nI inp) (fun j => at2 (m inp) j t * at2 ySol j t))%Q.
Proof.
  intros Hy. unfold lhs_value, m_cap_row, w_cap_row. cbn [row_terms].
  rewrite !Qsum_flat_map. unfold Qsum_range. rewrite <- Qsum_map_add.
  apply Qsum_map_ext. intros j Hj. apply in_range in Hj.
  rewrite map_app, Qsum_app. cbn [map]. rewrite Qsum_cons.
  unfold term_value at 2. cbn [fst snd]. rewrite (Hy j) by lia.
  unfold Qsum at 2. cbn [fold_left]. ring.
Qed.

(** The rows of the reformulated MIP hold at a valuation that gives the
    y columns the values [ySol] exactly when the rows of the subproblem
    re-parameterized for [ySol] hold at it, the demand equalities of the
    subproblem weakened to "at least". *)
Lemma slice_rows (inp : Instance) (ySol : list (list Q)) (nu : VarName -> Q) :
  (forall j t, j < nI inp -> t < nP inp -> (nu (VY j t) == at2 ySol j t)%Q) ->
  (Forall (row_holds nu) (mip_lp_rows inp) <->
   Forall (row_weak nu)
     (worker_lp_rows inp (fun t => new_rhs inp ySol (Capacity t))
        (fun j t r => new_rhs inp ySol (Logic j t r)))).
Proof.
  intros Hy. unfold mip_lp_rows, worker_lp_rows.
  rewrite !Forall_app, !Forall_map_range, !Forall_all_pairs, !Forall_tri_list.
  assert (Hcap : forall t, 0 <= t < nP inp ->
            (row_holds nu (m_cap_row inp t) <->
             row_weak nu (w_cap_row inp (fun t0 => new_rhs inp ySol (Capacity t0)) t))).
  { intros t Ht. unfold row_weak, row_holds.
    cbn [m_cap_row w_cap_row row_sense row_rhs new_rhs].
    rewrite (capacity_rows_agree inp ySol nu t) by (intros j Hj; apply Hy; lia).
    unfold lhs_value. cbn [w_cap_row row_terms].
    split; intros H; lra. }
  assert (Hlog : forall j t r, j < nI inp -> t <= r < nP inp ->
            (row_holds nu (m_log_row inp j t r) <->
             row_weak nu (w_log_row (fun j0 t0 r0 => new_rhs inp ySol (Logic j0 t0 r0))
                            j t r))).
  { intros j t r Hj Hr. unfold row_weak, row_holds, lhs_value.
    cbn [m_log_row w_log_row row_sense row_rhs row_terms new_rhs map].
    unfold term_value. cbn [fst snd]. unfold Qsum. cbn [fold_left].
    rewrite (Hy j t) by lia. split; intros H; lra. }
  split.
  - intros [Hd [Hc Hl]]. split; [|split].
    + intros t Ht. apply Hcap; [exact Ht | apply Hc; exact Ht].
    + intros j r Hj Hr. exact (Hd j r Hj Hr).
    + intros j t r Hj Hr. apply Hlog; [exact Hj | exact Hr | apply Hl; assumption].
  - intros [Hc [Hd Hl]]. split; [|split].
    + intros j r Hj Hr. exact (Hd j r Hj Hr).
    + intros t Ht. apply Hcap; [exact Ht | apply Hc; exact Ht].
    + intros j t r Hj Hr. apply Hlog; [exact Hj | exact Hr | apply Hl; assumption].
Qed.

(** X18. [WorkerLPPrimal.__init__] builds exactly this LP: the columns
    z.j.t.r in the order of the three loops, each with cost
    [(r-t)*h[j][t]], lower bound 0 and no upper bound; then one row
    "capacity.t" per period, [sum over j and r >= t of a[j][t]*z.j.t.r <= 0];
    one row "demand.j.r" per item and period,
    [sum over t <= r of z.j.t.r = d[j][r]]; and one row "logic.j.t.r" per
    triple, [z.j.t.r <= 0]. Every column number in a row is in range. *)
Theorem WorkerLPPrimal_init_exact (inp : Instance) :
  wf_instance inp ->
  exists w,
    WorkerLPPrimal_init inp = Some w /\
    variables (w_cpx w) = tri_list inp (z_column inp) /\
    map (abs_row (variables (w_cpx w))) (linear_constraints (w_cpx w))
    = worker_lp_rows inp (fun _ => 0%Q) (fun _ _ _ => 0%Q) /\
    problem_type (w_cpx w) = LP.
Proof. apply WorkerLPPrimal_init_rows. Qed.

Lemma WorkerLPPrimal_init_exact_witness :
  exists w,
    WorkerLPPrimal_init inst_two_periods = Some w /\
    variables (w_cpx w) = tri_list inst_two_periods (z_column inst_two_periods) /\
    map (abs_row (variables (w_cpx w))) (linear_constraints (w_cpx w))
    = worker_lp_rows inst_two_periods (fun _ => 0%Q) (fun _ _ _ => 0%Q) /\
    problem_type (w_cpx w) = LP.
Proof. apply (WorkerLPPrimal_init_exact inst_two_periods). solve_wf. Defined.

(** X19. A problem that [MIPReformulation.__init__] has built is exactly
    this one: the binary columns y.j.t, then the columns z.j.t.r; one
    unnamed row per item and period,
    [sum over t <= r of z.j.t.r >= d[j][r]]; one per period,
    [sum over j of (sum over r >= t of a[j][t]*z.j.t.r + m[j][t]*y.j.t)
    <= cap[t]]; and one per triple, [z.j.t.r - d[j][r]*y.j.t <= 0]. The
    statement is about a constructor that returns: the Benders strategy
    and annotation calls made on the way add no column and no row, and
    where CPLEX refuses one of them the constructor raises and there is
    no problem to speak of. *)
Theorem MIPReformulation_init_exact (inp : Instance) (mip : MIPReformulation) :
  wf_instance inp ->
  MIPReformulation_init inp = Some mip ->
  variables (mip_cpx mip)
  = all_pairs inp (y_column inp) ++ tri_list inp (z_column inp) /\
  map (abs_row (variables (mip_cpx mip))) (linear_constraints (mip_cpx mip))
  = mip_lp_rows inp /\
  mip_y_ilo mip = y_table inp 0.
Proof.
  intros Hwf Hinit.
  destruct (MIPReformulation_init_rows inp Hwf) as [mip' [Hm H]].
  assert (mip' = mip) by congruence. subst mip'. exact H.
Qed.

Lemma MIPReformulation_init_exact_witness :
  variables (mip_cpx mip_two_periods)
  = all_pairs inst_two_periods (y_column inst_two_periods)
    ++ tri_list inst_two_periods (z_column inst_two_periods) /\
  map (abs_row (variables (mip_cpx mip_two_periods)))
    (linear_constraints (mip_cpx mip_two_periods))
  = mip_lp_rows inst_two_periods /\
  mip_y_ilo mip_two_periods = y_table inst_two_periods 0.
Proof.
  apply (MIPReformulation_init_exact inst_two_periods mip_two_periods).
  - solve_wf.
  - vm_compute. reflexivity.
Defined.

(** X20. The subproblem is the reformulated MIP with the setup variables
    fixed: after a call of [solveSubPrimal] with [ySol], the worker has the
    z columns of the MIP, with the same costs and bounds, and a valuation
    that gives the y columns the values [ySol] satisfies the rows of the
    MIP exactly when it satisfies the rows of the worker's LP, the demand
    rows read as "at least" (the worker asks for equality there, the MIP
    for "at least"). *)
Theorem subproblem_is_mip_slice (solve : Solver) (inp : Instance)
  (mip : MIPReformulation) (w w' : WorkerLPPrimal) (ySol : list (list Q)) (zHat : Q)
  (y_ilo : list (list nat)) (z_ilo : nat) (res : nat * Q) (nu : VarName -> Q) :
  wf_instance inp -> MIPReformulation_init inp = Some mip ->
  worker_reach solve inp w -> shape (nI inp) (nP inp) ySol ->
  solveSubPrimal solve w inp ySol zHat y_ilo z_ilo = Some (w', res) ->
  (forall j t, j < nI inp -> t < nP inp -> (nu (VY j t) == at2 ySol j t)%Q) ->
  variables (mip_cpx mip) = all_pairs inp (y_column inp) ++ variables (w_cpx w') /\
  (Forall (row_holds nu)
     (map (abs_row (variables (mip_cpx mip))) (linear_constraints (mip_cpx mip))) <->
   Forall (row_weak nu)
     (map (abs_row (variables (w_cpx w'))) (linear_constraints (w_cpx w')))) /\
  (Forall (row_holds nu)
     (map (abs_row (variables (w_cpx w'))) (linear_constraints (w_cpx w'))) ->
   Forall (row_holds nu)
     (map (abs_row (variables (mip_cpx mip))) (linear_constraints (mip_cpx mip)))).
Proof.
  intros Hwf Hmip Hreach Hys Hcall Hnu.
  destruct (MIPReformulation_init_rows inp Hwf) as [mip' [Hm [Hmv [Hme _]]]].
  assert (mip' = mip) by congruence. subst mip'.
  destruct (solveSubPrimal_rows solve inp w w' ySol zHat y_ilo z_ilo res
              Hwf Hreach Hys Hcall) as [Hwv [Hwe _]].
  rewrite Hme, Hwe.
  split; [rewrite Hmv, Hwv; reflexivity|].
  split; [apply slice_rows; exact Hnu|].
  intros H. apply (slice_rows inp ySol nu Hnu).
  eapply Forall_impl; [|exact H].
  intros k Hk. unfold row_weak, row_holds in *.
  destruct (row_sense k); try exact Hk. rewrite Hk. apply Qle_refl.
Qed.

Lemma subproblem_is_mip_slice_witness :
  variables (mip_cpx mip_two_periods)
  = all_pairs inst_two_periods (y_column inst_two_periods)
    ++ variables (w_cpx worker_after_duals) /\
  (Forall (row_holds valuation_half)
     (map (abs_row (variables (mip_cpx mip_two_periods)))
        (linear_constraints (mip_cpx mip_two_periods))) <->
   Forall (row_weak valuation_half)
     (map (abs_row (variables (w_cpx worker_after_duals)))
        (linear_constraints (w_cpx worker_after_duals)))) /\
  (Forall (row_holds valuation_half)
     (map (abs_row (variables (w_cpx worker_after_duals)))
        (linear_constraints (w_cpx worker_after_duals))) ->
   Forall (row_holds valuation_half)
     (map (abs_row (variables (mip_cpx mip_two_periods)))
        (linear_constraints (mip_cpx mip_two_periods)))).
Proof.
  apply (subproblem_is_mip_slice solve_duals inst_two_periods mip_two_periods
           worker_two_periods worker_after_duals ySol_half 3 y_ilo_two_periods
           z_ilo_two_periods (2, 7%Q) valuation_half).
  - solve_wf.
  - vm_compute. reflexivity.
  - apply reach_init. vm_compute. reflexivity.
  - solve_shape.
  - vm_compute. reflexivity.
  - intros j t Hj Ht. simpl in Hj, Ht.
    destruct j as [|j]; [|lia]. destruct t as [|[|t]]; [reflexivity | reflexivity | lia].
Defined.

(** ** Cuts against the solutions of the subproblem *)

Lemma Qmult_le_nonpos (u v w : Q) : (u <= 0 -> v <= w -> u * w <= u * v)%Q.
Proof. intros Hu Hvw. nra. Qed.

Lemma Qsum_map_le {A : Type} (f g : A -> Q) (l : list A) :
  (forall i, In i l -> (f i <= g i)%Q) -> (Qsum (map f l) <= Qsum (map g l))%Q.
Proof.
  induction l as [|i l IH]; intros H; [apply Qle_refl|].
  cbn [map]. rewrite !Qsum_cons. apply Qplus_le_compat.
  - apply H. left. reflexivity.
  - apply IH. intros k Hk. apply H. right. exact Hk.
Qed.

Lemma Qsum_range_le (a b : nat) (g g' : nat -> Q) :
  (forall i, a <= i < b -> (g i <= g' i)%Q) ->
  (Qsum_range a b g <= Qsum_range a b g')%Q.
Proof.
  intros H. unfold Qsum_range. apply Qsum_map_le. intros i Hi. apply H.
  apply in_range. exact Hi.
Qed.

Lemma Qsum_range_add (a b : nat) (g g' : nat -> Q) :
  (Qsum_range a b (fun i => g i + g' i) == Qsum_range a b g + Qsum_range a b g')%Q.
Proof. unfold Qsum_range. apply Qsum_map_add. Qed.

Lemma Qsum_range_scal (a b : nat) (k : Q) (g : nat -> Q) :
  (Qsum_range a b (fun i => k * g i) == k * Qsum_range a b g)%Q.
Proof. unfold Qsum_range. apply Qsum_map_scal. Qed.

Lemma Qsum_range_swap (n p : nat) (g : nat -> nat -> Q) :
  (Qsum_range 0 n (fun j => Qsum_range 0 p (g j))
   == Qsum_range 0 p (fun t => Qsum_range 0 n (fun j => g j t)))%Q.
Proof. unfold Qsum_range. apply (Qsum_map_swap g). Qed.

(** Summing over the pairs [t <= r] by [r] first or by [t] first. *)
Lemma Qsum_tri_swap (p : nat) (g : nat -> nat -> Q) :
  (Qsum_range 0 p (fun r => Qsum_range 0 (r + 1) (fun t => g t r))
   == Qsum_range 0 p (fun t => Qsum_range t p (g t)))%Q.
Proof.
  induction p as [|p IH]; [reflexivity|].
  rewrite (Qsum_range_last 0 p (fun r => Qsum_range 0 (r + 1) (fun t => g t r)))
    by lia.
  rewrite (Qsum_range_last 0 p (fun t => Qsum_range t (S p) (g t))) by lia.
  rewrite IH. replace (p + 1) with (S p) by lia.
  rewrite (Qsum_range_last 0 p (fun t => g t p)) by lia.
  rewrite (Qsum_range_last p p (g p)) by lia.
  rewrite (Qsum_range_ext 0 p (fun t => Qsum_range t (S p) (g t))
             (fun t => Qsum_range t p (g t) + g t p)%Q)
    by (intros t Ht; apply Qsum_range_last; lia).
  rewrite Qsum_range_add.
  assert (E : (Qsum_range p p (g p) == 0)%Q)
    by (unfold Qsum_range; rewrite range_nil; reflexivity).
  rewrite E. ring.
Qed.

Lemma Qsum_triples_le (n p : nat) (g g' : nat -> nat -> nat -> Q) :
  (forall j t r, j < n -> t <= r < p -> (g j t r <= g' j t r)%Q) ->
  (Qsum_triples n p g <= Qsum_triples n p g')%Q.
Proof.
  intros H. unfold Qsum_triples. apply Qsum_range_le. intros j Hj.
  apply Qsum_range_le. intros t Ht. apply Qsum_range_le. intros r Hr.
  apply H; lia.
Qed.

Lemma Qsum_triples_ext (n p : nat) (g g' : nat -> nat -> nat -> Q) :
  (forall j t r, j < n -> t <= r < p -> (g j t r == g' j t r)%Q) ->
  (Qsum_triples n p g == Qsum_triples n p g')%Q.
Proof.
  intros H. unfold Qsum_triples. apply Qsum_range_ext. intros j Hj.
  apply Qsum_range_ext. intros t Ht. apply Qsum_range_ext. intros r Hr.
  apply H; lia.
Qed.

Lemma Qsum_triples_add (n p : nat) (g g' : nat -> nat -> nat -> Q) :
  (Qsum_triples n p (fun j t r => g j t r + g' j t r)
   == Qsum_triples n p g + Qsum_triples n p g')%Q.
Proof.
  unfold Qsum_triples.
  rewrite <- (Qsum_range_add 0 n
                (fun j => Qsum_range 0 p (fun t => Qsum_range t p (g j t)))
                (fun j => Qsum_range 0 p (fun t => Qsum_range t p (g' j t)))).
  apply Qsum_range_ext. intros j _.
  rewrite <- (Qsum_range_add 0 p (fun t => Qsum_range t p (g j t))
                (fun t => Qsum_range t p (g' j t))).
  apply Qsum_range_ext. intros t _. apply Qsum_range_add.
Qed.

Lemma Qsum_triples_zero (n p : nat) (g : nat -> nat -> nat -> Q) :
  (forall j t r, j < n -> t <= r < p -> (g j t r == 0)%Q) ->
  (Qsum_triples n p g == 0)%Q.
Proof.
  intros H. rewrite (Qsum_triples_ext n p g (fun _ _ _ => 0%Q) H).
  unfold Qsum_triples, Qsum_range.
  rewrite (Qsum_map_ext _ (fun _ => 0%Q)).
  - apply Qsum_map_zero.
  - intros j _. rewrite (Qsum_map_ext _ (fun _ => 0%Q)).
    + apply Qsum_map_zero.
    + intros t _. apply Qsum_map_zero.
Qed.

Lemma Qsum_pairs_add (inp : Instance) (g g' : nat -> nat -> Q) :
  (Qsum_pairs inp (fun j t => g j t + g' j t)
   == Qsum_pairs inp g + Qsum_pairs inp g')%Q.
Proof.
  unfold Qsum_pairs.
  rewrite <- (Qsum_range_add 0 (nI inp) (fun j => Qsum_range 0 (nP inp) (g j))
                (fun j => Qsum_range 0 (nP inp) (g' j))).
  apply Qsum_range_ext. intros j _. apply Qsum_range_add.
Qed.

Lemma Qsum_pairs_scal (inp : Instance) (k : Q) (g : nat -> nat -> Q) :
  (Qsum_pairs inp (fun j t => k * g j t) == k * Qsum_pairs inp g)%Q.
Proof.
  unfold Qsum_pairs.
  rewrite <- (Qsum_range_scal 0 (nI inp) k (fun j => Qsum_range 0 (nP inp) (g j))).
  apply Qsum_range_ext. intros j _. apply Qsum_range_scal.
Qed.

(** Weak duality for the subproblem, on arbitrary data: multipliers that
    are not positive on the capacity and logic rows and stay below the
    costs on every column bound the cost of every solution from below. *)
Lemma weak_duality (n p : nat) (a m d y om : nat -> nat -> Q) (cap lam : nat -> Q)
  (ep c z : nat -> nat -> nat -> Q) :
  (forall t, t < p -> (lam t <= 0)%Q) ->
  (forall j t r, j < n -> t <= r < p -> (ep j t r <= 0)%Q) ->
  (forall j t r, j < n -> t <= r < p ->
     (a j t * lam t + om j r + ep j t r <= c j t r)%Q) ->
  (forall j t r, j < n -> t <= r < p -> (0 <= z j t r)%Q) ->
  (forall t, t < p ->
     (Qsum_range 0 n (fun j => Qsum_range t p (fun r => a j t * z j t r))
      <= cap t - Qsum_range 0 n (fun j => m j t * y j t))%Q) ->
  (forall j r, j < n -> r < p ->
     (Qsum_range 0 (r + 1) (fun t => z j t r) == d j r)%Q) ->
  (forall j t r, j < n -> t <= r < p -> (z j t r <= d j r * y j t)%Q) ->
  (Qsum_range 0 p (fun t =>
     lam t * (cap t - Qsum_range 0 n (fun j => m j t * y j t)))
   + Qsum_range 0 n (fun j => Qsum_range 0 p (fun t => om j t * d j t))
   + Qsum_triples n p (fun j t r => ep j t r * (d j r * y j t))
   <= Qsum_triples n p (fun j t r => c j t r * z j t r))%Q.
Proof.
  intros Hlam Hep Hcol Hz Hcap Hdem Hlog.
  assert (A : (Qsum_range 0 p (fun t =>
                 lam t * (cap t - Qsum_range 0 n (fun j => m j t * y j t)))
               <= Qsum_triples n p (fun j t r => a j t * lam t * z j t r))%Q).
  { apply Qle_trans with
      (Qsum_range 0 p (fun t => lam t *
         Qsum_range 0 n (fun j => Qsum_range t p (fun r => a j t * z j t r))))%Q.
    - apply Qsum_range_le. intros t Ht.
      apply Qmult_le_nonpos; [apply Hlam; lia | apply Hcap; lia].
    - apply Qle_lteq. right.
      rewrite (Qsum_range_ext 0 p
                 (fun t => lam t *
                    Qsum_range 0 n (fun j =>
                      Qsum_range t p (fun r => a j t * z j t r)))%Q
                 (fun t => Qsum_range 0 n (fun j =>
                    Qsum_range t p (fun r => a j t * lam t * z j t r)))%Q).
      + unfold Qsum_triples. symmetry.
        exact (Qsum_range_swap n p
                 (fun j t => Qsum_range t p (fun r => a j t * lam t * z j t r)%Q)).
      + intros t _. rewrite <- Qsum_range_scal. apply Qsum_range_ext. intros j _.
        cbv beta. rewrite <- Qsum_range_scal. apply Qsum_range_ext. intros r _.
        cbv beta. ring. }
  assert (B : (Qsum_range 0 n (fun j => Qsum_range 0 p (fun t => om j t * d j t))
               == Qsum_triples n p (fun j t r => om j r * z j t r))%Q).
  { unfold Qsum_triples. apply Qsum_range_ext. intros j Hj.
    transitivity
      (Qsum_range 0 p (fun r => Qsum_range 0 (r + 1) (fun t => om j r * z j t r)))%Q;
      [|exact (Qsum_tri_swap p (fun t r => om j r * z j t r)%Q)].
    apply Qsum_range_ext. intros r Hr.
    rewrite (Qsum_range_scal 0 (r + 1) (om j r) (fun t => z j t r)).
    rewrite (Hdem j r) by lia. reflexivity. }
  assert (C : (Qsum_triples n p (fun j t r => ep j t r * (d j r * y j t))
               <= Qsum_triples n p (fun j t r => ep j t r * z j t r))%Q).
  { apply Qsum_triples_le. intros j t r Hj Hr.
    apply Qmult_le_nonpos; [apply Hep | apply Hlog]; assumption. }
  assert (D : (Qsum_triples n p (fun j t r => a j t * lam t * z j t r)
               + Qsum_triples n p (fun j t r => om j r * z j t r)
               + Qsum_triples n p (fun j t r => ep j t r * z j t r)
               <= Qsum_triples n p (fun j t r => c j t r * z j t r))%Q).
  { rewrite <- (Qsum_triples_add n p (fun j t r => a j t * lam t * z j t r)%Q
                  (fun j t r => om j r * z j t r)%Q).
    rewrite <- (Qsum_triples_add n p
                  (fun j t r => a j t * lam t * z j t r + om j r * z j t r)%Q
                  (fun j t r => ep j t r * z j t r)%Q).
    apply Qsum_triples_le. intros j t r Hj Hr.
    specialize (Hcol j t r Hj Hr). specialize (Hz j t r Hj Hr). nra. }
  rewrite B. lra.
Qed.

(** What a solution of the subproblem says, row by row. *)
Lemma sub_feasible_rows (inp : Instance) (ySol : list (list Q)) (nu : VarName -> Q) :
  sub_feasible inp ySol nu ->
  (forall j t r, j < nI inp -> t <= r < nP inp -> (0 <= nu (VZ j t r))%Q) /\
  (forall t, t < nP inp ->
     (Qsum_range 0 (nI inp) (fun j =>
        Qsum_range t (nP inp) (fun r => at2 (a inp) j t * nu (VZ j t r)))
      <= at1 (cap inp) t
         - Qsum_range 0 (nI inp) (fun j => at2 (m inp) j t * at2 ySol j t))%Q) /\
  (forall j r, j < nI inp -> r < nP inp ->
     (Qsum_range 0 (r + 1) (fun t => nu (VZ j t r)) == at2 (d inp) j r)%Q) /\
  (forall j t r, j < nI inp -> t <= r < nP inp ->
     (nu (VZ j t r) <= at2 (d inp) j r * at2 ySol j t)%Q).
Proof.
  intros [Hlb Hrows]. unfold worker_lp_rows in Hrows.
  rewrite !Forall_app, Forall_map_range, Forall_all_pairs, Forall_tri_list in Hrows.
  destruct Hrows as [Hc [Hd Hl]].
  split; [exact Hlb|]. split; [|split].
  - intros t Ht. specialize (Hc t ltac:(lia)). unfold row_holds, lhs_value in Hc.
    cbn [w_cap_row row_sense row_rhs row_terms new_rhs] in Hc.
    rewrite Qsum_flat_map in Hc. eapply Qle_trans; [|exact Hc].
    apply Qle_lteq. right. unfold Qsum_range. apply Qsum_map_ext. intros j _.
    unfold z_terms_item. rewrite map_map. reflexivity.
  - intros j r Hj Hr. specialize (Hd j r Hj Hr). unfold row_holds, lhs_value in Hd.
    cbn [w_dem_row row_sense row_rhs row_terms] in Hd. rewrite <- Hd.
    unfold z_terms_dem, Qsum_range. rewrite map_map. apply Qsum_map_ext.
    intros t _. unfold term_value. cbn [fst snd]. ring.
  - intros j t r Hj Hr. specialize (Hl j t r Hj Hr). unfold row_holds, lhs_value in Hl.
    cbn [w_log_row row_sense row_rhs row_terms new_rhs map] in Hl.
    unfold term_value, Qsum in Hl. cbn [fst snd fold_left] in Hl. lra.
Qed.

Lemma multipliers_value_rows (inp : Instance) (G : ConstrName -> Q)
  (ySol : list (list Q)) :
  (multipliers_value inp G ySol
   == Qsum_range 0 (nP inp) (fun t =>
        G (Capacity t)
        * (at1 (cap inp) t
           - Qsum_range 0 (nI inp) (fun j => at2 (m inp) j t * at2 ySol j t)))
      + Qsum_range 0 (nI inp) (fun j =>
          Qsum_range 0 (nP inp) (fun t => G (Demand j t) * at2 (d inp) j t))
      + Qsum_triples (nI inp) (nP inp) (fun j t r =>
          G (Logic j t r) * (at2 (d inp) j r * at2 ySol j t)))%Q.
Proof.
  unfold multipliers_value. rewrite Qsum_worker_rows. reflexivity.
Qed.

(** The multipliers bound the cost of every solution of the subproblem. *)
Lemma multipliers_bound (inp : Instance) (cost : nat -> nat -> nat -> Q)
  (G : ConstrName -> Q) (ySol : list (list Q)) (nu : VarName -> Q) :
  multipliers_ok inp cost G -> sub_feasible inp ySol nu ->
  (multipliers_value inp G ySol
   <= Qsum_triples (nI inp) (nP inp) (fun j t r => cost j t r * nu (VZ j t r)))%Q.
Proof.
  intros [Hlam [Hep Hcol]] Hfeas.
  destruct (sub_feasible_rows inp ySol nu Hfeas) as [Hz [Hcap [Hdem Hlog]]].
  rewrite multipliers_value_rows.
  apply (weak_duality (nI inp) (nP inp) (at2 (a inp)) (at2 (m inp)) (at2 (d inp))
           (at2 ySol) (fun j r => G (Demand j r)) (at1 (cap inp))
           (fun t => G (Capacity t)) (fun j t r => G (Logic j t r)) cost
           (fun j t r => nu (VZ j t r))); assumption.
Qed.

(** The feasibility cut at a setup vector, as the Farkas vector applied to
    the right-hand sides for this vector. *)
Lemma feasibility_cut_value (inp : Instance) (farkas : list Q) (y : list (list Q)) :
  (Qsum_pairs inp (fun j t => feas_coeff inp farkas j t * at2 y j t)
   - feas_rhs inp farkas
   == multipliers_value inp (farkas_at inp farkas) y)%Q.
Proof.
  rewrite multipliers_value_rows. unfold feas_rhs, Qsum_pairs, feas_coeff.
  apply (farkas_algebra (nI inp) (nP inp) (at2 (m inp)) (at2 (d inp)) (at2 y)
           (fun j t => farkas_at inp farkas (Demand j t)) (at1 (cap inp))
           (fun t => farkas_at inp farkas (Capacity t))
           (fun j t r0 => farkas_at inp farkas (Logic j t r0))).
Qed.

(** The optimality cut between two setup vectors: the difference of the
    dual values plus twice the shift of the setup times. *)
Lemma optimality_cut_value (inp : Instance) (sol : Solution) (y ySol : list (list Q)) :
  (Qsum_pairs inp (fun j t => opt_coeff inp sol j t * at2 y j t)
   - Qsum_pairs inp (fun j t => opt_coeff inp sol j t * at2 ySol j t)
   == multipliers_value inp (get_dual_values sol) y
      - multipliers_value inp (get_dual_values sol) ySol
      + 2 * setup_shift inp (get_dual_values sol) y ySol)%Q.
Proof.
  set (G := get_dual_values sol).
  assert (F : forall y0 : list (list Q),
            (Qsum_pairs inp (fun j t => opt_coeff inp sol j t * at2 y0 j t)
             == multipliers_value inp G y0
                + (- Qsum_pairs inp (fun j t => at2 (d inp) j t * G (Demand j t))
                   - Qsum_range 0 (nP inp) (fun t => at1 (cap inp) t * G (Capacity t)))
                + 2 * Qsum_pairs inp
                        (fun j t => at2 (m inp) j t * G (Capacity t) * at2 y0 j t))%Q).
  { intros y0. rewrite multipliers_value_rows.
    rewrite <- (farkas_algebra (nI inp) (nP inp) (at2 (m inp)) (at2 (d inp)) (at2 y0)
                  (fun j t => G (Demand j t)) (at1 (cap inp))
                  (fun t => G (Capacity t)) (fun j t r0 => G (Logic j t r0))).
    fold (Qsum_pairs inp (fun j t => at2 (d inp) j t * G (Demand j t))%Q).
    fold (Qsum_pairs inp
            (fun j t =>
               (- at2 (m inp) j t * G (Capacity t)
                + Qsum_range t (nP inp) (fun r => G (Logic j t r) * at2 (d inp) j r))
               * at2 y0 j t)%Q).
    rewrite <- Qsum_pairs_scal.
    assert (E : (Qsum_pairs inp (fun j t => opt_coeff inp sol j t * at2 y0 j t)
                 == Qsum_pairs inp (fun j t =>
                      (- at2 (m inp) j t * G (Capacity t)
                       + Qsum_range t (nP inp)
                           (fun r => G (Logic j t r) * at2 (d inp) j r))
                      * at2 y0 j t
                      + 2 * (at2 (m inp) j t * G (Capacity t) * at2 y0 j t)))%Q).
    { apply Qsum_pairs_ext. intros j t. unfold opt_coeff. fold G. ring. }
    rewrite E, Qsum_pairs_add. ring. }
  assert (S : (setup_shift inp G y ySol
               == Qsum_pairs inp
                    (fun j t => at2 (m inp) j t * G (Capacity t) * at2 y j t)
                  - Qsum_pairs inp
                      (fun j t => at2 (m inp) j t * G (Capacity t) * at2 ySol j t))%Q).
  { unfold setup_shift.
    assert (E : (Qsum_pairs inp
                   (fun j t => at2 (m inp) j t * G (Capacity t) * at2 ySol j t)
                 == - Qsum_pairs inp
                        (fun j t =>
                           (- 1) * (at2 (m inp) j t * G (Capacity t) * at2 ySol j t)))%Q).
    { rewrite Qsum_pairs_scal. ring. }
    rewrite E.
    setoid_replace
      (Qsum_pairs inp (fun j t => at2 (m inp) j t * G (Capacity t) * at2 y j t)
       - - Qsum_pairs inp
             (fun j t => -1 * (at2 (m inp) j t * G (Capacity t) * at2 ySol j t)))%Q
      with
      (Qsum_pairs inp (fun j t => at2 (m inp) j t * G (Capacity t) * at2 y j t)
       + Qsum_pairs inp
           (fun j t => -1 * (at2 (m inp) j t * G (Capacity t) * at2 ySol j t)))%Q
      by ring.
    rewrite <- Qsum_pairs_add. apply Qsum_pairs_ext. intros j t. ring. }
  rewrite (F y), (F ySol), S. ring.
Qed.

(** A call that returns cut type 2 found the LP optimal and left the
    optimality cut. *)
Lemma solveSubPrimal_optimal (solve : Solver) (w w' : WorkerLPPrimal)
  (inp : Instance) (ySol : list (list Q)) (zHat zSub : Q) (y_ilo : list (list nat))
  (z_ilo : nat) :
  wf_instance inp -> worker_ok inp w ->
  shape (nI inp) (nP inp) ySol -> shape (nI inp) (nP inp) y_ilo ->
  solveSubPrimal solve w inp ySol zHat y_ilo z_ilo = Some (w', (2, zSub)) ->
  get_status (solve (w_cpx w')) = optimal /\
  zSub = get_objective_value (solve (w_cpx w')) /\
  exists lhs r,
    cutLhs w' = Some lhs /\ cutRhs w' = Some r /\
    ind lhs = all_pairs inp (at2n y_ilo) ++ [z_ilo] /\
    val lhs = all_pairs inp (opt_coeff_code inp (solve (w_cpx w'))) ++ [(- 1)%Q] /\
    (r == opt_rhs inp (solve (w_cpx w')) ySol)%Q.
Proof.
  intros Hwf Hok Hys Hy Hcall.
  destruct (update_rhs_spec inp ySol (w_cpx w) Hwf Hys (wk_rows inp w Hok))
    as [cpx [Hupd _]].
  unfold solveSubPrimal in Hcall. rewrite Hupd in Hcall. cbn [bind] in Hcall.
  destruct (get_status (solve cpx)) eqn:Est.
  - destruct (optimality_cut_spec inp w (solve cpx) ySol y_ilo z_ilo Hwf Hok Hys Hy)
      as [r [Hcut Hr]].
    rewrite Hcut in Hcall. cbn [bind] in Hcall.
    inversion Hcall; subst; clear Hcall. cbn [w_cpx cutLhs cutRhs].
    split; [exact Est|]. split; [reflexivity|].
    eexists. exists r. split; [reflexivity|]. split; [reflexivity|].
    cbn [ind val]. split; [reflexivity|]. split; [reflexivity | exact Hr].
  - inv_bind Hcall. inv_bind Hx. inversion Hx; subst; clear Hx.
    destruct x0 as [[cutVars cutVals] cutRhs0]. discriminate Hcall.
  - cbn in Hcall. discriminate Hcall.
Qed.

(** X21. A feasibility cut cuts off no setup vector for which the subproblem
    has a solution. If the Farkas vector that the solver returned is a
    certificate (not positive on the capacity and logic rows, and with a
    combination of the rows that is not positive on any column z.j.t.r),
    then every master point whose setup vector [y] admits a solution [nu]
    of the subproblem satisfies the cut, whatever vector [ySol] the call
    separated. *)
Theorem feasibility_cut_valid (solve : Solver) (w w' : WorkerLPPrimal)
  (inp : Instance) (ySol : list (list Q)) (zHat zSub : Q) (y_ilo : list (list nat))
  (z_ilo : nat) (y : list (list Q)) (x : nat -> Q) (nu : VarName -> Q) :
  wf_instance inp -> worker_reach solve inp w -> farkas_per_row solve ->
  shape (nI inp) (nP inp) ySol -> shape (nI inp) (nP inp) y_ilo ->
  solveSubPrimal solve w inp ySol zHat y_ilo z_ilo = Some (w', (1, zSub)) ->
  multipliers_ok inp (fun _ _ _ => 0%Q)
    (farkas_at inp (dual_farkas (solve (w_cpx w')))) ->
  sub_feasible inp y nu ->
  (forall j t, j < nI inp -> t < nP inp -> (x (at2n y_ilo j t) == at2 y j t)%Q) ->
  exists lhs r,
    cutLhs w' = Some lhs /\ cutRhs w' = Some r /\ (row_value x lhs <= r)%Q.
Proof.
  intros Hwf Hreach Hfk Hys Hy Hcall Hmul Hfeas Hx.
  pose proof (worker_reach_ok solve inp w Hwf Hreach) as Hok.
  destruct (solveSubPrimal_spec solve w inp ySol zHat y_ilo z_ilo Hwf Hok)
    as [cpx [cutType [zSub' [lhs [r [_ [_ [Hcall' Hcut]]]]]]]]; auto.
  rewrite Hcall' in Hcall. inversion Hcall; subst; clear Hcall.
  exists lhs, r. split; [reflexivity|]. split; [reflexivity|].
  cbn [w_cpx] in Hmul.
  destruct (get_status (solve cpx)).
  - destruct Hcut as [Hc _]. discriminate.
  - destruct Hcut as [_ [_ [Hind [Hval Hr]]]].
    unfold row_value. rewrite Hind, Hval.
    rewrite (row_value_pairs inp x y_ilo y _ Hx). rewrite Hr.
    pose proof (feasibility_cut_value inp (dual_farkas (solve cpx)) y) as Hv.
    pose proof (multipliers_bound inp (fun _ _ _ => 0%Q) _ y nu Hmul Hfeas) as Hb.
    rewrite (Qsum_triples_zero (nI inp) (nP inp)
               (fun j t r => 0 * nu (VZ j t r))%Q) in Hb
      by (intros; ring).
    lra.
  - destruct Hcut as [Hc _]. discriminate.
Qed.

Lemma feasibility_cut_valid_witness :
  exists lhs r,
    cutLhs worker_after_farkas = Some lhs /\ cutRhs worker_after_farkas = Some r /\
    (row_value point_plan lhs <= r)%Q.
Proof.
  apply (feasibility_cut_valid solve_farkas worker_two_periods worker_after_farkas
           inst_two_periods ySol_half 3 (- 1) y_ilo_two_periods z_ilo_two_periods
           ySol_ones point_plan valuation_plan).
  - solve_wf.
  - apply reach_init. vm_compute. reflexivity.
  - intros cpx _. unfold solve_farkas. cbn [dual_farkas]. apply length_map.
  - solve_shape.
  - solve_shape.
  - vm_compute. reflexivity.
  - split; [|split].
    + intros t Ht. simpl in Ht.
      destruct t as [|[|t]]; [vm_compute; discriminate | vm_compute; discriminate | lia].
    + intros j t r Hj Hr. simpl in Hj, Hr. destruct j as [|j]; [|lia].
      destruct t as [|[|t]]; destruct r as [|[|r]]; try lia; vm_compute; discriminate.
    + intros j t r Hj Hr. simpl in Hj, Hr. destruct j as [|j]; [|lia].
      destruct t as [|[|t]]; destruct r as [|[|r]]; try lia; vm_compute; discriminate.
  - split.
    + intros j t r Hj Hr. simpl in Hj, Hr. destruct j as [|j]; [|lia].
      destruct t as [|[|t]]; destruct r as [|[|r]]; try lia; vm_compute; discriminate.
    + vm_compute.
      repeat (apply Forall_cons; [vm_compute; try reflexivity; try discriminate|]).
      apply Forall_nil.
  - intros j t Hj Ht. simpl in Hj, Ht.
    destruct j as [|j]; [|lia]. destruct t as [|[|t]]; [reflexivity | reflexivity | lia].
Defined.

(** X22. An optimality cut against the solutions of the subproblem. If the
    solver returned dual values for the optimum (not positive on the
    capacity and logic rows, on every column z.j.t.r a combination of the
    rows below its cost, and with the objective [zSub] as their value on
    the right-hand sides for [ySol]), then at a master point with setup
    vector [y] the cut has left-hand side minus right-hand side equal to
    the value of the duals on the right-hand sides for [y], plus twice
    [sum of m[j][t]*lambda[t]*(y[j][t]-ySol[j][t])], minus zHat: the cut
    carries [m[j][t]*lambda[t]] where the value of the duals carries
    [-m[j][t]*lambda[t]]. So the point satisfies the cut when its zHat is
    at least the holding cost of a solution [nu] of the subproblem for [y]
    and that sum is not positive, as it is without setup times. *)
Theorem optimality_cut_valid (solve : Solver) (w w' : WorkerLPPrimal)
  (inp : Instance) (ySol : list (list Q)) (zHat zSub : Q) (y_ilo : list (list nat))
  (z_ilo : nat) (y : list (list Q)) (x : nat -> Q) (nu : VarName -> Q) :
  wf_instance inp -> worker_reach solve inp w ->
  shape (nI inp) (nP inp) ySol -> shape (nI inp) (nP inp) y_ilo ->
  solveSubPrimal solve w inp ySol zHat y_ilo z_ilo = Some (w', (2, zSub)) ->
  multipliers_ok inp (z_cost inp) (get_dual_values (solve (w_cpx w'))) ->
  (zSub == multipliers_value inp (get_dual_values (solve (w_cpx w'))) ySol)%Q ->
  sub_feasible inp y nu ->
  (forall j t, j < nI inp -> t < nP inp -> (x (at2n y_ilo j t) == at2 y j t)%Q) ->
  (holding_cost inp nu <= x z_ilo)%Q ->
  (setup_shift inp (get_dual_values (solve (w_cpx w'))) y ySol <= 0)%Q ->
  exists lhs r,
    cutLhs w' = Some lhs /\ cutRhs w' = Some r /\
    (row_value x lhs - r
     == multipliers_value inp (get_dual_values (solve (w_cpx w'))) y
        + 2 * setup_shift inp (get_dual_values (solve (w_cpx w'))) y ySol
        - x z_ilo)%Q /\
    (row_value x lhs <= r)%Q.
Proof.
  intros Hwf Hreach Hys Hy Hcall Hmul Hobj Hfeas Hx Hcost Hshift.
  pose proof (worker_reach_ok solve inp w Hwf Hreach) as Hok.
  destruct (solveSubPrimal_optimal solve w w' inp ySol zHat zSub y_ilo z_ilo
              Hwf Hok Hys Hy Hcall)
    as [_ [Hz [lhs [r [Hl [Hrr [Hind [Hval Hr]]]]]]]].
  exists lhs, r. split; [exact Hl|]. split; [exact Hrr|].
  set (sol := solve (w_cpx w')) in *.
  unfold row_value. rewrite Hind, Hval.
  rewrite combine_app_eq by (rewrite !length_all_pairs; reflexivity).
  rewrite map_app, Qsum_app. rewrite (row_value_pairs inp x y_ilo y _ Hx).
  cbn [combine map fst snd]. rewrite Qsum_cons. rewrite Hr. unfold opt_rhs.
  rewrite (Qsum_pairs_ext_in inp
             (fun j t => opt_coeff_code inp sol j t * at2 y j t)%Q
             (fun j t => opt_coeff inp sol j t * at2 y j t)%Q)
    by (intros j t _ _; rewrite opt_coeff_code_eq; reflexivity).
  pose proof (optimality_cut_value inp sol y ySol) as Hv.
  pose proof (multipliers_bound inp (z_cost inp) _ y nu Hmul Hfeas) as Hb.
  fold (holding_cost inp nu) in Hb.
  rewrite <- Hz. unfold Qsum. cbn [fold_left]. split; lra.
Qed.

Lemma optimality_cut_valid_witness :
  exists lhs r,
    cutLhs worker_after_certified = Some lhs /\
    cutRhs worker_after_certified = Some r /\
    (row_value point_plan lhs - r
     == multipliers_value inst_two_periods
          (get_dual_values (solve_certified (w_cpx worker_after_certified))) ySol_ones
        + 2 * setup_shift inst_two_periods
                (get_dual_values (solve_certified (w_cpx worker_after_certified)))
                ySol_ones ySol_ones
        - point_plan z_ilo_two_periods)%Q /\
    (row_value point_plan lhs <= r)%Q.
Proof.
  apply (optimality_cut_valid solve_certified worker_two_periods
           worker_after_certified inst_two_periods ySol_ones 3 0
           y_ilo_two_periods z_ilo_two_periods ySol_ones point_plan valuation_plan).
  - solve_wf.
  - apply reach_init. vm_compute. reflexivity.
  - solve_shape.
  - solve_shape.
  - vm_compute. reflexivity.
  - split; [|split].
    + intros t Ht. simpl in Ht.
      destruct t as [|[|t]]; [vm_compute; discriminate | vm_compute; discriminate | lia].
    + intros j t r Hj Hr. simpl in Hj, Hr. destruct j as [|j]; [|lia].
      destruct t as [|[|t]]; destruct r as [|[|r]]; try lia; vm_compute; discriminate.
    + intros j t r Hj Hr. simpl in Hj, Hr. destruct j as [|j]; [|lia].
      destruct t as [|[|t]]; destruct r as [|[|r]]; try lia; vm_compute; discriminate.
  - vm_compute. reflexivity.
  - split.
    + intros j t r Hj Hr. simpl in Hj, Hr. destruct j as [|j]; [|lia].
      destruct t as [|[|t]]; destruct r as [|[|r]]; try lia; vm_compute; discriminate.
    + vm_compute.
      repeat (apply Forall_cons; [vm_compute; try reflexivity; try discriminate|]).
      apply Forall_nil.
  - intros j t Hj Ht. simpl in Hj, Ht.
    destruct j as [|j]; [|lia]. destruct t as [|[|t]]; [reflexivity | reflexivity | lia].
  - vm_compute. discriminate.
  - vm_compute. discriminate.
Defined.

(** ** Reading an instance file *)

Lemma mapT_nth {A B : Type} (g : A -> option B) (dA : A) (dB : B) (l : list A) :
  forall xs, mapT g l = Some xs ->
    length xs = length l /\
    forall i, i < length l -> g (nth i l dA) = Some (nth i xs dB).
Proof.
  induction l as [|v l IH]; intros xs H.
  - inversion H; subst. split; [reflexivity|]. intros i Hi. simpl in Hi. lia.
  - simpl in H. inv_bind H. inv_bind H. inversion H; subst; clear H.
    destruct (IH x0 Hx0) as [Hlen Hnth]. split; [simpl; lia|].
    intros [|i] Hi; [exact Hx|]. simpl in Hi. simpl. apply Hnth. lia.
Qed.

Lemma skipn_cons_nth {A : Type} (dflt : A) (l : list A) :
  forall i, i < length l -> skipn i l = nth i l dflt :: skipn (S i) l.
Proof.
  induction l as [|x l IH]; intros i Hi; [simpl in Hi; lia|].
  destruct i as [|i]; [reflexivity|]. simpl in Hi.
  change (skipn i l = nth i l dflt :: skipn (S i) l). apply IH. lia.
Qed.

Lemma map_const_range {A : Type} (x : A) (n : nat) :
  map (fun _ => x) (range 0 n) = repeat x n.
Proof.
  induction n as [|n IH]; [reflexivity|].
  rewrite range_snoc by lia. rewrite map_app, IH. cbn [map].
  symmetry. change (x :: repeat x n = repeat x n ++ [x]). apply repeat_cons.
Qed.

Lemma repeat_snoc {A : Type} (x : A) (n : nat) : repeat x (S n) = repeat x n ++ [x].
Proof. change (x :: repeat x n = repeat x n ++ [x]). apply repeat_cons. Qed.

Lemma firstn_exact {A : Type} (l1 l2 : list A) (i : nat) :
  length l1 = i -> firstn i (l1 ++ l2) = l1.
Proof.
  intros <-. rewrite firstn_app, Nat.sub_diag, firstn_all. cbn [firstn].
  apply app_nil_r.
Qed.

Lemma skipn_exact {A : Type} (l1 l2 : list A) (x : A) (i : nat) :
  length l1 = i -> skipn (S i) (l1 ++ x :: l2) = l2.
Proof.
  intros <-. induction l1 as [|y l1 IH]; [reflexivity|]. exact IH.
Qed.

(** [M[i].append(x)] on a table given row by row. *)
Lemma append_at_map (n i : nat) (G G' : nat -> list Q) (x : Q) :
  i < n ->
  (forall j, j < n -> j <> i -> G' j = G j) ->
  G' i = G i ++ [x] ->
  append_at (map G (range 0 n)) i x = Some (map G' (range 0 n)).
Proof.
  intros Hi Hother Hrow. unfold append_at.
  rewrite get_map_range by lia. cbn [bind Nat.add]. f_equal.
  rewrite (range_split 0 n i) by lia. rewrite !map_app. cbn [map].
  rewrite firstn_exact by (rewrite length_map, length_range; lia).
  rewrite skipn_exact by (rewrite length_map, length_range; lia).
  rewrite Hrow. cbn [app]. f_equal.
  - apply map_ext_in. intros j Hj. apply in_range in Hj. symmetry. apply Hother; lia.
  - f_equal. apply map_ext_in. intros j Hj. apply in_range in Hj. symmetry.
    apply Hother; lia.
Qed.

(** One line of a parsed block. *)
Lemma read_floats_block (block rest : File) (bv : list (list Q)) (i : nat) :
  parse_lines block = Some bv -> i < length bv ->
  read_floats (skipn i block ++ rest) = Some (nth i bv [], skipn (S i) block ++ rest).
Proof.
  intros Hp Hi. destruct (mapT_nth (mapT py_float) [] [] block bv Hp) as [Hlen Hnth].
  rewrite (skipn_cons_nth [] block i) by lia.
  unfold read_floats. cbn [app readline]. rewrite Hnth by lia. reflexivity.
Qed.

Lemma get_field (bv : list (list Q)) (i k : nat) (w : nat) :
  Forall (fun r => w <= length r) bv -> i < length bv -> k < w ->
  get (nth i bv []) k = Some (at2 bv i k).
Proof.
  intros Hall Hi Hk. unfold get, at2. apply nth_error_nth'.
  rewrite Forall_forall in Hall. specialize (Hall (nth i bv []) (nth_In bv [] Hi)).
  lia.
Qed.

Lemma skipn_block {A : Type} (block rest : list A) :
  skipn (length block) block ++ rest = rest.
Proof. rewrite skipn_all. reflexivity. Qed.

(** The loop over the item lines of a small file. *)
Lemma small_items_loop (n p : nat) (block rest : File) (iv D : list (list Q))
  (CAP : list Q) :
  parse_lines block = Some iv -> length iv = n ->
  Forall (fun r => 4 <= length r) iv ->
  forM (range 0 n) small_item
    (block ++ rest, mkInstance n p D [] [] [] [] [] CAP [] [])
  = Some (rest,
          mkInstance n p D (repeat (repeat 0%Q p) n)
            (map (fun j => repeat (at2 iv j 3) p) (range 0 n))
            (map (fun j => repeat (at2 iv j 1) p) (range 0 n))
            (repeat (repeat 1%Q p) n)
            (map (fun j => repeat (at2 iv j 2) p) (range 0 n))
            CAP [] []).
Proof.
  intros Hp Hlen Hall.
  destruct (mapT_nth (mapT py_float) [] [] block iv Hp) as [Hlb _].
  destruct (forM_range_inv
              (fun i st =>
                 st = (skipn i block ++ rest,
                       mkInstance n p D (repeat (repeat 0%Q p) i)
                         (map (fun j => repeat (at2 iv j 3) p) (range 0 i))
                         (map (fun j => repeat (at2 iv j 1) p) (range 0 i))
                         (repeat (repeat 1%Q p) i)
                         (map (fun j => repeat (at2 iv j 2) p) (range 0 i))
                         CAP [] []))
              small_item 0 n
              (block ++ rest, mkInstance n p D [] [] [] [] [] CAP [] []))
    as [st [Hrun Hst]].
  - lia.
  - rewrite range_nil. reflexivity.
  - intros i st0 Hi ->. eexists. split; [|reflexivity].
    unfold small_item. rewrite (read_floats_block block rest iv i Hp) by lia.
    cbn [bind]. rewrite !(get_field iv i _ 4 Hall) by lia. cbn [bind].
    cbn [nI nP d c f h a m cap dcum max_prod].
    rewrite !(range_snoc 0 i) by lia. rewrite !map_app, !repeat_snoc. reflexivity.
  - etransitivity; [exact Hrun|]. rewrite Hst.
    replace n with (length block) at 1 by lia.
    rewrite skipn_block. reflexivity.
Qed.

(** The demands of one period, appended to every row. *)
Lemma append_column (n : nat) (rowf : nat -> list Q) (x : nat -> Q) (temp : list Q) :
  (forall i, i < n -> get temp i = Some (x i)) ->
  forM (range 0 n) (fun i dd => v <- get temp i ;; append_at dd i v)
    (map rowf (range 0 n))
  = Some (map (fun j => rowf j ++ [x j]) (range 0 n)).
Proof.
  intros Hx.
  destruct (forM_range_inv
              (fun i dd =>
                 dd = map (fun j => if j <? i then rowf j ++ [x j] else rowf j)
                        (range 0 n))
              (fun i dd => v <- get temp i ;; append_at dd i v) 0 n
              (map rowf (range 0 n)))
    as [dd [Hrun Hdd]].
  - lia.
  - reflexivity.
  - intros i dd0 Hi ->. eexists. split; [|reflexivity].
    rewrite Hx by lia. cbn [bind]. apply append_at_map; [lia | |].
    + intros j Hj Hne.
      destruct (j <? S i) eqn:E1; destruct (j <? i) eqn:E2; try reflexivity;
        [apply Nat.ltb_lt in E1; apply Nat.ltb_ge in E2; lia
        |apply Nat.ltb_ge in E1; apply Nat.ltb_lt in E2; lia].
    + rewrite Nat.ltb_irrefl. replace (i <? S i) with true; [reflexivity|].
      symmetry. apply Nat.ltb_lt. lia.
  - etransitivity; [exact Hrun|]. rewrite Hdd. f_equal. apply map_ext_in. intros j Hj. apply in_range in Hj.
    replace (j <? n) with true; [reflexivity|]. symmetry. apply Nat.ltb_lt. lia.
Qed.

(** The loop over the demand lines of a small file. *)
Lemma small_demands_loop (n p : nat) (block rest : File) (dv C F H A M : list (list Q))
  (CAP : list Q) :
  parse_lines block = Some dv -> length dv = p ->
  Forall (fun r => n <= length r) dv ->
  forM (range 0 p) small_demand
    (block ++ rest, mkInstance n p (repeat [] n) C F H A M CAP [] [])
  = Some (rest,
          mkInstance n p
            (map (fun j => map (fun t => at2 dv t j) (range 0 p)) (range 0 n))
            C F H A M CAP [] []).
Proof.
  intros Hp Hlen Hall.
  destruct (mapT_nth (mapT py_float) [] [] block dv Hp) as [Hlb _].
  destruct (forM_range_inv
              (fun t st =>
                 st = (skipn t block ++ rest,
                       mkInstance n p
                         (map (fun j => map (fun t' => at2 dv t' j) (range 0 t))
                            (range 0 n))
                         C F H A M CAP [] []))
              small_demand 0 p
              (block ++ rest, mkInstance n p (repeat [] n) C F H A M CAP [] []))
    as [st [Hrun Hst]].
  - lia.
  - rewrite range_nil. cbn [map skipn]. rewrite map_const_range. reflexivity.
  - intros t st0 Ht ->. eexists. split; [|reflexivity].
    unfold small_demand. rewrite (read_floats_block block rest dv t Hp) by lia.
    cbn [bind nI nP d c f h a m cap dcum max_prod].
    rewrite (append_column n (fun j => map (fun t' => at2 dv t' j) (range 0 t))
               (fun j => at2 dv t j))
      by (intros i Hi; apply (get_field dv t i n Hall); lia).
    cbn [bind]. do 3 f_equal. apply map_ext. intros j.
    rewrite (range_snoc 0 t) by lia. rewrite map_app. reflexivity.
  - etransitivity; [exact Hrun|]. rewrite Hst.
    replace p with (length block) at 1 by lia.
    rewrite skipn_block. reflexivity.
Qed.

Lemma read_header_nat (n p : nat) (rest : File) :
  read_header ([tok_int (Z.of_nat n); tok_int (Z.of_nat p)] :: rest)
  = Some (n, p, rest).
Proof. unfold read_header. cbn. rewrite !Nat2Z.id. reflexivity. Qed.

Lemma readSmallInstances_spec (n p : nat) (capline : list Token)
  (items demands rest : File) (capv : list Q) (iv dv : list (list Q)) :
  mapT py_float capline = Some capv ->
  parse_lines items = Some iv -> length iv = n ->
  Forall (fun r => 4 <= length r) iv ->
  parse_lines demands = Some dv -> length dv = p ->
  Forall (fun r => n <= length r) dv ->
  readSmallInstances
    ([tok_int (Z.of_nat n); tok_int (Z.of_nat p)] :: capline
       :: items ++ demands ++ rest)
  = Some (mkInstance n p
            (map (fun j => map (fun t => at2 dv t j) (range 0 p)) (range 0 n))
            (repeat (repeat 0%Q p) n)
            (map (fun j => repeat (at2 iv j 3) p) (range 0 n))
            (map (fun j => repeat (at2 iv j 1) p) (range 0 n))
            (repeat (repeat 1%Q p) n)
            (map (fun j => repeat (at2 iv j 2) p) (range 0 n))
            (concat (repeat capv p)) [] []).
Proof.
  intros Hcap Hi Hil Hia Hd Hdl Hda.
  unfold readSmallInstances. rewrite read_header_nat. cbn [bind].
  unfold read_floats at 1. cbn [readline]. rewrite Hcap. cbn [bind].
  rewrite (small_items_loop n p items (demands ++ rest) iv [] _ Hi Hil Hia).
  cbn [bind c f h a m cap dcum max_prod].
  rewrite (small_demands_loop n p demands rest dv _ _ _ _ _ _ Hd Hdl Hda).
  reflexivity.
Qed.

Lemma shape_rows_repeat (g : nat -> Q) (n p : nat) :
  shape n p (map (fun j => repeat (g j) p) (range 0 n)).
Proof.
  split.
  - rewrite length_map, length_range. lia.
  - apply Forall_forall. intros row H. apply in_map_iff in H.
    destruct H as [j [<- _]]. apply repeat_length.
Qed.

Lemma length_concat_repeat {A : Type} (l : list A) (n : nat) :
  length (concat (repeat l n)) = n * length l.
Proof.
  induction n as [|n IH]; [reflexivity|].
  cbn [repeat concat]. rewrite length_app, IH. lia.
Qed.

Lemma at2_repeat (x : Q) (n p j t : nat) :
  j < n -> t < p -> at2 (repeat (repeat x p) n) j t = x.
Proof.
  intros Hj Ht. unfold at2.
  rewrite nth_repeat_lt by exact Hj. apply nth_repeat_lt. exact Ht.
Qed.

(** The constructor keeps what the reader has read. *)
Lemma Instance_init_frame (large : bool) (raw inp : Instance) :
  Instance_init large raw = Some inp ->
  nI inp = nI raw /\ nP inp = nP raw /\ d inp = d raw /\ c inp = c raw /\
  f inp = f raw /\ h inp = h raw /\ a inp = a raw /\ m inp = m raw /\
  cap inp = cap raw.
Proof.
  intros H. unfold Instance_init in H. inv_bind H. inv_bind H. inv_bind H.
  inversion H; subst; clear H. repeat split.
Qed.

(** X23. [readSmallInstances] on a file with the layout it expects: a line
    with the two counts, a line of capacities, one line of at least four
    numbers per item and one line of at least [nI] numbers per period. The
    first number of an item line is dropped and every [a[j][t]] is 1.0;
    the next three numbers are the holding cost, the setup time and the
    setup cost of the item in every period; [c] is 0; the demand line of
    period [t] gives [d[j][t]] for every item; and [cap] is the capacity
    line repeated [nP] times, so it has [nP] entries only if that line has
    one number. What follows in the file is not read. *)
Theorem readSmallInstances_exact (n p : nat) (capline : list Token)
  (items demands rest : File) (capv : list Q) (iv dv : list (list Q)) :
  mapT py_float capline = Some capv ->
  parse_lines items = Some iv -> length iv = n ->
  Forall (fun r => 4 <= length r) iv ->
  parse_lines demands = Some dv -> length dv = p ->
  Forall (fun r => n <= length r) dv ->
  readSmallInstances
    ([tok_int (Z.of_nat n); tok_int (Z.of_nat p)] :: capline
       :: items ++ demands ++ rest)
  = Some (mkInstance n p
            (map (fun j => map (fun t => at2 dv t j) (range 0 p)) (range 0 n))
            (repeat (repeat 0%Q p) n)
            (map (fun j => repeat (at2 iv j 3) p) (range 0 n))
            (map (fun j => repeat (at2 iv j 1) p) (range 0 n))
            (repeat (repeat 1%Q p) n)
            (map (fun j => repeat (at2 iv j 2) p) (range 0 n))
            (concat (repeat capv p)) [] []).
Proof. apply readSmallInstances_spec. Qed.

Lemma readSmallInstances_exact_witness :
  readSmallInstances
    ([tok_int (Z.of_nat 1); tok_int (Z.of_nat 2)] :: [tok_int 10]
       :: [[tok_int 3; tok_int 1; tok_int 0; tok_int 10]]
          ++ [[tok_int 5]; [tok_float (5 # 1)]] ++ [])
  = Some (mkInstance 1 2
            (map (fun j => map (fun t => at2 [[5]; [5]]%Q t j) (range 0 2)) (range 0 1))
            (repeat (repeat 0%Q 2) 1)
            (map (fun j => repeat (at2 [[3; 1; 0; 10]]%Q j 3) 2) (range 0 1))
            (map (fun j => repeat (at2 [[3; 1; 0; 10]]%Q j 1) 2) (range 0 1))
            (repeat (repeat 1%Q 2) 1)
            (map (fun j => repeat (at2 [[3; 1; 0; 10]]%Q j 2) 2) (range 0 1))
            (concat (repeat [10]%Q 2)) [] []).
Proof.
  apply (readSmallInstances_exact 1 2 [tok_int 10]
           [[tok_int 3; tok_int 1; tok_int 0; tok_int 10]]
           [[tok_int 5]; [tok_float (5 # 1)]] [] [10]%Q [[3; 1; 0; 10]]%Q
           [[5]; [5]]%Q).
  - reflexivity.
  - reflexivity.
  - reflexivity.
  - repeat constructor.
  - reflexivity.
  - reflexivity.
  - repeat constructor.
Defined.

(** X24. A small file with the expected layout, one capacity and at least one
    period always gives an instance: the constructor cannot divide by zero
    because the reader has set every [a[j][t]] to 1.0. The instance has
    the shapes that the rest of the program relies on. *)
Theorem Instance_new_small (n p : nat) (capline : list Token)
  (items demands rest : File) (capv : list Q) (iv dv : list (list Q)) :
  mapT py_float capline = Some capv -> length capv = 1 ->
  parse_lines items = Some iv -> length iv = n ->
  Forall (fun r => 4 <= length r) iv ->
  parse_lines demands = Some dv -> length dv = p ->
  Forall (fun r => n <= length r) dv ->
  1 <= p ->
  exists inp,
    Instance_new false
      ([tok_int (Z.of_nat n); tok_int (Z.of_nat p)] :: capline
         :: items ++ demands ++ rest) = Some inp /\
    wf_instance inp /\ nI inp = n /\ nP inp = p /\
    (forall j t, j < n -> t < p ->
       at2 (a inp) j t = 1%Q /\ at2 (d inp) j t = at2 dv t j /\
       at1 (cap inp) t = at1 capv 0).
Proof.
  intros Hcap Hc1 Hi Hil Hia Hd Hdl Hda Hp.
  unfold Instance_new.
  rewrite (readSmallInstances_spec n p capline items demands rest capv iv dv)
    by assumption.
  cbn [bind].
  set (raw := mkInstance n p
                (map (fun j => map (fun t => at2 dv t j) (range 0 p)) (range 0 n))
                (repeat (repeat 0%Q p) n)
                (map (fun j => repeat (at2 iv j 3) p) (range 0 n))
                (map (fun j => repeat (at2 iv j 1) p) (range 0 n))
                (repeat (repeat 1%Q p) n)
                (map (fun j => repeat (at2 iv j 2) p) (range 0 n))
                (concat (repeat capv p)) [] []).
  assert (Hwf : wf_instance raw).
  { constructor; cbn [raw nI nP d c f h a m cap].
    - apply shape_map_range.
    - apply shape_rows_repeat.
    - apply shape_rows_repeat.
    - apply shape_repeat.
    - apply shape_rows_repeat.
    - rewrite length_concat_repeat. lia. }
  assert (Ha : forall j t, j < nI raw -> t < nP raw -> ~ (at2 (a raw) j t == 0)%Q).
  { intros j t Hj Ht. cbn [raw a nI nP] in *. rewrite at2_repeat by assumption.
    discriminate. }
  destruct (Instance_init_spec false raw Hwf Hp Ha)
    as [inp [rows [Hinit [HnI [HnP [Hdd [Hrows [Hshape Hvals]]]]]]]].
  destruct (Instance_init_frame false raw inp Hinit)
    as [_ [_ [_ [Hcc [Hff [Hhh [Haa [Hmm Hcp]]]]]]]].
  exists inp. split; [exact Hinit|].
  split.
  { destruct Hwf as [W1 W2 W3 W4 W5 W6].
    constructor; rewrite ?HnI, ?HnP, ?Hdd, ?Hff, ?Hhh, ?Haa, ?Hmm, ?Hcp; assumption. }
  split; [exact HnI|]. split; [exact HnP|].
  intros j t Hj Ht. rewrite Haa, Hdd, Hcp. cbn [raw a d cap].
  split; [apply at2_repeat; assumption|].
  split; [apply (at2_map_range (fun j0 t0 => at2 dv t0 j0)); assumption|].
  destruct capv as [|v [|? ?]]; try discriminate Hc1.
  unfold at1. cbn [nth].
  clear - Ht. revert t Ht. induction p as [|p IH]; intros t Ht; [lia|].
  cbn [repeat concat app]. destruct t as [|t]; [reflexivity|].
  cbn [nth]. apply IH. lia.
Qed.

Lemma Instance_new_small_witness :
  exists inp,
    Instance_new false
      ([tok_int (Z.of_nat 1); tok_int (Z.of_nat 2)] :: [tok_int 10]
         :: [[tok_int 3; tok_int 1; tok_int 0; tok_int 10]]
            ++ [[tok_int 5]; [tok_float (5 # 1)]] ++ []) = Some inp /\
    wf_instance inp /\ nI inp = 1 /\ nP inp = 2 /\
    (forall j t, j < 1 -> t < 2 ->
       at2 (a inp) j t = 1%Q /\ at2 (d inp) j t = at2 [[5]; [5]]%Q t j /\
       at1 (cap inp) t = at1 [10]%Q 0).
Proof.
  apply (Instance_new_small 1 2 [tok_int 10]
           [[tok_int 3; tok_int 1; tok_int 0; tok_int 10]]
           [[tok_int 5]; [tok_float (5 # 1)]] [] [10]%Q [[3; 1; 0; 10]]%Q
           [[5]; [5]]%Q).
  - reflexivity.
  - reflexivity.
  - reflexivity.
  - reflexivity.
  - repeat constructor.
  - reflexivity.
  - reflexivity.
  - repeat constructor.
  - lia.
Defined.

(** A loop that reads one line of a block per pass. *)
Lemma line_loop (n : nat) (body : nat -> File * Instance -> option (File * Instance))
  (St : nat -> Instance) (block rest : File) :
  length block = n ->
  (forall i, i < n ->
     body i (skipn i block ++ rest, St i)
     = Some (skipn (S i) block ++ rest, St (S i))) ->
  forM (range 0 n) body (block ++ rest, St 0) = Some (rest, St n).
Proof.
  intros Hlen Hstep.
  destruct (forM_range_inv (fun i st => st = (skipn i block ++ rest, St i))
              body 0 n (block ++ rest, St 0)) as [st [Hrun Hst]].
  - lia.
  - reflexivity.
  - intros i st0 Hi ->. eexists. split; [apply Hstep; lia | reflexivity].
  - etransitivity; [exact Hrun|]. rewrite Hst. rewrite <- Hlen at 1.
    rewrite skipn_block. reflexivity.
Qed.

Lemma parse_length (block : File) (bv : list (list Q)) :
  parse_lines block = Some bv -> length block = length bv.
Proof.
  intros Hp. destruct (mapT_nth (mapT py_float) [] [] block bv Hp) as [Hlen _].
  symmetry. exact Hlen.
Qed.

Lemma rows_snoc (g : nat -> Q) (p i : nat) :
  map (fun j => repeat (g j) p) (range 0 (S i))
  = map (fun j => repeat (g j) p) (range 0 i) ++ [repeat (g i) p].
Proof. rewrite range_snoc by lia. rewrite map_app. reflexivity. Qed.

(** The demand lines of a large file, item by item and period by period. *)
Lemma large_demands_loop (n p : nat) (block rest : File) (dmv C F H A M : list (list Q))
  (CAP : list Q) :
  parse_lines block = Some dmv -> length dmv = n * p ->
  Forall (fun r => 3 <= length r) dmv ->
  forM (range 0 n) (fun i => forM (range 0 p) (large_demand i))
    (block ++ rest, mkInstance n p (repeat [] n) C F H A M CAP [] [])
  = Some (rest,
          mkInstance n p
            (map (fun j => map (fun t => at2 dmv (j * p + t) 2) (range 0 p))
               (range 0 n))
            C F H A M CAP [] []).
Proof.
  intros Hp Hlen Hall.
  pose proof (parse_length block dmv Hp) as Hlb.
  pose (bound := fun i t j => if j <? i then p else if j =? i then t else 0).
  destruct (forM2_inv
              (fun i t st =>
                 st = (skipn (i * p + t) block ++ rest,
                       mkInstance n p
                         (map (fun j => map (fun t' => at2 dmv (j * p + t') 2)
                                          (range 0 (bound i t j)))
                            (range 0 n))
                         C F H A M CAP [] []))
              large_demand n p
              (block ++ rest, mkInstance n p (repeat [] n) C F H A M CAP [] []))
    as [st [Hrun Hst]].
  - cbn [Nat.mul Nat.add skipn]. do 2 f_equal.
    rewrite <- map_const_range. apply map_ext. intros j. unfold bound.
    cbn [Nat.ltb Nat.leb]. destruct (j =? 0); rewrite range_nil; reflexivity.
  - intros i t st0 Hi Ht ->. eexists. split; [|reflexivity].
    assert (Hidx : i * p + t < n * p) by nia.
    unfold large_demand.
    rewrite (read_floats_block block rest dmv (i * p + t) Hp) by lia.
    cbn [bind]. rewrite (get_field dmv (i * p + t) 2 3 Hall) by lia.
    cbn [bind nI nP d c f h a m cap dcum max_prod].
    rewrite (append_at_map n i _
               (fun j => map (fun t' => at2 dmv (j * p + t') 2)
                           (range 0 (bound i (S t) j)))).
    + cbn [bind]. replace (i * p + S t) with (S (i * p + t)) by lia. reflexivity.
    + exact Hi.
    + intros j Hj Hne. unfold bound. destruct (j <? i); [reflexivity|].
      replace (j =? i) with false; [reflexivity|].
      symmetry. apply Nat.eqb_neq. exact Hne.
    + unfold bound. rewrite Nat.ltb_irrefl, Nat.eqb_refl.
      rewrite (range_snoc 0 t) by lia. rewrite map_app. reflexivity.
  - intros i st0 Hi ->. replace (S i * p + 0) with (i * p + p) by lia.
    do 2 f_equal. apply map_ext_in. intros j Hj. unfold bound.
    destruct (j <? i) eqn:E1.
    + apply Nat.ltb_lt in E1. replace (j <? S i) with true; [reflexivity|].
      symmetry. apply Nat.ltb_lt. lia.
    + apply Nat.ltb_ge in E1. destruct (j =? i) eqn:E2.
      * apply Nat.eqb_eq in E2. replace (j <? S i) with true; [reflexivity|].
        symmetry. apply Nat.ltb_lt. lia.
      * apply Nat.eqb_neq in E2. replace (j <? S i) with false
          by (symmetry; apply Nat.ltb_ge; lia).
        destruct (j =? S i); reflexivity.
  - etransitivity; [exact Hrun|]. rewrite Hst.
    replace (n * p + 0) with (length block) by lia. rewrite skipn_block.
    assert (E : map (fun j => map (fun t' => at2 dmv (j * p + t') 2)
                                (range 0 (bound n 0 j))) (range 0 n)
                = map (fun j => map (fun t => at2 dmv (j * p + t) 2) (range 0 p))
                    (range 0 n)).
    { apply map_ext_in. intros j Hj. apply in_range in Hj.
      unfold bound. replace (j <? n) with true; [reflexivity|].
      symmetry. apply Nat.ltb_lt. lia. }
    rewrite E. reflexivity.
Qed.

(** The lines that are read and dropped. *)
Lemma skip_list (i t : nat) (self : Instance) (l : list nat) :
  forall ff : File,
    forM l (large_skip i t) (ff, self) = Some (skipn (length l) ff, self).
Proof.
  induction l as [|k l IH]; intros ff; [reflexivity|].
  cbn [forM length]. unfold large_skip at 1. destruct ff as [|line ff].
  - cbn [readline bind]. rewrite IH. rewrite !skipn_nil. reflexivity.
  - cbn [readline bind]. rewrite IH. reflexivity.
Qed.

Lemma skip_rows (i p : nat) (self : Instance) (l : list nat) :
  forall ff : File,
    forM l (fun t => forM (range t p) (large_skip i t)) (ff, self)
    = Some (skipn (length (flat_map (fun t => range t p) l)) ff, self).
Proof.
  induction l as [|t l IH]; intros ff; [reflexivity|].
  cbn [forM flat_map]. rewrite skip_list. cbn [bind]. rewrite IH.
  rewrite skipn_skipn, length_app.
  match goal with
  | |- Some (skipn ?x _, _) = Some (skipn ?y _, _) => replace x with y by lia
  end.
  reflexivity.
Qed.

Lemma skip_items (p : nat) (self : Instance) (l : list nat) :
  forall ff : File,
    forM l (fun i => forM (range 0 p)
                       (fun t => forM (range t p) (large_skip i t))) (ff, self)
    = Some (skipn (length l * length (flat_map (fun t => range t p) (range 0 p))) ff,
            self).
Proof.
  induction l as [|i l IH]; intros ff; [reflexivity|].
  cbn [forM length]. rewrite skip_rows. cbn [bind]. rewrite IH.
  rewrite skipn_skipn.
  match goal with
  | |- Some (skipn ?x _, _) = Some (skipn ?y _, _) => replace x with y by lia
  end.
  reflexivity.
Qed.

(** There are [p*(p+1)/2] pairs [t <= tp < p]. *)
Lemma tri_count (p k : nat) :
  k <= p ->
  2 * length (flat_map (fun t => range t p) (range 0 k)) + (p - k) * (p - k + 1)
  = p * (p + 1).
Proof.
  induction k as [|k IH]; intros Hk.
  - rewrite range_nil. cbn [flat_map length]. rewrite Nat.sub_0_r. lia.
  - rewrite range_snoc by lia. rewrite flat_map_app, length_app.
    cbn [flat_map]. rewrite app_nil_r, length_range.
    specialize (IH ltac:(lia)).
    replace (p - k) with (S (p - S k)) in * by lia. nia.
Qed.

Lemma skip_triples_spec (n p : nat) (self : Instance) (ff : File) :
  skip_triples n p (ff, self)
  = Some (skipn (n * length (flat_map (fun t => range t p) (range 0 p))) ff, self).
Proof.
  unfold skip_triples. rewrite skip_items, length_range, Nat.sub_0_r. reflexivity.
Qed.

Lemma skipn_twice (n p : nat) (skipped rest : File) :
  length skipped = n * (p * (p + 1)) ->
  skipn (n * length (flat_map (fun t => range t p) (range 0 p)))
    (skipn (n * length (flat_map (fun t => range t p) (range 0 p)))
       (skipped ++ rest))
  = rest.
Proof.
  intros Hlen. rewrite skipn_skipn.
  pose proof (tri_count p p (Nat.le_refl p)) as Hc.
  rewrite Nat.sub_diag in Hc.
  replace (n * length (flat_map (fun t => range t p) (range 0 p))
           + n * length (flat_map (fun t => range t p) (range 0 p)))
    with (length skipped) by nia.
  rewrite skipn_app, skipn_all, Nat.sub_diag. reflexivity.
Qed.

Lemma readLargeInstances_spec (n p : nat)
  (setups holdings demands skipped usages caps rest : File)
  (sv hv dmv uv cv : list (list Q)) :
  parse_lines setups = Some sv -> length sv = n ->
  Forall (fun r => 2 <= length r) sv ->
  parse_lines holdings = Some hv -> length hv = n ->
  Forall (fun r => 2 <= length r) hv ->
  parse_lines demands = Some dmv -> length dmv = n * p ->
  Forall (fun r => 3 <= length r) dmv ->
  length skipped = n * (p * (p + 1)) ->
  parse_lines usages = Some uv -> length uv = n ->
  Forall (fun r => 2 <= length r) uv ->
  parse_lines caps = Some cv -> length cv = p ->
  Forall (fun r => 2 <= length r) cv ->
  readLargeInstances
    ([tok_int (Z.of_nat n); tok_int (Z.of_nat p)]
       :: setups ++ holdings ++ demands ++ skipped ++ usages ++ caps ++ rest)
  = Some (mkInstance n p
            (map (fun j => map (fun t => at2 dmv (j * p + t) 2) (range 0 p))
               (range 0 n))
            (repeat (repeat 0%Q p) n)
            (map (fun j => repeat (at2 sv j 1) p) (range 0 n))
            (map (fun j => repeat (at2 hv j 1) p) (range 0 n))
            (map (fun j => repeat (at2 uv j 1) p) (range 0 n))
            (repeat (repeat 0%Q p) n)
            (map (fun t => at2 cv t 1) (range 0 p)) [] []).
Proof.
  intros Hs Hsl Hsa Hh Hhl Hha Hd Hdl Hda Hk Hu Hul Hua Hc Hcl Hca.
  unfold readLargeInstances. rewrite read_header_nat. cbn [bind].
  rewrite (line_loop n large_setup
             (fun i => mkInstance n p (repeat [] n) []
                         (map (fun j => repeat (at2 sv j 1) p) (range 0 i))
                         [] [] [] [] [] [])
             setups).
  2: { rewrite (parse_length setups sv Hs). exact Hsl. }
  2: { intros i Hi. unfold large_setup.
       rewrite (read_floats_block setups _ sv i Hs) by lia. cbn [bind].
       rewrite (get_field sv i 1 2 Hsa) by lia.
       cbn [bind nI nP d c f h a m cap dcum max_prod]. rewrite rows_snoc.
       reflexivity. }
  cbn [bind].
  rewrite (line_loop n large_holding
             (fun i => mkInstance n p (repeat [] n) []
                         (map (fun j => repeat (at2 sv j 1) p) (range 0 n))
                         (map (fun j => repeat (at2 hv j 1) p) (range 0 i))
                         [] [] [] [] [])
             holdings).
  2: { rewrite (parse_length holdings hv Hh). exact Hhl. }
  2: { intros i Hi. unfold large_holding.
       rewrite (read_floats_block holdings _ hv i Hh) by lia. cbn [bind].
       rewrite (get_field hv i 1 2 Hha) by lia.
       cbn [bind nI nP d c f h a m cap dcum max_prod]. rewrite rows_snoc.
       reflexivity. }
  cbn [bind].
  rewrite (large_demands_loop n p demands _ dmv _ _ _ _ _ _ Hd Hdl Hda).
  cbn [bind]. rewrite skip_triples_spec. cbn [bind].
  rewrite skip_triples_spec. cbn [bind]. rewrite (skipn_twice n p skipped _ Hk).
  rewrite (line_loop n large_usage
             (fun i => mkInstance n p
                         (map (fun j => map (fun t => at2 dmv (j * p + t) 2)
                                          (range 0 p)) (range 0 n))
                         (repeat (repeat 0%Q p) i)
                         (map (fun j => repeat (at2 sv j 1) p) (range 0 n))
                         (map (fun j => repeat (at2 hv j 1) p) (range 0 n))
                         (map (fun j => repeat (at2 uv j 1) p) (range 0 i))
                         (repeat (repeat 0%Q p) i)
                         [] [] [])
             usages).
  2: { rewrite (parse_length usages uv Hu). exact Hul. }
  2: { intros i Hi. unfold large_usage.
       rewrite (read_floats_block usages _ uv i Hu) by lia. cbn [bind].
       rewrite (get_field uv i 1 2 Hua) by lia.
       cbn [bind nI nP d c f h a m cap dcum max_prod].
       rewrite rows_snoc, !repeat_snoc. reflexivity. }
  cbn [bind].
  rewrite (line_loop p large_cap
             (fun t => mkInstance n p
                         (map (fun j => map (fun t' => at2 dmv (j * p + t') 2)
                                          (range 0 p)) (range 0 n))
                         (repeat (repeat 0%Q p) n)
                         (map (fun j => repeat (at2 sv j 1) p) (range 0 n))
                         (map (fun j => repeat (at2 hv j 1) p) (range 0 n))
                         (map (fun j => repeat (at2 uv j 1) p) (range 0 n))
                         (repeat (repeat 0%Q p) n)
                         (map (fun t' => at2 cv t' 1) (range 0 t)) [] [])
             caps).
  2: { rewrite (parse_length caps cv Hc). exact Hcl. }
  2: { intros t Ht. unfold large_cap.
       rewrite (read_floats_block caps _ cv t Hc) by lia. cbn [bind].
       rewrite (get_field cv t 1 2 Hca) by lia.
       cbn [bind nI nP d c f h a m cap dcum max_prod].
       rewrite (range_snoc 0 t) by lia. rewrite map_app. reflexivity. }
  reflexivity.
Qed.

(** X25. [readLargeInstances] on a file with the layout it expects: the two
    counts; [nI] lines whose second number is the setup cost of the item;
    [nI] lines whose second number is its holding cost; [nI*nP] lines,
    item by item, whose third number is the demand; [nI*nP*(nP+1)] lines
    that are read and not looked at; [nI] lines whose second number is the
    resource usage of the item; [nP] lines whose second number is the
    capacity of the period. Setup times and [c] are 0, [dcum] is left
    empty, and what follows in the file is not read. *)
Theorem readLargeInstances_exact (n p : nat)
  (setups holdings demands skipped usages caps rest : File)
  (sv hv dmv uv cv : list (list Q)) :
  parse_lines setups = Some sv -> length sv = n ->
  Forall (fun r => 2 <= length r) sv ->
  parse_lines holdings = Some hv -> length hv = n ->
  Forall (fun r => 2 <= length r) hv ->
  parse_lines demands = Some dmv -> length dmv = n * p ->
  Forall (fun r => 3 <= length r) dmv ->
  length skipped = n * (p * (p + 1)) ->
  parse_lines usages = Some uv -> length uv = n ->
  Forall (fun r => 2 <= length r) uv ->
  parse_lines caps = Some cv -> length cv = p ->
  Forall (fun r => 2 <= length r) cv ->
  readLargeInstances
    ([tok_int (Z.of_nat n); tok_int (Z.of_nat p)]
       :: setups ++ holdings ++ demands ++ skipped ++ usages ++ caps ++ rest)
  = Some (mkInstance n p
            (map (fun j => map (fun t => at2 dmv (j * p + t) 2) (range 0 p))
               (range 0 n))
            (repeat (repeat 0%Q p) n)
            (map (fun j => repeat (at2 sv j 1) p) (range 0 n))
            (map (fun j => repeat (at2 hv j 1) p) (range 0 n))
            (map (fun j => repeat (at2 uv j 1) p) (range 0 n))
            (repeat (repeat 0%Q p) n)
            (map (fun t => at2 cv t 1) (range 0 p)) [] []).
Proof. apply readLargeInstances_spec. Qed.

Lemma readLargeInstances_exact_witness :
  readLargeInstances
    ([tok_int (Z.of_nat 1); tok_int (Z.of_nat 2)]
       :: [[tok_int 1; tok_int 10]] ++ [[tok_int 1; tok_int 1]]
          ++ [[tok_int 1; tok_int 1; tok_int 5]; [tok_int 1; tok_int 2; tok_int 5]]
          ++ [[tok_other]; [tok_other]; [tok_other]; [tok_other]; [tok_other]; []]
          ++ [[tok_int 1; tok_int 1]]
          ++ [[tok_int 1; tok_int 10]; [tok_int 2; tok_int 10]] ++ [])
  = Some (mkInstance 1 2
            (map (fun j => map (fun t => at2 [[1; 1; 5]; [1; 2; 5]]%Q (j * 2 + t) 2)
                             (range 0 2)) (range 0 1))
            (repeat (repeat 0%Q 2) 1)
            (map (fun j => repeat (at2 [[1; 10]]%Q j 1) 2) (range 0 1))
            (map (fun j => repeat (at2 [[1; 1]]%Q j 1) 2) (range 0 1))
            (map (fun j => repeat (at2 [[1; 1]]%Q j 1) 2) (range 0 1))
            (repeat (repeat 0%Q 2) 1)
            (map (fun t => at2 [[1; 10]; [2; 10]]%Q t 1) (range 0 2)) [] []).
Proof.
  apply (readLargeInstances_exact 1 2 [[tok_int 1; tok_int 10]]
           [[tok_int 1; tok_int 1]]
           [[tok_int 1; tok_int 1; tok_int 5]; [tok_int 1; tok_int 2; tok_int 5]]
           [[tok_other]; [tok_other]; [tok_other]; [tok_other]; [tok_other]; []]
           [[tok_int 1; tok_int 1]]
           [[tok_int 1; tok_int 10]; [tok_int 2; tok_int 10]] []
           [[1; 10]]%Q [[1; 1]]%Q [[1; 1; 5]; [1; 2; 5]]%Q [[1; 1]]%Q
           [[1; 10]; [2; 10]]%Q);
    try reflexivity; repeat constructor.
Defined.

(** X26. A large file with the expected layout, at least one period and no
    resource usage equal to zero always gives an instance, with the shapes
    that the rest of the program relies on and without setup times. *)
Theorem Instance_new_large (n p : nat)
  (setups holdings demands skipped usages caps rest : File)
  (sv hv dmv uv cv : list (list Q)) :
  parse_lines setups = Some sv -> length sv = n ->
  Forall (fun r => 2 <= length r) sv ->
  parse_lines holdings = Some hv -> length hv = n ->
  Forall (fun r => 2 <= length r) hv ->
  parse_lines demands = Some dmv -> length dmv = n * p ->
  Forall (fun r => 3 <= length r) dmv ->
  length skipped = n * (p * (p + 1)) ->
  parse_lines usages = Some uv -> length uv = n ->
  Forall (fun r => 2 <= length r) uv ->
  parse_lines caps = Some cv -> length cv = p ->
  Forall (fun r => 2 <= length r) cv ->
  1 <= p ->
  (forall j, j < n -> ~ (at2 uv j 1 == 0)%Q) ->
  exists inp,
    Instance_new true
      ([tok_int (Z.of_nat n); tok_int (Z.of_nat p)]
         :: setups ++ holdings ++ demands ++ skipped ++ usages ++ caps ++ rest)
    = Some inp /\
    wf_instance inp /\ nI inp = n /\ nP inp = p /\
    (forall j t, j < n -> t < p ->
       at2 (m inp) j t = 0%Q /\ at2 (a inp) j t = at2 uv j 1 /\
       at2 (d inp) j t = at2 dmv (j * p + t) 2 /\ at1 (cap inp) t = at2 cv t 1).
Proof.
  intros Hs Hsl Hsa Hh Hhl Hha Hd Hdl Hda Hk Hu Hul Hua Hc Hcl Hca Hp Hnz.
  unfold Instance_new.
  rewrite (readLargeInstances_spec n p setups holdings demands skipped usages caps
             rest sv hv dmv uv cv) by assumption.
  cbn [bind].
  set (raw := mkInstance n p
                (map (fun j => map (fun t => at2 dmv (j * p + t) 2) (range 0 p))
                   (range 0 n))
                (repeat (repeat 0%Q p) n)
                (map (fun j => repeat (at2 sv j 1) p) (range 0 n))
                (map (fun j => repeat (at2 hv j 1) p) (range 0 n))
                (map (fun j => repeat (at2 uv j 1) p) (range 0 n))
                (repeat (repeat 0%Q p) n)
                (map (fun t => at2 cv t 1) (range 0 p)) [] []).
  assert (Hwf : wf_instance raw).
  { constructor; cbn [raw nI nP d c f h a m cap].
    - apply shape_map_range.
    - apply shape_rows_repeat.
    - apply shape_rows_repeat.
    - apply shape_rows_repeat.
    - apply shape_repeat.
    - rewrite length_map, length_range. lia. }
  assert (Hrow : forall (g : nat -> Q) j t, j < n -> t < p ->
            at2 (map (fun j0 => repeat (g j0) p) (range 0 n)) j t = g j).
  { intros g j t Hj Ht. unfold at2.
    rewrite (nth_map_range (fun j0 => repeat (g j0) p) 0 n j []) by lia.
    cbn [Nat.add]. apply nth_repeat_lt. exact Ht. }
  assert (Ha : forall j t, j < nI raw -> t < nP raw -> ~ (at2 (a raw) j t == 0)%Q).
  { intros j t Hj Ht. cbn [raw a nI nP] in *. rewrite Hrow by assumption.
    apply Hnz. exact Hj. }
  destruct (Instance_init_spec true raw Hwf Hp Ha)
    as [inp [rows [Hinit [HnI [HnP [Hdd _]]]]]].
  destruct (Instance_init_frame true raw inp Hinit)
    as [_ [_ [_ [Hcc [Hff [Hhh [Haa [Hmm Hcp]]]]]]]].
  exists inp. split; [exact Hinit|].
  split.
  { destruct Hwf as [W1 W2 W3 W4 W5 W6].
    constructor; rewrite ?HnI, ?HnP, ?Hdd, ?Hff, ?Hhh, ?Haa, ?Hmm, ?Hcp; assumption. }
  split; [exact HnI|]. split; [exact HnP|].
  intros j t Hj Ht. rewrite Hmm, Haa, Hdd, Hcp. cbn [raw a d m cap].
  split; [apply at2_repeat; assumption|].
  split; [apply (Hrow (fun j0 => at2 uv j0 1)); assumption|].
  split; [apply (at2_map_range (fun j0 t0 => at2 dmv (j0 * p + t0) 2)); assumption|].
  unfold at1. rewrite (nth_map_range (fun t0 => at2 cv t0 1) 0 p t 0%Q) by lia.
  reflexivity.
Qed.

Lemma Instance_new_large_witness :
  exists inp,
    Instance_new true
      ([tok_int (Z.of_nat 1); tok_int (Z.of_nat 2)]
         :: [[tok_int 1; tok_int 10]] ++ [[tok_int 1; tok_int 1]]
            ++ [[tok_int 1; tok_int 1; tok_int 5]; [tok_int 1; tok_int 2; tok_int 5]]
            ++ [[tok_other]; [tok_other]; [tok_other]; [tok_other]; [tok_other]; []]
            ++ [[tok_int 1; tok_int 1]]
            ++ [[tok_int 1; tok_int 10]; [tok_int 2; tok_int 10]] ++ [])
    = Some inp /\
    wf_instance inp /\ nI inp = 1 /\ nP inp = 2 /\
    (forall j t, j < 1 -> t < 2 ->
       at2 (m inp) j t = 0%Q /\ at2 (a inp) j t = at2 [[1; 1]]%Q j 1 /\
       at2 (d inp) j t = at2 [[1; 1; 5]; [1; 2; 5]]%Q (j * 2 + t) 2 /\
       at1 (cap inp) t = at2 [[1; 10]; [2; 10]]%Q t 1).
Proof.
  apply (Instance_new_large 1 2 [[tok_int 1; tok_int 10]]
           [[tok_int 1; tok_int 1]]
           [[tok_int 1; tok_int 1; tok_int 5]; [tok_int 1; tok_int 2; tok_int 5]]
           [[tok_other]; [tok_other]; [tok_other]; [tok_other]; [tok_other]; []]
           [[tok_int 1; tok_int 1]]
           [[tok_int 1; tok_int 10]; [tok_int 2; tok_int 10]] []
           [[1; 10]]%Q [[1; 1]]%Q [[1; 1; 5]; [1; 2; 5]]%Q [[1; 1]]%Q
           [[1; 10]; [2; 10]]%Q);
    try reflexivity; try (repeat constructor; fail); try lia.
  intros j Hj. destruct j as [|j]; [|lia]. vm_compute. discriminate.
Defined.
